(** * parser-csr: the extraction-to-store pipeline of [main.py]

    A shallow embedding of the registry operations ([add_*]), of the
    service-center enrichment ([parse_service_center]) and of the persistence
    stage ([insert_data] and the [insert_*] functions), with the properties
    of the specification stated and proved over it.

    Python [str] values are kept as [string], that is as their UTF-8 bytes.
    Prefix tests, substring tests and splitting on an ASCII separator give
    the same answer on the bytes of well-formed UTF-8 text as on its code
    points, since UTF-8 is self-synchronising. *)

From Stdlib Require Import ZArith String Ascii List Bool Lia.
From stdpp Require Import base option list gmap strings fin_maps.

Open Scope string_scope.
Open Scope Z_scope.

(** ** Python string operations *)

Module Str.

(** [s.startswith(p)] *)
Definition startswith (p s : string) : bool := String.prefix p s.

(** [s[n:]] *)
Fixpoint drop (n : nat) (s : string) : string :=
  match n, s with
  | O, _ => s
  | S _, EmptyString => EmptyString
  | S k, String _ s' => drop k s'
  end.

(** [s[:n]] *)
Fixpoint take (n : nat) (s : string) : string :=
  match n, s with
  | O, _ => EmptyString
  | S _, EmptyString => EmptyString
  | S k, String c s' => String c (take k s')
  end.

(** [s.removeprefix(p)] *)
Definition removeprefix (p s : string) : string :=
  if startswith p s then drop (String.length p) s else s.

(** [s.endswith(p)] *)
Definition endswith (p s : string) : bool :=
  (String.length p <=? String.length s)%nat
  && String.eqb (drop (String.length s - String.length p) s) p.

(** [s.removesuffix(p)] *)
Definition removesuffix (p s : string) : string :=
  if endswith p s then take (String.length s - String.length p) s else s.

(** [sub in s] *)
Fixpoint contains (sub s : string) : bool :=
  startswith sub s
  || match s with
     | EmptyString => false
     | String _ s' => contains sub s'
     end.

(** Position of the leftmost occurrence of [sep] in [s], counted from [i]. *)
Fixpoint find_from (sep s : string) (i : nat) : option nat :=
  if startswith sep s then Some i
  else match s with
       | EmptyString => None
       | String _ s' => find_from sep s' (S i)
       end.

(** Position of the rightmost occurrence of [sep] in [s]; [best] is the
    rightmost one seen before position [i]. *)
Fixpoint rfind_from (sep s : string) (i : nat) (best : option nat)
  : option nat :=
  let best' := if startswith sep s then Some i else best in
  match s with
  | EmptyString => best'
  | String _ s' => rfind_from sep s' (S i) best'
  end.

(** [s.split(sep, 1)], for a non-empty [sep]. *)
Definition split1 (sep s : string) : list string :=
  match find_from sep s 0 with
  | None => [s]
  | Some i => [take i s; drop (i + String.length sep) s]
  end.

(** [s.rsplit(sep, 1)], for a non-empty [sep]. *)
Definition rsplit1 (sep s : string) : list string :=
  match rfind_from sep s 0 None with
  | None => [s]
  | Some i => [take i s; drop (i + String.length sep) s]
  end.

(** [s.split(sep)], for a non-empty [sep]: [skip] counts the bytes of a
    separator that has been recognised and is still to be passed over,
    [cur] is the piece being collected. *)
Fixpoint split_go (sep : string) (skip : nat) (cur s : string)
  : list string :=
  match s with
  | EmptyString => [cur]
  | String c s' =>
      match skip with
      | S k => split_go sep k cur s'
      | O =>
          if startswith sep s
          then cur :: split_go sep (String.length sep - 1) EmptyString s'
          else split_go sep 0 (cur ++ String c EmptyString) s'
      end
  end.

Definition split (sep s : string) : list string := split_go sep 0 "" s.

(** Number of bytes taken by a white-space character at the head of [s],
    [0] when [s] does not start with one.  These are the characters for
    which [str.isspace] holds: the ASCII ones and, in their UTF-8
    encoding, U+0085, U+00A0, U+1680, U+2000 to U+200A, U+2028, U+2029,
    U+202F, U+205F and U+3000. *)
Definition ws_width (s : string) : nat :=
  match s with
  | EmptyString => 0
  | String c0 s0 =>
      let b0 := N_of_ascii c0 in
      if ((9 <=? b0) && (b0 <=? 13) || (28 <=? b0) && (b0 <=? 32))%N then 1
      else
        match s0 with
        | EmptyString => 0
        | String c1 s1 =>
            let b1 := N_of_ascii c1 in
            if ((b0 =? 194) && ((b1 =? 133) || (b1 =? 160)))%N then 2
            else
              match s1 with
              | EmptyString => 0
              | String c2 _ =>
                  let b2 := N_of_ascii c2 in
                  if ((b0 =? 225) && (b1 =? 154) && (b2 =? 128)
                      || (b0 =? 226) && (b1 =? 128)
                         && ((128 <=? b2) && (b2 <=? 138)
                             || (b2 =? 168) || (b2 =? 169) || (b2 =? 175))
                      || (b0 =? 226) && (b1 =? 129) && (b2 =? 159)
                      || (b0 =? 227) && (b1 =? 128) && (b2 =? 128))%N
                  then 3 else 0
              end
        end
  end%nat.

Definition flush (cur : string) : list string :=
  match cur with EmptyString => [] | _ => [cur] end.

(** [s.split()]: the maximal runs of characters that are not white space. *)
Fixpoint split_ws_go (skip : nat) (cur s : string) : list string :=
  match s with
  | EmptyString => flush cur
  | String c s' =>
      match skip with
      | S k => split_ws_go k cur s'
      | O =>
          match ws_width s with
          | O => split_ws_go 0 (cur ++ String c EmptyString) s'
          | S k => flush cur ++ split_ws_go k EmptyString s'
          end
      end
  end.

Definition split_ws (s : string) : list string := split_ws_go 0 "" s.

(** [", ".join(l)] and the like. *)
Fixpoint join (sep : string) (l : list string) : string :=
  match l with
  | [] => ""
  | [x] => x
  | x :: l' => x ++ sep ++ join sep l'
  end.

(** Truth value of an optional string: [None] and [''] are false. *)
Definition truthy (o : option string) : bool :=
  match o with
  | Some (String _ _) => true
  | _ => false
  end.

End Str.

(** ** Exceptions and results *)

(** The Python exceptions the modelled code can raise.  [InvalidRef] has no
    Python counterpart: it marks the use of an object reference that the
    heap of the model does not hold, which no Python run can do. *)
Inductive exn : Type :=
| KeyError (key : string)
| ValueError
| IndexError
| AttributeError
| TypeError
| ProgrammingError
| OperationalError
| IntegrityError
| InvalidRef.

Inductive result (A : Type) : Type :=
| Ok (a : A)
| Raise (e : exn).
Arguments Ok {A} a.
Arguments Raise {A} e.

Global Instance result_ret : MRet result := fun _ a => Ok a.
Global Instance result_bind : MBind result := fun _ _ f r =>
  match r with
  | Ok a => f a
  | Raise e => Raise e
  end.
Global Instance result_fmap : FMap result := fun _ _ f r =>
  match r with
  | Ok a => Ok (f a)
  | Raise e => Raise e
  end.

(** [for x in l: ...] collecting one result per element; the first exception
    stops the loop. *)
Fixpoint mapR {A B} (f : A → result B) (l : list A) : result (list B) :=
  match l with
  | [] => Ok []
  | x :: l' => y ← f x; ys ← mapR f l'; Ok (y :: ys)
  end.

(** A nested comprehension [[e for x in l for y in ...]]. *)
Fixpoint concatMapR {A B} (f : A → result (list B)) (l : list A)
  : result (list B) :=
  match l with
  | [] => Ok []
  | x :: l' => ys ← f x; zs ← concatMapR f l'; Ok (ys ++ zs)%list
  end.

(** [d[k]] on a dictionary: [KeyError] when the key is absent. *)
Definition getitem {V} (d : gmap string V) (k : string) : result V :=
  match d !! k with
  | Some v => Ok v
  | None => Raise (KeyError k)
  end.

(** [t.index(x)] on a tuple of strings. *)
Fixpoint index_of (x : string) (t : list string) : result nat :=
  match t with
  | [] => Raise ValueError
  | y :: t' => if String.eqb x y then Ok O else S <$> index_of x t'
  end.

(** [l[0]] and [l[-1]]. *)
Definition first {A} (l : list A) : result A :=
  match l with
  | [] => Raise IndexError
  | x :: _ => Ok x
  end.

Definition last_item {A} (l : list A) : result A :=
  match List.rev l with
  | [] => Raise IndexError
  | x :: _ => Ok x
  end.

(** [a, b = l]: unpacking a list into two names. *)
Definition unpack2 {A} (l : list A) : result (A * A) :=
  match l with
  | [a; b] => Ok (a, b)
  | _ => Raise ValueError
  end.

(** ** Data model *)

(** What the code reads from a markup element. *)
Record ImgTag := {
  img_alt : option string;
  img_src : option string;
  img_data_src : option string;
}.

(** An anchor of a category: [get_text(strip=True)], [tag['href']] and
    [tag.find('img')]. *)
Record CategoryTag := {
  ct_text : string;
  ct_href : string;
  ct_img : option ImgTag;
}.

(** An element of which only [get_text(strip=True)] is read. *)
Record TextTag := { get_text : string }.

(** The page head as [add_location] sees it: the list of pairs that
    [re.findall] returns over [str(head_tag)], in page order. *)
Record HeadTag := { placemarks : list (string * string) }.

(** The dictionary built in [parse_category_page] for one card. *)
Record SCCard := {
  card_title : string;
  card_link : string;
  card_metros_tags : list TextTag;
  card_hours_tags : list TextTag;
  card_address_tag : option TextTag;
}.

(** A row of a price table: the two cells that [add_service] selects. *)
Record ServiceTag := {
  col_price_1 : option TextTag;
  col_price_2 : option TextTag;
}.

(** What the selectors of [parse_service_center] find on a detail page.
    [page_site_link] is [None] when the page has no site button, and
    otherwise holds group 1 of [re.search(r'url=(.+)%', href)], [None] when
    the pattern does not match. *)
Record DetailPage := {
  page_head : HeadTag;
  page_location_tags : list TextTag;
  page_feature_tags : list TextTag;
  page_advantage_tags : option (list TextTag);
  page_title : option TextTag;
  page_phone_href : option string;
  page_slogan : option TextTag;
  page_site_link : option (option string);
  page_description : option TextTag;
  page_logo_src : option string;
  page_gallery_imgs : list ImgTag;
}.

Inductive CategoryType := devices_t | brands_t.

Global Instance CategoryType_eq_dec : EqDecision CategoryType.
Proof. solve_decision. Defined.

Definition type_name (t : CategoryType) : string :=
  match t with devices_t => "devices" | brands_t => "brands" end.

Record Service := { service_title : string; service_price : string }.

(** A category dictionary; [cat_brands] and [cat_services] are the keys that
    only [category.update] adds, for a device. *)
Record Category := {
  cat_title : string;
  cat_slug : string;
  cat_type : CategoryType;
  cat_thumbnail_url : option string;
  cat_is_popular : bool;
  cat_brands : option (gset string);
  cat_services : option (list Service);
}.

Record Location := {
  loc_coords : option string;
  loc_metro : string;
  loc_address : string;
  loc_is_primary : bool;
}.

Record OpeningHour := {
  weekday_from : Z;
  weekday_to : Z;
  time_from : option string;
  time_to : option string;
}.

(** A service-center dictionary.  The keys that [add_service_center] does not
    create ([title], [phone], ...) are absent until the enrichment sets them:
    [None] stands for an absent key. *)
Record ServiceCenter := {
  sc_slug : string;
  sc_advantages : gset string;
  sc_brands : gset string;
  sc_devices : gset string;
  sc_features : gset string;
  sc_metros : gset string;
  sc_gallery : list string;
  sc_locations : list Location;
  sc_opening_hours : list OpeningHour;
  sc_primary_address : option string;
  sc_title : option string;
  sc_phone : option string;
  sc_slogan : option string;
  sc_site_url : option string;
  sc_description : option string;
  sc_logo : option string;
}.

(** References to dictionary objects: positions in the heaps below. *)
Definition cat_ref := nat.
Definition sc_ref := nat.

(** The module-level registries, the dictionary objects they and the local
    variables refer to, and the two effects of the transport that the code
    can observe: the requests sent and the files present under
    [./downloads]. *)
Record State := {
  advantages : gmap string string;
  brands : gmap string cat_ref;
  devices : gmap string cat_ref;
  features : gmap string string;
  metros : gmap string string;
  service_centers : gmap string sc_ref;
  cat_heap : list Category;
  sc_heap : list ServiceCenter;
  requests : list string;
  files : gset string;
}.

Definition initial_state : State :=
  {| advantages := ∅; brands := ∅; devices := ∅; features := ∅; metros := ∅;
     service_centers := ∅; cat_heap := []; sc_heap := [];
     requests := []; files := ∅ |}.

(** Field updates of [State]. *)
Definition with_advantages (f : gmap string string → gmap string string)
  (st : State) : State :=
  {| advantages := f (advantages st); brands := brands st;
     devices := devices st; features := features st; metros := metros st;
     service_centers := service_centers st; cat_heap := cat_heap st;
     sc_heap := sc_heap st; requests := requests st; files := files st |}.

Definition with_brands (f : gmap string cat_ref → gmap string cat_ref)
  (st : State) : State :=
  {| advantages := advantages st; brands := f (brands st);
     devices := devices st; features := features st; metros := metros st;
     service_centers := service_centers st; cat_heap := cat_heap st;
     sc_heap := sc_heap st; requests := requests st; files := files st |}.

Definition with_devices (f : gmap string cat_ref → gmap string cat_ref)
  (st : State) : State :=
  {| advantages := advantages st; brands := brands st;
     devices := f (devices st); features := features st; metros := metros st;
     service_centers := service_centers st; cat_heap := cat_heap st;
     sc_heap := sc_heap st; requests := requests st; files := files st |}.

Definition with_features (f : gmap string string → gmap string string)
  (st : State) : State :=
  {| advantages := advantages st; brands := brands st;
     devices := devices st; features := f (features st); metros := metros st;
     service_centers := service_centers st; cat_heap := cat_heap st;
     sc_heap := sc_heap st; requests := requests st; files := files st |}.

Definition with_metros (f : gmap string string → gmap string string)
  (st : State) : State :=
  {| advantages := advantages st; brands := brands st;
     devices := devices st; features := features st; metros := f (metros st);
     service_centers := service_centers st; cat_heap := cat_heap st;
     sc_heap := sc_heap st; requests := requests st; files := files st |}.

Definition with_service_centers
  (f : gmap string sc_ref → gmap string sc_ref) (st : State) : State :=
  {| advantages := advantages st; brands := brands st;
     devices := devices st; features := features st; metros := metros st;
     service_centers := f (service_centers st); cat_heap := cat_heap st;
     sc_heap := sc_heap st; requests := requests st; files := files st |}.

Definition with_cat_heap (f : list Category → list Category)
  (st : State) : State :=
  {| advantages := advantages st; brands := brands st;
     devices := devices st; features := features st; metros := metros st;
     service_centers := service_centers st; cat_heap := f (cat_heap st);
     sc_heap := sc_heap st; requests := requests st; files := files st |}.

Definition with_sc_heap (f : list ServiceCenter → list ServiceCenter)
  (st : State) : State :=
  {| advantages := advantages st; brands := brands st;
     devices := devices st; features := features st; metros := metros st;
     service_centers := service_centers st; cat_heap := cat_heap st;
     sc_heap := f (sc_heap st); requests := requests st; files := files st |}.

Definition with_requests (f : list string → list string)
  (st : State) : State :=
  {| advantages := advantages st; brands := brands st;
     devices := devices st; features := features st; metros := metros st;
     service_centers := service_centers st; cat_heap := cat_heap st;
     sc_heap := sc_heap st; requests := f (requests st); files := files st |}.

Definition with_files (f : gset string → gset string) (st : State) : State :=
  {| advantages := advantages st; brands := brands st;
     devices := devices st; features := features st; metros := metros st;
     service_centers := service_centers st; cat_heap := cat_heap st;
     sc_heap := sc_heap st; requests := requests st; files := f (files st) |}.

(** Field updates of the dictionaries. *)
Definition cat_set_is_popular (b : bool) (c : Category) : Category :=
  {| cat_title := cat_title c; cat_slug := cat_slug c; cat_type := cat_type c;
     cat_thumbnail_url := cat_thumbnail_url c; cat_is_popular := b;
     cat_brands := cat_brands c; cat_services := cat_services c |}.

Definition cat_set_thumbnail_url (u : option string) (c : Category)
  : Category :=
  {| cat_title := cat_title c; cat_slug := cat_slug c; cat_type := cat_type c;
     cat_thumbnail_url := u; cat_is_popular := cat_is_popular c;
     cat_brands := cat_brands c; cat_services := cat_services c |}.

Definition cat_set_brands (s : option (gset string)) (c : Category)
  : Category :=
  {| cat_title := cat_title c; cat_slug := cat_slug c; cat_type := cat_type c;
     cat_thumbnail_url := cat_thumbnail_url c;
     cat_is_popular := cat_is_popular c;
     cat_brands := s; cat_services := cat_services c |}.

Definition cat_set_services (l : option (list Service)) (c : Category)
  : Category :=
  {| cat_title := cat_title c; cat_slug := cat_slug c; cat_type := cat_type c;
     cat_thumbnail_url := cat_thumbnail_url c;
     cat_is_popular := cat_is_popular c;
     cat_brands := cat_brands c; cat_services := l |}.

(** The five relationship sets and the three lists of a service center. *)
Record SCSets := {
  s_advantages : gset string;
  s_brands : gset string;
  s_devices : gset string;
  s_features : gset string;
  s_metros : gset string;
}.

Definition sc_sets (sc : ServiceCenter) : SCSets :=
  {| s_advantages := sc_advantages sc; s_brands := sc_brands sc;
     s_devices := sc_devices sc; s_features := sc_features sc;
     s_metros := sc_metros sc |}.

(** The scalar keys of a service center. *)
Record SCScalars := {
  v_slug : string;
  v_primary_address : option string;
  v_title : option string;
  v_phone : option string;
  v_slogan : option string;
  v_site_url : option string;
  v_description : option string;
  v_logo : option string;
}.

Definition sc_scalars (sc : ServiceCenter) : SCScalars :=
  {| v_slug := sc_slug sc; v_primary_address := sc_primary_address sc;
     v_title := sc_title sc; v_phone := sc_phone sc;
     v_slogan := sc_slogan sc; v_site_url := sc_site_url sc;
     v_description := sc_description sc; v_logo := sc_logo sc |}.

Definition sc_with_sets (f : SCSets → SCSets) (sc : ServiceCenter)
  : ServiceCenter :=
  let s := f (sc_sets sc) in
  {| sc_slug := sc_slug sc;
     sc_advantages := s_advantages s; sc_brands := s_brands s;
     sc_devices := s_devices s; sc_features := s_features s;
     sc_metros := s_metros s;
     sc_gallery := sc_gallery sc; sc_locations := sc_locations sc;
     sc_opening_hours := sc_opening_hours sc;
     sc_primary_address := sc_primary_address sc;
     sc_title := sc_title sc; sc_phone := sc_phone sc;
     sc_slogan := sc_slogan sc; sc_site_url := sc_site_url sc;
     sc_description := sc_description sc; sc_logo := sc_logo sc |}.

Definition sc_with_scalars (f : SCScalars → SCScalars) (sc : ServiceCenter)
  : ServiceCenter :=
  let v := f (sc_scalars sc) in
  {| sc_slug := v_slug v;
     sc_advantages := sc_advantages sc; sc_brands := sc_brands sc;
     sc_devices := sc_devices sc; sc_features := sc_features sc;
     sc_metros := sc_metros sc;
     sc_gallery := sc_gallery sc; sc_locations := sc_locations sc;
     sc_opening_hours := sc_opening_hours sc;
     sc_primary_address := v_primary_address v;
     sc_title := v_title v; sc_phone := v_phone v;
     sc_slogan := v_slogan v; sc_site_url := v_site_url v;
     sc_description := v_description v; sc_logo := v_logo v |}.

Definition sc_with_gallery (f : list string → list string)
  (sc : ServiceCenter) : ServiceCenter :=
  {| sc_slug := sc_slug sc;
     sc_advantages := sc_advantages sc; sc_brands := sc_brands sc;
     sc_devices := sc_devices sc; sc_features := sc_features sc;
     sc_metros := sc_metros sc;
     sc_gallery := f (sc_gallery sc); sc_locations := sc_locations sc;
     sc_opening_hours := sc_opening_hours sc;
     sc_primary_address := sc_primary_address sc;
     sc_title := sc_title sc; sc_phone := sc_phone sc;
     sc_slogan := sc_slogan sc; sc_site_url := sc_site_url sc;
     sc_description := sc_description sc; sc_logo := sc_logo sc |}.

Definition sc_with_locations (f : list Location → list Location)
  (sc : ServiceCenter) : ServiceCenter :=
  {| sc_slug := sc_slug sc;
     sc_advantages := sc_advantages sc; sc_brands := sc_brands sc;
     sc_devices := sc_devices sc; sc_features := sc_features sc;
     sc_metros := sc_metros sc;
     sc_gallery := sc_gallery sc; sc_locations := f (sc_locations sc);
     sc_opening_hours := sc_opening_hours sc;
     sc_primary_address := sc_primary_address sc;
     sc_title := sc_title sc; sc_phone := sc_phone sc;
     sc_slogan := sc_slogan sc; sc_site_url := sc_site_url sc;
     sc_description := sc_description sc; sc_logo := sc_logo sc |}.

Definition sc_with_opening_hours (f : list OpeningHour → list OpeningHour)
  (sc : ServiceCenter) : ServiceCenter :=
  {| sc_slug := sc_slug sc;
     sc_advantages := sc_advantages sc; sc_brands := sc_brands sc;
     sc_devices := sc_devices sc; sc_features := sc_features sc;
     sc_metros := sc_metros sc;
     sc_gallery := sc_gallery sc; sc_locations := sc_locations sc;
     sc_opening_hours := f (sc_opening_hours sc);
     sc_primary_address := sc_primary_address sc;
     sc_title := sc_title sc; sc_phone := sc_phone sc;
     sc_slogan := sc_slogan sc; sc_site_url := sc_site_url sc;
     sc_description := sc_description sc; sc_logo := sc_logo sc |}.

Definition add_advantage_key (x : string) (s : SCSets) : SCSets :=
  {| s_advantages := s_advantages s ∪ {[x]}; s_brands := s_brands s;
     s_devices := s_devices s; s_features := s_features s;
     s_metros := s_metros s |}.

Definition add_brand_key (x : string) (s : SCSets) : SCSets :=
  {| s_advantages := s_advantages s; s_brands := s_brands s ∪ {[x]};
     s_devices := s_devices s; s_features := s_features s;
     s_metros := s_metros s |}.

Definition add_device_key (x : string) (s : SCSets) : SCSets :=
  {| s_advantages := s_advantages s; s_brands := s_brands s;
     s_devices := s_devices s ∪ {[x]}; s_features := s_features s;
     s_metros := s_metros s |}.

Definition add_feature_key (x : string) (s : SCSets) : SCSets :=
  {| s_advantages := s_advantages s; s_brands := s_brands s;
     s_devices := s_devices s; s_features := s_features s ∪ {[x]};
     s_metros := s_metros s |}.

Definition add_metro_key (x : string) (s : SCSets) : SCSets :=
  {| s_advantages := s_advantages s; s_brands := s_brands s;
     s_devices := s_devices s; s_features := s_features s;
     s_metros := s_metros s ∪ {[x]} |}.

(** [sc[t].add(x)] for [t] the type of a category. *)
Definition add_category_key (t : CategoryType) (x : string) (s : SCSets)
  : SCSets :=
  match t with
  | devices_t => add_device_key x s
  | brands_t => add_brand_key x s
  end.

Definition set_primary_address (x : option string) (v : SCScalars)
  : SCScalars :=
  {| v_slug := v_slug v; v_primary_address := x; v_title := v_title v;
     v_phone := v_phone v; v_slogan := v_slogan v;
     v_site_url := v_site_url v; v_description := v_description v;
     v_logo := v_logo v |}.

Definition set_title (x : option string) (v : SCScalars) : SCScalars :=
  {| v_slug := v_slug v; v_primary_address := v_primary_address v;
     v_title := x; v_phone := v_phone v; v_slogan := v_slogan v;
     v_site_url := v_site_url v; v_description := v_description v;
     v_logo := v_logo v |}.

Definition set_phone (x : option string) (v : SCScalars) : SCScalars :=
  {| v_slug := v_slug v; v_primary_address := v_primary_address v;
     v_title := v_title v; v_phone := x; v_slogan := v_slogan v;
     v_site_url := v_site_url v; v_description := v_description v;
     v_logo := v_logo v |}.

Definition set_slogan (x : option string) (v : SCScalars) : SCScalars :=
  {| v_slug := v_slug v; v_primary_address := v_primary_address v;
     v_title := v_title v; v_phone := v_phone v; v_slogan := x;
     v_site_url := v_site_url v; v_description := v_description v;
     v_logo := v_logo v |}.

Definition set_site_url (x : option string) (v : SCScalars) : SCScalars :=
  {| v_slug := v_slug v; v_primary_address := v_primary_address v;
     v_title := v_title v; v_phone := v_phone v; v_slogan := v_slogan v;
     v_site_url := x; v_description := v_description v;
     v_logo := v_logo v |}.

Definition set_description (x : option string) (v : SCScalars) : SCScalars :=
  {| v_slug := v_slug v; v_primary_address := v_primary_address v;
     v_title := v_title v; v_phone := v_phone v; v_slogan := v_slogan v;
     v_site_url := v_site_url v; v_description := x;
     v_logo := v_logo v |}.

Definition set_logo (x : option string) (v : SCScalars) : SCScalars :=
  {| v_slug := v_slug v; v_primary_address := v_primary_address v;
     v_title := v_title v; v_phone := v_phone v; v_slogan := v_slogan v;
     v_site_url := v_site_url v; v_description := v_description v;
     v_logo := x |}.

(** ** The monad of the crawl: state passing with exceptions

    A raised exception keeps the state reached so far, as the mutations of a
    Python run stay done when a later statement raises. *)

Definition ST (S A : Type) : Type := S → result A * S.

Global Instance ST_ret {S} : MRet (ST S) := fun _ a st => (Ok a, st).
Global Instance ST_bind {S} : MBind (ST S) := fun _ _ f m st =>
  match m st with
  | (Ok a, st') => f a st'
  | (Raise e, st') => (Raise e, st')
  end.

Definition lift {S A} (r : result A) : ST S A := fun st => (r, st).
Definition get_state {S} : ST S S := fun st => (Ok st, st).
Definition modify {S} (f : S → S) : ST S unit := fun st => (Ok tt, f st).

(** The crawl runs over the registries. *)
Abbreviation M := (ST State).

(** [for x in l: body(x)] *)
Fixpoint for_each {S A} (l : list A) (body : A → ST S unit) : ST S unit :=
  match l with
  | [] => mret tt
  | x :: l' => body x;; for_each l' body
  end.

(** [[await f(x) for x in l]], the results in the order of [l]. *)
Fixpoint mapM_ordered {S A B} (f : A → ST S B) (l : list A)
  : ST S (list B) :=
  match l with
  | [] => mret []
  | x :: l' => y ← f x; ys ← mapM_ordered f l'; mret (y :: ys)
  end.

(** A new dictionary object. *)
Definition new_category (c : Category) : M cat_ref := fun st =>
  (Ok (length (cat_heap st)), with_cat_heap (fun h => h ++ [c])%list st).

Definition new_service_center (sc : ServiceCenter) : M sc_ref := fun st =>
  (Ok (length (sc_heap st)), with_sc_heap (fun h => h ++ [sc])%list st).

(** Reading through a reference. *)
Definition read_category (r : cat_ref) : M Category := fun st =>
  match cat_heap st !! r with
  | Some c => (Ok c, st)
  | None => (Raise InvalidRef, st)
  end.

Definition read_service_center (r : sc_ref) : M ServiceCenter := fun st =>
  match sc_heap st !! r with
  | Some sc => (Ok sc, st)
  | None => (Raise InvalidRef, st)
  end.

(** Mutating the object behind a reference. *)
Definition update_category (r : cat_ref) (f : Category → Category)
  : M unit := fun st =>
  match cat_heap st !! r with
  | Some c => (Ok tt, with_cat_heap (fun h => <[r := f c]> h) st)
  | None => (Raise InvalidRef, st)
  end.

Definition update_service_center (r : sc_ref)
  (f : ServiceCenter → ServiceCenter) : M unit := fun st =>
  match sc_heap st !! r with
  | Some sc => (Ok tt, with_sc_heap (fun h => <[r := f sc]> h) st)
  | None => (Raise InvalidRef, st)
  end.

(** [tag[name]] on an element: [KeyError] when the attribute is absent. *)
Definition attr (name : string) (o : option string) : result string :=
  match o with
  | Some v => Ok v
  | None => Raise (KeyError name)
  end.

Definition loc_set_coords (c : option string) (l : Location) : Location :=
  {| loc_coords := c; loc_metro := loc_metro l;
     loc_address := loc_address l; loc_is_primary := loc_is_primary l |}.

Definition loc_set_is_primary (b : bool) (l : Location) : Location :=
  {| loc_coords := loc_coords l; loc_metro := loc_metro l;
     loc_address := loc_address l; loc_is_primary := b |}.

Definition weekdays_names : list string :=
  ["ПН"; "ВТ"; "СР"; "ЧТ"; "ПТ"; "СБ"; "ВС"].

(** ** The registry operations of [main.py] *)

Section Crawl.

(** [slugify] of the [python-slugify] package. *)
Variable slugify : string → string.

(** What the site answers: the detail page served for the [n]-th request
    of the run, sent to [url]. *)
Variable fetch : nat → string → DetailPage.

(** [f'{path.parent.name}/{path.name}'] for a path of the download
    directory. *)
Variable stored_name : string → string.

(** [session.get(url)]: the request is sent and the answer parsed. *)
Definition session_get (url : string) : M DetailPage := fun st =>
  (Ok (fetch (length (requests st)) url),
   with_requests (fun l => l ++ [url])%list st).

Definition download_file (url : string) : M string :=
  let path := "./downloads" ++ url in
  st ← get_state;
  (if bool_decide (path ∈ files st) then mret tt
   else session_get url;; modify (with_files (fun s => s ∪ {[path]})));;
  mret (stored_name path).

Definition get_category_title (category_tag : CategoryTag)
  : result string :=
  match ct_img category_tag with
  | Some image =>
      alt ← attr "alt" (img_alt image);
      if Str.startswith "Логотип" alt
      then Ok (Str.removeprefix "Логотип " alt)
      else Ok (ct_text category_tag)
  | None => Ok (ct_text category_tag)
  end.

(** The registry that [{'brands': brands, 'devices': devices}] selects. *)
Definition global_category (category_type : CategoryType) (st : State)
  : gmap string cat_ref :=
  match category_type with
  | brands_t => brands st
  | devices_t => devices st
  end.

Definition with_global_category (category_type : CategoryType)
  (f : gmap string cat_ref → gmap string cat_ref) : State → State :=
  match category_type with
  | brands_t => with_brands f
  | devices_t => with_devices f
  end.

Definition add_popular_brand (brand_tag : CategoryTag) : M unit :=
  target_slug ← lift (slugify <$> get_category_title brand_tag);
  st ← get_state;
  for_each (map_to_list (brands st)) (fun '(brand_slug, brand) =>
    if String.eqb brand_slug target_slug
    then update_category brand (cat_set_is_popular true)
    else mret tt).

Definition add_category (category_type : CategoryType)
  (category_tag : CategoryTag) : M cat_ref :=
  title ← lift (get_category_title category_tag);
  let category :=
    {| cat_title := title; cat_slug := slugify title;
       cat_type := category_type; cat_thumbnail_url := None;
       cat_is_popular := false;
       cat_brands := None; cat_services := None |} in
  category ← new_category category;
  match ct_img category_tag with
  | Some thumbnail =>
      if Str.truthy (img_src thumbnail)
      then update_category category
             (cat_set_thumbnail_url (img_src thumbnail))
      else if Str.truthy (img_data_src thumbnail)
      then update_category category
             (cat_set_thumbnail_url (img_data_src thumbnail))
      else mret tt
  | None => mret tt
  end;;
  (if decide (category_type = devices_t)
   then update_category category
          (fun c => cat_set_services (Some []) (cat_set_brands (Some ∅) c))
   else mret tt);;
  st ← get_state;
  (if bool_decide (slugify title ∈ dom (global_category category_type st))
   then mret tt
   else modify (with_global_category category_type
                  (fun d => <[slugify title := category]> d)));;
  mret category.

Definition add_service_center (sc_card : SCCard) (category : cat_ref)
  : M (sc_ref * bool) :=
  let slug := slugify (card_title sc_card) in
  st ← get_state;
  '(sc, created) ←
    match service_centers st !! slug with
    | Some sc => mret (sc, false)
    | None =>
        sc ← new_service_center
               {| sc_slug := slug;
                  sc_advantages := ∅; sc_brands := ∅; sc_devices := ∅;
                  sc_features := ∅; sc_metros := ∅;
                  sc_gallery := []; sc_locations := [];
                  sc_opening_hours := [];
                  sc_primary_address := None;
                  sc_title := None; sc_phone := None; sc_slogan := None;
                  sc_site_url := None; sc_description := None;
                  sc_logo := None |};
        modify (with_service_centers (fun d => <[slug := sc]> d));;
        mret (sc, true)
    end;
  cat ← read_category category;
  update_service_center sc
    (sc_with_sets (add_category_key (cat_type cat) (cat_slug cat)));;
  mret (sc, created).

Definition add_service (category : cat_ref) (service_tag : ServiceTag)
  : M unit :=
  cat ← read_category category;
  services ← lift (match cat_services cat with
                   | Some l => Ok l
                   | None => Raise (KeyError "services")
                   end);
  title_tag ← lift (match col_price_1 service_tag with
                    | Some t => Ok t
                    | None => Raise AttributeError
                    end);
  price_tag ← lift (match col_price_2 service_tag with
                    | Some t => Ok t
                    | None => Raise AttributeError
                    end);
  update_category category
    (cat_set_services
       (Some (services ++
              [{| service_title := get_text title_tag;
                  service_price :=
                    Str.removesuffix " руб." (get_text price_tag) |}])%list)).

Definition add_advantage (sc : sc_ref) (advantage_tag : TextTag)
  : M unit :=
  let title := get_text advantage_tag in
  modify (with_advantages (fun d => <[title := title]> d));;
  update_service_center sc (sc_with_sets (add_advantage_key title)).

Definition add_feature (sc : sc_ref) (feature_tag : TextTag) : M unit :=
  let title := get_text feature_tag in
  modify (with_features (fun d => <[title := title]> d));;
  update_service_center sc (sc_with_sets (add_feature_key title)).

Definition add_metro (sc : sc_ref) (metro_tag : TextTag) : M unit :=
  let title := Str.removeprefix "метро " (get_text metro_tag) in
  let title :=
    if String.eqb title "Новокрестовская" then "Зенит" else title in
  modify (with_metros (fun d => <[title := title]> d));;
  update_service_center sc (sc_with_sets (add_metro_key title)).

(** The loop of [add_location] over the pairs of the page head. *)
Definition bind_coords (coords_addresses : list (string * string))
  (location : Location) : Location :=
  fold_left
    (fun location '(coords, address) =>
       if Str.contains (loc_address location) address
       then loc_set_coords (Some coords) location
       else location)
    coords_addresses location.

Definition add_location (sc : sc_ref) (location_tag : TextTag)
  (head_tag : HeadTag) : M unit :=
  '(metro, address) ← lift (unpack2 (Str.split1 "-" (get_text location_tag)));
  let location :=
    {| loc_coords := None; loc_metro := Str.removeprefix "метро " metro;
       loc_address := address; loc_is_primary := false |} in
  sc_dict ← read_service_center sc;
  let location :=
    if Str.truthy (sc_primary_address sc_dict)
    then loc_set_is_primary
           (Str.contains (default "" (sc_primary_address sc_dict)) address)
           location
    else location in
  let coords_addresses := placemarks head_tag in
  let location := bind_coords coords_addresses location in
  update_service_center sc
    (sc_with_locations (fun l => l ++ [location])%list).

Definition add_opening_hour (sc : sc_ref) (hour_tag : TextTag) : M unit :=
  let text := get_text hour_tag in
  '(weekdays, times) ← lift (unpack2 (Str.rsplit1 " - " text));
  let weekdays := Str.split "-" weekdays in
  let times := Str.split_ws times in
  weekdays ← lift (mapR (fun day =>
                           (fun i => Z.of_nat i + 1) <$>
                             index_of day weekdays_names) weekdays);
  let times : list (option string) :=
    if bool_decide ("Круглосуточно" ∈ times)
    then [Some "00:00"; Some "00:00"]
    else if bool_decide ("Выходной" ∈ times)
    then [None; None]
    else Some <$> List.filter (fun time => Str.contains ":" time) times in
  w_from ← lift (first weekdays);
  w_to ← lift (last_item weekdays);
  t_from ← lift (first times);
  t_to ← lift (last_item times);
  update_service_center sc
    (sc_with_opening_hours (fun l =>
       l ++ [{| weekday_from := w_from; weekday_to := w_to;
                time_from := t_from; time_to := t_to |}])%list).

(** [asyncio.gather] over [download_file(url) for url in urls]: the
    downloads run concurrently.  Each of them tests its path and suspends
    before any of them has written its file, so every test reads the files
    as they are when the gather starts, and a path that is absent is
    requested by each of the downloads that name it.  The results come in
    the order of [urls]; the requests are taken in that order too. *)
Definition gather_download_file (urls : list string) : M (list string) :=
  st ← get_state;
  for_each
    (List.filter
       (fun url => negb (bool_decide ("./downloads" ++ url ∈ files st))) urls)
    (fun url =>
       session_get url;;
       modify (with_files (fun s => s ∪ {["./downloads" ++ url]})));;
  mret (map (fun url => stored_name ("./downloads" ++ url)) urls).

(** The arguments of the gather are unpacked before it is called: every
    [img['src']] is evaluated, and a missing one raises, before any
    download starts. *)
Definition parse_gallery (sc : sc_ref) (sc_html : DetailPage) : M unit :=
  srcs ← lift (mapR (fun img => attr "src" (img_src img))
                    (page_gallery_imgs sc_html));
  gallery ← gather_download_file srcs;
  update_service_center sc (sc_with_gallery (fun _ => gallery)).

(** The statements of [parse_service_center] that follow the guard
    [if not added: return]: the card's own facts, the request for the
    detail page and the extraction from it. *)
Definition enrich_service_center (sc : sc_ref) (sc_card : SCCard)
  : M unit :=
  for_each (card_metros_tags sc_card) (add_metro sc);;
  for_each (card_hours_tags sc_card) (add_opening_hour sc);;
  match card_address_tag sc_card with
  | Some address_tag =>
      update_service_center sc
        (sc_with_scalars
           (set_primary_address
              (Some (Str.removeprefix "Адрес: " (get_text address_tag)))))
  | None => mret tt
  end;;
  html ← session_get (card_link sc_card);
  for_each (page_location_tags html)
    (fun location_tag => add_location sc location_tag (page_head html));;
  for_each (page_feature_tags html) (add_feature sc);;
  match page_advantage_tags html with
  | Some advantage_tags => for_each advantage_tags (add_advantage sc)
  | None => mret tt
  end;;
  match page_title html with
  | Some title =>
      update_service_center sc
        (sc_with_scalars
           (set_title
              (Some (Str.removeprefix "Сервисный центр " (get_text title)))))
  | None => mret tt
  end;;
  match page_phone_href html with
  | Some href =>
      update_service_center sc
        (sc_with_scalars (set_phone (Some (Str.removeprefix "tel:+" href))))
  | None => mret tt
  end;;
  match page_slogan html with
  | Some slogan =>
      update_service_center sc
        (sc_with_scalars (set_slogan (Some (get_text slogan))))
  | None => mret tt
  end;;
  match page_site_link html with
  | Some found =>
      site_url ← lift (match found with
                       | Some g => Ok g
                       | None => Raise TypeError
                       end);
      update_service_center sc
        (sc_with_scalars (set_site_url (Some site_url)));;
      if negb (Str.contains "//" site_url)
      then update_service_center sc
             (sc_with_scalars (set_site_url (Some ("http://" ++ site_url))))
      else mret tt
  | None => mret tt
  end;;
  match page_description html with
  | Some description =>
      update_service_center sc
        (sc_with_scalars (set_description (Some (get_text description))))
  | None => mret tt
  end;;
  match page_logo_src html with
  | Some src =>
      logo ← download_file src;
      update_service_center sc (sc_with_scalars (set_logo (Some logo)))
  | None => mret tt
  end;;
  parse_gallery sc html.

Definition parse_service_center (sc_card : SCCard) (category : cat_ref)
  : M unit :=
  '(sc, added) ← add_service_center sc_card category;
  if negb added then mret tt
  else enrich_service_center sc sc_card.

End Crawl.

(** ** The store

    The part of SQLite that [main.py] drives through [aiosqlite]: tables
    with an automatically assigned integer key, NOT NULL columns and
    uniqueness constraints, statements [INSERT INTO] and
    [INSERT OR IGNORE INTO] with named parameters, [SELECT id, field], and a
    connection whose changes become durable at [commit].  Column types are
    left out: the program binds to every column a value of the column's own
    kind, so that no conversion takes place. *)

Inductive value : Type :=
| VNull
| VInt (n : Z)
| VText (s : string).

Global Instance value_eq_dec : EqDecision value.
Proof. solve_decision. Defined.

Global Instance value_countable : Countable value.
Proof.
  refine (inj_countable'
    (fun v => match v with
              | VNull => inl ()
              | VInt n => inr (inl n)
              | VText s => inr (inr s)
              end)
    (fun x => match x with
              | inl _ => VNull
              | inr (inl n) => VInt n
              | inr (inr s) => VText s
              end) _).
  by intros [].
Defined.

(** How [sqlite3] binds Python values. *)
Definition of_bool (b : bool) : value := VInt (if b then 1 else 0).
Definition of_str (s : string) : value := VText s.
Definition of_opt_str (o : option string) : value :=
  match o with Some s => VText s | None => VNull end.
Definition of_opt_int (o : option Z) : value :=
  match o with Some n => VInt n | None => VNull end.

Definition is_null (v : value) : bool :=
  match v with VNull => true | _ => false end.

(** The mapping bound to one execution of a statement: a dictionary, with
    the default of a [defaultdict] when it has one. *)
Record Params := {
  p_items : gmap string value;
  p_default : option value;
}.

Definition dict_params (items : list (string * value)) : Params :=
  {| p_items := list_to_map items; p_default := None |}.

Definition param (p : Params) (name : string) : option value :=
  match p_items p !! name with
  | Some v => Some v
  | None => p_default p
  end.

Record Column := { col_name : string; col_notnull : bool }.

(** A table as declared: [t_id] tells whether it declares
    [id INTEGER PRIMARY KEY], [t_columns] are the other columns, [t_uniques]
    the column lists of its UNIQUE and composite PRIMARY KEY constraints. *)
Record TableDef := {
  t_id : bool;
  t_columns : list Column;
  t_uniques : list (list string);
}.

Record Row := { rowid : Z; cells : list (string * value) }.

Record Table := { t_def : TableDef; t_rows : list Row }.

Inductive event : Type :=
| EvCreate (table : string)
| EvInsert (table : string)
| EvSelect (table : string)
| EvCommit.

Global Instance event_eq_dec : EqDecision event.
Proof. solve_decision. Defined.

(** A connection: the tables as the connection sees them, the tables as
    last committed, whether a transaction is open, and the statements
    executed so far. *)
Record Db := {
  tables : gmap string Table;
  durable : gmap string Table;
  in_transaction : bool;
  log : list event;
}.

(** A fresh connection to a database file with contents [ts]. *)
Definition connect (ts : gmap string Table) : Db :=
  {| tables := ts; durable := ts; in_transaction := false; log := [] |}.

Abbreviation DbM := (ST Db).

Definition emit (e : event) : DbM unit :=
  modify (fun db => {| tables := tables db; durable := durable db;
                       in_transaction := in_transaction db;
                       log := (log db ++ [e])%list |}).

(** [db.commit()] *)
Definition commit : DbM unit :=
  modify (fun db => {| tables := tables db; durable := tables db;
                       in_transaction := false;
                       log := (log db ++ [EvCommit])%list |}).

(** [CREATE TABLE IF NOT EXISTS name (...)]: outside a transaction the
    statement is durable at once. *)
Definition create_table_if_not_exists (name : string) (def : TableDef)
  : DbM unit :=
  emit (EvCreate name);;
  modify (fun db =>
    let add (ts : gmap string Table) :=
      match ts !! name with
      | Some _ => ts
      | None => <[name := {| t_def := def; t_rows := [] |}]> ts
      end in
    {| tables := add (tables db);
       durable := if in_transaction db then durable db else add (durable db);
       in_transaction := in_transaction db; log := log db |}).

(** The value of column [c] in a row. *)
Fixpoint cell (cs : list (string * value)) (c : string) : value :=
  match cs with
  | [] => VNull
  | (c', v) :: cs' => if String.eqb c c' then v else cell cs' c
  end.

Definition violates_not_null (def : TableDef) (cs : list (string * value))
  : bool :=
  existsb (fun c => col_notnull c && is_null (cell cs (col_name c)))
          (t_columns def).

Definition key_of (u : list string) (cs : list (string * value))
  : list value := map (cell cs) u.

(** Two rows collide on the constraint [u] when they agree on its columns
    and none of these holds NULL: NULLs are distinct from one another. *)
Definition collides (u : list string) (cs : list (string * value)) (r : Row)
  : bool :=
  forallb (fun v => negb (is_null v)) (key_of u cs)
  && bool_decide (key_of u cs = key_of u (cells r)).

Definition violates_unique (def : TableDef) (cs : list (string * value))
  (rows : list Row) : bool :=
  existsb (fun u => existsb (collides u cs) rows) (t_uniques def).

(** The key given to a new row: one more than the largest in the table. *)
Definition next_rowid (rows : list Row) : Z :=
  1 + fold_right Z.max 0 (map rowid rows).

Inductive conflict_clause := OrAbort | OrIgnore.

(** An INSERT statement: its conflict clause, its table, its columns and
    the names of the parameters bound to them. *)
Record InsertStmt := {
  i_conflict : conflict_clause;
  i_table : string;
  i_columns : list string;
  i_params : list string;
}.

(** The row an execution of [stmt] proposes: the bound parameters in their
    columns, NULL elsewhere.  [ProgrammingError] when a parameter is not
    supplied. *)
Definition proposed_row (def : TableDef) (stmt : InsertStmt) (p : Params)
  : result (list (string * value)) :=
  bound ← mapR (fun '(c, name) =>
                  match param p name with
                  | Some v => Ok (c, v)
                  | None => Raise ProgrammingError
                  end)
               (zip (i_columns stmt) (i_params stmt));
  Ok (map (fun c => (col_name c,
                     match list_find (fun b => b.1 = col_name c) bound with
                     | Some (_, (_, v)) => v
                     | None => VNull
                     end))
          (t_columns def)).

(** One row through a table under a conflict clause: a row that breaks a
    NOT NULL or a uniqueness constraint is left out under [OrIgnore] and is
    an error under [OrAbort]. *)
Definition insert_row (c : conflict_clause) (def : TableDef)
  (cs : list (string * value)) (rows : list Row) : result (list Row) :=
  if violates_not_null def cs || violates_unique def cs rows
  then match c with
       | OrIgnore => Ok rows
       | OrAbort => Raise IntegrityError
       end
  else Ok (rows ++ [{| rowid := next_rowid rows; cells := cs |}])%list.

(** *** Reading a statement *)

Definition is_space (c : ascii) : bool :=
  let b := N_of_ascii c in ((b =? 32) || (9 <=? b) && (b <=? 13))%N.

Definition is_punct (c : ascii) : bool :=
  let b := N_of_ascii c in ((b =? 40) || (b =? 41) || (b =? 44))%N.

(** The words and the punctuation signs [(], [)] and [,] of a statement. *)
Fixpoint tokens (cur s : string) : list string :=
  match s with
  | EmptyString => Str.flush cur
  | String c s' =>
      if is_space c then (Str.flush cur ++ tokens "" s')%list
      else if is_punct c
      then (Str.flush cur ++ String c "" :: tokens "" s')%list
      else tokens (cur ++ String c "") s'
  end.

Definition expect (word : string) (toks : list string)
  : option (list string) :=
  match toks with
  | t :: rest => if String.eqb t word then Some rest else None
  | [] => None
  end.

Definition is_word (t : string) : bool :=
  match t with
  | EmptyString => false
  | String c _ => negb (is_punct c)
  end.

(** A list [x, y, z )] of words, up to its closing parenthesis. *)
Fixpoint word_list (toks : list string)
  : option (list string * list string) :=
  match toks with
  | x :: sep :: rest =>
      if negb (is_word x) then None
      else if String.eqb sep ")" then Some ([x], rest)
      else if String.eqb sep ","
      then '(xs, rest') ← word_list rest; Some (x :: xs, rest')
      else None
  | _ => None
  end.

(** The name of a placeholder [:name]. *)
Definition placeholder (t : string) : option string :=
  match t with
  | String c name => if Ascii.eqb c ":" then Some name else None
  | EmptyString => None
  end.

(** [INSERT [OR IGNORE] INTO table (columns) VALUES (placeholders)] *)
Definition parse_insert (query : string) : option InsertStmt :=
  toks ← expect "INSERT" (tokens "" query);
  '(clause, toks) ←
    match expect "OR" toks with
    | Some toks' => toks'' ← expect "IGNORE" toks'; Some (OrIgnore, toks'')
    | None => Some (OrAbort, toks)
    end;
  toks ← expect "INTO" toks;
  match toks with
  | table :: toks =>
      if negb (is_word table) then None else
      toks ← expect "(" toks;
      '(columns, toks) ← word_list toks;
      toks ← expect "VALUES" toks;
      toks ← expect "(" toks;
      '(holders, toks) ← word_list toks;
      names ← mapM placeholder holders;
      match toks with
      | [] =>
          if (length columns =? length names)%nat
          then Some {| i_conflict := clause; i_table := table;
                       i_columns := columns; i_params := names |}
          else None
      | _ => None
      end
  | [] => None
  end.

(** *** Executing statements *)

(** The rows of a table replaced by a statement that changes data: a
    transaction is open from then on. *)
Definition set_rows (name : string) (def : TableDef) (rows : list Row)
  (db : Db) : Db :=
  {| tables := <[name := {| t_def := def; t_rows := rows |}]> (tables db);
     durable := durable db; in_transaction := true; log := log db |}.

(** One execution of a prepared INSERT with the mapping [p]. *)
Definition execute_insert (stmt : InsertStmt) (p : Params) : DbM unit :=
  db ← get_state;
  match tables db !! i_table stmt with
  | None => lift (Raise OperationalError)
  | Some t =>
      cs ← lift (proposed_row (t_def t) stmt p);
      rows ← lift (insert_row (i_conflict stmt) (t_def t) cs (t_rows t));
      modify (set_rows (i_table stmt) (t_def t) rows)
  end.

(** [db.executemany(query, rows)]: the statement is prepared, which needs
    its table and its columns to exist, and executed once for each mapping,
    in order. *)
Definition executemany (query : string) (rows : list Params) : DbM unit :=
  match parse_insert query with
  | None => lift (Raise OperationalError)
  | Some stmt =>
      db ← get_state;
      match tables db !! i_table stmt with
      | None => lift (Raise OperationalError)
      | Some t =>
          if forallb (fun c => bool_decide
                                 (c ∈ map col_name (t_columns (t_def t))))
                     (i_columns stmt)
          then emit (EvInsert (i_table stmt));;
               for_each rows (execute_insert stmt)
          else lift (Raise OperationalError)
      end
  end.

(** [SELECT id, field FROM table], the rows in table order. *)
Definition select_id_and (table field : string) : DbM (list (Z * value)) :=
  db ← get_state;
  match tables db !! table with
  | None => lift (Raise OperationalError)
  | Some t =>
      if t_id (t_def t)
         && bool_decide (field ∈ map col_name (t_columns (t_def t)))
      then emit (EvSelect table);;
           mret (map (fun r => (rowid r, cell (cells r) field)) (t_rows t))
      else lift (Raise OperationalError)
  end.

(** ** The persistence stage of [main.py] *)

Definition nl : string := String (ascii_of_nat 10) "".

Definition get_insert_query (table : string) (fields : list string)
  : string :=
  "INSERT OR IGNORE INTO " ++ table ++ " (" ++ nl ++
  "        " ++ Str.join ", " fields ++ nl ++
  "    ) VALUES (" ++ nl ++
  "        " ++ Str.join ", " (map (fun field => ":" ++ field) fields) ++ nl ++
  "    )".

Definition get_items_ids_by_field (table field : string)
  : DbM (gmap value Z) :=
  items ← select_id_and table field;
  mret (fold_left (fun d '(id, key) => <[key := id]> d) items ∅).

(** [ids[key]] *)
Definition id_of (ids : gmap value Z) (key : string) : result Z :=
  match ids !! VText key with
  | Some id => Ok id
  | None => Raise (KeyError key)
  end.

(** [ids.get(key)] *)
Definition id_get (ids : gmap value Z) (key : string) : option Z :=
  ids !! VText key.

Definition col (name : string) : Column :=
  {| col_name := name; col_notnull := false |}.
Definition col_nn (name : string) : Column :=
  {| col_name := name; col_notnull := true |}.

(** The tables of [create_schema], in the order of their statements. *)
Definition schema : list (string * TableDef) :=
  [ ("service_centers",
     {| t_id := true;
        t_columns := [col_nn "slug"; col_nn "title"; col_nn "phone";
                      col "slogan"; col "logo"; col "site_url";
                      col "description"];
        t_uniques := [["slug"]] |});
    ("brands",
     {| t_id := true;
        t_columns := [col_nn "slug"; col_nn "title"; col_nn "is_popular"];
        t_uniques := [["slug"]] |});
    ("devices",
     {| t_id := true;
        t_columns := [col_nn "slug"; col_nn "title"];
        t_uniques := [["slug"]] |});
    ("metros",
     {| t_id := true;
        t_columns := [col_nn "title"];
        t_uniques := [["title"]] |});
    ("locations",
     {| t_id := true;
        t_columns := [col_nn "service_center_id"; col_nn "metro_id";
                      col_nn "address"; col "coords"; col_nn "is_primary"];
        t_uniques := [["service_center_id"; "metro_id"; "address"]] |});
    ("advantages",
     {| t_id := true;
        t_columns := [col_nn "title"];
        t_uniques := [["title"]] |});
    ("features",
     {| t_id := true;
        t_columns := [col_nn "title"];
        t_uniques := [["title"]] |});
    ("opening_hours",
     {| t_id := true;
        t_columns := [col_nn "service_center_id"; col_nn "weekday_from";
                      col_nn "weekday_to"; col "time_from"; col "time_to"];
        t_uniques := [["service_center_id"; "weekday_from"; "weekday_to"]] |});
    ("gallery_images",
     {| t_id := true;
        t_columns := [col_nn "service_center_id"; col "image"];
        t_uniques := [["service_center_id"; "image"]] |});
    ("services",
     {| t_id := true;
        t_columns := [col_nn "device_id"; col_nn "title"; col_nn "price"];
        t_uniques := [["device_id"; "title"]] |});
    ("advantage_service_center",
     {| t_id := false;
        t_columns := [col "advantage_id"; col "service_center_id"];
        t_uniques := [["advantage_id"; "service_center_id"]] |});
    ("brand_service_center",
     {| t_id := false;
        t_columns := [col "brand_id"; col "service_center_id"];
        t_uniques := [["brand_id"; "service_center_id"]] |});
    ("device_service_center",
     {| t_id := false;
        t_columns := [col "device_id"; col "service_center_id"];
        t_uniques := [["device_id"; "service_center_id"]] |});
    ("metro_service_center",
     {| t_id := false;
        t_columns := [col "metro_id"; col "service_center_id"];
        t_uniques := [["metro_id"; "service_center_id"]] |});
    ("feature_service_center",
     {| t_id := false;
        t_columns := [col "feature_id"; col "service_center_id"];
        t_uniques := [["feature_id"; "service_center_id"]] |});
    ("brand_device",
     {| t_id := false;
        t_columns := [col "brand_id"; col "device_id"];
        t_uniques := [["brand_id"; "device_id"]] |}) ].

Definition create_schema : DbM unit :=
  for_each schema (fun '(name, def) => create_table_if_not_exists name def).

(** The dictionaries of a registry with their keys: [d.items()]. *)
Definition items_of {A} (heap : list A) (d : gmap string nat)
  : result (list (string * A)) :=
  mapR (fun '(k, r) =>
          match heap !! r with
          | Some x => Ok (k, x)
          | None => Raise InvalidRef
          end)
       (map_to_list d).

(** The scalar keys of a category dictionary, as a mapping. *)
Definition category_params (c : Category) : Params :=
  dict_params [("title", of_str (cat_title c));
               ("slug", of_str (cat_slug c));
               ("type", of_str (type_name (cat_type c)));
               ("thumbnail_url", of_opt_str (cat_thumbnail_url c));
               ("is_popular", of_bool (cat_is_popular c))].

(** [{'title': title}] *)
Definition title_params (title : string) : Params :=
  dict_params [("title", of_str title)].

(** [defaultdict(lambda: None, sc)], its scalar keys. *)
Definition service_center_params (sc : ServiceCenter) : Params :=
  let optional (name : string) (o : option string) :=
    match o with Some s => [(name, of_str s)] | None => [] end in
  {| p_items := list_to_map
       ([("slug", of_str (sc_slug sc));
         ("primary_address", of_opt_str (sc_primary_address sc))]
        ++ optional "title" (sc_title sc)
        ++ optional "phone" (sc_phone sc)
        ++ optional "slogan" (sc_slogan sc)
        ++ optional "site_url" (sc_site_url sc)
        ++ optional "description" (sc_description sc)
        ++ optional "logo" (sc_logo sc))%list;
     p_default := Some VNull |}.

Section Persist.

(** The registries as the crawl left them. *)
Variable st : State.

Definition insert_brands : DbM unit :=
  items ← lift (items_of (cat_heap st) (brands st));
  executemany (get_insert_query "brands" ["slug"; "title"; "is_popular"])
              (map (fun kv => category_params kv.2) items).

Definition insert_devices : DbM unit :=
  items ← lift (items_of (cat_heap st) (devices st));
  executemany (get_insert_query "devices" ["slug"; "title"])
              (map (fun kv => category_params kv.2) items).

Definition insert_metros : DbM unit :=
  executemany (get_insert_query "metros" ["title"])
              (map (fun kv => title_params kv.2) (map_to_list (metros st))).

Definition insert_advantages : DbM unit :=
  executemany (get_insert_query "advantages" ["title"])
              (map (fun kv => title_params kv.2)
                   (map_to_list (advantages st))).

Definition insert_features : DbM unit :=
  executemany (get_insert_query "features" ["title"])
              (map (fun kv => title_params kv.2)
                   (map_to_list (features st))).

Definition insert_service_centers : DbM unit :=
  items ← lift (items_of (sc_heap st) (service_centers st));
  executemany
    (get_insert_query "service_centers"
       ["slug"; "title"; "phone"; "slogan"; "logo"; "site_url";
        "description"])
    (map (fun kv => service_center_params kv.2) items).

(** [[row(sc_slug, x) for sc_slug, sc in service_centers.items()
      for x in inner(sc)]] *)
Definition for_service_centers {A} (inner : ServiceCenter → list A)
  (row : string → A → result Params) : result (list Params) :=
  items ← items_of (sc_heap st) (service_centers st);
  concatMapR (fun '(sc_slug, sc) => mapR (row sc_slug) (inner sc)) items.

Definition insert_locations (sc_ids_by_slugs metro_ids_by_titles
  : gmap value Z) : DbM unit :=
  rows ← lift (for_service_centers sc_locations (fun sc_slug location =>
    service_center_id ← id_of sc_ids_by_slugs sc_slug;
    Ok (dict_params
          [("service_center_id", VInt service_center_id);
           ("metro_id",
            of_opt_int (id_get metro_ids_by_titles (loc_metro location)));
           ("address", of_str (loc_address location));
           ("coords", of_opt_str (loc_coords location));
           ("is_primary", of_bool (loc_is_primary location))])));
  executemany
    (get_insert_query "locations"
       ["service_center_id"; "metro_id"; "address"; "coords";
        "is_primary"])
    rows.

Definition insert_opening_hours (sc_ids_by_slugs : gmap value Z)
  : DbM unit :=
  rows ← lift (for_service_centers sc_opening_hours
    (fun sc_slug opening_hour =>
       service_center_id ← id_of sc_ids_by_slugs sc_slug;
       Ok (dict_params
             [("service_center_id", VInt service_center_id);
              ("weekday_from", VInt (weekday_from opening_hour));
              ("weekday_to", VInt (weekday_to opening_hour));
              ("time_from", of_opt_str (time_from opening_hour));
              ("time_to", of_opt_str (time_to opening_hour))])));
  executemany
    (get_insert_query "opening_hours"
       ["service_center_id"; "weekday_from"; "weekday_to"; "time_from";
        "time_to"])
    rows.

Definition insert_services (device_ids_by_slugs : gmap value Z)
  : DbM unit :=
  rows ← lift (
    items ← items_of (cat_heap st) (devices st);
    concatMapR (fun '(device_slug, device) =>
      services ← match cat_services device with
                 | Some l => Ok l
                 | None => Raise (KeyError "services")
                 end;
      mapR (fun service =>
              device_id ← id_of device_ids_by_slugs device_slug;
              Ok (dict_params
                    [("device_id", VInt device_id);
                     ("title", of_str (service_title service));
                     ("price", of_str (service_price service))]))
           services) items);
  executemany (get_insert_query "services" ["device_id"; "title"; "price"])
              rows.

Definition insert_service_centers_advantages (sc_ids_by_slugs
  advantage_ids_by_title : gmap value Z) : DbM unit :=
  rows ← lift (for_service_centers (fun sc => elements (sc_advantages sc))
    (fun sc_slug advantage_title =>
       service_center_id ← id_of sc_ids_by_slugs sc_slug;
       advantage_id ← id_of advantage_ids_by_title advantage_title;
       Ok (dict_params [("service_center_id", VInt service_center_id);
                        ("advantage_id", VInt advantage_id)])));
  executemany
    (get_insert_query "advantage_service_center"
       ["service_center_id"; "advantage_id"])
    rows.

Definition insert_service_centers_features (sc_ids_by_slugs
  feature_ids_by_title : gmap value Z) : DbM unit :=
  rows ← lift (for_service_centers (fun sc => elements (sc_features sc))
    (fun sc_slug feature_title =>
       service_center_id ← id_of sc_ids_by_slugs sc_slug;
       feature_id ← id_of feature_ids_by_title feature_title;
       Ok (dict_params [("service_center_id", VInt service_center_id);
                        ("feature_id", VInt feature_id)])));
  executemany
    (get_insert_query "feature_service_center"
       ["service_center_id"; "feature_id"])
    rows.

Definition insert_service_centers_brands (sc_ids_by_slugs
  brand_ids_by_slugs : gmap value Z) : DbM unit :=
  rows ← lift (for_service_centers (fun sc => elements (sc_brands sc))
    (fun sc_slug brand_slug =>
       service_center_id ← id_of sc_ids_by_slugs sc_slug;
       brand_id ← id_of brand_ids_by_slugs brand_slug;
       Ok (dict_params [("service_center_id", VInt service_center_id);
                        ("brand_id", VInt brand_id)])));
  executemany
    (get_insert_query "brand_service_center"
       ["service_center_id"; "brand_id"])
    rows.

Definition insert_service_centers_devices (sc_ids_by_slugs
  device_ids_by_slugs : gmap value Z) : DbM unit :=
  rows ← lift (for_service_centers (fun sc => elements (sc_devices sc))
    (fun sc_slug device_slug =>
       service_center_id ← id_of sc_ids_by_slugs sc_slug;
       device_id ← id_of device_ids_by_slugs device_slug;
       Ok (dict_params [("service_center_id", VInt service_center_id);
                        ("device_id", VInt device_id)])));
  executemany
    (get_insert_query "device_service_center"
       ["service_center_id"; "device_id"])
    rows.

Definition insert_service_centers_metros (sc_ids_by_slugs
  metro_ids_by_titles : gmap value Z) : DbM unit :=
  rows ← lift (for_service_centers (fun sc => elements (sc_metros sc))
    (fun sc_slug metro_title =>
       service_center_id ← id_of sc_ids_by_slugs sc_slug;
       metro_id ← id_of metro_ids_by_titles metro_title;
       Ok (dict_params [("service_center_id", VInt service_center_id);
                        ("metro_id", VInt metro_id)])));
  executemany
    (get_insert_query "metro_service_center"
       ["service_center_id"; "metro_id"])
    rows.

Definition insert_gallery_images (sc_ids_by_slugs : gmap value Z)
  : DbM unit :=
  rows ← lift (for_service_centers sc_gallery (fun sc_slug image =>
    service_center_id ← id_of sc_ids_by_slugs sc_slug;
    Ok (dict_params [("service_center_id", VInt service_center_id);
                     ("image", of_str image)])));
  executemany
    (get_insert_query "gallery_images" ["service_center_id"; "image"])
    rows.

Definition insert_devices_brands (brand_ids_by_slugs device_ids_by_slugs
  : gmap value Z) : DbM unit :=
  rows ← lift (
    items ← items_of (cat_heap st) (devices st);
    concatMapR (fun '(device_slug, device) =>
      brand_slugs ← match cat_brands device with
                    | Some s => Ok (elements s)
                    | None => Raise (KeyError "brands")
                    end;
      mapR (fun brand_slug =>
              brand_id ← id_of brand_ids_by_slugs brand_slug;
              device_id ← id_of device_ids_by_slugs device_slug;
              Ok (dict_params [("brand_id", VInt brand_id);
                               ("device_id", VInt device_id)]))
           brand_slugs) items);
  executemany (get_insert_query "brand_device" ["brand_id"; "device_id"])
              rows.

(** [insert_data] on the connection opened by [aiosqlite.connect]. *)
Definition insert_data : DbM unit :=
  create_schema;;
  insert_brands;;
  insert_devices;;
  insert_metros;;
  insert_advantages;;
  insert_features;;
  commit;;
  insert_service_centers;;
  commit;;
  sc_ids_by_slugs ← get_items_ids_by_field "service_centers" "slug";
  metro_ids_by_titles ← get_items_ids_by_field "metros" "title";
  brand_ids_by_slugs ← get_items_ids_by_field "brands" "slug";
  device_ids_by_slugs ← get_items_ids_by_field "devices" "slug";
  advantage_ids_by_titles ← get_items_ids_by_field "advantages" "title";
  feature_ids_by_titles ← get_items_ids_by_field "features" "title";
  insert_opening_hours sc_ids_by_slugs;;
  insert_gallery_images sc_ids_by_slugs;;
  insert_services device_ids_by_slugs;;
  insert_locations sc_ids_by_slugs metro_ids_by_titles;;
  insert_service_centers_brands sc_ids_by_slugs brand_ids_by_slugs;;
  insert_service_centers_devices sc_ids_by_slugs device_ids_by_slugs;;
  insert_service_centers_metros sc_ids_by_slugs metro_ids_by_titles;;
  insert_devices_brands brand_ids_by_slugs device_ids_by_slugs;;
  insert_service_centers_advantages sc_ids_by_slugs
    advantage_ids_by_titles;;
  insert_service_centers_features sc_ids_by_slugs feature_ids_by_titles;;
  commit.

End Persist.

(** ** Definitions used to state the properties *)

(** *** The facts that the operations compute *)

(** The record that [add_opening_hour] builds from the text of a tag, or the
    exception it raises before touching the service center. *)
Definition opening_hour_of (text : string) : result OpeningHour :=
  '(weekdays, times) ← unpack2 (Str.rsplit1 " - " text);
  let weekdays := Str.split "-" weekdays in
  let times := Str.split_ws times in
  weekdays ← mapR (fun day =>
                     (fun i => Z.of_nat i + 1) <$> index_of day weekdays_names)
                  weekdays;
  let times : list (option string) :=
    if bool_decide ("Круглосуточно" ∈ times)
    then [Some "00:00"; Some "00:00"]
    else if bool_decide ("Выходной" ∈ times)
    then [None; None]
    else Some <$> List.filter (fun time => Str.contains ":" time) times in
  w_from ← first weekdays;
  w_to ← last_item weekdays;
  t_from ← first times;
  t_to ← last_item times;
  Ok {| weekday_from := w_from; weekday_to := w_to;
        time_from := t_from; time_to := t_to |}.

Definition append_opening_hour (r : OpeningHour)
  : ServiceCenter → ServiceCenter :=
  sc_with_opening_hours (fun l => l ++ [r])%list.


Definition append_location (l : Location) : ServiceCenter → ServiceCenter :=
  sc_with_locations (fun ls => ls ++ [l])%list.

(** A service center as [add_service_center] creates it. *)
Definition new_sc_dict (slug : string) : ServiceCenter :=
  {| sc_slug := slug;
     sc_advantages := ∅; sc_brands := ∅; sc_devices := ∅;
     sc_features := ∅; sc_metros := ∅;
     sc_gallery := []; sc_locations := []; sc_opening_hours := [];
     sc_primary_address := None;
     sc_title := None; sc_phone := None; sc_slogan := None;
     sc_site_url := None; sc_description := None; sc_logo := None |}.

(** The loop of [add_popular_brand] over the items of the registry. *)
Definition mark_popular (target_slug : string) (item : string * cat_ref)
  : M unit :=
  let '(brand_slug, brand) := item in
  if String.eqb brand_slug target_slug
  then update_category brand (cat_set_is_popular true)
  else mret tt.

(** Two category dictionaries that agree on every key but [is_popular]. *)
Definition same_but_is_popular (c c' : Category) : Prop :=
  cat_title c' = cat_title c ∧ cat_slug c' = cat_slug c
  ∧ cat_type c' = cat_type c
  ∧ cat_thumbnail_url c' = cat_thumbnail_url c
  ∧ cat_brands c' = cat_brands c ∧ cat_services c' = cat_services c.

(** [sc[t]] for [t] the type of a category. *)
Definition category_keys (t : CategoryType) (d : ServiceCenter)
  : gset string :=
  match t with
  | devices_t => sc_devices d
  | brands_t => sc_brands d
  end.

(** The lists of a service center that only the enrichment fills. *)
Definition sc_lists (d : ServiceCenter)
  : list string * list Location * list OpeningHour :=
  (sc_gallery d, sc_locations d, sc_opening_hours d).

(** [sc[category['type']].add(category['slug'])] as a change of [sc]. *)
Definition with_category (cat : Category) : ServiceCenter → ServiceCenter :=
  sc_with_sets (add_category_key (cat_type cat) (cat_slug cat)).

Section Built.

Variable slugify : string → string.

(** The dictionary that [add_category] builds from an anchor with title
    [title], whatever the registry holds. *)
Definition built_category (category_type : CategoryType)
  (category_tag : CategoryTag) (title : string) : Category :=
  {| cat_title := title; cat_slug := slugify title;
     cat_type := category_type;
     cat_thumbnail_url :=
       match ct_img category_tag with
       | Some thumbnail =>
           if Str.truthy (img_src thumbnail) then img_src thumbnail
           else if Str.truthy (img_data_src thumbnail)
           then img_data_src thumbnail
           else None
       | None => None
       end;
     cat_is_popular := false;
     cat_brands := if decide (category_type = devices_t) then Some ∅
                   else None;
     cat_services := if decide (category_type = devices_t) then Some []
                     else None |}.

End Built.

(** The slug of a category, when the category is of type [t]. *)
Definition slug_if_type (t : CategoryType) (cat : Category) : gset string :=
  if decide (cat_type cat = t) then {[cat_slug cat]} else ∅.

(** [d'] is [d] with category slugs added to its [brands] and [devices]
    sets and nothing else changed: what only the enrichment writes is as it
    was. *)
Definition only_categories_added (d d' : ServiceCenter) : Prop :=
  sc_scalars d' = sc_scalars d
  ∧ sc_lists d' = sc_lists d
  ∧ sc_metros d' = sc_metros d
  ∧ sc_advantages d' = sc_advantages d
  ∧ sc_features d' = sc_features d
  ∧ sc_brands d ⊆ sc_brands d'
  ∧ sc_devices d ⊆ sc_devices d'.

(** *** Invariants and runs of the crawl *)

(** A computation keeps an invariant of the state, whether it returns or
    raises. *)
Definition preserves {S A} (I : S → Prop) (m : ST S A) : Prop :=
  ∀ st, I st → I (m st).2.

(** Every service center of the registry is an object of the heap. *)
Definition registry_valid (st : State) : Prop :=
  ∀ slug sc, service_centers st !! slug = Some sc →
    is_Some (sc_heap st !! sc).

(** No metro is registered, and no service center is related to a metro,
    under the title that the site gives to the station renamed Зенит. *)
Definition metro_titles_normalised (st : State) : Prop :=
  ("Новокрестовская" ∉ dom (metros st))
  ∧ (∀ sc d, sc_heap st !! sc = Some d → "Новокрестовская" ∉ sc_metros d).

(** What the enrichment of a service center leaves alone: the registry of
    service centers, the category dictionaries, and the number of
    service-center dictionaries. *)
Definition enrichment_frame (R : gmap string sc_ref) (H : list Category)
  (n : nat) (st : State) : Prop :=
  service_centers st = R ∧ cat_heap st = H ∧ length (sc_heap st) = n.

(** The service center of slug [slug] has been sighted: it is registered,
    every registered service center is an object of the heap, and the first
    [n] category dictionaries are there. *)
Definition sighted (slug : string) (n : nat) (st : State) : Prop :=
  slug ∈ dom (service_centers st)
  ∧ registry_valid st
  ∧ (n ≤ length (cat_heap st))%nat.

(** The ways in which the coroutines of [main.py] change the registries:
    the [add_*] functions, [parse_service_center], and the three statements
    that write to a dictionary outside them, namely
    [device['brands'].add(brand['slug'])] of [parse_device_brand] and the
    assignments to a scalar key and to [gallery] of a service center.  A
    run of the crawl, however its coroutines interleave, is a sequence of
    these. *)
Inductive crawl_op : Type :=
| OpAddPopularBrand (brand_tag : CategoryTag)
| OpAddCategory (category_type : CategoryType) (category_tag : CategoryTag)
| OpAddDeviceBrand (device brand : cat_ref)
| OpAddServiceCenter (sc_card : SCCard) (category : cat_ref)
| OpParseServiceCenter (sc_card : SCCard) (category : cat_ref)
| OpAddService (category : cat_ref) (service_tag : ServiceTag)
| OpAddAdvantage (sc : sc_ref) (advantage_tag : TextTag)
| OpAddFeature (sc : sc_ref) (feature_tag : TextTag)
| OpAddMetro (sc : sc_ref) (metro_tag : TextTag)
| OpAddLocation (sc : sc_ref) (location_tag : TextTag) (head_tag : HeadTag)
| OpAddOpeningHour (sc : sc_ref) (hour_tag : TextTag)
| OpSetScalars (sc : sc_ref) (f : SCScalars → SCScalars)
| OpSetGallery (sc : sc_ref) (gallery : list string).

Section CrawlOps.

Variable slugify : string → string.
Variable fetch : nat → string → DetailPage.
Variable stored_name : string → string.

(** [device['brands'].add(brand['slug'])] *)
Definition add_device_brand (device brand : cat_ref) : M unit :=
  d ← read_category device;
  match cat_brands d with
  | Some s =>
      b ← read_category brand;
      update_category device (cat_set_brands (Some (s ∪ {[cat_slug b]})))
  | None => lift (Raise (KeyError "brands"))
  end.

Definition run_op (op : crawl_op) : M unit :=
  match op with
  | OpAddPopularBrand brand_tag => add_popular_brand slugify brand_tag
  | OpAddCategory category_type category_tag =>
      add_category slugify category_type category_tag;; mret tt
  | OpAddDeviceBrand device brand => add_device_brand device brand
  | OpAddServiceCenter sc_card category =>
      add_service_center slugify sc_card category;; mret tt
  | OpParseServiceCenter sc_card category =>
      parse_service_center slugify fetch stored_name sc_card category
  | OpAddService category service_tag => add_service category service_tag
  | OpAddAdvantage sc advantage_tag => add_advantage sc advantage_tag
  | OpAddFeature sc feature_tag => add_feature sc feature_tag
  | OpAddMetro sc metro_tag => add_metro sc metro_tag
  | OpAddLocation sc location_tag head_tag =>
      add_location sc location_tag head_tag
  | OpAddOpeningHour sc hour_tag => add_opening_hour sc hour_tag
  | OpSetScalars sc f => update_service_center sc (sc_with_scalars f)
  | OpSetGallery sc gallery =>
      update_service_center sc (sc_with_gallery (fun _ => gallery))
  end.

(** The state after a sequence of operations; an operation that raises
    leaves what it had done and the run goes on, as the other coroutines
    of a gather do. *)
Definition run_ops (ops : list crawl_op) (st : State) : State :=
  fold_left (fun st op => (run_op op st).2) ops st.

End CrawlOps.

Section Calls.

Variable slugify : string → string.
Variable fetch : nat → string → DetailPage.
Variable stored_name : string → string.

(** The [created] flags of a sequence of calls of [add_service_center]. *)
Definition created_flags (calls : list (SCCard * cat_ref)) : M (list bool) :=
  mapM_ordered
    (fun '(sc_card, category) =>
       '(_, created) ← add_service_center slugify sc_card category;
       mret created)
    calls.

(** The state after a sequence of calls of [parse_service_center]; a call
    that raises leaves what it had done, and the others still run. *)
Definition parse_all (calls : list (SCCard * cat_ref)) (st : State)
  : State :=
  fold_left
    (fun st '(sc_card, category) =>
       (parse_service_center slugify fetch stored_name sc_card category st).2)
    calls st.

End Calls.

(** The flags that the registry's keys and the slugs of a sequence of cards
    determine: a card is new when its slug is neither registered nor the
    slug of an earlier card. *)
Fixpoint expected_flags (seen : gset string) (slugs : list string)
  : list bool :=
  match slugs with
  | [] => []
  | s :: rest =>
      negb (bool_decide (s ∈ seen)) :: expected_flags (seen ∪ {[s]}) rest
  end.

(** *** Statements, rows and logs of the store *)

(** A name that a statement can hold as one word: not empty, and without
    white space, parentheses or commas. *)
Fixpoint word_chars (s : string) : bool :=
  match s with
  | EmptyString => true
  | String c s' => negb (is_space c) && negb (is_punct c) && word_chars s'
  end.

Definition is_name (s : string) : bool :=
  match s with
  | EmptyString => false
  | String _ _ => word_chars s
  end.

(** The tokens of a list [x, y, z]. *)
Fixpoint sep_tokens (names : list string) : list string :=
  match names with
  | [] => []
  | [x] => [x]
  | x :: rest => x :: "," :: sep_tokens rest
  end.

(** A proposed row that the table can tell from every other: it either
    breaks a NOT NULL constraint, or holds no NULL in the columns of the
    uniqueness constraints. *)
Definition keyed (def : TableDef) (cs : list (string * value)) : bool :=
  violates_not_null def cs
  || forallb (fun u => forallb (fun v => negb (is_null v)) (key_of u cs))
             (t_uniques def).

(** Every column of every uniqueness constraint of a table is declared
    NOT NULL. *)
Definition uniques_not_null (def : TableDef) : bool :=
  forallb
    (fun u =>
       forallb
         (fun c => existsb (fun column => String.eqb (col_name column) c
                                          && col_notnull column)
                           (t_columns def))
         u)
    (t_uniques def).

(** The rows of a table after the proposed rows [css] have gone through it
    one by one under [INSERT OR IGNORE]. *)
Definition insert_all_ignore (def : TableDef)
  (css : list (list (string * value))) (rows : list Row) : list Row :=
  fold_left
    (fun rows cs =>
       if violates_not_null def cs || violates_unique def cs rows then rows
       else (rows ++ [{| rowid := next_rowid rows; cells := cs |}])%list)
    css rows.

(** The declaration of a table of [create_schema]. *)
Definition def_of (name : string) : TableDef :=
  match List.find (fun entry : string * TableDef => String.eqb entry.1 name)
                  schema with
  | Some entry => entry.2
  | None => {| t_id := false; t_columns := []; t_uniques := [] |}
  end.

(** The key that [ids] holds for [key], for a key that it holds. *)
Definition resolved_id (ids : gmap value Z) (key : string) : Z :=
  default 0 (ids !! VText key).

(** The row of the table [locations] that [insert_locations] proposes for a
    location of the service center with key [service_center_id]. *)
Definition location_cells (metro_ids_by_titles : gmap value Z)
  (service_center_id : Z) (location : Location) : list (string * value) :=
  [("service_center_id", VInt service_center_id);
   ("metro_id", of_opt_int (id_get metro_ids_by_titles (loc_metro location)));
   ("address", of_str (loc_address location));
   ("coords", of_opt_str (loc_coords location));
   ("is_primary", of_bool (loc_is_primary location))].

(** The metro of a location is among the keys read back from the store. *)
Definition metro_resolved (metro_ids_by_titles : gmap value Z)
  (location : Location) : bool :=
  bool_decide (is_Some (id_get metro_ids_by_titles (loc_metro location))).

(** The locations of the registry, each with the key of its service
    center, in the order in which [insert_locations] goes through them. *)
Definition keyed_locations (sc_ids_by_slugs : gmap value Z)
  (items : list (string * ServiceCenter)) : list (Z * Location) :=
  concat (map (fun item : string * ServiceCenter =>
                 map (fun location =>
                        (resolved_id sc_ids_by_slugs item.1, location))
                     (sc_locations item.2))
              items).

(** The mappings that [insert_locations] and
    [insert_service_centers_metros] build, as functions of the keys. *)
Definition location_params (metro_ids_by_titles : gmap value Z)
  (row : Z * Location) : Params :=
  dict_params
    [("service_center_id", VInt row.1);
     ("metro_id",
      of_opt_int (id_get metro_ids_by_titles (loc_metro row.2)));
     ("address", of_str (loc_address row.2));
     ("coords", of_opt_str (loc_coords row.2));
     ("is_primary", of_bool (loc_is_primary row.2))].

Definition metro_link_params (row : Z * Z) : Params :=
  dict_params [("service_center_id", VInt row.2); ("metro_id", VInt row.1)].

(** The row of [metro_service_center] for a service center and a metro. *)
Definition metro_link_cells (metro_id service_center_id : Z)
  : list (string * value) :=
  [("metro_id", VInt metro_id); ("service_center_id", VInt service_center_id)].

(** The pairs of a service center and one of its metros, as keys. *)
Definition keyed_metro_links (sc_ids_by_slugs metro_ids_by_titles
  : gmap value Z) (items : list (string * ServiceCenter)) : list (Z * Z) :=
  concat (map (fun item : string * ServiceCenter =>
                 map (fun metro_title =>
                        (resolved_id metro_ids_by_titles metro_title,
                         resolved_id sc_ids_by_slugs item.1))
                     (elements (sc_metros item.2)))
              items).

(** The statements of a complete run of [insert_data], in order. *)
Definition insert_data_events : list event :=
  (map (fun entry : string * TableDef => EvCreate entry.1) schema
   ++ [EvInsert "brands"; EvInsert "devices"; EvInsert "metros";
       EvInsert "advantages"; EvInsert "features"; EvCommit;
       EvInsert "service_centers"; EvCommit;
       EvSelect "service_centers"; EvSelect "metros"; EvSelect "brands";
       EvSelect "devices"; EvSelect "advantages"; EvSelect "features";
       EvInsert "opening_hours"; EvInsert "gallery_images";
       EvInsert "services"; EvInsert "locations";
       EvInsert "brand_service_center"; EvInsert "device_service_center";
       EvInsert "metro_service_center"; EvInsert "brand_device";
       EvInsert "advantage_service_center";
       EvInsert "feature_service_center"; EvCommit])%list.

(** The tables without a reference to another table. *)
Definition independent_tables : list string :=
  ["brands"; "devices"; "metros"; "advantages"; "features"].

(** The relationship tables, each with the tables whose keys its rows
    hold: the tables of the key maps that its insert function is given. *)
Definition relationship_tables : list (string * list string) :=
  [("opening_hours", ["service_centers"]);
   ("gallery_images", ["service_centers"]);
   ("services", ["devices"]);
   ("locations", ["service_centers"; "metros"]);
   ("brand_service_center", ["service_centers"; "brands"]);
   ("device_service_center", ["service_centers"; "devices"]);
   ("metro_service_center", ["service_centers"; "metros"]);
   ("brand_device", ["brands"; "devices"]);
   ("advantage_service_center", ["service_centers"; "advantages"]);
   ("feature_service_center", ["service_centers"; "features"])].

(** The statement at position [i] of a log comes after the inserts of the
    independent tables and their commit, after the insert of the service
    centers and its commit, and after the keys of the tables [referenced]
    have been read back. *)
Definition written_in_order (l : list event) (i : nat)
  (referenced : list string) : Prop :=
  ∃ c1 c2 : nat,
    (c1 < c2)%nat ∧ (c2 < i)%nat
    ∧ l !! c1 = Some EvCommit ∧ l !! c2 = Some EvCommit
    ∧ (∀ t, t ∈ independent_tables →
         ∃ j : nat, (j < c1)%nat ∧ l !! j = Some (EvInsert t))
    ∧ (∃ j : nat, (c1 < j)%nat ∧ (j < c2)%nat
                  ∧ l !! j = Some (EvInsert "service_centers"))
    ∧ (∀ t, t ∈ referenced →
         ∃ j : nat, (c2 < j)%nat ∧ (j < i)%nat ∧ l !! j = Some (EvSelect t)).

(** What a computation adds to the log: [es] when it returns, the first
    part of [es] when it raises. *)
Definition logs {A} (m : DbM A) (es : list event) : Prop :=
  ∀ db,
    match m db with
    | (Ok _, db') => log db' = (log db ++ es)%list
    | (Raise _, db') =>
        ∃ es', es' `prefix_of` es ∧ log db' = (log db ++ es')%list
    end.

(** *** Consistency of the registries *)

(** Every metro, advantage and feature that a service center is related
    to is a key of its registry. *)
Definition facts_registered (st : State) : Prop :=
  ∀ sc d, sc_heap st !! sc = Some d →
    sc_metros d ⊆ dom (metros st)
    ∧ sc_advantages d ⊆ dom (advantages st)
    ∧ sc_features d ⊆ dom (features st).

(** The slug of every category dictionary is a key of the registry of its
    type, and so is every category slug that a service center is related
    to. *)
Definition categories_registered (st : State) : Prop :=
  (∀ r c, cat_heap st !! r = Some c →
     cat_slug c ∈ dom (global_category (cat_type c) st))
  ∧ (∀ sc d t, sc_heap st !! sc = Some d →
       category_keys t d ⊆ dom (global_category t st)).

(** The keys that only [category.update] gives to a device: a device has
    them, a brand does not. *)
Definition device_keys (c : Category) : Prop :=
  match cat_type c with
  | devices_t => is_Some (cat_brands c) ∧ is_Some (cat_services c)
  | brands_t => cat_brands c = None ∧ cat_services c = None
  end.

(** Every entry of a registry carries its own key: a category is
    registered under its slug in the registry of its type, with the keys
    of that type, and a metro, an advantage or a feature under its
    title. *)
Definition registry_keys_agree (st : State) : Prop :=
  (∀ t slug r, global_category t st !! slug = Some r →
     ∃ c, cat_heap st !! r = Some c ∧ cat_slug c = slug ∧ cat_type c = t)
  ∧ (∀ r c, cat_heap st !! r = Some c → device_keys c)
  ∧ (∀ k v, metros st !! k = Some v → v = k)
  ∧ (∀ k v, advantages st !! k = Some v → v = k)
  ∧ (∀ k v, features st !! k = Some v → v = k).

(** A service center is registered under the slug that it carries, and
    the brands of a device are registered brands. *)
Definition registry_linked (st : State) : Prop :=
  (∀ slug sc, service_centers st !! slug = Some sc →
     ∃ d, sc_heap st !! sc = Some d ∧ sc_slug d = slug)
  ∧ (∀ r c s, cat_heap st !! r = Some c → cat_brands c = Some s →
       s ⊆ dom (brands st)).

(** What the source has and [crawl_op] leaves open: the dictionary that
    [parse_device_brand] adds to a device is the one that
    [parse_category(brand_tag, 'brands')] returned, and no assignment of
    [parse_service_center] writes the key [slug]. *)
Definition as_in_source (st : State) (op : crawl_op) : Prop :=
  match op with
  | OpAddDeviceBrand _ brand =>
      ∀ b, cat_heap st !! brand = Some b → cat_type b = brands_t
  | OpSetScalars _ f => ∀ v, v_slug (f v) = v_slug v
  | _ => True
  end.

Section SourceRuns.

Variable slugify : string → string.
Variable fetch : nat → string → DetailPage.
Variable stored_name : string → string.

(** Every operation of a run is as the source has it, in the state in
    which it starts. *)
Fixpoint run_as_in_source (ops : list crawl_op) (st : State) : Prop :=
  match ops with
  | [] => True
  | op :: ops' =>
      as_in_source st op
      ∧ run_as_in_source ops' (run_op slugify fetch stored_name op st).2
  end.

End SourceRuns.

(** *** What a run of the crawl keeps *)

(** A category dictionary at a later time: its title, slug, type and
    thumbnail are as they were, [is_popular] has not been taken back, and
    the brands and the services of a device have only been added to. *)
Definition category_grown (c c' : Category) : Prop :=
  cat_title c' = cat_title c ∧ cat_slug c' = cat_slug c
  ∧ cat_type c' = cat_type c
  ∧ cat_thumbnail_url c' = cat_thumbnail_url c
  ∧ (cat_is_popular c = true → cat_is_popular c' = true)
  ∧ (∀ s, cat_brands c = Some s → ∃ s', cat_brands c' = Some s' ∧ s ⊆ s')
  ∧ (∀ l, cat_services c = Some l →
       ∃ l', cat_services c' = Some l' ∧ l `prefix_of` l').

(** A service center at a later time: its five sets have only been added
    to, and its locations and opening hours have only been appended to. *)
Definition center_grown (d d' : ServiceCenter) : Prop :=
  sc_metros d ⊆ sc_metros d' ∧ sc_advantages d ⊆ sc_advantages d'
  ∧ sc_features d ⊆ sc_features d' ∧ sc_brands d ⊆ sc_brands d'
  ∧ sc_devices d ⊆ sc_devices d'
  ∧ sc_locations d `prefix_of` sc_locations d'
  ∧ sc_opening_hours d `prefix_of` sc_opening_hours d'.

(** A state at a later time of the crawl: no key has left a registry, a
    slug is bound to the dictionary it was bound to, and every dictionary
    is still there, grown. *)
Definition extends (st st' : State) : Prop :=
  dom (metros st) ⊆ dom (metros st')
  ∧ dom (advantages st) ⊆ dom (advantages st')
  ∧ dom (features st) ⊆ dom (features st')
  ∧ (∀ slug r, service_centers st !! slug = Some r →
       service_centers st' !! slug = Some r)
  ∧ (∀ t slug r, global_category t st !! slug = Some r →
       global_category t st' !! slug = Some r)
  ∧ (∀ r c, cat_heap st !! r = Some c →
       ∃ c', cat_heap st' !! r = Some c' ∧ category_grown c c')
  ∧ (∀ r d, sc_heap st !! r = Some d →
       ∃ d', sc_heap st' !! r = Some d' ∧ center_grown d d').

(** *** The gallery *)

(** Two service centers that agree on every key but [gallery]. *)
Definition same_but_gallery (d d' : ServiceCenter) : Prop :=
  sc_slug d' = sc_slug d
  ∧ sc_advantages d' = sc_advantages d ∧ sc_brands d' = sc_brands d
  ∧ sc_devices d' = sc_devices d ∧ sc_features d' = sc_features d
  ∧ sc_metros d' = sc_metros d
  ∧ sc_locations d' = sc_locations d
  ∧ sc_opening_hours d' = sc_opening_hours d
  ∧ sc_primary_address d' = sc_primary_address d
  ∧ sc_title d' = sc_title d ∧ sc_phone d' = sc_phone d
  ∧ sc_slogan d' = sc_slogan d ∧ sc_site_url d' = sc_site_url d
  ∧ sc_description d' = sc_description d ∧ sc_logo d' = sc_logo d.

(** Two states with the same registries and the same category
    dictionaries. *)
Definition same_registries (st st' : State) : Prop :=
  advantages st' = advantages st ∧ brands st' = brands st
  ∧ devices st' = devices st ∧ features st' = features st
  ∧ metros st' = metros st ∧ service_centers st' = service_centers st
  ∧ cat_heap st' = cat_heap st.

(** The urls whose file is not among the files of a state. *)
Definition absent_urls (st : State) (urls : list string) : list string :=
  List.filter
    (fun url => negb (bool_decide ("./downloads" ++ url ∈ files st))) urls.

(** *** Opening hours *)

(** What the columns of the table [opening_hours] can rely on: weekdays
    between Monday = 1 and Sunday = 7, and times that are both null or
    both a text with a colon in it. *)
Definition opening_hour_wellformed (h : OpeningHour) : Prop :=
  (1 ≤ weekday_from h ≤ 7) ∧ (1 ≤ weekday_to h ≤ 7)
  ∧ ((time_from h = None ∧ time_to h = None)
     ∨ (∃ a b, time_from h = Some a ∧ time_to h = Some b
               ∧ Str.contains ":" a = true ∧ Str.contains ":" b = true)).

Definition hours_wellformed (st : State) : Prop :=
  ∀ sc d, sc_heap st !! sc = Some d →
    Forall opening_hour_wellformed (sc_opening_hours d).

(** *** The links of the listing pages *)

(** The generator [page_links] of [parse_category]: the anchors of the
    pagination but the first and the last, [l[1:-1]], each by its [href],
    which is taken as it is when it starts with a slash and is appended
    to the [href] of the category otherwise.  An anchor is given by its
    [href] attribute, [None] when it has none. *)
Definition page_links (category_href : string)
  (page_tags : list (option string)) : result (list string) :=
  mapR (fun page_tag =>
          href ← attr "href" page_tag;
          if Str.startswith "/" href then Ok href
          else Ok (category_href ++ href))
       (drop 1 (take (length page_tags - 1) page_tags)).

(** *** The address of the site of a service center *)

(** The [site_url] of a service center is absent or has two slashes in
    it. *)
Definition site_url_absolute (d : ServiceCenter) : Prop :=
  match sc_site_url d with
  | Some url => Str.contains "//" url = true
  | None => True
  end.

Definition site_urls_absolute (st : State) : Prop :=
  ∀ sc d, sc_heap st !! sc = Some d → site_url_absolute d.

(** *** The store between the statements of [insert_data] *)

(** The names of the tables of [create_schema]. *)
Definition schema_tables : list string :=
  map (fun entry : string * TableDef => entry.1) schema.

(** The table [t] is declared as in [create_schema] and holds [rows]. *)
Definition table_rows (ts : gmap string Table) (t : string)
  (rows : list Row) : Prop :=
  ts !! t = Some {| t_def := def_of t; t_rows := rows |}.

(** Every table of [create_schema] is there, declared as it is there. *)
Definition conforms (ts : gmap string Table) : Prop :=
  ∀ t, t ∈ schema_tables → ∃ rows, table_rows ts t rows.

(** A database file that [create_schema] can complete: a table that it
    holds under a name of [create_schema] is declared as it is there. *)
Definition compatible (ts : gmap string Table) : Prop :=
  ∀ t tb, t ∈ schema_tables → ts !! t = Some tb → t_def tb = def_of t.

(** The statement of [get_insert_query], read. *)
Definition insert_stmt (table : string) (fields : list string)
  : InsertStmt :=
  {| i_conflict := OrIgnore; i_table := table;
     i_columns := fields; i_params := fields |}.

(** The row that the statement proposes for a mapping that binds all of
    its parameters. *)
Definition row_of (table : string) (fields : list string) (p : Params)
  : list (string * value) :=
  match proposed_row (def_of table) (insert_stmt table fields) p with
  | Ok cs => cs
  | Raise _ => []
  end.

Definition binds (table : string) (fields : list string) (p : Params)
  : Prop :=
  ∃ cs, proposed_row (def_of table) (insert_stmt table fields) p = Ok cs.

(** A statement of [get_insert_query] that the table of [create_schema]
    accepts: names as words, and fields that are columns. *)
Definition accepted (table : string) (fields : list string) : bool :=
  bool_decide (table ∈ schema_tables)
  && is_name table
  && negb (bool_decide (fields = []))
  && forallb is_name fields
  && forallb (fun c => bool_decide
                         (c ∈ map col_name (t_columns (def_of table))))
             fields.

(** The shape of the insert functions: a list of mappings is built, which
    can raise, and bound to the statement of [get_insert_query]. *)
Definition run_stage (table : string) (fields : list string)
  (rows : result (list Params)) : DbM unit :=
  rows ← lift rows;
  executemany (get_insert_query table fields) rows.

(** A table after the rows [css] have been proposed to it. *)
Definition write (t : string) (css : list (list (string * value)))
  (ts : gmap string Table) : gmap string Table :=
  match ts !! t with
  | Some tb =>
      <[t := {| t_def := t_def tb;
                t_rows := insert_all_ignore (t_def tb) css (t_rows tb) |}]> ts
  | None => ts
  end.

(** What an insert function does to a store that has its table: it
    raises while it builds its rows and leaves the store alone, or it
    proposes its rows to its table. *)
Definition stage_spec (m : DbM unit) (t : string)
  (R : result (list (list (string * value)))) : Prop :=
  ∀ db, conforms (tables db) →
    match R with
    | Ok css =>
        ∃ db', m db = (Ok tt, db')
               ∧ tables db' = write t css (tables db)
               ∧ durable db' = durable db
    | Raise e => m db = (Raise e, db)
    end.

(** The statements of a sequence of insert functions, then [k]. *)
Fixpoint then_stages (l : list (DbM unit)) (k : DbM unit) : DbM unit :=
  match l with
  | [] => k
  | m :: l' => m;; then_stages l' k
  end.

(** The dictionary that [get_items_ids_by_field] builds from the rows of
    a table. *)
Definition ids_of_rows (field : string) (rows : list Row) : gmap value Z :=
  fold_left (fun d '(id, key) => <[key := id]> d)
            (map (fun r => (rowid r, cell (cells r) field)) rows) ∅.

(** The rows of a table, none when the table is not there. *)
Definition rows_in (ts : gmap string Table) (t : string) : list Row :=
  match ts !! t with
  | Some tb => t_rows tb
  | None => []
  end.

(** The first declaration of a name in a list of declarations. *)
Definition declared (l : list (string * TableDef)) (t : string)
  : option TableDef :=
  (fun entry : string * TableDef => entry.2)
    <$> List.find (fun entry : string * TableDef => String.eqb entry.1 t) l.

(** The table [t] turns away every row of [css]: each breaks a NOT NULL
    constraint or collides with a row of the table. *)
Definition settled (t : string) (css : list (list (string * value)))
  (ts : gmap string Table) : Prop :=
  ∃ rows,
    table_rows ts t rows
    ∧ Forall (fun cs => violates_not_null (def_of t) cs
                        || violates_unique (def_of t) cs rows = true) css.

(** The connection after [db.commit()]. *)
Definition committed (db : Db) : Db :=
  {| tables := tables db; durable := tables db; in_transaction := false;
     log := (log db ++ [EvCommit])%list |}.

(** The dictionary [d] is registered as a service center under [slug]. *)
Definition registered_center (st : State) (slug : string)
  (d : ServiceCenter) : Prop :=
  ∃ sc, service_centers st !! slug = Some sc ∧ sc_heap st !! sc = Some d.

(** The dictionary [c] is registered as a category of type [t] under
    [slug]. *)
Definition registered_category (st : State) (t : CategoryType)
  (slug : string) (c : Category) : Prop :=
  ∃ r, global_category t st !! slug = Some r ∧ cat_heap st !! r = Some c.

(** The registries as a run of the crawl leaves them. *)
Definition registries_consistent (st : State) : Prop :=
  registry_valid st ∧ facts_registered st ∧ categories_registered st
  ∧ registry_keys_agree st ∧ registry_linked st.

(** Every registered service center has the keys [title] and [phone],
    which [parse_service_center] sets when the page of the service center
    has them. *)
Definition centers_complete (st : State) : Prop :=
  ∀ slug d, registered_center st slug d →
    is_Some (sc_title d) ∧ is_Some (sc_phone d).

(** The row of [service_centers] for a dictionary. *)
Definition service_center_cells (d : ServiceCenter)
  : list (string * value) :=
  [("slug", VText (sc_slug d)); ("title", of_opt_str (sc_title d));
   ("phone", of_opt_str (sc_phone d)); ("slogan", of_opt_str (sc_slogan d));
   ("logo", of_opt_str (sc_logo d));
   ("site_url", of_opt_str (sc_site_url d));
   ("description", of_opt_str (sc_description d))].

(** The mappings of a junction of the service centers: one for every
    service center and every key of the set [keys] of its dictionary. *)
Definition junction_rows (st : State) (keys : ServiceCenter → gset string)
  (id_column : string) (sc_ids_by_slugs ids : gmap value Z)
  : result (list Params) :=
  for_service_centers st (fun sc => elements (keys sc))
    (fun sc_slug key =>
       service_center_id ← id_of sc_ids_by_slugs sc_slug;
       id ← id_of ids key;
       Ok (dict_params [("service_center_id", VInt service_center_id);
                        (id_column, VInt id)])).

(** The junctions of the service centers: the table, its column for the
    other key, the table and the field of that key, and the set of the
    dictionary that holds it. *)
Definition sc_junctions
  : list (string * string * string * string
          * (ServiceCenter → gset string)) :=
  [("brand_service_center", "brand_id", "brands", "slug", sc_brands);
   ("device_service_center", "device_id", "devices", "slug", sc_devices);
   ("metro_service_center", "metro_id", "metros", "title", sc_metros);
   ("advantage_service_center", "advantage_id", "advantages", "title",
    sc_advantages);
   ("feature_service_center", "feature_id", "features", "title",
    sc_features)].

(** The exception of a lookup of the key of a service center that
    [sc_ids_by_slugs] does not hold. *)
Definition missing_center (st : State) (sc_ids_by_slugs : gmap value Z)
  (e : exn) : Prop :=
  ∃ slug d, registered_center st slug d
            ∧ sc_ids_by_slugs !! VText slug = None
            ∧ e = KeyError slug.

(** The dictionary [ids] holds a key for every key of [keys]. *)
Definition resolves (ids : gmap value Z) (keys : gset string) : Prop :=
  ∀ key, key ∈ keys → is_Some (ids !! VText key).

(** The tables that [create_schema] leaves on a connection to a database
    file with the tables [ts]. *)
Definition with_schema (ts : gmap string Table) : gmap string Table :=
  tables (create_schema (connect ts)).2.

(** The insert functions of the tables without a reference, with their
    tables and the rows that they propose. *)
Definition entity_stages (st : State)
  (css : list (list (list (string * value))))
  : list (DbM unit * string * list (list (string * value))) :=
  zip [(insert_brands st, "brands"); (insert_devices st, "devices");
       (insert_metros st, "metros"); (insert_advantages st, "advantages");
       (insert_features st, "features")] css.

(** The table [t] has a row with [key] in its column [field], for every
    [key] of [keys]. *)
Definition holds (ts : gmap string Table) (t field : string)
  (keys : gset string) : Prop :=
  ∀ key, key ∈ keys →
    ∃ r, r ∈ rows_in ts t ∧ cell (cells r) field = VText key.

(** The dictionary that [get_items_ids_by_field] reads from the tables
    [ts]. *)
Definition ids_in (ts : gmap string Table) (table field : string)
  : gmap value Z :=
  ids_of_rows field (rows_in ts table).

(** The insert functions of the tables with references, with their
    tables, on the keys read back from the tables [ts]. *)
Definition relationship_stages (st : State) (ts : gmap string Table)
  : list (DbM unit * string) :=
  let sc_ids_by_slugs := ids_in ts "service_centers" "slug" in
  let metro_ids_by_titles := ids_in ts "metros" "title" in
  let brand_ids_by_slugs := ids_in ts "brands" "slug" in
  let device_ids_by_slugs := ids_in ts "devices" "slug" in
  let advantage_ids_by_titles := ids_in ts "advantages" "title" in
  let feature_ids_by_titles := ids_in ts "features" "title" in
  [(insert_opening_hours st sc_ids_by_slugs, "opening_hours");
   (insert_gallery_images st sc_ids_by_slugs, "gallery_images");
   (insert_services st device_ids_by_slugs, "services");
   (insert_locations st sc_ids_by_slugs metro_ids_by_titles, "locations");
   (insert_service_centers_brands st sc_ids_by_slugs brand_ids_by_slugs,
    "brand_service_center");
   (insert_service_centers_devices st sc_ids_by_slugs device_ids_by_slugs,
    "device_service_center");
   (insert_service_centers_metros st sc_ids_by_slugs metro_ids_by_titles,
    "metro_service_center");
   (insert_devices_brands st brand_ids_by_slugs device_ids_by_slugs,
    "brand_device");
   (insert_service_centers_advantages st sc_ids_by_slugs
      advantage_ids_by_titles, "advantage_service_center");
   (insert_service_centers_features st sc_ids_by_slugs
      feature_ids_by_titles, "feature_service_center")].

(** The tables whose keys [insert_data] reads back. *)
Definition entity_tables : list string :=
  ["service_centers"; "metros"; "brands"; "devices"; "advantages";
   "features"].

(** The service center [slug] is related in the tables [ts] to the row
    [key] of [entity] through the junction [t]. *)
Definition related_in (ts : gmap string Table)
  (t id_column entity field slug key : string) : Prop :=
  ∃ rs re rj,
    rs ∈ rows_in ts "service_centers"
    ∧ cell (cells rs) "slug" = VText slug
    ∧ re ∈ rows_in ts entity
    ∧ cell (cells re) field = VText key
    ∧ rj ∈ rows_in ts t
    ∧ cell (cells rj) id_column = VInt (rowid re)
    ∧ cell (cells rj) "service_center_id" = VInt (rowid rs).

(** The tables of the relationships. *)
Definition relationship_names : list string :=
  map (fun entry : string * list string => entry.1) relationship_tables.

(** *** Inputs to evaluate on *)

(** A stand-in for [slugify] on the titles of the examples: ASCII letters
    in lower case, a space as a hyphen. *)
Definition slug_char (c : ascii) : ascii :=
  let n := N_of_ascii c in
  if ((65 <=? n) && (n <=? 90))%N then ascii_of_N (n + 32)
  else if (n =? 32)%N then "-"%char
  else c.

Fixpoint ascii_slugify (s : string) : string :=
  match s with
  | EmptyString => EmptyString
  | String c s' => String (slug_char c) (ascii_slugify s')
  end.

(** A site to evaluate on: every page is empty. *)
Definition empty_page : DetailPage :=
  {| page_head := {| placemarks := [] |};
     page_location_tags := []; page_feature_tags := [];
     page_advantage_tags := None; page_title := None;
     page_phone_href := None; page_slogan := None; page_site_link := None;
     page_description := None; page_logo_src := None;
     page_gallery_imgs := [] |}.

Definition no_site (n : nat) (url : string) : DetailPage := empty_page.

(** The naming of downloaded files, [f'{path.parent.name}/{path.name}']
    with [pathlib]'s reading of a relative path: its components are the
    pieces between the slashes, without the empty ones and the dots;
    [path.name] is the last of them, [path.parent.name] the one before,
    and either is empty when there is none. *)
Definition path_parts (path : string) : list string :=
  List.filter (fun part => negb (part =? "")%string && negb (part =? ".")%string)
    (Str.split "/" path).

Definition path_name (path : string) : string :=
  match rev (path_parts path) with
  | name :: parent :: _ => parent ++ "/" ++ name
  | [name] => "/" ++ name
  | [] => "/"
  end.

(** Two cards of one service center, found under two categories. *)
Definition card_under_brand : SCCard :=
  {| card_title := "Remont Plus"; card_link := "/sc_remont-plus.htm";
     card_metros_tags := [{| get_text := "метро Новокрестовская" |}];
     card_hours_tags := [{| get_text := "ПН-ПТ - 09:00 18:00" |}];
     card_address_tag := None |}.

Definition card_under_device : SCCard :=
  {| card_title := "REMONT PLUS"; card_link := "/sc_remont-plus.htm";
     card_metros_tags := []; card_hours_tags := [];
     card_address_tag := None |}.

(** A state to evaluate on: one service center under its slug. *)
Definition one_center_state : State :=
  with_service_centers (fun d => <["remont-plus" := 0%nat]> d)
    (with_sc_heap (fun _ => [new_sc_dict "remont-plus"]) initial_state).

(** A state to evaluate on: the brand Apple registered under its slug. *)
Definition one_brand_state : State :=
  with_brands (fun d => <["apple" := 0%nat]> d)
    (with_cat_heap
       (fun _ => [{| cat_title := "Apple"; cat_slug := "apple";
                     cat_type := brands_t; cat_thumbnail_url := None;
                     cat_is_popular := false;
                     cat_brands := None; cat_services := None |}])
       initial_state).

(** A state to evaluate on: the brand Apple and the device category of
    phones, each registered under its slug. *)
Definition two_categories_state : State :=
  with_devices (fun d => <["telefony" := 1%nat]> d)
    (with_cat_heap
       (fun h => h ++ [{| cat_title := "Telefony"; cat_slug := "telefony";
                          cat_type := devices_t; cat_thumbnail_url := None;
                          cat_is_popular := false;
                          cat_brands := Some ∅; cat_services := Some [] |}])%list
       one_brand_state).

(** The same with a service center registered under "remont-plus". *)
Definition registered_state : State :=
  with_service_centers (fun d => <["remont-plus" := 0%nat]> d)
    (with_sc_heap (fun _ => [new_sc_dict "remont-plus"])
       two_categories_state).

(** A state to evaluate on: an enriched service center with two metros, and
    with two locations of which the second names its metro as the site
    does. *)
Definition two_metros_center : ServiceCenter :=
  sc_with_locations
    (fun _ => [{| loc_coords := None; loc_metro := "Автово";
                  loc_address := "пр. Стачек, 1"; loc_is_primary := true |};
               {| loc_coords := None; loc_metro := "Новокрестовская";
                  loc_address := "Футбольная аллея, 1";
                  loc_is_primary := false |}])
    (sc_with_sets (fun s => add_metro_key "Зенит" (add_metro_key "Автово" s))
       (sc_with_scalars
          (fun v => set_phone (Some "78120000000")
                      (set_title (Some "Ремонт Плюс") v))
          (new_sc_dict "remont-plus"))).

Definition two_metros_state : State :=
  with_service_centers (fun d => <["remont-plus" := 0%nat]> d)
    (with_sc_heap (fun _ => [two_metros_center])
       (with_metros (fun d => <["Зенит" := "Зенит"]> (<["Автово" := "Автово"]> d))
          initial_state)).

(** The store after [create_schema] on an empty database file. *)
Definition empty_store : Db := (create_schema (connect ∅)).2.

(** A page of a service center with a title, a phone, a site without a
    scheme and one image, and a site that serves it at every address. *)
Definition titled_page : DetailPage :=
  {| page_head := {| placemarks := [] |};
     page_location_tags := []; page_feature_tags := [];
     page_advantage_tags := None;
     page_title := Some {| get_text := "Сервисный центр Remont Plus" |};
     page_phone_href := Some "tel:+78120000000"; page_slogan := None;
     page_site_link := Some (Some "remont.example");
     page_description := None; page_logo_src := None;
     page_gallery_imgs :=
       [{| img_alt := None; img_src := Some "/img/1.jpg";
           img_data_src := None |}] |}.

Definition titled_site (n : nat) (url : string) : DetailPage := titled_page.

(** A page whose gallery shows one image twice and another one once. *)
Definition gallery_page : DetailPage :=
  {| page_head := {| placemarks := [] |};
     page_location_tags := []; page_feature_tags := [];
     page_advantage_tags := None; page_title := None;
     page_phone_href := None; page_slogan := None; page_site_link := None;
     page_description := None; page_logo_src := None;
     page_gallery_imgs :=
       [{| img_alt := None; img_src := Some "/img/1.jpg";
           img_data_src := None |};
        {| img_alt := None; img_src := Some "/img/1.jpg";
           img_data_src := None |};
        {| img_alt := None; img_src := Some "/photos/2.jpg";
           img_data_src := None |}] |}.

(** The anchors of a brand without and with a logo. *)
Definition apple_tag : CategoryTag :=
  {| ct_text := "Apple"; ct_href := "/apple"; ct_img := None |}.

Definition apple_logo_tag : CategoryTag :=
  {| ct_text := "";
     ct_href := "/apple";
     ct_img := Some {| img_alt := Some "Логотип Apple"; img_src := None;
                       img_data_src := Some "/logos/apple.png" |} |}.

(** A run of the crawl: a brand is registered, and a service center is
    found under it. *)
Definition small_crawl : list crawl_op :=
  [OpAddCategory brands_t apple_tag;
   OpParseServiceCenter card_under_brand 0%nat].

(** * Properties *)

(** ** The string operations on examples *)

Example split_example : Str.split "-" "ПН-ПТ" = ["ПН"; "ПТ"].
Proof. reflexivity. Qed.

Example split_empty_pieces : Str.split "-" "a-b--c" = ["a"; "b"; ""; "c"].
Proof. reflexivity. Qed.

Example split1_example :
  Str.split1 "-" "метро Автово-пр. Стачек, 1" = ["метро Автово"; "пр. Стачек, 1"].
Proof. reflexivity. Qed.

Example split1_keeps_later_hyphens : Str.split1 "-" "a-b-c" = ["a"; "b-c"].
Proof. reflexivity. Qed.

Example rsplit1_example :
  Str.rsplit1 " - " "ПН-ПТ - 09:00 18:00" = ["ПН-ПТ"; "09:00 18:00"].
Proof. reflexivity. Qed.

Example rsplit1_takes_the_last : Str.rsplit1 " - " "a - b - c" = ["a - b"; "c"].
Proof. reflexivity. Qed.

Example split_ws_example :
  Str.split_ws "  09:00  18:00 " = ["09:00"; "18:00"].
Proof. reflexivity. Qed.

(** A no-break space, U+00A0, separates as a space does. *)
Example split_ws_no_break_space :
  Str.split_ws ("09:00" ++ String (ascii_of_nat 194)
                             (String (ascii_of_nat 160) "18:00"))
  = ["09:00"; "18:00"].
Proof. reflexivity. Qed.

Example removeprefix_example :
  Str.removeprefix "метро " "метро Автово" = "Автово".
Proof. reflexivity. Qed.

Example removesuffix_example : Str.removesuffix " руб." "500 руб." = "500".
Proof. reflexivity. Qed.

Example contains_example :
  Str.contains "Невский пр., 1" "Невский пр., 100" = true.
Proof. reflexivity. Qed.

Example get_insert_query_example :
  get_insert_query "devices" ["slug"; "title"]
  = "INSERT OR IGNORE INTO devices (" ++ nl
    ++ "        slug, title" ++ nl
    ++ "    ) VALUES (" ++ nl
    ++ "        :slug, :title" ++ nl
    ++ "    )".
Proof. reflexivity. Qed.

(** ** Invariants of computations *)

Section Preserves.

Context {S : Type} (I : S → Prop).

Lemma preserves_ret {A} (a : A) : preserves I (mret a : ST S A).
Proof. by intros st. Qed.

Lemma preserves_lift {A} (r : result A) : preserves I (lift r).
Proof. by intros st. Qed.

Lemma preserves_get_state : preserves I get_state.
Proof. by intros st. Qed.

Lemma preserves_modify (f : S → S) :
  (∀ st, I st → I (f st)) → preserves I (modify f).
Proof. intros Hf st. apply Hf. Qed.

Lemma preserves_bind {A B} (m : ST S A) (f : A → ST S B) :
  preserves I m → (∀ a, preserves I (f a)) → preserves I (m ≫= f).
Proof.
  intros Hm Hf st HI. unfold mbind, ST_bind.
  specialize (Hm st HI). destruct (m st) as [[a|e] st']; [|done].
  by apply Hf.
Qed.

Lemma preserves_for_each {A} (l : list A) (body : A → ST S unit) :
  (∀ x, preserves I (body x)) → preserves I (for_each l body).
Proof.
  intros Hbody. induction l as [|x l IH]; [apply preserves_ret|].
  cbn [for_each]. by apply preserves_bind.
Qed.

Lemma preserves_mapM_ordered {A B} (f : A → ST S B) (l : list A) :
  (∀ x, preserves I (f x)) → preserves I (mapM_ordered f l).
Proof.
  intros Hf. induction l as [|x l IH]; [apply preserves_ret|].
  cbn [mapM_ordered]. apply preserves_bind; [done|]. intros y.
  apply preserves_bind; [done|]. intros ys. apply preserves_ret.
Qed.

End Preserves.

(** ** Running a computation *)

Lemma bind_run {S A B} (m : ST S A) (k : A → ST S B) (st : S) :
  (m ≫= k) st
  = match m st with
    | (Ok a, st') => k a st'
    | (Raise e, st') => (Raise e, st')
    end.
Proof. reflexivity. Qed.

Lemma mapM_ordered_cons {S A B} (f : A → ST S B) (x : A) (l : list A)
  (st : S) :
  mapM_ordered f (x :: l) st
  = match f x st with
    | (Ok y, st1) =>
        match mapM_ordered f l st1 with
        | (Ok ys, st2) => (Ok (y :: ys), st2)
        | (Raise e, st2) => (Raise e, st2)
        end
    | (Raise e, st1) => (Raise e, st1)
    end.
Proof. reflexivity. Qed.

(** Splits a computation into its statements; what is left are the
    statements that change the state. *)
Ltac preserves_step :=
  lazymatch goal with
  | |- preserves _ (_ ≫= _) => apply preserves_bind; [|intros ?]
  | |- preserves _ (mret _) => apply preserves_ret
  | |- preserves _ (lift _) => apply preserves_lift
  | |- preserves _ get_state => apply preserves_get_state
  | |- preserves _ (for_each _ _) => apply preserves_for_each; intros ?
  | |- preserves _ (mapM_ordered _ _) =>
      apply preserves_mapM_ordered; intros ?
  | |- preserves _ (match ?x with _ => _ end) => destruct x
  | |- preserves _ (let '(_, _) := ?x in _) => destruct x
  end.

(** Proves that a computation preserves an invariant from the facts
    [prims] on the statements that change the state; what is left are
    the conditions of these facts. *)
Ltac invariant_tac prims :=
  repeat first
    [ apply prims
    | preserves_step
    | by apply preserves_modify ];
  try (by intros ? ?).

Section CrawlProperties.

Variable slugify : string → string.
Variable fetch : nat → string → DetailPage.
Variable stored_name : string → string.

Lemma update_service_center_eq sc f st d :
  sc_heap st !! sc = Some d →
  update_service_center sc f st
  = (Ok tt, with_sc_heap (fun h => <[sc := f d]> h) st).
Proof. intros H. unfold update_service_center. by rewrite H. Qed.

Lemma add_opening_hour_eq sc hour_tag st :
  add_opening_hour sc hour_tag st
  = match opening_hour_of (get_text hour_tag) with
    | Ok r => update_service_center sc (append_opening_hour r) st
    | Raise e => (Raise e, st)
    end.
Proof.
  unfold add_opening_hour, opening_hour_of, mbind, ST_bind, result_bind, lift.
  destruct (unpack2 _) as [[weekdays times]|]; [|done].
  destruct (mapR _ _) as [ws|]; [|done].
  destruct (first ws); [|done].
  destruct (last_item ws); [|done].
  destruct (first _); [|done].
  by destruct (last_item _).
Qed.

Lemma update_service_center_reads sc f st d :
  sc_heap st !! sc = Some d →
  ∃ st',
    update_service_center sc f st = (Ok tt, st')
    ∧ sc_heap st' !! sc = Some (f d).
Proof.
  intros H. eexists. split; [by apply update_service_center_eq|].
  cbn. apply list_lookup_insert_eq. by eapply lookup_lt_Some.
Qed.

(** C5. [add_opening_hour] appends, for the three tokens of the
    specification, exactly the stated records to the opening hours of the
    service center, as read from the resulting state: all week round the
    clock is 1, 7, "00:00", "00:00"; Sunday closed is 7, 7 with both times
    null; Monday to Friday from 09:00 to 18:00 is 1, 5, "09:00", "18:00".
    The seven weekday symbols are numbered from Monday = 1 to Sunday = 7. *)
Theorem add_opening_hour_spec_tokens (st : State) (sc : sc_ref)
  (d : ServiceCenter) :
  sc_heap st !! sc = Some d →
  let appends text w_from w_to t_from t_to :=
    ∃ st' d',
      add_opening_hour sc {| get_text := text |} st = (Ok tt, st')
      ∧ sc_heap st' !! sc = Some d'
      ∧ sc_opening_hours d'
        = (sc_opening_hours d
           ++ [{| weekday_from := w_from; weekday_to := w_to;
                  time_from := t_from; time_to := t_to |}])%list
  in
  appends "ПН-ВС - Круглосуточно" 1 7 (Some "00:00") (Some "00:00")
  ∧ appends "ВС - Выходной" 7 7 None None
  ∧ appends "ПН-ПТ - 09:00 18:00" 1 5 (Some "09:00") (Some "18:00")
  ∧ weekdays_names = ["ПН"; "ВТ"; "СР"; "ЧТ"; "ПТ"; "СБ"; "ВС"]
  ∧ mapR (fun day => (fun i => Z.of_nat i + 1) <$> index_of day weekdays_names)
         weekdays_names
    = Ok [1; 2; 3; 4; 5; 6; 7].
Proof.
  intros H appends. subst appends. cbv beta.
  repeat split; try reflexivity;
    rewrite add_opening_hour_eq;
    match goal with
    | |- context [opening_hour_of ?t] =>
        let r := eval vm_compute in (opening_hour_of t) in
        change (opening_hour_of t) with r
    end;
    cbv iota beta;
    (edestruct update_service_center_reads as (st' & Hrun & Hread);
     [exact H|]);
    exists st'; eexists; (split; [exact Hrun|]); (split; [exact Hread|]);
    reflexivity.
Qed.




Lemma update_category_eq r f st c :
  cat_heap st !! r = Some c →
  update_category r f st
  = (Ok tt, with_cat_heap (fun h => <[r := f c]> h) st).
Proof. intros H. unfold update_category. by rewrite H. Qed.

Lemma mark_popular_absent target (items : list (string * cat_ref)) st :
  target ∉ items.*1 →
  for_each items (mark_popular target) st = (Ok tt, st).
Proof.
  induction items as [|[k r] items IH]; intros Hnot; [done|].
  cbn [for_each mark_popular]. unfold mbind, ST_bind.
  cbn in Hnot. apply not_elem_of_cons in Hnot as [Hne Hnot].
  destruct (String.eqb_spec k target) as [->|_]; [done|].
  cbn. by apply IH.
Qed.

Lemma mark_popular_present target (items : list (string * cat_ref))
  st r c :
  NoDup items.*1 →
  (target, r) ∈ items →
  cat_heap st !! r = Some c →
  for_each items (mark_popular target) st
  = (Ok tt,
     with_cat_heap (fun h => <[r := cat_set_is_popular true c]> h) st).
Proof.
  induction items as [|[k r'] items IH]; intros Hnd Hin Hc.
  { by apply elem_of_nil in Hin. }
  cbn in Hnd. apply NoDup_cons in Hnd as [Hk Hnd].
  cbn [for_each mark_popular]. unfold mbind, ST_bind.
  apply elem_of_cons in Hin as [Heq|Hin].
  - inversion Heq; subst k r'. rewrite String.eqb_refl.
    rewrite (update_category_eq _ _ _ _ Hc).
    by apply mark_popular_absent.
  - destruct (String.eqb_spec k target) as [->|_].
    + exfalso. apply Hk. apply list_elem_of_fmap. by exists (target, r).
    + cbn. by apply IH.
Qed.

(** C9. [add_popular_brand] only ever sets the [is_popular] key of the
    brand registered under the slug of the anchor's title: when there is
    such a brand, the state afterwards is the state before with that one
    dictionary's [is_popular] set to true; when there is none, the state
    is unchanged, so that no brand is created; and when the title cannot
    be read the exception leaves the state unchanged too.  In every case
    the brands registry maps the same keys to the same dictionaries, and
    every dictionary keeps all its keys other than [is_popular]. *)
Theorem add_popular_brand_frame (st : State) (brand_tag : CategoryTag) :
  (∀ slug r, brands st !! slug = Some r → is_Some (cat_heap st !! r)) →
  (∀ st', (add_popular_brand slugify brand_tag st).2 = st' →
     brands st' = brands st ∧ devices st' = devices st
     ∧ service_centers st' = service_centers st
     ∧ sc_heap st' = sc_heap st
     ∧ length (cat_heap st') = length (cat_heap st)
     ∧ ∀ r c, cat_heap st !! r = Some c →
         ∃ c', cat_heap st' !! r = Some c' ∧ same_but_is_popular c c')
  ∧ match get_category_title brand_tag with
    | Ok title =>
        match brands st !! slugify title with
        | Some r =>
            ∃ c, cat_heap st !! r = Some c
              ∧ add_popular_brand slugify brand_tag st
                = (Ok tt,
                   with_cat_heap
                     (fun h => <[r := cat_set_is_popular true c]> h) st)
        | None => add_popular_brand slugify brand_tag st = (Ok tt, st)
        end
    | Raise e => add_popular_brand slugify brand_tag st = (Raise e, st)
    end.
Proof.
  intros Hvalid.
  assert (match get_category_title brand_tag with
    | Ok title =>
        match brands st !! slugify title with
        | Some r =>
            ∃ c, cat_heap st !! r = Some c
              ∧ add_popular_brand slugify brand_tag st
                = (Ok tt,
                   with_cat_heap
                     (fun h => <[r := cat_set_is_popular true c]> h) st)
        | None => add_popular_brand slugify brand_tag st = (Ok tt, st)
        end
    | Raise e => add_popular_brand slugify brand_tag st = (Raise e, st)
    end) as Hrun.
  { unfold add_popular_brand, mbind at 1, ST_bind, lift.
    destruct (get_category_title brand_tag) as [title|e]; [|done].
    cbn [fmap result_fmap]. unfold mbind, ST_bind, get_state.
    change (fun '(brand_slug, brand) =>
              if String.eqb brand_slug (slugify title)
              then update_category brand (cat_set_is_popular true)
              else mret tt) with (mark_popular (slugify title)).
    destruct (brands st !! _) as [r|] eqn:Hr.
    - destruct (Hvalid _ _ Hr) as [c Hc]. exists c. split; [done|].
      apply mark_popular_present; [|by apply elem_of_map_to_list|done].
      apply NoDup_fst_map_to_list.
    - apply mark_popular_absent. intros Hin.
      apply list_elem_of_fmap in Hin as ([k r] & Hk & Hin).
      apply elem_of_map_to_list in Hin. cbn in Hk. congruence. }
  split; [|exact Hrun].
  intros st' <-.
  destruct (get_category_title brand_tag) as [title|e];
    [destruct (brands st !! _) as [r|]|].
  - destruct Hrun as (c & Hc & ->). cbn.
    repeat split; try done; [by rewrite length_insert|].
    intros r' c' Hc'. destruct (decide (r = r')) as [<-|Hne].
    + rewrite list_lookup_insert_eq by by eapply lookup_lt_Some.
      eexists; split; [done|].
      pose proof (eq_trans (eq_sym Hc) Hc') as Heq. by inversion Heq.
    + rewrite list_lookup_insert_ne by done. by exists c'.
  - rewrite Hrun. repeat split; try done. intros r c Hc. by exists c.
  - rewrite Hrun. repeat split; try done. intros r c Hc. by exists c.
Qed.

(** *** The metro titles *)

Lemma normalised_update_sc sc f :
  (∀ d, "Новокрестовская" ∉ sc_metros d →
        "Новокрестовская" ∉ sc_metros (f d)) →
  preserves metro_titles_normalised (update_service_center sc f).
Proof.
  intros Hf st [Hm Hsc]. unfold update_service_center.
  destruct (sc_heap st !! sc) as [d|] eqn:Hd; [|done].
  split; [done|]. cbn. intros sc' d' Hd'.
  destruct (decide (sc = sc')) as [<-|Hne].
  - rewrite list_lookup_insert_eq in Hd' by by eapply lookup_lt_Some.
    inversion Hd'; subst d'. apply Hf. by eapply Hsc.
  - rewrite list_lookup_insert_ne in Hd' by done. by eapply Hsc.
Qed.

Lemma normalised_update_category r f :
  preserves metro_titles_normalised (update_category r f).
Proof.
  intros st HI. unfold update_category. by destruct (cat_heap st !! r).
Qed.

Lemma normalised_read_category r :
  preserves metro_titles_normalised (read_category r).
Proof.
  intros st HI. unfold read_category. by destruct (cat_heap st !! r).
Qed.

Lemma normalised_read_service_center r :
  preserves metro_titles_normalised (read_service_center r).
Proof.
  intros st HI. unfold read_service_center. by destruct (sc_heap st !! r).
Qed.

Lemma normalised_new_category c :
  preserves metro_titles_normalised (new_category c).
Proof. by intros st HI. Qed.

Lemma normalised_new_service_center d :
  "Новокрестовская" ∉ sc_metros d →
  preserves metro_titles_normalised (new_service_center d).
Proof.
  intros Hd st [Hm Hsc]. split; [done|]. cbn. intros sc' d' Hd'.
  apply lookup_app_Some in Hd' as [Hd'|[_ Hd']]; [by eapply Hsc|].
  destruct (sc' - length (sc_heap st))%nat; [|done].
  by inversion Hd'; subst.
Qed.

Lemma normalised_session_get url :
  preserves metro_titles_normalised (session_get fetch url).
Proof. by intros st HI. Qed.

Lemma normalised_download_file url :
  preserves metro_titles_normalised (download_file fetch stored_name url).
Proof.
  unfold download_file. repeat preserves_step.
  - apply normalised_session_get.
  - by apply preserves_modify.
Qed.

(** The title under which [add_metro] registers the text of a tag. *)
Lemma metro_title_normal (text : string) :
  (if String.eqb (Str.removeprefix "метро " text) "Новокрестовская"
   then "Зенит" else Str.removeprefix "метро " text)
  ≠ "Новокрестовская".
Proof.
  destruct (String.eqb_spec (Str.removeprefix "метро " text)
              "Новокрестовская"); [discriminate|done].
Qed.

(** The statements of the crawl that keep the titles normalised. *)
Lemma normalised_primitives :
  (∀ r f, preserves metro_titles_normalised (update_category r f))
  ∧ (∀ r, preserves metro_titles_normalised (read_category r))
  ∧ (∀ r, preserves metro_titles_normalised (read_service_center r))
  ∧ (∀ c, preserves metro_titles_normalised (new_category c))
  ∧ (∀ url, preserves metro_titles_normalised (session_get fetch url))
  ∧ (∀ url, preserves metro_titles_normalised
              (download_file fetch stored_name url))
  ∧ (∀ sc f,
       (∀ d, "Новокрестовская" ∉ sc_metros d →
             "Новокрестовская" ∉ sc_metros (f d)) →
       preserves metro_titles_normalised (update_service_center sc f))
  ∧ (∀ d, "Новокрестовская" ∉ sc_metros d →
          preserves metro_titles_normalised (new_service_center d)).
Proof.
  split; [exact normalised_update_category|].
  split; [exact normalised_read_category|].
  split; [exact normalised_read_service_center|].
  split; [exact normalised_new_category|].
  split; [exact normalised_session_get|].
  split; [exact normalised_download_file|].
  split; [exact normalised_update_sc|exact normalised_new_service_center].
Qed.

Lemma normalised_add_metro sc metro_tag :
  preserves metro_titles_normalised (add_metro sc metro_tag).
Proof.
  unfold add_metro. pose proof (metro_title_normal (get_text metro_tag)).
  invariant_tac normalised_primitives.
  - apply preserves_modify. intros st [Hm Hsc]. split; [|done].
    cbn. rewrite dom_insert_L. apply not_elem_of_union. split; [|done].
    by apply not_elem_of_singleton.
  - intros d Hd. cbn.
    apply not_elem_of_union. split; [done|].
    by apply not_elem_of_singleton.
Qed.

Lemma normalised_add_service_center sc_card category :
  preserves metro_titles_normalised
    (add_service_center slugify sc_card category).
Proof.
  unfold add_service_center. invariant_tac normalised_primitives.
  - cbn. apply not_elem_of_empty.
  - intros d Hd. by destruct (cat_type _).
Qed.

Lemma normalised_add_opening_hour sc hour_tag :
  preserves metro_titles_normalised (add_opening_hour sc hour_tag).
Proof. unfold add_opening_hour. invariant_tac normalised_primitives. Qed.

Lemma normalised_add_location sc location_tag head_tag :
  preserves metro_titles_normalised (add_location sc location_tag head_tag).
Proof. unfold add_location. invariant_tac normalised_primitives. Qed.

Lemma normalised_add_feature sc feature_tag :
  preserves metro_titles_normalised (add_feature sc feature_tag).
Proof. unfold add_feature. invariant_tac normalised_primitives. Qed.

Lemma normalised_add_advantage sc advantage_tag :
  preserves metro_titles_normalised (add_advantage sc advantage_tag).
Proof. unfold add_advantage. invariant_tac normalised_primitives. Qed.

Lemma normalised_add_service category service_tag :
  preserves metro_titles_normalised (add_service category service_tag).
Proof. unfold add_service. invariant_tac normalised_primitives. Qed.

Lemma normalised_add_category category_type category_tag :
  preserves metro_titles_normalised
    (add_category slugify category_type category_tag).
Proof.
  unfold add_category. invariant_tac normalised_primitives.
  all: apply preserves_modify; intros st HI; by destruct category_type.
Qed.

Lemma normalised_add_popular_brand brand_tag :
  preserves metro_titles_normalised (add_popular_brand slugify brand_tag).
Proof.
  unfold add_popular_brand. invariant_tac normalised_primitives.
Qed.

Lemma normalised_parse_service_center sc_card category :
  preserves metro_titles_normalised
    (parse_service_center slugify fetch stored_name sc_card category).
Proof.
  unfold parse_service_center. apply preserves_bind;
    [apply normalised_add_service_center|].
  intros [sc added]. destruct added; cbn [negb]; [|apply preserves_ret].
  unfold enrich_service_center, parse_gallery, gather_download_file.
  repeat first
    [ apply normalised_add_metro | apply normalised_add_opening_hour
    | apply normalised_add_location | apply normalised_add_feature
    | apply normalised_add_advantage
    | progress invariant_tac normalised_primitives ].
  all: destruct (negb _); invariant_tac normalised_primitives.
Qed.

Lemma normalised_run_op op :
  preserves metro_titles_normalised (run_op slugify fetch stored_name op).
Proof.
  destruct op; cbn [run_op].
  - apply normalised_add_popular_brand.
  - apply preserves_bind; [apply normalised_add_category|].
    intros ?. apply preserves_ret.
  - unfold add_device_brand. invariant_tac normalised_primitives.
  - apply preserves_bind; [apply normalised_add_service_center|].
    intros ?. apply preserves_ret.
  - apply normalised_parse_service_center.
  - apply normalised_add_service.
  - apply normalised_add_advantage.
  - apply normalised_add_feature.
  - apply normalised_add_metro.
  - apply normalised_add_location.
  - apply normalised_add_opening_hour.
  - invariant_tac normalised_primitives.
  - invariant_tac normalised_primitives.
Qed.

Lemma normalised_run_ops ops st :
  metro_titles_normalised st →
  metro_titles_normalised (run_ops slugify fetch stored_name ops st).
Proof.
  revert st. induction ops as [|op ops IH]; intros st HI; [done|].
  cbn. apply IH. by apply normalised_run_op.
Qed.

(** C10. [add_metro] registers a metro, and relates the service center
    to it, under a normalised title: the text of the tag without its
    prefix "метро ", and "Зенит" when that is "Новокрестовская".  The
    title registered is therefore never "Новокрестовская", and differs
    from the source text for that one station.  Starting from the empty
    registries, whatever the crawl does, the metros registry and the
    metro set of every service center never hold "Новокрестовская". *)
Theorem add_metro_normalises (ops : list crawl_op) (st : State)
  (sc : sc_ref) (d : ServiceCenter) (metro_tag : TextTag) :
  sc_heap st !! sc = Some d →
  let source := Str.removeprefix "метро " (get_text metro_tag) in
  let title :=
    if String.eqb source "Новокрестовская" then "Зенит" else source in
  add_metro sc metro_tag st
  = (Ok tt,
     with_sc_heap
       (fun h => <[sc := sc_with_sets (add_metro_key title) d]> h)
       (with_metros (fun m => <[title := title]> m) st))
  ∧ title ≠ "Новокрестовская"
  ∧ (source = "Новокрестовская" → title = "Зенит" ∧ title ≠ source)
  ∧ (source ≠ "Новокрестовская" → title = source)
  ∧ metro_titles_normalised
      (run_ops slugify fetch stored_name ops initial_state).
Proof.
  intros Hd source title.
  split; [|split; [|split; [|split]]].
  - unfold add_metro, mbind, ST_bind, modify. fold source. fold title.
    by apply update_service_center_eq.
  - apply metro_title_normal.
  - subst title. intros ->. by rewrite String.eqb_refl.
  - subst title. intros Hne.
    by destruct (String.eqb_spec source "Новокрестовская").
  - apply (normalised_run_ops ops initial_state). split; [|done].
    cbn. by rewrite dom_empty_L.
Qed.

(** *** The service-center upsert *)

Lemma insert_at_end {A} (h : list A) (x y : A) :
  <[length h := y]> (h ++ [x])%list = (h ++ [y])%list.
Proof.
  rewrite insert_app_r_alt by lia. by rewrite Nat.sub_diag.
Qed.

(** What [add_service_center] does when the slug of the card is already
    registered. *)
Lemma add_service_center_existing st sc_card category cat sc d :
  cat_heap st !! category = Some cat →
  service_centers st !! slugify (card_title sc_card) = Some sc →
  sc_heap st !! sc = Some d →
  add_service_center slugify sc_card category st
  = (Ok (sc, false),
     with_sc_heap (fun h => <[sc := with_category cat d]> h) st).
Proof.
  intros Hcat Hreg Hd.
  unfold add_service_center, mbind, ST_bind, get_state.
  rewrite Hreg. cbn. unfold read_category. rewrite Hcat.
  unfold update_service_center. by rewrite Hd.
Qed.

(** What it does when the slug is new. *)
Lemma add_service_center_new st sc_card category cat :
  cat_heap st !! category = Some cat →
  service_centers st !! slugify (card_title sc_card) = None →
  add_service_center slugify sc_card category st
  = (Ok (length (sc_heap st), true),
     with_service_centers
       (fun r => <[slugify (card_title sc_card) := length (sc_heap st)]> r)
       (with_sc_heap
          (fun h => h ++ [with_category cat
                            (new_sc_dict (slugify (card_title sc_card)))])%list
          st)).
Proof.
  intros Hcat Hreg.
  unfold add_service_center, mbind, ST_bind, get_state.
  rewrite Hreg. cbn. unfold read_category. cbn. rewrite Hcat.
  unfold update_service_center. cbn.
  rewrite lookup_app_r, Nat.sub_diag by done. cbn.
  unfold with_sc_heap, with_service_centers. cbn.
  by rewrite insert_at_end.
Qed.

Lemma frame_update_sc R H n sc f :
  preserves (enrichment_frame R H n) (update_service_center sc f).
Proof.
  intros st (HR & HH & Hn). unfold update_service_center.
  destruct (sc_heap st !! sc); [|done].
  repeat split; try done. cbn. by rewrite length_insert.
Qed.

Lemma frame_read_sc R H n sc :
  preserves (enrichment_frame R H n) (read_service_center sc).
Proof.
  intros st HI. unfold read_service_center. by destruct (sc_heap st !! sc).
Qed.

Lemma frame_session_get R H n url :
  preserves (enrichment_frame R H n) (session_get fetch url).
Proof. by intros st HI. Qed.

Lemma frame_primitives R H n :
  (∀ sc f, preserves (enrichment_frame R H n) (update_service_center sc f))
  ∧ (∀ sc, preserves (enrichment_frame R H n) (read_service_center sc))
  ∧ (∀ url, preserves (enrichment_frame R H n) (session_get fetch url)).
Proof.
  split; [exact (frame_update_sc R H n)|].
  split; [exact (frame_read_sc R H n)|exact (frame_session_get R H n)].
Qed.

Lemma frame_enrich R H n sc sc_card :
  preserves (enrichment_frame R H n)
    (enrich_service_center fetch stored_name sc sc_card).
Proof.
  unfold enrich_service_center, parse_gallery, gather_download_file,
    add_metro, add_opening_hour,
    add_location, add_feature, add_advantage, download_file.
  invariant_tac (frame_primitives R H n).
  all: destruct (negb _); invariant_tac (frame_primitives R H n).
Qed.

(** A later sighting of a registered service center: [parse_service_center]
    adds the slug of the category to the set of its type and returns. *)
Lemma parse_service_center_existing st sc_card category cat sc d :
  cat_heap st !! category = Some cat →
  service_centers st !! slugify (card_title sc_card) = Some sc →
  sc_heap st !! sc = Some d →
  parse_service_center slugify fetch stored_name sc_card category st
  = (Ok tt, with_sc_heap (fun h => <[sc := with_category cat d]> h) st).
Proof.
  intros Hcat Hreg Hd. unfold parse_service_center, mbind, ST_bind.
  by rewrite (add_service_center_existing _ _ _ _ _ _ Hcat Hreg Hd).
Qed.

(** The first sighting: whatever the enrichment does and wherever it may
    raise, the service center stays registered under its slug. *)
Lemma parse_service_center_new st sc_card category cat :
  cat_heap st !! category = Some cat →
  service_centers st !! slugify (card_title sc_card) = None →
  let st1 :=
    (parse_service_center slugify fetch stored_name sc_card category st).2 in
  service_centers st1
  = <[slugify (card_title sc_card) := length (sc_heap st)]>
      (service_centers st)
  ∧ cat_heap st1 = cat_heap st
  ∧ length (sc_heap st1) = S (length (sc_heap st)).
Proof.
  intros Hcat Hreg. unfold parse_service_center, mbind, ST_bind.
  rewrite (add_service_center_new _ _ _ _ Hcat Hreg). cbn [negb].
  apply frame_enrich. repeat split; try done.
  cbn. rewrite length_app. cbn. lia.
Qed.

Lemma registry_valid_update st sc d :
  registry_valid st →
  registry_valid (with_sc_heap (fun h => <[sc := d]> h) st).
Proof.
  intros Hv slug sc' Hreg. cbn in *. destruct (Hv _ _ Hreg) as [d' Hd'].
  apply lookup_lt_is_Some. rewrite length_insert.
  by eapply lookup_lt_Some.
Qed.

Lemma registry_valid_new st slug d :
  registry_valid st →
  registry_valid
    (with_service_centers (fun r => <[slug := length (sc_heap st)]> r)
       (with_sc_heap (fun h => h ++ [d])%list st)).
Proof.
  intros Hv slug' sc' Hreg. cbn in *. apply lookup_lt_is_Some.
  rewrite length_app. cbn.
  destruct (decide (slug = slug')) as [<-|Hne].
  - rewrite lookup_insert_eq in Hreg. inversion Hreg. lia.
  - rewrite lookup_insert_ne in Hreg by done.
    destruct (Hv _ _ Hreg) as [d' Hd']. apply lookup_lt_Some in Hd'. lia.
Qed.

(** The flags of any sequence of calls: a call creates exactly when its
    slug is neither registered at the start nor the slug of an earlier
    call. *)
Lemma created_flags_run calls st :
  registry_valid st →
  Forall (fun call : SCCard * cat_ref => is_Some (cat_heap st !! call.2))
         calls →
  ∃ st',
    created_flags slugify calls st
    = (Ok (expected_flags (dom (service_centers st))
             (map (fun call : SCCard * cat_ref =>
                     slugify (card_title call.1)) calls)),
       st')
    ∧ registry_valid st'
    ∧ cat_heap st' = cat_heap st
    ∧ requests st' = requests st.
Proof.
  revert st. induction calls as [|[sc_card category] calls IH];
    intros st Hv Hcats.
  { by exists st. }
  apply Forall_cons in Hcats as [[cat Hcat] Hcats]. cbn in Hcat.
  unfold created_flags in *. cbn [map expected_flags fst].
  rewrite mapM_ordered_cons. cbn beta iota. rewrite bind_run.
  destruct (service_centers st !! slugify (card_title sc_card))
    as [sc|] eqn:Hreg.
  - destruct (Hv _ _ Hreg) as [d Hd].
    rewrite (add_service_center_existing _ _ _ _ _ _ Hcat Hreg Hd).
    cbn [mret ST_ret].
    set (st2 := with_sc_heap _ st).
    destruct (IH st2) as (st' & Hrun & Hv' & Hc' & Hr').
    { by apply registry_valid_update. }
    { done. }
    exists st'. rewrite Hrun. cbn [mret ST_ret].
    rewrite bool_decide_eq_true_2 by (apply elem_of_dom; eauto).
    replace (dom (service_centers st) ∪ {[slugify (card_title sc_card)]})
      with (dom (service_centers st2)); [done|].
    cbn. rewrite (union_comm_L (dom (service_centers st))).
    symmetry. apply subseteq_union_1_L.
    apply singleton_subseteq_l, elem_of_dom. eauto.
  - rewrite (add_service_center_new _ _ _ _ Hcat Hreg).
    cbn [mret ST_ret].
    set (st2 := with_service_centers _ _).
    destruct (IH st2) as (st' & Hrun & Hv' & Hc' & Hr').
    { by apply registry_valid_new. }
    { done. }
    exists st'. rewrite Hrun. cbn [mret ST_ret].
    rewrite bool_decide_eq_false_2
      by (by rewrite not_elem_of_dom).
    replace (dom (service_centers st) ∪ {[slugify (card_title sc_card)]})
      with (dom (service_centers st2)); [done|].
    cbn. rewrite dom_insert_L. apply union_comm_L.
Qed.

Lemma expected_flags_seen (seen : gset string) slug n :
  slug ∈ seen →
  expected_flags seen (replicate n slug) = replicate n false.
Proof.
  revert seen. induction n as [|n IH]; intros seen Hin; [done|].
  cbn. rewrite bool_decide_eq_true_2 by done. cbn. f_equal.
  apply IH. by apply elem_of_union_l.
Qed.

Lemma only_categories_added_refl d : only_categories_added d d.
Proof. by repeat split. Qed.

Lemma only_categories_added_step cat d d' :
  only_categories_added (with_category cat d) d' →
  only_categories_added d d'.
Proof.
  intros (Hs & Hl & Hm & Ha & Hf & Hb & Hd).
  unfold with_category, only_categories_added in *.
  destruct (cat_type cat); cbn in *.
  - repeat split; try done. etrans; [|exact Hd]. apply union_subseteq_l.
  - repeat split; try done. etrans; [|exact Hb]. apply union_subseteq_l.
Qed.

(** Later sightings of a registered service center change nothing in the
    state but the one dictionary, and in it only the category sets. *)
Lemma parse_all_registered slug calls st sc d :
  service_centers st !! slug = Some sc →
  sc_heap st !! sc = Some d →
  Forall (fun call : SCCard * cat_ref =>
            slugify (card_title call.1) = slug
            ∧ is_Some (cat_heap st !! call.2)) calls →
  ∃ d', parse_all slugify fetch stored_name calls st
        = with_sc_heap (fun h => <[sc := d']> h) st
        ∧ only_categories_added d d'.
Proof.
  revert st d. induction calls as [|[sc_card category] calls IH];
    intros st d Hreg Hd Hcalls.
  - exists d. split; [|apply only_categories_added_refl].
    cbn. unfold with_sc_heap. rewrite list_insert_id by done.
    by destruct st.
  - apply Forall_cons in Hcalls as [[Hslug [cat Hcat]] Hcalls].
    cbn in Hslug, Hcat. subst slug. cbn [parse_all fold_left].
    rewrite (parse_service_center_existing _ _ _ _ _ _ Hcat Hreg Hd).
    cbn [snd]. set (st2 := with_sc_heap _ st).
    destruct (IH st2 (with_category cat d)) as (d' & Hrun & Hadded).
    { done. }
    { cbn. apply list_lookup_insert_eq. by eapply lookup_lt_Some. }
    { done. }
    exists d'. split; [|by eapply only_categories_added_step].
    unfold parse_all in Hrun. rewrite Hrun. subst st2.
    unfold with_sc_heap. cbn. by rewrite list_insert_insert_eq.
Qed.

(** *** A sighted service center stays sighted

    Whatever the coroutines do between two sightings. *)

Lemma sighted_update_sc slug n sc f :
  preserves (sighted slug n) (update_service_center sc f).
Proof.
  intros st (Hdom & Hv & Hn). unfold update_service_center.
  destruct (sc_heap st !! sc); [|done].
  split; [done|]. split; [by apply registry_valid_update|done].
Qed.

Lemma sighted_read_sc slug n sc :
  preserves (sighted slug n) (read_service_center sc).
Proof.
  intros st HI. unfold read_service_center. by destruct (sc_heap st !! sc).
Qed.

Lemma sighted_read_category slug n r :
  preserves (sighted slug n) (read_category r).
Proof.
  intros st HI. unfold read_category. by destruct (cat_heap st !! r).
Qed.

Lemma sighted_update_category slug n r f :
  preserves (sighted slug n) (update_category r f).
Proof.
  intros st (Hdom & Hv & Hn). unfold update_category.
  destruct (cat_heap st !! r); [|done].
  split; [done|]. split; [done|]. cbn. by rewrite length_insert.
Qed.

Lemma sighted_new_category slug n c :
  preserves (sighted slug n) (new_category c).
Proof.
  intros st (Hdom & Hv & Hn). split; [done|]. split; [done|].
  cbn. rewrite length_app. lia.
Qed.

Lemma sighted_session_get slug n url :
  preserves (sighted slug n) (session_get fetch url).
Proof. by intros st HI. Qed.

(** The registration of a new service center, in one piece: the object is
    there when the registry is given its reference. *)
Lemma sighted_register slug n slug' d :
  preserves (sighted slug n)
    (sc ← new_service_center d;
     modify (with_service_centers (fun r => <[slug' := sc]> r));;
     mret (sc, true)).
Proof.
  intros st (Hdom & Hv & Hn).
  change (sighted slug n
            (with_service_centers
               (fun r => <[slug' := length (sc_heap st)]> r)
               (with_sc_heap (fun h => h ++ [d])%list st))).
  split; [|split; [by apply registry_valid_new|done]].
  cbn [service_centers with_service_centers with_sc_heap].
  rewrite dom_insert_L. by apply elem_of_union_r.
Qed.

(** The statements of the crawl that keep a service center registered. *)
Lemma sighted_primitives slug n :
  (∀ slug' d,
     preserves (sighted slug n)
       (sc ← new_service_center d;
        modify (with_service_centers (fun r => <[slug' := sc]> r));;
        mret (sc, true)))
  ∧ (∀ sc f, preserves (sighted slug n) (update_service_center sc f))
  ∧ (∀ sc, preserves (sighted slug n) (read_service_center sc))
  ∧ (∀ r, preserves (sighted slug n) (read_category r))
  ∧ (∀ r f, preserves (sighted slug n) (update_category r f))
  ∧ (∀ c, preserves (sighted slug n) (new_category c))
  ∧ (∀ url, preserves (sighted slug n) (session_get fetch url)).
Proof.
  split; [exact (sighted_register slug n)|].
  split; [exact (sighted_update_sc slug n)|].
  split; [exact (sighted_read_sc slug n)|].
  split; [exact (sighted_read_category slug n)|].
  split; [exact (sighted_update_category slug n)|].
  split; [exact (sighted_new_category slug n)|exact (sighted_session_get slug n)].
Qed.

Lemma sighted_add_service_center slug n sc_card category :
  preserves (sighted slug n) (add_service_center slugify sc_card category).
Proof. unfold add_service_center. invariant_tac (sighted_primitives slug n). Qed.

Lemma sighted_enrich slug n sc sc_card :
  preserves (sighted slug n)
    (enrich_service_center fetch stored_name sc sc_card).
Proof.
  unfold enrich_service_center, parse_gallery, gather_download_file,
    add_metro, add_opening_hour,
    add_location, add_feature, add_advantage, download_file.
  invariant_tac (sighted_primitives slug n).
  all: destruct (negb _); invariant_tac (sighted_primitives slug n).
Qed.

Lemma sighted_run_op slug n op :
  preserves (sighted slug n) (run_op slugify fetch stored_name op).
Proof.
  destruct op; cbn [run_op].
  - unfold add_popular_brand. invariant_tac (sighted_primitives slug n).
  - unfold add_category. invariant_tac (sighted_primitives slug n).
    all: apply preserves_modify; intros st HI; by destruct category_type.
  - unfold add_device_brand. invariant_tac (sighted_primitives slug n).
  - apply preserves_bind; [apply sighted_add_service_center|].
    intros ?. apply preserves_ret.
  - unfold parse_service_center.
    apply preserves_bind; [apply sighted_add_service_center|].
    intros [sc added]. destruct added; cbn [negb]; [|apply preserves_ret].
    apply sighted_enrich.
  - unfold add_service. invariant_tac (sighted_primitives slug n).
  - unfold add_advantage. invariant_tac (sighted_primitives slug n).
  - unfold add_feature. invariant_tac (sighted_primitives slug n).
  - unfold add_metro. invariant_tac (sighted_primitives slug n).
  - unfold add_location. invariant_tac (sighted_primitives slug n).
  - unfold add_opening_hour. invariant_tac (sighted_primitives slug n).
  - invariant_tac (sighted_primitives slug n).
  - invariant_tac (sighted_primitives slug n).
Qed.

Lemma sighted_run_ops slug n ops st :
  sighted slug n st →
  sighted slug n (run_ops slugify fetch stored_name ops st).
Proof.
  revert st. induction ops as [|op ops IH]; intros st HI; [done|].
  cbn. apply IH. by apply sighted_run_op.
Qed.

(** Whatever happens after its first sighting, a later sighting of a
    service center finds it registered and creates nothing. *)
Lemma later_sighting_merges st sc_card1 category1 cat1 ops sc_card2
  category2 :
  registry_valid st →
  cat_heap st !! category1 = Some cat1 →
  is_Some (cat_heap st !! category2) →
  slugify (card_title sc_card2) = slugify (card_title sc_card1) →
  ∃ sc st',
    add_service_center slugify sc_card2 category2
      (run_ops slugify fetch stored_name ops
         (add_service_center slugify sc_card1 category1 st).2)
    = (Ok (sc, false), st').
Proof.
  intros Hv Hcat1 Hcat2 Hslug.
  set (slug := slugify (card_title sc_card1)) in *.
  assert (sighted slug (length (cat_heap st))
            (add_service_center slugify sc_card1 category1 st).2) as H1.
  { destruct (service_centers st !! slug) as [sc|] eqn:Hreg.
    - destruct (Hv _ _ Hreg) as [d Hd].
      rewrite (add_service_center_existing _ _ _ _ _ _ Hcat1 Hreg Hd).
      split; [apply elem_of_dom; eauto|].
      split; [by apply registry_valid_update|done].
    - rewrite (add_service_center_new _ _ _ _ Hcat1 Hreg).
      split; [|split; [by apply registry_valid_new|done]].
      cbn [snd service_centers with_service_centers with_sc_heap].
      rewrite dom_insert_L. by apply elem_of_union_l, elem_of_singleton. }
  apply (sighted_run_ops _ _ ops) in H1.
  destruct H1 as (Hdom & Hv' & Hn).
  apply elem_of_dom in Hdom as [sc Hreg].
  destruct (Hv' _ _ Hreg) as [d Hd].
  assert (is_Some (cat_heap (run_ops slugify fetch stored_name ops
                     (add_service_center slugify sc_card1 category1 st).2)
                   !! category2)) as [cat2 Hcat2'].
  { apply lookup_lt_is_Some. destruct Hcat2 as [c Hc].
    apply lookup_lt_Some in Hc. lia. }
  eexists sc, _. apply add_service_center_existing with (cat := cat2) (d := d).
  - done.
  - by rewrite Hslug.
  - done.
Qed.

(** C2. Of the calls of [add_service_center] for cards with one and the
    same slug, starting where that slug is not registered, exactly the
    first returns [created = True] and every later one [False].  Hence, of
    the calls of [parse_service_center] for these cards, only the first
    goes past the guard: the later ones send no request and leave the
    state as the first left it, but for the category slugs they add to the
    [brands] and [devices] sets of the one service center.  The same holds
    however the coroutines interleave: once a card has been through
    [add_service_center], whatever the crawl does next, a later call for a
    card of the same slug returns [created = False]. *)
Theorem single_enrichment (st : State) (slug : string)
  (first_call : SCCard * cat_ref) (later_calls : list (SCCard * cat_ref)) :
  registry_valid st →
  service_centers st !! slug = None →
  Forall (fun call : SCCard * cat_ref =>
            slugify (card_title call.1) = slug
            ∧ is_Some (cat_heap st !! call.2))
         (first_call :: later_calls) →
  (∃ st', created_flags slugify (first_call :: later_calls) st
          = (Ok (true :: replicate (length later_calls) false), st'))
  ∧ (let st1 := (parse_service_center slugify fetch stored_name
                  first_call.1 first_call.2 st).2 in
    let st2 := parse_all slugify fetch stored_name later_calls st1 in
    ∃ sc d d',
      service_centers st1 !! slug = Some sc
      ∧ sc_heap st1 !! sc = Some d
      ∧ st2 = with_sc_heap (fun h => <[sc := d']> h) st1
      ∧ only_categories_added d d'
      ∧ requests st2 = requests st1)
  ∧ (∀ (ops : list crawl_op) (call : SCCard * cat_ref),
       call ∈ later_calls →
       ∃ sc st',
         add_service_center slugify call.1 call.2
           (run_ops slugify fetch stored_name ops
              (add_service_center slugify first_call.1 first_call.2 st).2)
         = (Ok (sc, false), st')).
Proof.
  intros Hv Hreg Hcalls. split; [|split].
  3: { intros ops call Hin.
       apply Forall_cons in Hcalls as [[Hslug [cat Hcat]] Hcalls].
       rewrite Forall_forall in Hcalls.
       destruct (Hcalls _ Hin) as [Hslug' Hcat'].
       apply later_sighting_merges with (cat1 := cat); try done.
       by rewrite Hslug, Hslug'. }
  - destruct (created_flags_run (first_call :: later_calls) st Hv)
      as (st' & Hrun & _).
    { eapply Forall_impl; [exact Hcalls|]. by intros ? [_ ?]. }
    exists st'. rewrite Hrun. f_equal. f_equal.
    assert (∀ calls : list (SCCard * cat_ref),
              Forall (fun call : SCCard * cat_ref =>
                        slugify (card_title call.1) = slug
                        ∧ is_Some (cat_heap st !! call.2)) calls →
              map (fun call : SCCard * cat_ref =>
                     slugify (card_title call.1)) calls
              = replicate (length calls) slug) as Hslugs.
    { intros calls Hall.
      induction Hall as [|call calls [Hs _] _ IH]; [done|].
      cbn. by rewrite Hs, IH. }
    rewrite (Hslugs _ Hcalls).
    cbn. rewrite bool_decide_eq_false_2 by by rewrite not_elem_of_dom.
    cbn. f_equal. apply expected_flags_seen. by apply elem_of_union_r,
      elem_of_singleton.
  - apply Forall_cons in Hcalls as [[Hslug [cat Hcat]] Hcalls].
    destruct first_call as [sc_card category]. cbn in Hslug, Hcat. subst slug.
    cbn [fst snd].
    destruct (parse_service_center_new st sc_card category cat Hcat Hreg)
      as (HR & HH & Hn).
    set (st1 := (parse_service_center _ _ _ _ _ st).2) in *.
    assert (is_Some (sc_heap st1 !! length (sc_heap st))) as [d Hd].
    { apply lookup_lt_is_Some. lia. }
    destruct (parse_all_registered (slugify (card_title sc_card))
                later_calls st1 (length (sc_heap st)) d)
      as (d' & Hrun & Hadded).
    { rewrite HR. apply lookup_insert_eq. }
    { done. }
    { eapply Forall_impl; [exact Hcalls|]. intros ? [? ?].
      by rewrite HH. }
    exists (length (sc_heap st)), d, d'.
    split; [rewrite HR; apply lookup_insert_eq|].
    split; [done|]. split; [done|]. split; [done|].
    cbv zeta. by rewrite Hrun.
Qed.

Lemma category_keys_with_category t cat d :
  category_keys t (with_category cat d)
  = category_keys t d ∪ slug_if_type t cat.
Proof.
  unfold slug_if_type, with_category.
  destruct t, (cat_type cat); cbn; case_decide; try done;
    by rewrite ?union_empty_r_L.
Qed.

(** C3. Two cards whose titles have the same slug, processed by
    [add_service_center] one after the other with whatever categories,
    resolve to one and the same dictionary: both calls return it, the
    second call creates nothing, the registry holds it under the slug and
    has no other new key, and its [devices] and [brands] sets are those it
    had before (empty for a new service center) together with the slugs of
    the two categories, each in the set of its type. *)
Theorem add_service_center_merges (st : State) (sc_card1 sc_card2 : SCCard)
  (category1 category2 : cat_ref) (cat1 cat2 : Category) :
  registry_valid st →
  cat_heap st !! category1 = Some cat1 →
  cat_heap st !! category2 = Some cat2 →
  slugify (card_title sc_card1) = slugify (card_title sc_card2) →
  let slug := slugify (card_title sc_card1) in
  ∃ sc created st1 st2 d0 d,
    add_service_center slugify sc_card1 category1 st = (Ok (sc, created), st1)
    ∧ add_service_center slugify sc_card2 category2 st1
      = (Ok (sc, false), st2)
    ∧ match service_centers st !! slug with
      | Some sc0 => sc0 = sc ∧ created = false ∧ sc_heap st !! sc = Some d0
      | None => created = true ∧ d0 = new_sc_dict slug
      end
    ∧ service_centers st2 !! slug = Some sc
    ∧ dom (service_centers st2) = dom (service_centers st) ∪ {[slug]}
    ∧ length (sc_heap st2)
      = (length (sc_heap st) + if created then 1 else 0)%nat
    ∧ sc_heap st2 !! sc = Some d
    ∧ d = with_category cat2 (with_category cat1 d0)
    ∧ cat_slug cat1 ∈ category_keys (cat_type cat1) d
    ∧ cat_slug cat2 ∈ category_keys (cat_type cat2) d
    ∧ ∀ t, category_keys t d
           = category_keys t d0 ∪ slug_if_type t cat1 ∪ slug_if_type t cat2.
Proof.
  intros Hv Hcat1 Hcat2 Hslug slug.
  assert (∀ d0, let d := with_category cat2 (with_category cat1 d0) in
            cat_slug cat1 ∈ category_keys (cat_type cat1) d
            ∧ cat_slug cat2 ∈ category_keys (cat_type cat2) d
            ∧ ∀ t, category_keys t d
                   = category_keys t d0 ∪ slug_if_type t cat1
                     ∪ slug_if_type t cat2) as Hkeys.
  { intros d0 d. subst d.
    assert (∀ cat, cat_slug cat ∈ slug_if_type (cat_type cat) cat) as Hin.
    { intros cat. unfold slug_if_type. rewrite decide_True by done.
      by apply elem_of_singleton. }
    split; [|split].
    - rewrite !category_keys_with_category.
      apply elem_of_union_l, elem_of_union_r, Hin.
    - rewrite !category_keys_with_category. apply elem_of_union_r, Hin.
    - intros t. by rewrite !category_keys_with_category. }
  destruct (service_centers st !! slug) as [sc|] eqn:Hreg.
  - destruct (Hv _ _ Hreg) as [d0 Hd0].
    set (st1 := with_sc_heap (fun h => <[sc := with_category cat1 d0]> h) st).
    assert (sc_heap st1 !! sc = Some (with_category cat1 d0)) as Hd1.
    { cbn. apply list_lookup_insert_eq. by eapply lookup_lt_Some. }
    exists sc, false, st1,
      (with_sc_heap
         (fun h => <[sc := with_category cat2 (with_category cat1 d0)]> h)
         st1), d0, (with_category cat2 (with_category cat1 d0)).
    split; [by apply add_service_center_existing|].
    split. { apply add_service_center_existing; try done.
             by rewrite <- Hslug. }
    split; [done|]. split; [done|].
    split. { cbn. symmetry. rewrite (union_comm_L _ {[slug]}).
             apply subseteq_union_1_L, singleton_subseteq_l, elem_of_dom.
             eauto. }
    split. { cbn. rewrite !length_insert. lia. }
    split. { cbn. apply list_lookup_insert_eq. rewrite length_insert.
             by eapply lookup_lt_Some. }
    split; [done|]. apply Hkeys.
  - set (d0 := new_sc_dict slug).
    set (sc := length (sc_heap st)).
    set (st1 := with_service_centers (fun r => <[slug := sc]> r)
                  (with_sc_heap
                     (fun h => h ++ [with_category cat1 d0])%list st)).
    assert (sc_heap st1 !! sc = Some (with_category cat1 d0)) as Hd1.
    { cbn. by rewrite lookup_app_r, Nat.sub_diag. }
    exists sc, true, st1,
      (with_sc_heap
         (fun h => <[sc := with_category cat2 (with_category cat1 d0)]> h)
         st1), d0, (with_category cat2 (with_category cat1 d0)).
    split; [by apply add_service_center_new|].
    split. { apply add_service_center_existing; try done.
             rewrite <- Hslug. cbn. apply lookup_insert_eq. }
    split; [done|].
    split; [cbn; apply lookup_insert_eq|].
    split. { cbn. rewrite dom_insert_L. apply union_comm_L. }
    split. { cbn. rewrite length_insert, length_app. cbn. lia. }
    split. { cbn. apply list_lookup_insert_eq. rewrite length_app. cbn.
             subst sc. lia. }
    split; [done|]. apply Hkeys.
Qed.

(** *** The category upsert *)

Lemma update_new_category st c f :
  update_category (length (cat_heap st)) f
    (with_cat_heap (fun h => h ++ [c])%list st)
  = (Ok tt, with_cat_heap (fun h => h ++ [f c])%list st).
Proof.
  unfold update_category. cbn.
  rewrite lookup_app_r, Nat.sub_diag by done. cbn.
  unfold with_cat_heap. cbn. by rewrite insert_at_end.
Qed.

(** What [add_category] does: it always builds a new dictionary and returns
    it, and registers it only when its slug is not registered yet. *)
Lemma add_category_run st category_type category_tag title :
  get_category_title category_tag = Ok title →
  add_category slugify category_type category_tag st
  = (Ok (length (cat_heap st)),
     (if bool_decide
           (slugify title ∈ dom (global_category category_type st))
      then fun st => st
      else with_global_category category_type
             (fun d => <[slugify title := length (cat_heap st)]> d))
       (with_cat_heap
          (fun h => h ++ [built_category slugify category_type category_tag
                            title])%list st)).
Proof.
  intros Htitle. unfold add_category.
  rewrite bind_run. unfold lift at 1. rewrite Htitle.
  rewrite bind_run. unfold new_category at 1.
  set (c0 := {| cat_title := title |}).
  assert (∃ c1,
    match ct_img category_tag with
    | Some thumbnail =>
        if Str.truthy (img_src thumbnail)
        then update_category (length (cat_heap st))
               (cat_set_thumbnail_url (img_src thumbnail))
        else if Str.truthy (img_data_src thumbnail)
        then update_category (length (cat_heap st))
               (cat_set_thumbnail_url (img_data_src thumbnail))
        else mret tt
    | None => mret tt
    end (with_cat_heap (fun h => h ++ [c0])%list st)
    = (Ok tt, with_cat_heap (fun h => h ++ [c1])%list st)
    ∧ (if decide (category_type = devices_t)
       then cat_set_services (Some []) (cat_set_brands (Some ∅) c1)
       else c1)
      = built_category slugify category_type category_tag title)
    as (c1 & Hthumb & Hbuilt).
  { unfold built_category.
    destruct (ct_img category_tag) as [thumbnail|];
      [destruct (Str.truthy (img_src thumbnail));
       [|destruct (Str.truthy (img_data_src thumbnail))]|].
    1,2: eexists; split; [apply update_new_category|];
      by destruct (decide _).
    all: exists c0; split; [done|]; by destruct (decide _). }
  rewrite bind_run, Hthumb.
  assert ((if decide (category_type = devices_t)
           then update_category (length (cat_heap st))
                  (fun c => cat_set_services (Some [])
                              (cat_set_brands (Some ∅) c))
           else mret tt) (with_cat_heap (fun h => h ++ [c1])%list st)
          = (Ok tt,
             with_cat_heap
               (fun h => h ++ [built_category slugify category_type
                                 category_tag title])%list st)) as Hdev.
  { rewrite <- Hbuilt. destruct (decide _); [|done].
    apply (update_new_category st c1
             (fun c => cat_set_services (Some [])
                         (cat_set_brands (Some ∅) c))). }
  rewrite bind_run, Hdev. rewrite bind_run. unfold get_state at 1.
  rewrite bind_run.
  assert (global_category category_type
            (with_cat_heap
               (fun h => h ++ [built_category slugify category_type
                                 category_tag title])%list st)
          = global_category category_type st) as ->.
  { by destruct category_type. }
  by destruct (bool_decide _).
Qed.

(** C4, as the code has it.  For a key that is already registered:
    [add_service_center] returns the dictionary that the registry holds,
    with its scalar keys and its lists as they were, and [created = False];
    [add_category] leaves the registry and the registered dictionary as
    they were, but what it returns is the dictionary it has just built from
    the anchor, a new object that is not the registered one, and it returns
    no flag. *)
Theorem upsert_existing_key (st : State)
  (sc_card : SCCard) (category : cat_ref) (cat : Category)
  (sc : sc_ref) (d : ServiceCenter)
  (category_type : CategoryType) (category_tag : CategoryTag)
  (title : string) (r : cat_ref) (c : Category) :
  cat_heap st !! category = Some cat →
  service_centers st !! slugify (card_title sc_card) = Some sc →
  sc_heap st !! sc = Some d →
  get_category_title category_tag = Ok title →
  global_category category_type st !! slugify title = Some r →
  cat_heap st !! r = Some c →
  (∃ st' d',
     add_service_center slugify sc_card category st = (Ok (sc, false), st')
     ∧ service_centers st' = service_centers st
     ∧ sc_heap st' !! sc = Some d'
     ∧ sc_scalars d' = sc_scalars d
     ∧ sc_lists d' = sc_lists d
     ∧ only_categories_added d d')
  ∧ (∃ st',
       add_category slugify category_type category_tag st
       = (Ok (length (cat_heap st)), st')
       ∧ length (cat_heap st) ≠ r
       ∧ brands st' = brands st
       ∧ devices st' = devices st
       ∧ cat_heap st'
         = (cat_heap st
            ++ [built_category slugify category_type category_tag title])%list
       ∧ cat_heap st' !! r = Some c).
Proof.
  intros Hcat Hreg Hd Htitle Hglobal Hc. split.
  - eexists _, (with_category cat d).
    split; [by apply add_service_center_existing|].
    split; [done|].
    split. { cbn. apply list_lookup_insert_eq. by eapply lookup_lt_Some. }
    assert (only_categories_added d (with_category cat d)) as Hadded.
    { eapply only_categories_added_step, only_categories_added_refl. }
    split; [apply Hadded|]. split; [apply Hadded|done].
  - eexists. split; [by apply add_category_run|].
    rewrite bool_decide_eq_true_2 by (apply elem_of_dom; eauto).
    split. { apply lookup_lt_Some in Hc. lia. }
    split; [done|]. split; [done|]. split; [done|].
    cbn. by apply lookup_app_l_Some.
Qed.

End CrawlProperties.



Lemma add_opening_hour_spec_tokens_witness :
  ∃ st' d',
    add_opening_hour 0%nat {| get_text := "ПН-ПТ - 09:00 18:00" |}
      one_center_state
    = (Ok tt, st')
    ∧ sc_heap st' !! 0%nat = Some d'
    ∧ sc_opening_hours d'
      = [{| weekday_from := 1; weekday_to := 5;
            time_from := Some "09:00"; time_to := Some "18:00" |}].
Proof.
  exact (proj1 (proj2 (proj2 (add_opening_hour_spec_tokens one_center_state 0%nat
                                (new_sc_dict "remont-plus") eq_refl)))).
Defined.

(** C4, as the specification has it, fails for [add_category]: with the
    brand Apple registered under "apple", a second anchor whose title has
    the same slug gets back a dictionary that is not the registered one and
    that carries the title of the second anchor. *)
Lemma add_category_returns_new_object :
  let category_tag :=
    {| ct_text := "APPLE"; ct_href := "/brand/apple"; ct_img := None |} in
  ∃ returned st' c c',
    add_category ascii_slugify brands_t category_tag one_brand_state
    = (Ok returned, st')
    ∧ brands one_brand_state !! "apple" = Some 0%nat
    ∧ brands st' !! "apple" = Some 0%nat
    ∧ returned ≠ 0%nat
    ∧ cat_heap st' !! 0%nat = Some c
    ∧ cat_heap st' !! returned = Some c'
    ∧ cat_slug c' = cat_slug c
    ∧ cat_title c = "Apple"
    ∧ cat_title c' = "APPLE".
Proof.
  eexists _, _, _, _. split; [vm_compute; reflexivity|].
  repeat split; try (vm_compute; reflexivity).
  vm_compute. discriminate.
Qed.

(** ** The persistence stage *)

(** *** The statement of [get_insert_query] *)

Lemma append_assoc (a b c : string) : (a ++ b) ++ c = a ++ (b ++ c).
Proof.
  induction a as [|x a IH]; [done|].
  change (String x ((a ++ b) ++ c) = String x (a ++ (b ++ c))).
  by rewrite IH.
Qed.

Lemma append_nil_r (a : string) : a ++ "" = a.
Proof.
  induction a as [|x a IH]; [done|].
  change (String x (a ++ "") = String x a). by rewrite IH.
Qed.

Lemma tokens_word (w cur rest : string) :
  word_chars w = true →
  tokens cur (w ++ rest) = tokens (cur ++ w) rest.
Proof.
  revert cur. induction w as [|c w IH]; intros cur Hw.
  { by rewrite append_nil_r. }
  cbn in Hw. apply andb_true_iff in Hw as [Hc Hw].
  apply andb_true_iff in Hc as [Hs Hp].
  apply negb_true_iff in Hs, Hp.
  change (String c w ++ rest) with (String c (w ++ rest)).
  cbn [tokens]. rewrite Hs, Hp, IH by done.
  by rewrite append_assoc.
Qed.

Lemma tokens_name_space (w rest : string) (c : ascii) :
  is_name w = true → is_space c = true →
  tokens "" (w ++ String c rest) = w :: tokens "" rest.
Proof.
  intros Hw Hc. destruct w as [|x w]; [done|].
  rewrite tokens_word by done. cbn [tokens]. by rewrite Hc.
Qed.

Lemma tokens_name_comma (w rest : string) :
  is_name w = true →
  tokens "" (w ++ ", " ++ rest) = w :: "," :: tokens "" rest.
Proof.
  intros Hw. destruct w as [|x w]; [done|].
  by rewrite tokens_word by done.
Qed.

(** A list [x, y, z] followed by white space. *)
Lemma tokens_join (names : list string) (c : ascii) (rest : string) :
  names ≠ [] →
  Forall (fun w => is_name w = true) names →
  is_space c = true →
  tokens "" (Str.join ", " names ++ String c rest)
  = (sep_tokens names ++ tokens "" rest)%list.
Proof.
  intros Hne Hnames Hc. induction Hnames as [|x names Hx Hnames IH]; [done|].
  destruct names as [|y names].
  - cbn [Str.join sep_tokens]. by rewrite tokens_name_space.
  - change (Str.join ", " (x :: y :: names))
      with (x ++ ", " ++ Str.join ", " (y :: names)).
    rewrite !append_assoc, tokens_name_comma by done.
    change (sep_tokens (x :: y :: names))
      with (x :: "," :: sep_tokens (y :: names)).
    cbn [app]. f_equal. f_equal. by apply IH.
Qed.

Lemma is_word_name (w : string) : is_name w = true → is_word w = true.
Proof.
  destruct w as [|c w]; [done|]. cbn. intros Hw.
  apply andb_true_iff in Hw as [Hc _].
  by apply andb_true_iff in Hc as [_ Hp].
Qed.

Lemma word_list_sep_tokens (names rest : list string) :
  names ≠ [] →
  Forall (fun w => is_name w = true) names →
  word_list (sep_tokens names ++ ")" :: rest)%list = Some (names, rest).
Proof.
  intros Hne Hnames. induction Hnames as [|x names Hx Hnames IH]; [done|].
  destruct names as [|y names].
  - cbn. by rewrite (is_word_name x Hx).
  - change (sep_tokens (x :: y :: names))
      with (x :: "," :: sep_tokens (y :: names)).
    cbn [app word_list]. rewrite (is_word_name x Hx). cbn [negb].
    change (String.eqb "," ")") with false.
    change (String.eqb "," ",") with true. cbv iota.
    by rewrite IH.
Qed.

Lemma holder_is_name (w : string) :
  is_name w = true → is_name (":" ++ w) = true.
Proof. by destruct w. Qed.

Lemma placeholders_of_fields (fields : list string) :
  mapM placeholder (map (fun field => ":" ++ field) fields) = Some fields.
Proof.
  apply mapM_Some_2. induction fields as [|f fields IH]; constructor; done.
Qed.

Lemma tokens_join_nl (names : list string) (rest : string) :
  names ≠ [] →
  Forall (fun w => is_name w = true) names →
  tokens "" (Str.join ", " names ++ nl ++ rest)
  = (sep_tokens names ++ tokens "" rest)%list.
Proof. intros Hne Hnames. by apply (tokens_join names (ascii_of_nat 10)). Qed.

Lemma tokens_get_insert_query (table : string) (fields : list string) :
  is_name table = true →
  fields ≠ [] →
  Forall (fun w => is_name w = true) fields →
  tokens "" (get_insert_query table fields)
  = ("INSERT" :: "OR" :: "IGNORE" :: "INTO" :: table :: "("
     :: sep_tokens fields
     ++ ")" :: "VALUES" :: "("
     :: sep_tokens (map (fun field => (":" ++ field)%string) fields)
     ++ [")"])%list.
Proof.
  intros Htable Hne Hfields. unfold get_insert_query.
  change (tokens "" ("INSERT OR IGNORE INTO " ++ ?rest))
    with ("INSERT" :: "OR" :: "IGNORE" :: "INTO" :: tokens "" rest).
  do 4 f_equal.
  rewrite tokens_word by by destruct table.
  change (tokens ("" ++ table) (" (" ++ nl ++ "        " ++ ?rest))
    with (Str.flush table ++ "(" :: tokens "" rest)%list.
  replace (Str.flush table) with [table] by by destruct table.
  cbn [app]. do 2 f_equal.
  rewrite tokens_join_nl by done. f_equal.
  change (tokens "" ("    ) VALUES (" ++ nl ++ "        " ++ ?rest))
    with (")" :: "VALUES" :: "(" :: tokens "" rest).
  do 3 f_equal.
  rewrite tokens_join_nl.
  - done.
  - by destruct fields.
  - clear -Hfields. induction Hfields; constructor; [|done].
    by apply holder_is_name.
Qed.

(** The statement that [get_insert_query] builds for a table and a list of
    fields reads as an INSERT OR IGNORE into that table, each field bound
    to the parameter of its own name. *)
Lemma parse_get_insert_query (table : string) (fields : list string) :
  is_name table = true →
  fields ≠ [] →
  Forall (fun w => is_name w = true) fields →
  parse_insert (get_insert_query table fields)
  = Some {| i_conflict := OrIgnore; i_table := table;
            i_columns := fields; i_params := fields |}.
Proof.
  intros Htable Hne Hfields. unfold parse_insert.
  rewrite tokens_get_insert_query by done.
  assert (∀ w rest, expect w (w :: rest) = Some rest) as Hexpect.
  { intros w rest. cbn. by rewrite String.eqb_refl. }
  rewrite !Hexpect. cbn [mbind option_bind]. rewrite !Hexpect.
  cbn [mbind option_bind]. rewrite !Hexpect. cbn [mbind option_bind].
  rewrite (is_word_name table Htable). cbn [negb].
  rewrite !Hexpect. cbn [mbind option_bind].
  rewrite word_list_sep_tokens by done.
  cbn [mbind option_bind]. rewrite !Hexpect. cbn [mbind option_bind].
  rewrite !Hexpect. cbn [mbind option_bind].
  rewrite word_list_sep_tokens.
  - cbn [mbind option_bind]. rewrite placeholders_of_fields.
    cbn [mbind option_bind]. by rewrite Nat.eqb_refl.
  - by destruct fields.
  - clear -Hfields. induction Hfields; constructor; [|done].
    by apply holder_is_name.
Qed.

(** *** INSERT OR IGNORE on one table *)

Lemma insert_all_ignore_cons def cs css rows :
  insert_all_ignore def (cs :: css) rows
  = insert_all_ignore def css
      (if violates_not_null def cs || violates_unique def cs rows then rows
       else (rows ++ [{| rowid := next_rowid rows; cells := cs |}])%list).
Proof. reflexivity. Qed.

Lemma insert_all_ignore_extends def css rows :
  ∃ more, insert_all_ignore def css rows = (rows ++ more)%list.
Proof.
  revert rows. induction css as [|cs css IH]; intros rows.
  { exists []. by rewrite app_nil_r. }
  rewrite insert_all_ignore_cons. destruct (_ || _); [apply IH|].
  destruct (IH (rows ++ [{| rowid := next_rowid rows; cells := cs |}])%list)
    as [more Hmore].
  eexists. by rewrite Hmore, <- app_assoc.
Qed.

Lemma violates_unique_app def cs rows more :
  violates_unique def cs rows = true →
  violates_unique def cs (rows ++ more) = true.
Proof.
  unfold violates_unique. rewrite !existsb_exists.
  intros (u & Hu & Hex). exists u. split; [done|].
  rewrite existsb_app. by rewrite Hex.
Qed.

(** A row that has been inserted collides with itself from then on. *)
Lemma violates_unique_self def cs rows id more :
  t_uniques def ≠ [] →
  violates_not_null def cs = false →
  keyed def cs = true →
  violates_unique def cs (rows ++ {| rowid := id; cells := cs |} :: more)
  = true.
Proof.
  intros Hne Hnn Hkeyed. unfold keyed in Hkeyed. rewrite Hnn in Hkeyed.
  cbn in Hkeyed. unfold violates_unique.
  destruct (t_uniques def) as [|u us]; [done|].
  cbn in Hkeyed. apply andb_true_iff in Hkeyed as [Hu _].
  cbn [existsb]. apply orb_true_iff. left.
  rewrite existsb_app. apply orb_true_iff. right.
  cbn [existsb]. apply orb_true_iff. left.
  unfold collides. cbn [cells]. rewrite Hu. cbn.
  by apply bool_decide_eq_true_2.
Qed.

(** After a pass, every proposed row of the pass is one the table turns
    away. *)
Lemma insert_all_ignore_rejects def css rows cs :
  t_uniques def ≠ [] →
  Forall (fun cs => keyed def cs = true) css →
  cs ∈ css →
  violates_not_null def cs
  || violates_unique def cs (insert_all_ignore def css rows) = true.
Proof.
  intros Hne Hkeyed. revert rows.
  induction Hkeyed as [|cs' css Hcs' Hkeyed IH]; intros rows Hin.
  { by apply elem_of_nil in Hin. }
  apply elem_of_cons in Hin as [->|Hin].
  - rewrite insert_all_ignore_cons.
    destruct (violates_not_null def cs') eqn:Hnn; [done|]. cbn [orb].
    destruct (violates_unique def cs' rows) eqn:Hu.
    + destruct (insert_all_ignore_extends def css rows) as [more Hmore].
      rewrite Hmore. by apply violates_unique_app.
    + destruct (insert_all_ignore_extends def css
                  (rows ++ [{| rowid := next_rowid rows; cells := cs' |}]))
        as [more Hmore].
      rewrite Hmore, <- app_assoc. by apply violates_unique_self.
  - rewrite insert_all_ignore_cons. apply IH, Hin.
Qed.

Lemma insert_all_ignore_rejected def css rows :
  Forall (fun cs => violates_not_null def cs
                    || violates_unique def cs rows = true) css →
  insert_all_ignore def css rows = rows.
Proof.
  induction 1 as [|cs css Hcs _ IH]; [done|].
  rewrite insert_all_ignore_cons. by rewrite Hcs.
Qed.

(** A second pass of the same rows changes nothing. *)
Lemma insert_all_ignore_idempotent def css rows :
  t_uniques def ≠ [] →
  Forall (fun cs => keyed def cs = true) css →
  insert_all_ignore def css (insert_all_ignore def css rows)
  = insert_all_ignore def css rows.
Proof.
  intros Hne Hkeyed. apply insert_all_ignore_rejected.
  apply Forall_forall. intros cs Hin.
  by apply insert_all_ignore_rejects.
Qed.

(** *** INSERT OR IGNORE through the connection *)

Lemma for_each_execute_insert stmt ps css db def rows :
  i_conflict stmt = OrIgnore →
  tables db !! i_table stmt = Some {| t_def := def; t_rows := rows |} →
  mapR (proposed_row def stmt) ps = Ok css →
  ∃ db',
    for_each ps (execute_insert stmt) db = (Ok tt, db')
    ∧ tables db'
      = <[i_table stmt := {| t_def := def;
                             t_rows := insert_all_ignore def css rows |}]>
          (tables db)
    ∧ durable db' = durable db
    ∧ log db' = log db.
Proof.
  intros Hclause. revert css db rows.
  induction ps as [|p ps IH]; intros css db rows Htable Hcss.
  - inversion Hcss; subst css. exists db. repeat split; try done.
    cbn. by rewrite insert_id.
  - cbn in Hcss. destruct (proposed_row def stmt p) as [cs|] eqn:Hcs;
      [|done]. cbn in Hcss.
    destruct (mapR (proposed_row def stmt) ps) as [css'|] eqn:Hcss';
      [|done]. cbn in Hcss. inversion Hcss; subst css.
    cbn [for_each]. rewrite bind_run.
    unfold execute_insert at 1. rewrite bind_run. unfold get_state at 1.
    rewrite Htable. cbn [t_def t_rows]. rewrite bind_run.
    unfold lift at 1. rewrite Hcs. rewrite bind_run. unfold lift at 1.
    unfold insert_row. rewrite Hclause.
    rewrite insert_all_ignore_cons.
    match goal with
    | |- context [insert_all_ignore def css' ?r] => set (rows1 := r)
    end.
    assert ((if violates_not_null def cs || violates_unique def cs rows
             then Ok rows
             else Ok (rows ++ [{| rowid := next_rowid rows;
                                  cells := cs |}])%list)
            = Ok rows1) as ->.
    { subst rows1. by destruct (_ || _). }
    unfold modify.
    destruct (IH css' (set_rows (i_table stmt) def rows1 db) rows1)
      as (db' & Hrun & Ht & Hd & Hl).
    { cbn. apply lookup_insert_eq. }
    { done. }
    exists db'. split; [done|]. split; [|done].
    rewrite Ht. cbn. by rewrite insert_insert_eq.
Qed.

Lemma executemany_ignore query stmt ps css db def rows :
  parse_insert query = Some stmt →
  i_conflict stmt = OrIgnore →
  tables db !! i_table stmt = Some {| t_def := def; t_rows := rows |} →
  Forall (fun c => c ∈ map col_name (t_columns def)) (i_columns stmt) →
  mapR (proposed_row def stmt) ps = Ok css →
  ∃ db',
    executemany query ps db = (Ok tt, db')
    ∧ tables db'
      = <[i_table stmt := {| t_def := def;
                             t_rows := insert_all_ignore def css rows |}]>
          (tables db)
    ∧ durable db' = durable db
    ∧ log db' = (log db ++ [EvInsert (i_table stmt)])%list.
Proof.
  intros Hparse Hclause Htable Hcols Hcss.
  unfold executemany. rewrite Hparse, bind_run. unfold get_state at 1.
  rewrite Htable. cbn [t_def].
  assert (forallb (fun c => bool_decide (c ∈ map col_name (t_columns def)))
                  (i_columns stmt) = true) as ->.
  { apply forallb_forall. intros c Hin. apply bool_decide_eq_true_2.
    rewrite Forall_forall in Hcols. apply Hcols.
    by apply list_elem_of_In. }
  rewrite bind_run. unfold emit, modify at 1.
  match goal with
  | |- context [for_each ps (execute_insert stmt) ?d] => set (db0 := d)
  end.
  destruct (for_each_execute_insert stmt ps css db0 def rows)
    as (db' & Hrun & Ht & Hd & Hl); try done.
  exists db'. by rewrite Hrun.
Qed.

(** *** Rows that a table can tell apart *)

(** When every column of the uniqueness constraints is NOT NULL, any row
    either breaks a NOT NULL constraint or holds no NULL in them. *)
Lemma keyed_of_uniques_not_null def cs :
  uniques_not_null def = true → keyed def cs = true.
Proof.
  intros Hdef. unfold keyed.
  destruct (violates_not_null def cs) eqn:Hnn; [done|]. cbn [orb].
  unfold uniques_not_null in Hdef. rewrite forallb_forall in Hdef.
  apply forallb_forall. intros u Hu. specialize (Hdef u Hu).
  rewrite forallb_forall in Hdef. unfold key_of.
  apply forallb_forall. intros v Hv. apply in_map_iff in Hv as (c & <- & Hc).
  specialize (Hdef c Hc). apply existsb_exists in Hdef as (column & Hin & Hcol).
  apply andb_true_iff in Hcol as [Hname Hnotnull].
  apply String.eqb_eq in Hname. subst c.
  unfold violates_not_null in Hnn.
  destruct (is_null (cell cs (col_name column))) eqn:Hnull; [|done].
  exfalso. apply not_true_iff_false in Hnn. apply Hnn.
  apply existsb_exists. exists column. by rewrite Hnotnull, Hnull.
Qed.

(** The tables of [create_schema] of which this holds; in the others, the
    gallery images and the junction tables, the insert functions bind a
    string or a key to every column. *)
Lemma schema_uniques_not_null :
  map (fun entry : string * TableDef => entry.1)
      (List.filter (fun entry : string * TableDef =>
                      uniques_not_null entry.2) schema)
  = ["service_centers"; "brands"; "devices"; "metros"; "locations";
     "advantages"; "features"; "opening_hours"; "services"].
Proof. reflexivity. Qed.

Lemma keyed_gallery_image (service_center_id : Z) (image : string) :
  proposed_row (def_of "gallery_images")
    {| i_conflict := OrIgnore; i_table := "gallery_images";
       i_columns := ["service_center_id"; "image"];
       i_params := ["service_center_id"; "image"] |}
    (dict_params [("service_center_id", VInt service_center_id);
                  ("image", of_str image)])
  = Ok [("service_center_id", VInt service_center_id);
        ("image", VText image)]
  ∧ keyed (def_of "gallery_images")
      [("service_center_id", VInt service_center_id); ("image", VText image)]
    = true.
Proof. split; reflexivity. Qed.

(** A row of a junction table, with a key in both columns. *)
Lemma keyed_junction (table a b : string) (x y : Z) :
  (table, a, b) ∈ [("advantage_service_center", "advantage_id",
                    "service_center_id");
                   ("brand_service_center", "brand_id", "service_center_id");
                   ("device_service_center", "device_id",
                    "service_center_id");
                   ("metro_service_center", "metro_id", "service_center_id");
                   ("feature_service_center", "feature_id",
                    "service_center_id");
                   ("brand_device", "brand_id", "device_id")] →
  keyed (def_of table) [(a, VInt x); (b, VInt y)] = true.
Proof.
  intros Hin.
  repeat (apply elem_of_cons in Hin as [Hin|Hin];
          [by inversion Hin; subst|]).
  by apply elem_of_nil in Hin.
Qed.

(** C1. For every table and list of fields, the statement of
    [get_insert_query] is an INSERT OR IGNORE into that table.  Executed on
    a table that declares a uniqueness constraint, as every table of
    [create_schema] does, a row that collides with a row of the table
    leaves the table as it is and raises nothing; and executing the same
    collection of rows a second time leaves the store as the first
    execution left it.  The rows are taken to hold no NULL in the columns
    of the uniqueness constraints unless a NOT NULL constraint turns them
    away, since SQLite holds NULLs to be distinct from one another. *)
Theorem insert_or_ignore_idempotent (db : Db) (table : string)
  (fields : list string) (def : TableDef) (rows : list Row)
  (ps : list Params) (css : list (list (string * value))) :
  is_name table = true →
  fields ≠ [] →
  Forall (fun w => is_name w = true) fields →
  tables db !! table = Some {| t_def := def; t_rows := rows |} →
  t_uniques def ≠ [] →
  Forall (fun c => c ∈ map col_name (t_columns def)) fields →
  let query := get_insert_query table fields in
  let stmt := {| i_conflict := OrIgnore; i_table := table;
                 i_columns := fields; i_params := fields |} in
  mapR (proposed_row def stmt) ps = Ok css →
  Forall (fun cs => keyed def cs = true) css →
  parse_insert query = Some stmt
  ∧ Forall (fun entry : string * TableDef => t_uniques entry.2 ≠ []) schema
  ∧ (∀ cs rows', violates_unique def cs rows' = true →
       insert_row OrIgnore def cs rows' = Ok rows')
  ∧ (∀ p cs, proposed_row def stmt p = Ok cs →
       violates_unique def cs rows = true →
       ∃ db', executemany query [p] db = (Ok tt, db')
              ∧ tables db' = tables db ∧ durable db' = durable db)
  ∧ ∃ db1 db2,
      executemany query ps db = (Ok tt, db1)
      ∧ executemany query ps db1 = (Ok tt, db2)
      ∧ tables db2 = tables db1
      ∧ durable db2 = durable db1.
Proof.
  intros Htable Hne Hfields Hlookup Huniq Hcols query stmt Hcss Hkeyed.
  assert (parse_insert query = Some stmt) as Hparse.
  { by apply parse_get_insert_query. }
  split; [done|].
  split. { repeat constructor; discriminate. }
  split.
  { intros cs rows' Hu. unfold insert_row. rewrite Hu.
    by rewrite orb_true_r. }
  split.
  { intros p cs Hcs Hu.
    destruct (executemany_ignore query stmt [p] [cs] db def rows)
      as (db' & Hrun & Ht & Hd & _); try done.
    { cbn [mapR]. by rewrite Hcs. }
    exists db'. split; [done|]. split; [|done].
    rewrite Ht, insert_all_ignore_cons, Hu, orb_true_r.
    by apply insert_id. }
  destruct (executemany_ignore query stmt ps css db def rows)
    as (db1 & Hrun1 & Ht1 & Hd1 & _); try done.
  destruct (executemany_ignore query stmt ps css db1 def
              (insert_all_ignore def css rows))
    as (db2 & Hrun2 & Ht2 & Hd2 & _); try done.
  { rewrite Ht1. apply lookup_insert_eq. }
  exists db1, db2. split; [done|]. split; [done|]. split; [|done].
  rewrite Ht2, insert_all_ignore_idempotent by done.
  rewrite Ht1. by rewrite insert_insert_eq.
Qed.

(** *** Rows that reference a key read back from the store *)

Lemma mapR_ok {A B} (f : A → result B) (g : A → B) (l : list A) :
  (∀ x, x ∈ l → f x = Ok (g x)) → mapR f l = Ok (map g l).
Proof.
  induction l as [|x l IH]; intros Hf; [done|].
  cbn [mapR map]. rewrite (Hf x) by apply list_elem_of_here.
  cbn. rewrite IH; [done|]. intros y Hy. apply Hf. by apply list_elem_of_further.
Qed.

Lemma concatMapR_ok {A B} (f : A → result (list B)) (g : A → list B)
  (l : list A) :
  (∀ x, x ∈ l → f x = Ok (g x)) → concatMapR f l = Ok (concat (map g l)).
Proof.
  induction l as [|x l IH]; intros Hf; [done|].
  cbn [concatMapR map concat]. rewrite (Hf x) by apply list_elem_of_here.
  cbn. rewrite IH; [done|]. intros y Hy. apply Hf. by apply list_elem_of_further.
Qed.

Lemma id_of_resolved (ids : gmap value Z) (key : string) :
  is_Some (ids !! VText key) → id_of ids key = Ok (resolved_id ids key).
Proof. intros [id Hid]. unfold id_of, resolved_id. by rewrite Hid. Qed.

(** Rows that break a NOT NULL constraint go through a table under
    INSERT OR IGNORE as if they had not been proposed. *)
Lemma insert_all_ignore_not_null def css rows :
  insert_all_ignore def css rows
  = insert_all_ignore def
      (List.filter (fun cs => negb (violates_not_null def cs)) css) rows.
Proof.
  revert rows. induction css as [|cs css IH]; intros rows; [done|].
  cbn [List.filter]. rewrite insert_all_ignore_cons.
  destruct (violates_not_null def cs) eqn:Hnn; cbn [negb orb]; [apply IH|].
  rewrite insert_all_ignore_cons, Hnn. cbn [orb]. apply IH.
Qed.

Lemma filter_map_comm {A B} (f : A → B) (p : B → bool) (l : list A) :
  List.filter p (map f l) = map f (List.filter (fun x => p (f x)) l).
Proof.
  induction l as [|x l IH]; [done|]. cbn. destruct (p (f x)); cbn;
    by rewrite IH.
Qed.

Lemma mapR_map {A B C} (f : B → result C) (k : A → B) (g : A → C)
  (l : list A) :
  (∀ x, f (k x) = Ok (g x)) → mapR f (map k l) = Ok (map g l).
Proof.
  intros Hf. induction l as [|x l IH]; [done|].
  cbn [mapR map]. rewrite Hf. cbn. by rewrite IH.
Qed.

(** The mappings that [insert_locations] builds when every service center
    has its key. *)
Lemma location_rows_ok st sc_ids metro_ids items :
  items_of (sc_heap st) (service_centers st) = Ok items →
  (∀ slug sc, (slug, sc) ∈ items → is_Some (sc_ids !! VText slug)) →
  for_service_centers st sc_locations (fun sc_slug location =>
    service_center_id ← id_of sc_ids sc_slug;
    Ok (dict_params
          [("service_center_id", VInt service_center_id);
           ("metro_id", of_opt_int (id_get metro_ids (loc_metro location)));
           ("address", of_str (loc_address location));
           ("coords", of_opt_str (loc_coords location));
           ("is_primary", of_bool (loc_is_primary location))]))
  = Ok (map (location_params metro_ids) (keyed_locations sc_ids items)).
Proof.
  intros Hitems Hids. unfold for_service_centers. rewrite Hitems.
  cbn [mbind result_bind].
  rewrite (concatMapR_ok _
             (fun item : string * ServiceCenter =>
                map (fun location =>
                       location_params metro_ids
                         (resolved_id sc_ids item.1, location))
                    (sc_locations item.2))).
  - f_equal. unfold keyed_locations. clear.
    induction items as [|[slug sc] items IH]; [done|].
    cbn [map concat]. by rewrite map_app, map_map, IH.
  - intros [slug sc] Hin. apply mapR_ok. intros location _.
    by rewrite (id_of_resolved _ _ (Hids _ _ Hin)).
Qed.

(** The mappings that [insert_service_centers_metros] builds when every
    service center and every metro has its key. *)
Lemma metro_link_rows_ok st sc_ids metro_ids items :
  items_of (sc_heap st) (service_centers st) = Ok items →
  (∀ slug sc, (slug, sc) ∈ items → is_Some (sc_ids !! VText slug)) →
  (∀ slug sc title, (slug, sc) ∈ items → title ∈ sc_metros sc →
     is_Some (metro_ids !! VText title)) →
  for_service_centers st (fun sc => elements (sc_metros sc))
    (fun sc_slug metro_title =>
       service_center_id ← id_of sc_ids sc_slug;
       metro_id ← id_of metro_ids metro_title;
       Ok (dict_params [("service_center_id", VInt service_center_id);
                        ("metro_id", VInt metro_id)]))
  = Ok (map metro_link_params (keyed_metro_links sc_ids metro_ids items)).
Proof.
  intros Hitems Hids Hmetros. unfold for_service_centers. rewrite Hitems.
  cbn [mbind result_bind].
  rewrite (concatMapR_ok _
             (fun item : string * ServiceCenter =>
                map (fun metro_title =>
                       metro_link_params
                         (resolved_id metro_ids metro_title,
                          resolved_id sc_ids item.1))
                    (elements (sc_metros item.2)))).
  - f_equal. unfold keyed_metro_links. clear.
    induction items as [|[slug sc] items IH]; [done|].
    cbn [map concat]. by rewrite map_app, map_map, IH.
  - intros [slug sc] Hin. apply mapR_ok. intros title Htitle.
    rewrite (id_of_resolved _ _ (Hids _ _ Hin)). cbn [mbind result_bind].
    rewrite (id_of_resolved metro_ids title); [done|].
    eapply Hmetros; [done|]. by apply elem_of_elements.
Qed.

Lemma location_not_null metro_ids (row : Z * Location) :
  negb (violates_not_null (def_of "locations")
          (location_cells metro_ids row.1 row.2))
  = metro_resolved metro_ids row.2.
Proof.
  unfold metro_resolved, location_cells.
  destruct (id_get metro_ids (loc_metro row.2)) as [id|] eqn:Hid.
  - rewrite bool_decide_eq_true_2 by eauto. by destruct (loc_is_primary row.2).
  - rewrite bool_decide_eq_false_2 by (by intros [? ?]). done.
Qed.

(** C7, as the code has it.  [insert_locations] looks the metro of a
    location up with [get]: a location whose metro has no key is bound a
    NULL [metro_id], which the table turns away, so that the call raises
    nothing and the table ends as if only the locations with a resolved
    metro had been proposed.  The key of the service center is looked up by
    subscript there, as both keys are in [insert_service_centers_metros],
    which writes a row for every pair when every key is present. *)
Theorem insert_locations_skips_unresolved_metro (st : State) (db : Db)
  (sc_ids_by_slugs metro_ids_by_titles : gmap value Z)
  (items : list (string * ServiceCenter)) (rows link_rows : list Row) :
  items_of (sc_heap st) (service_centers st) = Ok items →
  Forall (fun item : string * ServiceCenter =>
            is_Some (sc_ids_by_slugs !! VText item.1)) items →
  tables db !! "locations"
  = Some {| t_def := def_of "locations"; t_rows := rows |} →
  tables db !! "metro_service_center"
  = Some {| t_def := def_of "metro_service_center"; t_rows := link_rows |} →
  (∃ db',
     insert_locations st sc_ids_by_slugs metro_ids_by_titles db = (Ok tt, db')
     ∧ tables db'
       = <["locations" :=
             {| t_def := def_of "locations";
                t_rows :=
                  insert_all_ignore (def_of "locations")
                    (map (fun row : Z * Location =>
                            location_cells metro_ids_by_titles row.1 row.2)
                         (List.filter
                            (fun row : Z * Location =>
                               metro_resolved metro_ids_by_titles row.2)
                            (keyed_locations sc_ids_by_slugs items)))
                    rows |}]> (tables db)
     ∧ durable db' = durable db)
  ∧ (Forall (fun item : string * ServiceCenter =>
               Forall (fun title =>
                         is_Some (metro_ids_by_titles !! VText title))
                      (elements (sc_metros item.2))) items →
     ∃ db',
       insert_service_centers_metros st sc_ids_by_slugs metro_ids_by_titles
         db = (Ok tt, db')
       ∧ tables db'
         = <["metro_service_center" :=
               {| t_def := def_of "metro_service_center";
                  t_rows :=
                    insert_all_ignore (def_of "metro_service_center")
                      (map (fun row : Z * Z =>
                              metro_link_cells row.1 row.2)
                           (keyed_metro_links sc_ids_by_slugs
                              metro_ids_by_titles items))
                      link_rows |}]> (tables db)
       ∧ durable db' = durable db).
Proof.
  intros Hitems Hids' Hlocations Hlinks.
  assert (∀ slug sc, (slug, sc) ∈ items →
            is_Some (sc_ids_by_slugs !! VText slug)) as Hids.
  { intros slug sc Hin. rewrite Forall_forall in Hids'.
    apply (Hids' _ Hin). }
  split.
  - unfold insert_locations. rewrite bind_run. unfold lift at 1.
    rewrite (location_rows_ok _ _ _ _ Hitems Hids).
    destruct (executemany_ignore
                (get_insert_query "locations"
                   ["service_center_id"; "metro_id"; "address"; "coords";
                    "is_primary"])
                {| i_conflict := OrIgnore; i_table := "locations";
                   i_columns := ["service_center_id"; "metro_id"; "address";
                                 "coords"; "is_primary"];
                   i_params := ["service_center_id"; "metro_id"; "address";
                                "coords"; "is_primary"] |}
                (map (location_params metro_ids_by_titles)
                     (keyed_locations sc_ids_by_slugs items))
                (map (fun row : Z * Location =>
                        location_cells metro_ids_by_titles row.1 row.2)
                     (keyed_locations sc_ids_by_slugs items))
                db (def_of "locations") rows)
      as (db' & Hrun & Ht & Hd & _).
    { reflexivity. }
    { reflexivity. }
    { exact Hlocations. }
    { repeat constructor; apply bool_decide_unpack; reflexivity. }
    { apply mapR_map. intros [id location]. reflexivity. }
    exists db'. split; [exact Hrun|]. split; [|exact Hd].
    rewrite Ht. cbn [i_table].
    rewrite (insert_all_ignore_not_null (def_of "locations")).
    rewrite filter_map_comm.
    rewrite (List.filter_ext _ _ (location_not_null metro_ids_by_titles)).
    done.
  - intros Hmetros'.
    assert (∀ slug sc title, (slug, sc) ∈ items → title ∈ sc_metros sc →
              is_Some (metro_ids_by_titles !! VText title)) as Hmetros.
    { intros slug sc title Hin Htitle. rewrite Forall_forall in Hmetros'.
      specialize (Hmetros' _ Hin). rewrite Forall_forall in Hmetros'.
      apply Hmetros'. by apply elem_of_elements. }
    unfold insert_service_centers_metros. rewrite bind_run. unfold lift at 1.
    rewrite (metro_link_rows_ok _ _ _ _ Hitems Hids Hmetros).
    destruct (executemany_ignore
                (get_insert_query "metro_service_center"
                   ["service_center_id"; "metro_id"])
                {| i_conflict := OrIgnore; i_table := "metro_service_center";
                   i_columns := ["service_center_id"; "metro_id"];
                   i_params := ["service_center_id"; "metro_id"] |}
                (map metro_link_params
                     (keyed_metro_links sc_ids_by_slugs metro_ids_by_titles
                        items))
                (map (fun row : Z * Z => metro_link_cells row.1 row.2)
                     (keyed_metro_links sc_ids_by_slugs metro_ids_by_titles
                        items))
                db (def_of "metro_service_center") link_rows)
      as (db' & Hrun & Ht & Hd & _).
    { reflexivity. }
    { reflexivity. }
    { exact Hlinks. }
    { repeat constructor; apply bool_decide_unpack; reflexivity. }
    { apply mapR_map. intros [metro_id service_center_id]. reflexivity. }
    exists db'. split; [exact Hrun|]. split; [|exact Hd].
    by rewrite Ht.
Qed.

(** C7, as the specification has it, fails for the junction tables: when a
    metro of a service center has no key, [insert_service_centers_metros]
    raises [KeyError] while it builds its rows, and writes no row at all,
    not even the row of the metro that has a key. *)
Lemma insert_service_centers_metros_raises :
  let sc_ids_by_slugs : gmap value Z := {[VText "remont-plus" := 1]} in
  let metro_ids_by_titles : gmap value Z := {[VText "Автово" := 1]} in
  sc_metros two_metros_center = {["Автово"; "Зенит"]}
  ∧ insert_service_centers_metros two_metros_state sc_ids_by_slugs
      metro_ids_by_titles empty_store
    = (Raise (KeyError "Зенит"), empty_store)
  ∧ t_rows <$> tables empty_store !! "metro_service_center" = Some [].
Proof.
  split; [|split].
  - apply (bool_decide_unpack _). by vm_compute.
  - vm_compute. reflexivity.
  - vm_compute. reflexivity.
Qed.

(** *** The order of the statements of [insert_data] *)

Lemma logs_ret {A} (a : A) : logs (mret a) [].
Proof. intros db. cbn. by rewrite app_nil_r. Qed.

Lemma logs_lift {A} (r : result A) : logs (lift r) [].
Proof.
  intros db. unfold lift. destruct r.
  - by rewrite app_nil_r.
  - exists []. split; [done|]. by rewrite app_nil_r.
Qed.

Lemma logs_get_state : logs get_state [].
Proof. intros db. cbn. by rewrite app_nil_r. Qed.

Lemma logs_modify (f : Db → Db) :
  (∀ db, log (f db) = log db) → logs (modify f) [].
Proof. intros Hf db. cbn. by rewrite Hf, app_nil_r. Qed.

Lemma logs_emit (e : event) : logs (emit e) [e].
Proof. by intros db. Qed.

Lemma logs_commit : logs commit [EvCommit].
Proof. by intros db. Qed.

Lemma logs_bind {A B} (m : DbM A) (f : A → DbM B) (es1 es2 : list event) :
  logs m es1 → (∀ a, logs (f a) es2) → logs (m ≫= f) (es1 ++ es2).
Proof.
  intros Hm Hf db. rewrite bind_run. specialize (Hm db).
  destruct (m db) as [[a|e] db1].
  - specialize (Hf a db1). destruct (f a db1) as [[b|e] db2].
    + by rewrite Hf, Hm, app_assoc.
    + destruct Hf as (es' & Hpre & Hlog). exists (es1 ++ es')%list.
      split; [by apply prefix_app|]. by rewrite Hlog, Hm, app_assoc.
  - destruct Hm as (es' & Hpre & Hlog). exists es'.
    split; [|done]. by apply prefix_app_r.
Qed.

Lemma logs_for_each {A} (l : list A) (body : A → DbM unit) :
  (∀ x, logs (body x) []) → logs (for_each l body) [].
Proof.
  intros Hbody. induction l as [|x l IH]; [apply logs_ret|].
  cbn [for_each]. by apply (logs_bind _ _ [] []).
Qed.

Lemma logs_raise {A} (e : exn) (es : list event) :
  logs (lift (Raise e) : DbM A) es.
Proof.
  intros db. exists []. split; [apply prefix_nil|]. by rewrite app_nil_r.
Qed.

Lemma logs_execute_insert stmt p : logs (execute_insert stmt p) [].
Proof.
  unfold execute_insert. apply (logs_bind _ _ [] []); [apply logs_get_state|].
  intros db. destruct (tables db !! i_table stmt); [|apply logs_raise].
  apply (logs_bind _ _ [] []); [apply logs_lift|]. intros cs.
  apply (logs_bind _ _ [] []); [apply logs_lift|]. intros rows.
  by apply logs_modify.
Qed.

Lemma logs_executemany query stmt ps :
  parse_insert query = Some stmt →
  logs (executemany query ps) [EvInsert (i_table stmt)].
Proof.
  intros Hparse. unfold executemany. rewrite Hparse.
  apply (logs_bind _ _ [] [_]); [apply logs_get_state|].
  intros db. destruct (tables db !! i_table stmt); [|apply logs_raise].
  destruct (forallb _ _); [|apply logs_raise].
  apply (logs_bind _ _ [_] []); [apply logs_emit|]. intros _.
  apply logs_for_each. intros p. apply logs_execute_insert.
Qed.

Lemma logs_select table field :
  logs (select_id_and table field) [EvSelect table].
Proof.
  unfold select_id_and.
  apply (logs_bind _ _ [] [_]); [apply logs_get_state|].
  intros db. destruct (tables db !! table); [|apply logs_raise].
  destruct (_ && _); [|apply logs_raise].
  apply (logs_bind _ _ [_] []); [apply logs_emit|]. intros _.
  apply logs_ret.
Qed.

Lemma logs_get_items_ids_by_field table field :
  logs (get_items_ids_by_field table field) [EvSelect table].
Proof.
  unfold get_items_ids_by_field.
  apply (logs_bind _ _ [_] []); [apply logs_select|]. intros items.
  apply logs_ret.
Qed.

Lemma logs_create_table name def :
  logs (create_table_if_not_exists name def) [EvCreate name].
Proof.
  unfold create_table_if_not_exists.
  apply (logs_bind _ _ [_] []); [apply logs_emit|]. intros _.
  by apply logs_modify.
Qed.

Lemma logs_create_schema :
  logs create_schema
       (map (fun entry : string * TableDef => EvCreate entry.1) schema).
Proof.
  unfold create_schema. induction schema as [|[name def] l IH].
  - apply logs_ret.
  - cbn [for_each map]. apply (logs_bind _ _ [_] _); [|done].
    apply logs_create_table.
Qed.

Lemma logs_insert_query table fields ps :
  is_name table = true →
  fields ≠ [] →
  Forall (fun w => is_name w = true) fields →
  logs (executemany (get_insert_query table fields) ps) [EvInsert table].
Proof.
  intros Htable Hne Hfields.
  by apply (logs_executemany _ _ _
              (parse_get_insert_query table fields Htable Hne Hfields)).
Qed.

Lemma logs_eq {A} (m : DbM A) (es es' : list event) :
  logs m es → es = es' → logs m es'.
Proof. by intros Hm <-. Qed.

(** The shape of the insert functions: the rows are built, which may
    raise, and the statement of [get_insert_query] is executed. *)
Lemma logs_rows_then_insert {A} (rows : result A) (ps : A → list Params)
  table fields :
  is_name table = true →
  fields ≠ [] →
  Forall (fun w => is_name w = true) fields →
  logs (x ← lift rows; executemany (get_insert_query table fields) (ps x))
       [EvInsert table].
Proof.
  intros Htable Hne Hfields.
  apply (logs_bind _ _ [] [_]); [apply logs_lift|].
  intros x. by apply logs_insert_query.
Qed.

Section PersistLogs.

Variable st : State.

Lemma logs_insert_brands : logs (insert_brands st) [EvInsert "brands"].
Proof.
  unfold insert_brands.
  apply logs_rows_then_insert;
    [reflexivity | discriminate | repeat constructor].
Qed.

Lemma logs_insert_devices : logs (insert_devices st) [EvInsert "devices"].
Proof.
  unfold insert_devices.
  apply logs_rows_then_insert;
    [reflexivity | discriminate | repeat constructor].
Qed.

Lemma logs_insert_metros : logs (insert_metros st) [EvInsert "metros"].
Proof.
  unfold insert_metros.
  apply logs_insert_query;
    [reflexivity | discriminate | repeat constructor].
Qed.

Lemma logs_insert_advantages :
  logs (insert_advantages st) [EvInsert "advantages"].
Proof.
  unfold insert_advantages.
  apply logs_insert_query;
    [reflexivity | discriminate | repeat constructor].
Qed.

Lemma logs_insert_features : logs (insert_features st) [EvInsert "features"].
Proof.
  unfold insert_features.
  apply logs_insert_query;
    [reflexivity | discriminate | repeat constructor].
Qed.

Lemma logs_insert_service_centers :
  logs (insert_service_centers st) [EvInsert "service_centers"].
Proof.
  unfold insert_service_centers.
  apply logs_rows_then_insert;
    [reflexivity | discriminate | repeat constructor].
Qed.

Lemma logs_insert_locations sc_ids metro_ids :
  logs (insert_locations st sc_ids metro_ids) [EvInsert "locations"].
Proof.
  unfold insert_locations.
  apply logs_rows_then_insert;
    [reflexivity | discriminate | repeat constructor].
Qed.

Lemma logs_insert_opening_hours sc_ids :
  logs (insert_opening_hours st sc_ids) [EvInsert "opening_hours"].
Proof.
  unfold insert_opening_hours.
  apply logs_rows_then_insert;
    [reflexivity | discriminate | repeat constructor].
Qed.

Lemma logs_insert_services device_ids :
  logs (insert_services st device_ids) [EvInsert "services"].
Proof.
  unfold insert_services.
  apply logs_rows_then_insert;
    [reflexivity | discriminate | repeat constructor].
Qed.

Lemma logs_insert_gallery_images sc_ids :
  logs (insert_gallery_images st sc_ids) [EvInsert "gallery_images"].
Proof.
  unfold insert_gallery_images.
  apply logs_rows_then_insert;
    [reflexivity | discriminate | repeat constructor].
Qed.

Lemma logs_insert_service_centers_advantages sc_ids advantage_ids :
  logs (insert_service_centers_advantages st sc_ids advantage_ids)
       [EvInsert "advantage_service_center"].
Proof.
  unfold insert_service_centers_advantages.
  apply logs_rows_then_insert;
    [reflexivity | discriminate | repeat constructor].
Qed.

Lemma logs_insert_service_centers_features sc_ids feature_ids :
  logs (insert_service_centers_features st sc_ids feature_ids)
       [EvInsert "feature_service_center"].
Proof.
  unfold insert_service_centers_features.
  apply logs_rows_then_insert;
    [reflexivity | discriminate | repeat constructor].
Qed.

Lemma logs_insert_service_centers_brands sc_ids brand_ids :
  logs (insert_service_centers_brands st sc_ids brand_ids)
       [EvInsert "brand_service_center"].
Proof.
  unfold insert_service_centers_brands.
  apply logs_rows_then_insert;
    [reflexivity | discriminate | repeat constructor].
Qed.

Lemma logs_insert_service_centers_devices sc_ids device_ids :
  logs (insert_service_centers_devices st sc_ids device_ids)
       [EvInsert "device_service_center"].
Proof.
  unfold insert_service_centers_devices.
  apply logs_rows_then_insert;
    [reflexivity | discriminate | repeat constructor].
Qed.

Lemma logs_insert_service_centers_metros sc_ids metro_ids :
  logs (insert_service_centers_metros st sc_ids metro_ids)
       [EvInsert "metro_service_center"].
Proof.
  unfold insert_service_centers_metros.
  apply logs_rows_then_insert;
    [reflexivity | discriminate | repeat constructor].
Qed.

Lemma logs_insert_devices_brands brand_ids device_ids :
  logs (insert_devices_brands st brand_ids device_ids)
       [EvInsert "brand_device"].
Proof.
  unfold insert_devices_brands.
  apply logs_rows_then_insert;
    [reflexivity | discriminate | repeat constructor].
Qed.

End PersistLogs.

(** Every run of [insert_data], complete or cut short by an exception,
    executes the first part of one fixed sequence of statements. *)
Lemma logs_insert_data st : logs (insert_data st) insert_data_events.
Proof.
  unfold insert_data. eapply logs_eq.
  - repeat
      (eapply logs_bind;
       [lazymatch goal with
        | |- logs create_schema _ => apply logs_create_schema
        | |- logs commit _ => apply logs_commit
        | |- logs (get_items_ids_by_field _ _) _ =>
            apply logs_get_items_ids_by_field
        | |- logs (insert_brands _) _ => apply logs_insert_brands
        | |- logs (insert_devices _) _ => apply logs_insert_devices
        | |- logs (insert_metros _) _ => apply logs_insert_metros
        | |- logs (insert_advantages _) _ => apply logs_insert_advantages
        | |- logs (insert_features _) _ => apply logs_insert_features
        | |- logs (insert_service_centers _) _ =>
            apply logs_insert_service_centers
        | |- logs (insert_opening_hours _ _) _ =>
            apply logs_insert_opening_hours
        | |- logs (insert_gallery_images _ _) _ =>
            apply logs_insert_gallery_images
        | |- logs (insert_services _ _) _ => apply logs_insert_services
        | |- logs (insert_locations _ _ _) _ => apply logs_insert_locations
        | |- logs (insert_service_centers_brands _ _ _) _ =>
            apply logs_insert_service_centers_brands
        | |- logs (insert_service_centers_devices _ _ _) _ =>
            apply logs_insert_service_centers_devices
        | |- logs (insert_service_centers_metros _ _ _) _ =>
            apply logs_insert_service_centers_metros
        | |- logs (insert_devices_brands _ _ _) _ =>
            apply logs_insert_devices_brands
        | |- logs (insert_service_centers_advantages _ _ _) _ =>
            apply logs_insert_service_centers_advantages
        | |- logs (insert_service_centers_features _ _ _) _ =>
            apply logs_insert_service_centers_features
        end
       |intros ?]).
    apply logs_commit.
  - reflexivity.
Qed.

Lemma insert_data_log_prefix st ts :
  log (insert_data st (connect ts)).2 `prefix_of` insert_data_events.
Proof.
  pose proof (logs_insert_data st (connect ts)) as Hlogs.
  destruct (insert_data st (connect ts)) as [[[]|e] db']; cbn.
  - by rewrite Hlogs.
  - destruct Hlogs as (es' & Hpre & ->). done.
Qed.

(** The property on the complete sequence: position by position. *)
Lemma insert_data_events_in_order (i : nat) table referenced :
  insert_data_events !! i = Some (EvInsert table) →
  (table, referenced) ∈ relationship_tables →
  written_in_order insert_data_events i referenced.
Proof.
  intros Hi Hin.
  assert (∀ t, t ∈ independent_tables →
            ∃ j : nat, (j < 21)%nat
                       ∧ insert_data_events !! j = Some (EvInsert t))
    as Hindependent.
  { intros t Ht. unfold independent_tables in Ht.
    repeat (apply elem_of_cons in Ht as [->|Ht];
            [first [ by exists 16%nat; split; [lia|]
                   | by exists 17%nat; split; [lia|]
                   | by exists 18%nat; split; [lia|]
                   | by exists 19%nat; split; [lia|]
                   | by exists 20%nat; split; [lia|] ]|]).
    by apply elem_of_nil in Ht. }
  assert (∀ t, t ∈ ["service_centers"; "metros"; "brands"; "devices";
                    "advantages"; "features"] →
            ∃ j : nat, (23 < j)%nat ∧ (j < 30)%nat
                       ∧ insert_data_events !! j = Some (EvSelect t))
    as Hselect.
  { intros t Ht.
    repeat (apply elem_of_cons in Ht as [->|Ht];
            [first [ by exists 24%nat; split; [lia|split; [lia|]]
                   | by exists 25%nat; split; [lia|split; [lia|]]
                   | by exists 26%nat; split; [lia|split; [lia|]]
                   | by exists 27%nat; split; [lia|split; [lia|]]
                   | by exists 28%nat; split; [lia|split; [lia|]]
                   | by exists 29%nat; split; [lia|split; [lia|]] ]|]).
    by apply elem_of_nil in Ht. }
  assert ((30 ≤ i)%nat ∧ ∀ t, t ∈ referenced →
            t ∈ ["service_centers"; "metros"; "brands"; "devices";
                 "advantages"; "features"]) as [Hge Hrefs].
  { do 30 (destruct i as [|i];
           [cbn in Hi; inversion Hi; subst table; exfalso; clear -Hin;
            unfold relationship_tables in Hin;
            repeat (apply elem_of_cons in Hin as [Hin|Hin];
                    [by inversion Hin|]);
            by apply elem_of_nil in Hin|]).
    split; [lia|]. intros t Ht. unfold relationship_tables in Hin.
    repeat (apply elem_of_cons in Hin as [Hin|Hin];
            [inversion Hin; subst; clear Hin;
             repeat (apply elem_of_cons in Ht as [->|Ht];
                     [by repeat constructor|]);
             by apply elem_of_nil in Ht|]).
    by apply elem_of_nil in Hin. }
  exists 21%nat, 23%nat.
  split; [lia|]. split; [lia|]. split; [done|]. split; [done|].
  split; [exact Hindependent|].
  split. { exists 22%nat. split; [lia|]. split; [lia|done]. }
  intros t Ht. destruct (Hselect t (Hrefs t Ht)) as (j & Hj1 & Hj2 & Hj).
  exists j. split; [lia|]. split; [lia|done].
Qed.

(** C8. In every run of [insert_data] on a fresh connection, complete or
    cut short, each write to a relationship table (opening hours, gallery
    images, services, locations and the six junction tables) comes after
    the inserts of the independent tables (brands, devices, metros,
    advantages, features) and the commit that follows them, after the
    insert of the service centers and its commit, and after the keys of
    the tables it refers to have been read back from the store. *)
Theorem insert_data_dependency_order (st : State) (ts : gmap string Table)
  (i : nat) (table : string) (referenced : list string) :
  let l := log (insert_data st (connect ts)).2 in
  l !! i = Some (EvInsert table) →
  (table, referenced) ∈ relationship_tables →
  written_in_order l i referenced.
Proof.
  intros l Hi Hin.
  pose proof (insert_data_log_prefix st ts) as Hprefix. fold l in Hprefix.
  assert (∀ j : nat, (j ≤ i)%nat → insert_data_events !! j = l !! j)
    as Hsame.
  { intros j Hj. symmetry. apply prefix_lookup_lt; [|done].
    apply lookup_lt_Some in Hi. lia. }
  destruct (insert_data_events_in_order i table referenced)
    as (c1 & c2 & H12 & H2i & Hc1 & Hc2 & Hind & Hsc & Href); [|done|].
  { by rewrite Hsame. }
  exists c1, c2. split; [done|]. split; [done|].
  split; [by rewrite <- Hsame by lia|].
  split; [by rewrite <- Hsame by lia|].
  split.
  { intros t Ht. destruct (Hind t Ht) as (j & Hj & Hev).
    exists j. split; [done|]. by rewrite <- Hsame by lia. }
  split.
  { destruct Hsc as (j & Hj1 & Hj2 & Hev).
    exists j. split; [done|]. split; [done|]. by rewrite <- Hsame by lia. }
  intros t Ht. destruct (Href t Ht) as (j & Hj1 & Hj2 & Hev).
  exists j. split; [done|]. split; [done|]. by rewrite <- Hsame by lia.
Qed.

(** * Further properties of the code *)

(** ** Consistency of the registries *)

Lemma sc_heap_insert_cases (h : list ServiceCenter) sc d sc' d' :
  <[sc := d]> h !! sc' = Some d' → h !! sc' = Some d' ∨ (d' = d ∧ sc' = sc).
Proof.
  intros Hd'. destruct (decide (sc = sc')) as [<-|Hne].
  - destruct (decide (sc < length h)%nat).
    + rewrite list_lookup_insert_eq in Hd' by done. right. by inversion Hd'.
    + rewrite list_insert_ge in Hd' by lia. by left.
  - rewrite list_lookup_insert_ne in Hd' by done. by left.
Qed.

Lemma heap_push_cases {A} (h : list A) (x x' : A) (r : nat) :
  (h ++ [x])%list !! r = Some x' →
  h !! r = Some x' ∨ (x' = x ∧ r = length h).
Proof.
  intros Hx'. apply lookup_app_Some in Hx' as [Hx'|[Hge Hx']]; [by left|].
  destruct (r - length h)%nat eqn:Hr; [|done].
  right. split; [by inversion Hx'|lia].
Qed.

Section Consistency.

Variable slugify : string → string.
Variable fetch : nat → string → DetailPage.
Variable stored_name : string → string.

(** *** The facts of a service center are registered *)

Lemma facts_update_sc sc f :
  (∀ d, sc_metros (f d) = sc_metros d
        ∧ sc_advantages (f d) = sc_advantages d
        ∧ sc_features (f d) = sc_features d) →
  preserves facts_registered (update_service_center sc f).
Proof.
  intros Hf st Hfacts. unfold update_service_center.
  destruct (sc_heap st !! sc) as [d0|] eqn:Hd0; [|done].
  intros sc' d' Hd'. cbn in Hd'.
  apply sc_heap_insert_cases in Hd' as [Hd'|[-> ->]]; [exact (Hfacts _ _ Hd')|].
  destruct (Hf d0) as (-> & -> & ->). exact (Hfacts _ _ Hd0).
Qed.

Lemma facts_new_sc d :
  sc_metros d = ∅ ∧ sc_advantages d = ∅ ∧ sc_features d = ∅ →
  preserves facts_registered (new_service_center d).
Proof.
  intros (Hm & Ha & Hf) st Hfacts sc' d' Hd'. cbn in Hd'.
  apply heap_push_cases in Hd' as [Hd'|[-> _]]; [exact (Hfacts _ _ Hd')|].
  rewrite Hm, Ha, Hf. by repeat split.
Qed.

Lemma facts_update_category r f :
  preserves facts_registered (update_category r f).
Proof.
  intros st HI. unfold update_category. by destruct (cat_heap st !! r).
Qed.

Lemma facts_read_category r : preserves facts_registered (read_category r).
Proof.
  intros st HI. unfold read_category. by destruct (cat_heap st !! r).
Qed.

Lemma facts_read_sc r : preserves facts_registered (read_service_center r).
Proof.
  intros st HI. unfold read_service_center. by destruct (sc_heap st !! r).
Qed.

Lemma facts_add_metro sc metro_tag :
  preserves facts_registered (add_metro sc metro_tag).
Proof.
  intros st Hfacts. unfold add_metro.
  set (title := if String.eqb _ _ then _ else _).
  rewrite bind_run. unfold modify at 1. unfold update_service_center.
  cbn [sc_heap with_metros].
  destruct (sc_heap st !! sc) as [d0|] eqn:Hd0; cbn [snd].
  - intros sc' d' Hd'. cbn in Hd'. cbn [metros advantages features
      with_sc_heap with_metros]. rewrite dom_insert_L.
    apply sc_heap_insert_cases in Hd' as [Hd'|[-> ->]].
    + destruct (Hfacts _ _ Hd') as (? & ? & ?). split; [|done].
      by apply union_subseteq_r'.
    + destruct (Hfacts _ _ Hd0) as (? & ? & ?). split; [|done].
      cbn. rewrite (union_comm_L _ {[title]}). by apply union_mono_l.
  - intros sc' d' Hd'. cbn in Hd'. cbn [metros advantages features with_metros].
    rewrite dom_insert_L. destruct (Hfacts _ _ Hd') as (? & ? & ?).
    split; [|done]. by apply union_subseteq_r'.
Qed.


Lemma facts_add_advantage sc advantage_tag :
  preserves facts_registered (add_advantage sc advantage_tag).
Proof.
  intros st Hfacts. unfold add_advantage.
  set (title := get_text advantage_tag).
  rewrite bind_run. unfold modify at 1. unfold update_service_center.
  cbn [sc_heap with_advantages].
  destruct (sc_heap st !! sc) as [d0|] eqn:Hd0; cbn [snd].
  - intros sc' d' Hd'. cbn in Hd'. cbn [metros advantages features
      with_sc_heap with_advantages]. rewrite dom_insert_L.
    apply sc_heap_insert_cases in Hd' as [Hd'|[-> ->]].
    + destruct (Hfacts _ _ Hd') as (? & ? & ?). split; [done|]. split; [|done].
      by apply union_subseteq_r'.
    + destruct (Hfacts _ _ Hd0) as (? & ? & ?). split; [done|]. split; [|done].
      cbn. rewrite (union_comm_L _ {[title]}). by apply union_mono_l.
  - intros sc' d' Hd'. cbn in Hd'.
    cbn [metros advantages features with_advantages].
    rewrite dom_insert_L. destruct (Hfacts _ _ Hd') as (? & ? & ?).
    split; [done|]. split; [|done]. by apply union_subseteq_r'.
Qed.

Lemma facts_add_feature sc feature_tag :
  preserves facts_registered (add_feature sc feature_tag).
Proof.
  intros st Hfacts. unfold add_feature.
  set (title := get_text feature_tag).
  rewrite bind_run. unfold modify at 1. unfold update_service_center.
  cbn [sc_heap with_features].
  destruct (sc_heap st !! sc) as [d0|] eqn:Hd0; cbn [snd].
  - intros sc' d' Hd'. cbn in Hd'. cbn [metros advantages features
      with_sc_heap with_features]. rewrite dom_insert_L.
    apply sc_heap_insert_cases in Hd' as [Hd'|[-> ->]].
    + destruct (Hfacts _ _ Hd') as (? & ? & ?). split; [done|]. split; [done|].
      by apply union_subseteq_r'.
    + destruct (Hfacts _ _ Hd0) as (? & ? & ?). split; [done|]. split; [done|].
      cbn. rewrite (union_comm_L _ {[title]}). by apply union_mono_l.
  - intros sc' d' Hd'. cbn in Hd'.
    cbn [metros advantages features with_features].
    rewrite dom_insert_L. destruct (Hfacts _ _ Hd') as (? & ? & ?).
    split; [done|]. split; [done|]. by apply union_subseteq_r'.
Qed.

Lemma facts_primitives :
  (∀ sc metro_tag, preserves facts_registered (add_metro sc metro_tag))
  ∧ (∀ sc tag, preserves facts_registered (add_advantage sc tag))
  ∧ (∀ sc tag, preserves facts_registered (add_feature sc tag))
  ∧ (∀ r f, preserves facts_registered (update_category r f))
  ∧ (∀ r, preserves facts_registered (read_category r))
  ∧ (∀ r, preserves facts_registered (read_service_center r))
  ∧ (∀ sc f,
       (∀ d, sc_metros (f d) = sc_metros d
             ∧ sc_advantages (f d) = sc_advantages d
             ∧ sc_features (f d) = sc_features d) →
       preserves facts_registered (update_service_center sc f))
  ∧ (∀ d, sc_metros d = ∅ ∧ sc_advantages d = ∅ ∧ sc_features d = ∅ →
          preserves facts_registered (new_service_center d)).
Proof.
  split; [exact facts_add_metro|]. split; [exact facts_add_advantage|].
  split; [exact facts_add_feature|]. split; [exact facts_update_category|].
  split; [exact facts_read_category|]. split; [exact facts_read_sc|].
  split; [exact facts_update_sc|exact facts_new_sc].
Qed.

Lemma facts_run_op op :
  preserves facts_registered (run_op slugify fetch stored_name op).
Proof.
  destruct op; cbn [run_op];
    unfold add_popular_brand, add_category, add_device_brand,
      parse_service_center, enrich_service_center, parse_gallery,
      gather_download_file,
      download_file, session_get, add_service_center, add_service,
      add_location, add_opening_hour, new_category;
    invariant_tac facts_primitives.
  all: try done.
  - by destruct category_type; apply preserves_modify.
  - intros d. by destruct (cat_type _).
  - intros d. by destruct (cat_type _).
Qed.


(** *** The categories are registered *)

Lemma global_category_with_global t t' g st :
  global_category t' (with_global_category t g st)
  = if decide (t' = t) then g (global_category t st)
    else global_category t' st.
Proof. by destruct t, t'. Qed.

Lemma add_category_raise st category_type category_tag e :
  get_category_title category_tag = Raise e →
  add_category slugify category_type category_tag st = (Raise e, st).
Proof.
  intros Htitle. unfold add_category. rewrite bind_run. unfold lift at 1.
  by rewrite Htitle.
Qed.

(** The state in which [add_category] leaves the registries: the new
    dictionary is there, registered when its slug was free. *)
Lemma add_category_state st category_type category_tag :
  (add_category slugify category_type category_tag st).2 = st
  ∨ ∃ title,
      let c := built_category slugify category_type category_tag title in
      let st1 := with_cat_heap (fun h => h ++ [c])%list st in
      (slugify title ∈ dom (global_category category_type st)
       ∧ (add_category slugify category_type category_tag st).2 = st1)
      ∨ ((slugify title ∉ dom (global_category category_type st))
         ∧ (add_category slugify category_type category_tag st).2
           = with_global_category category_type
               (fun d => <[slugify title := length (cat_heap st)]> d) st1).
Proof.
  destruct (get_category_title category_tag) as [title|e] eqn:Htitle.
  - right. exists title. rewrite (add_category_run _ _ _ _ _ Htitle).
    destruct (bool_decide _) eqn:Hreg.
    + left. by apply bool_decide_eq_true in Hreg.
    + right. by apply bool_decide_eq_false in Hreg.
  - left. by rewrite (add_category_raise _ _ _ _ Htitle).
Qed.

Lemma categories_add_category category_type category_tag :
  preserves categories_registered
    (add_category slugify category_type category_tag).
Proof.
  intros st [Hcats Hsc].
  destruct (add_category_state st category_type category_tag)
    as [->|(title & [[Hreg ->]|[Hreg ->]])]; [done| |].
  - split.
    + intros r c Hc. cbn in Hc.
      apply heap_push_cases in Hc as [Hc|[-> _]].
      * specialize (Hcats _ _ Hc). by destruct (cat_type c).
      * cbn. by destruct category_type.
    + intros sc d t Hd. specialize (Hsc sc d t Hd). by destruct t.
  - split.
    + intros r c Hc. rewrite global_category_with_global.
      assert (cat_heap st !! r = Some c
              ∨ c = built_category slugify category_type category_tag title)
        as [Hc'| ->].
      { destruct category_type; cbn in Hc;
          apply heap_push_cases in Hc as [Hc|[-> _]]; eauto. }
      * specialize (Hcats _ _ Hc'). case_decide as Ht.
        -- rewrite dom_insert_L. apply elem_of_union_r.
           rewrite <- Ht. by destruct (cat_type c).
        -- by destruct (cat_type c).
      * cbn. rewrite decide_True by done. rewrite dom_insert_L.
        by apply elem_of_union_l, elem_of_singleton.
    + intros sc d t Hd. rewrite global_category_with_global.
      assert (sc_heap st !! sc = Some d) as Hd' by by destruct category_type.
      specialize (Hsc sc d t Hd'). case_decide as Ht.
      * rewrite dom_insert_L. subst t.
        etrans; [exact Hsc|]. etrans; [|apply union_subseteq_r].
        by destruct category_type.
      * by destruct t.
Qed.

Lemma categories_update_category r f :
  (∀ c, cat_slug (f c) = cat_slug c ∧ cat_type (f c) = cat_type c) →
  preserves categories_registered (update_category r f).
Proof.
  intros Hf st [Hcats Hsc]. unfold update_category.
  destruct (cat_heap st !! r) as [c0|] eqn:Hc0; [|done].
  split; [|done]. intros r' c' Hc'. cbn in Hc'.
  destruct (decide (r = r')) as [<-|Hne].
  - rewrite list_lookup_insert_eq in Hc' by by eapply lookup_lt_Some.
    inversion Hc'; subst c'. destruct (Hf c0) as [-> ->].
    specialize (Hcats _ _ Hc0). by destruct (cat_type c0).
  - rewrite list_lookup_insert_ne in Hc' by done.
    specialize (Hcats _ _ Hc'). by destruct (cat_type c').
Qed.

Lemma categories_read_category r :
  preserves categories_registered (read_category r).
Proof.
  intros st HI. unfold read_category. by destruct (cat_heap st !! r).
Qed.

Lemma categories_read_sc r :
  preserves categories_registered (read_service_center r).
Proof.
  intros st HI. unfold read_service_center. by destruct (sc_heap st !! r).
Qed.

Lemma categories_update_sc sc f :
  (∀ d t, category_keys t (f d) = category_keys t d) →
  preserves categories_registered (update_service_center sc f).
Proof.
  intros Hf st [Hcats Hsc]. unfold update_service_center.
  destruct (sc_heap st !! sc) as [d0|] eqn:Hd0; [|done].
  split; [done|]. intros sc' d' t Hd'. cbn in Hd'.
  apply sc_heap_insert_cases in Hd' as [Hd'|[-> ->]].
  - specialize (Hsc _ _ t Hd'). by destruct t.
  - rewrite Hf. specialize (Hsc _ _ t Hd0). by destruct t.
Qed.

Lemma categories_new_sc d :
  (∀ t, category_keys t d = ∅) →
  preserves categories_registered (new_service_center d).
Proof.
  intros Hd st [Hcats Hsc]. split; [done|]. intros sc' d' t Hd'. cbn in Hd'.
  apply heap_push_cases in Hd' as [Hd'|[-> _]].
  - specialize (Hsc _ _ t Hd'). by destruct t.
  - by rewrite Hd.
Qed.

(** The last statements of [add_service_center]: the slug of the category
    goes to the set of its type. *)
Lemma categories_relate {A} category sc (k : M A) :
  preserves categories_registered k →
  preserves categories_registered
    (cat ← read_category category;
     update_service_center sc
       (sc_with_sets (add_category_key (cat_type cat) (cat_slug cat)));;
     k).
Proof.
  intros Hk st [Hcats Hsc]. rewrite bind_run. unfold read_category.
  destruct (cat_heap st !! category) as [cat|] eqn:Hcat; [|done].
  rewrite bind_run. unfold update_service_center.
  destruct (sc_heap st !! sc) as [d0|] eqn:Hd0; [|done].
  apply Hk. split; [done|]. intros sc' d' t Hd'. cbn in Hd'.
  apply sc_heap_insert_cases in Hd' as [Hd'|[-> ->]].
  - specialize (Hsc _ _ t Hd'). by destruct t.
  - specialize (Hsc _ _ t Hd0). specialize (Hcats _ _ Hcat).
    fold (with_category cat d0). rewrite category_keys_with_category.
    apply union_subseteq. split; [by destruct t|].
    unfold slug_if_type. case_decide as Ht; [|apply empty_subseteq].
    apply singleton_subseteq_l. subst t. by destruct (cat_type cat).
Qed.

Lemma categories_primitives :
  (∀ A category sc (k : M A),
     preserves categories_registered k →
     preserves categories_registered
       (cat ← read_category category;
        update_service_center sc
          (sc_with_sets (add_category_key (cat_type cat) (cat_slug cat)));;
        k))
  ∧ (∀ category_type category_tag,
       preserves categories_registered
         (add_category slugify category_type category_tag))
  ∧ (∀ r f,
       (∀ c, cat_slug (f c) = cat_slug c ∧ cat_type (f c) = cat_type c) →
       preserves categories_registered (update_category r f))
  ∧ (∀ r, preserves categories_registered (read_category r))
  ∧ (∀ r, preserves categories_registered (read_service_center r))
  ∧ (∀ sc f,
       (∀ d t, category_keys t (f d) = category_keys t d) →
       preserves categories_registered (update_service_center sc f))
  ∧ (∀ d, (∀ t, category_keys t d = ∅) →
          preserves categories_registered (new_service_center d)).
Proof.
  split; [exact (@categories_relate)|].
  split; [exact categories_add_category|].
  split; [exact categories_update_category|].
  split; [exact categories_read_category|].
  split; [exact categories_read_sc|].
  split; [exact categories_update_sc|exact categories_new_sc].
Qed.

Lemma categories_run_op op :
  preserves categories_registered (run_op slugify fetch stored_name op).
Proof.
  destruct op; cbn [run_op];
    unfold add_popular_brand, add_device_brand,
      parse_service_center, enrich_service_center, parse_gallery,
      gather_download_file,
      download_file, session_get, add_service_center, add_service,
      add_metro, add_advantage, add_feature,
      add_location, add_opening_hour;
    invariant_tac categories_primitives.
  all: try done.
  all: by intros [].
Qed.


(** *** Every entry carries its key *)

Lemma device_keys_built category_type category_tag title :
  device_keys (built_category slugify category_type category_tag title).
Proof. destruct category_type; cbn; eauto. Qed.

Lemma keys_add_category category_type category_tag :
  preserves registry_keys_agree
    (add_category slugify category_type category_tag).
Proof.
  intros st (Hreg & Hshape & Htitles).
  destruct (add_category_state st category_type category_tag)
    as [->|(title & [[Hin ->]|[Hin ->]])]; [done| |].
  - split; [|split].
    + intros t slug r Hr.
      assert (global_category t st !! slug = Some r) as Hr' by by destruct t.
      destruct (Hreg _ _ _ Hr') as (c & Hc & Hs & Ht).
      exists c. split; [|done]. cbn. by apply lookup_app_l_Some.
    + intros r c Hc. cbn in Hc. apply heap_push_cases in Hc as [Hc|[-> _]].
      * by eapply Hshape.
      * apply device_keys_built.
    + done.
  - split; [|split].
    + intros t slug r. rewrite global_category_with_global.
      assert (∀ r' c', cat_heap st !! r' = Some c' →
                cat_heap
                  (with_global_category category_type
                     (fun d => <[slugify title := length (cat_heap st)]> d)
                     (with_cat_heap
                        (fun h => h ++ [built_category slugify category_type
                                          category_tag title])%list st))
                !! r' = Some c') as Hkeep.
      { intros r' c' Hc'. destruct category_type; cbn;
          by apply lookup_app_l_Some. }
      case_decide as Ht.
      * subst t. destruct (decide (slugify title = slug)) as [<-|Hne].
        -- rewrite lookup_insert_eq. intros [= <-].
           exists (built_category slugify category_type category_tag title).
           split; [|done]. destruct category_type; cbn;
             by rewrite lookup_app_r, Nat.sub_diag.
        -- rewrite lookup_insert_ne by done. intros Hr.
           assert (global_category category_type st !! slug = Some r)
             as Hr' by by destruct category_type.
           destruct (Hreg _ _ _ Hr') as (c & Hc & Hs & Hty).
           exists c. split; [by apply Hkeep|done].
      * intros Hr.
        assert (global_category t st !! slug = Some r) as Hr'.
        { by destruct t, category_type. }
        destruct (Hreg _ _ _ Hr') as (c & Hc & Hs & Hty).
        exists c. split; [by apply Hkeep|done].
    + intros r c Hc.
      assert (cat_heap st !! r = Some c
              ∨ c = built_category slugify category_type category_tag title)
        as [Hc'| ->].
      { destruct category_type; cbn in Hc;
          apply heap_push_cases in Hc as [Hc|[-> _]]; eauto. }
      * by eapply Hshape.
      * apply device_keys_built.
    + by destruct category_type.
Qed.

Lemma keys_replace st r c0 c1 :
  registry_keys_agree st →
  cat_heap st !! r = Some c0 →
  cat_slug c1 = cat_slug c0 →
  cat_type c1 = cat_type c0 →
  (device_keys c0 → device_keys c1) →
  registry_keys_agree (with_cat_heap (fun h => <[r := c1]> h) st).
Proof.
  intros (Hreg & Hshape & Htitles) Hc0 Hslug Htype Hkeys.
  split; [|split; [|done]].
  - intros t slug r' Hr'.
    assert (global_category t st !! slug = Some r') as Hr by by destruct t.
    destruct (Hreg _ _ _ Hr) as (c & Hc & Hs & Ht). cbn.
    destruct (decide (r = r')) as [<-|Hne].
    + rewrite list_lookup_insert_eq by by eapply lookup_lt_Some.
      exists c1. split; [done|].
      pose proof (eq_trans (eq_sym Hc0) Hc) as Heq. inversion Heq; subst c.
      by rewrite Hslug, Htype.
    + rewrite list_lookup_insert_ne by done. eauto.
  - intros r' c' Hc'. cbn in Hc'. destruct (decide (r = r')) as [<-|Hne].
    + rewrite list_lookup_insert_eq in Hc' by by eapply lookup_lt_Some.
      inversion Hc'; subst c'. apply Hkeys. by eapply Hshape.
    + rewrite list_lookup_insert_ne in Hc' by done. by eapply Hshape.
Qed.

Lemma keys_update_category r f :
  (∀ c, cat_slug (f c) = cat_slug c ∧ cat_type (f c) = cat_type c
        ∧ (device_keys c → device_keys (f c))) →
  preserves registry_keys_agree (update_category r f).
Proof.
  intros Hf st HI. unfold update_category.
  destruct (cat_heap st !! r) as [c0|] eqn:Hc0; [|done].
  destruct (Hf c0) as (? & ? & ?). by apply (keys_replace st r c0).
Qed.

Lemma keys_read_category r :
  preserves registry_keys_agree (read_category r).
Proof.
  intros st HI. unfold read_category. by destruct (cat_heap st !! r).
Qed.

Lemma keys_read_sc r :
  preserves registry_keys_agree (read_service_center r).
Proof.
  intros st HI. unfold read_service_center. by destruct (sc_heap st !! r).
Qed.

Lemma keys_update_sc sc f :
  preserves registry_keys_agree (update_service_center sc f).
Proof.
  intros st HI. unfold update_service_center. by destruct (sc_heap st !! sc).
Qed.

Lemma keys_insert_title (title : string) :
  preserves registry_keys_agree
    (modify (with_metros (fun d => <[title := title]> d)))
  ∧ preserves registry_keys_agree
      (modify (with_advantages (fun d => <[title := title]> d)))
  ∧ preserves registry_keys_agree
      (modify (with_features (fun d => <[title := title]> d))).
Proof.
  assert (∀ (m : gmap string string) k v,
            (∀ k v, m !! k = Some v → v = k) →
            <[title := title]> m !! k = Some v → v = k) as Hins.
  { intros m k v Hm. destruct (decide (title = k)) as [<-|Hne].
    - rewrite lookup_insert_eq. by intros [= <-].
    - rewrite lookup_insert_ne by done. apply Hm. }
  split; [|split]; apply preserves_modify;
    intros st (Hreg & Hshape & Hm & Ha & Hf).
  - split; [exact Hreg|]. split; [done|]. split; [|done].
    intros k v. by apply Hins.
  - split; [exact Hreg|]. split; [done|]. split; [done|].
    split; [|done]. intros k v. by apply Hins.
  - split; [exact Hreg|]. split; [done|]. split; [done|].
    split; [done|]. intros k v. by apply Hins.
Qed.

(** [add_device_brand] and [add_service] write to a key that the
    dictionary has already. *)
Lemma keys_add_device_brand device brand :
  preserves registry_keys_agree (add_device_brand device brand).
Proof.
  intros st HI. unfold add_device_brand. rewrite bind_run.
  unfold read_category at 1.
  destruct (cat_heap st !! device) as [d|] eqn:Hd; [|done].
  destruct (cat_brands d) as [s|] eqn:Hs; [|done].
  rewrite bind_run. unfold read_category at 1.
  destruct (cat_heap st !! brand) as [b|] eqn:Hb; [|done].
  rewrite (update_category_eq _ _ _ _ Hd).
  apply (keys_replace st device d); try done.
  unfold device_keys. cbn. destruct (cat_type d); [|by rewrite Hs; intros []].
  intros [_ ?]. eauto.
Qed.

Lemma keys_add_service category service_tag :
  preserves registry_keys_agree (add_service category service_tag).
Proof.
  intros st HI. unfold add_service. rewrite bind_run.
  unfold read_category at 1.
  destruct (cat_heap st !! category) as [c|] eqn:Hc; [|done].
  rewrite bind_run. unfold lift at 1.
  destruct (cat_services c) as [l|] eqn:Hl; [|done].
  rewrite bind_run. unfold lift at 1.
  destruct (col_price_1 service_tag); [|done].
  rewrite bind_run. unfold lift at 1.
  destruct (col_price_2 service_tag); [|done].
  rewrite (update_category_eq _ _ _ _ Hc).
  apply (keys_replace st category c); try done.
  unfold device_keys. cbn. destruct (cat_type c); [|by rewrite Hl; intros []].
  intros [? _]. eauto.
Qed.

Lemma keys_primitives :
  (∀ category_type category_tag,
     preserves registry_keys_agree
       (add_category slugify category_type category_tag))
  ∧ (∀ device brand,
       preserves registry_keys_agree (add_device_brand device brand))
  ∧ (∀ category service_tag,
       preserves registry_keys_agree (add_service category service_tag))
  ∧ (∀ title,
       preserves registry_keys_agree
         (modify (with_metros (fun d => <[title := title]> d))))
  ∧ (∀ title,
       preserves registry_keys_agree
         (modify (with_advantages (fun d => <[title := title]> d))))
  ∧ (∀ title,
       preserves registry_keys_agree
         (modify (with_features (fun d => <[title := title]> d))))
  ∧ (∀ r f,
       (∀ c, cat_slug (f c) = cat_slug c ∧ cat_type (f c) = cat_type c
             ∧ (device_keys c → device_keys (f c))) →
       preserves registry_keys_agree (update_category r f))
  ∧ (∀ r, preserves registry_keys_agree (read_category r))
  ∧ (∀ r, preserves registry_keys_agree (read_service_center r))
  ∧ (∀ sc f, preserves registry_keys_agree (update_service_center sc f)).
Proof.
  split; [exact keys_add_category|].
  split; [exact keys_add_device_brand|].
  split; [exact keys_add_service|].
  split; [intros title; apply keys_insert_title|].
  split; [intros title; apply keys_insert_title|].
  split; [intros title; apply keys_insert_title|].
  split; [exact keys_update_category|].
  split; [exact keys_read_category|].
  split; [exact keys_read_sc|exact keys_update_sc].
Qed.

Lemma keys_run_op op :
  preserves registry_keys_agree (run_op slugify fetch stored_name op).
Proof.
  destruct op; cbn [run_op];
    unfold add_popular_brand,
      parse_service_center, enrich_service_center, parse_gallery,
      gather_download_file,
      download_file, session_get, add_service_center,
      add_metro, add_advantage, add_feature,
      add_location, add_opening_hour, new_service_center;
    invariant_tac keys_primitives.
  all: try done.
Qed.


(** *** Registered service centers and the brands of devices *)

Lemma linked_update_sc sc f :
  (∀ d, sc_slug (f d) = sc_slug d) →
  preserves registry_linked (update_service_center sc f).
Proof.
  intros Hf st [Hsc Hdev]. unfold update_service_center.
  destruct (sc_heap st !! sc) as [d0|] eqn:Hd0; [|done].
  split; [|done]. intros slug sc' Hreg. cbn in Hreg.
  destruct (Hsc _ _ Hreg) as (d & Hd & Hslug). cbn.
  destruct (decide (sc = sc')) as [<-|Hne].
  - rewrite list_lookup_insert_eq by by eapply lookup_lt_Some.
    exists (f d0). split; [done|].
    pose proof (eq_trans (eq_sym Hd0) Hd) as Heq. inversion Heq; subst d.
    by rewrite Hf.
  - rewrite list_lookup_insert_ne by done. eauto.
Qed.

Lemma linked_register slug d :
  sc_slug d = slug →
  preserves registry_linked
    (sc ← new_service_center d;
     modify (with_service_centers (fun r => <[slug := sc]> r));;
     mret (sc, true)).
Proof.
  intros Hd st [Hsc Hdev].
  change (registry_linked
            (with_service_centers
               (fun r => <[slug := length (sc_heap st)]> r)
               (with_sc_heap (fun h => h ++ [d])%list st))).
  split; [|done]. intros slug' sc' Hreg.
  cbn in Hreg. cbn. destruct (decide (slug = slug')) as [<-|Hne].
  - rewrite lookup_insert_eq in Hreg. inversion Hreg; subst sc'.
    exists d. by rewrite lookup_app_r, Nat.sub_diag.
  - rewrite lookup_insert_ne in Hreg by done.
    destruct (Hsc _ _ Hreg) as (d' & Hd' & Hslug).
    exists d'. split; [by apply lookup_app_l_Some|done].
Qed.

Lemma linked_update_category r f :
  (∀ c, cat_brands (f c) = cat_brands c) →
  preserves registry_linked (update_category r f).
Proof.
  intros Hf st [Hsc Hdev]. unfold update_category.
  destruct (cat_heap st !! r) as [c0|] eqn:Hc0; [|done].
  split; [done|]. intros r' c' s Hc' Hs. cbn in Hc'. cbn.
  destruct (decide (r = r')) as [<-|Hne].
  - rewrite list_lookup_insert_eq in Hc' by by eapply lookup_lt_Some.
    inversion Hc'; subst c'. rewrite Hf in Hs. by eapply Hdev.
  - rewrite list_lookup_insert_ne in Hc' by done. by eapply Hdev.
Qed.

Lemma linked_read_category r : preserves registry_linked (read_category r).
Proof.
  intros st HI. unfold read_category. by destruct (cat_heap st !! r).
Qed.

Lemma linked_read_sc r :
  preserves registry_linked (read_service_center r).
Proof.
  intros st HI. unfold read_service_center. by destruct (sc_heap st !! r).
Qed.

Lemma linked_add_category category_type category_tag :
  preserves registry_linked
    (add_category slugify category_type category_tag).
Proof.
  intros st [Hsc Hdev].
  assert (∀ s : gset string,
            cat_brands (built_category slugify category_type category_tag
                          "") = Some s → s = ∅) as Hnew.
  { intros s. cbn. case_decide; [|done]. by intros [= <-]. }
  destruct (add_category_state st category_type category_tag)
    as [->|(title & [[Hin ->]|[Hin ->]])]; [done| |].
  - split; [done|]. intros r c s Hc Hs. cbn in Hc.
    apply heap_push_cases in Hc as [Hc|[-> _]]; [by eapply Hdev|].
    rewrite (Hnew s Hs). apply empty_subseteq.
  - split; [by destruct category_type|]. intros r c s Hc Hs.
    assert (cat_heap st !! r = Some c
            ∨ c = built_category slugify category_type category_tag title)
      as [Hc'| ->].
    { destruct category_type; cbn in Hc;
        apply heap_push_cases in Hc as [Hc|[-> _]]; eauto. }
    + specialize (Hdev _ _ _ Hc' Hs). etrans; [exact Hdev|].
      destruct category_type; cbn; [done|].
      rewrite dom_insert_L. apply union_subseteq_r.
    + rewrite (Hnew s Hs). apply empty_subseteq.
Qed.

Lemma linked_add_service category service_tag :
  preserves registry_linked (add_service category service_tag).
Proof.
  unfold add_service.
  repeat first [ apply linked_read_category | preserves_step ].
  all: by apply linked_update_category.
Qed.

Lemma linked_primitives :
  (∀ slug d,
     sc_slug d = slug →
     preserves registry_linked
       (sc ← new_service_center d;
        modify (with_service_centers (fun r => <[slug := sc]> r));;
        mret (sc, true)))
  ∧ (∀ category_type category_tag,
       preserves registry_linked
         (add_category slugify category_type category_tag))
  ∧ (∀ sc f,
       (∀ d, sc_slug (f d) = sc_slug d) →
       preserves registry_linked (update_service_center sc f))
  ∧ (∀ r f,
       (∀ c, cat_brands (f c) = cat_brands c) →
       preserves registry_linked (update_category r f))
  ∧ (∀ r, preserves registry_linked (read_category r))
  ∧ (∀ r, preserves registry_linked (read_service_center r)).
Proof.
  split; [exact linked_register|].
  split; [exact linked_add_category|].
  split; [exact linked_update_sc|].
  split; [exact linked_update_category|].
  split; [exact linked_read_category|exact linked_read_sc].
Qed.

(** An operation as the source has it keeps the registries linked, in a
    state whose categories are registered. *)
Lemma linked_run_op op st :
  as_in_source st op →
  categories_registered st →
  registry_linked st →
  registry_linked (run_op slugify fetch stored_name op st).2.
Proof.
  intros Hop [Hcats _].
  destruct op; cbn [run_op]; cbn in Hop.
  3: { intros [Hsc Hdev]. unfold add_device_brand. rewrite bind_run.
       unfold read_category at 1.
       destruct (cat_heap st !! device) as [d|] eqn:Hd; [|done].
       destruct (cat_brands d) as [s|] eqn:Hs; [|done].
       rewrite bind_run. unfold read_category at 1.
       destruct (cat_heap st !! brand) as [b|] eqn:Hb; [|done].
       rewrite (update_category_eq _ _ _ _ Hd).
       split; [done|]. intros r' c' s' Hc' Hs'. cbn in Hc'. cbn.
       destruct (decide (device = r')) as [<-|Hne].
       - rewrite list_lookup_insert_eq in Hc' by by eapply lookup_lt_Some.
         inversion Hc'; subst c'. cbn in Hs'. inversion Hs'; subst s'.
         apply union_subseteq. split; [by eapply Hdev|].
         apply singleton_subseteq_l. specialize (Hcats _ _ Hb).
         by rewrite (Hop _ eq_refl) in Hcats.
       - rewrite list_lookup_insert_ne in Hc' by done. by eapply Hdev. }
  all: intros HI;
    eapply (fun m (H : preserves registry_linked m) => H st HI);
    clear st Hcats HI;
    unfold add_popular_brand,
      parse_service_center, enrich_service_center, parse_gallery,
      gather_download_file,
      download_file, session_get, add_service_center, add_service,
      add_metro, add_advantage, add_feature,
      add_location, add_opening_hour;
    invariant_tac linked_primitives.
  all: try done.
  intros d. apply Hop.
Qed.

Lemma run_ops_invariant (I : State → Prop) :
  (∀ op, preserves I (run_op slugify fetch stored_name op)) →
  ∀ ops st, I st → I (run_ops slugify fetch stored_name ops st).
Proof.
  intros Hop ops. induction ops as [|op ops IH]; intros st HI; [done|].
  cbn. apply IH. by apply Hop.
Qed.

Lemma initial_state_consistent :
  facts_registered initial_state ∧ categories_registered initial_state
  ∧ registry_keys_agree initial_state ∧ registry_linked initial_state.
Proof.
  split; [done|]. split; [by split|].
  split; [|by split].
  split; [by intros []|]. split; [done|]. by repeat split.
Qed.

(** X1. Whatever the crawl does, every metro, advantage and feature in
    the sets of a service center is a key of the registry of metros, of
    advantages or of features: [add_metro], [add_advantage] and
    [add_feature] write the registry entry and the set element together,
    and nothing removes a key. *)
Theorem crawl_registers_facts (ops : list crawl_op) :
  let st := run_ops slugify fetch stored_name ops initial_state in
  facts_registered st
  ∧ ∀ sc d title, sc_heap st !! sc = Some d →
      (title ∈ sc_metros d → is_Some (metros st !! title))
      ∧ (title ∈ sc_advantages d → is_Some (advantages st !! title))
      ∧ (title ∈ sc_features d → is_Some (features st !! title)).
Proof.
  intros st.
  assert (facts_registered st) as Hfacts.
  { apply run_ops_invariant; [apply facts_run_op|].
    apply initial_state_consistent. }
  split; [done|]. intros sc d title Hd.
  destruct (Hfacts _ _ Hd) as (Hm & Ha & Hf).
  repeat split; intros Hin; apply elem_of_dom; set_solver.
Qed.

(** X2. Whatever the crawl does, the slug of every category dictionary
    is a key of the registry of its type, and every slug in the [brands]
    or [devices] set of a service center is a key of the registry of
    brands or of devices. *)
Theorem crawl_registers_categories (ops : list crawl_op) :
  let st := run_ops slugify fetch stored_name ops initial_state in
  categories_registered st
  ∧ ∀ sc d slug, sc_heap st !! sc = Some d →
      (slug ∈ sc_brands d → is_Some (brands st !! slug))
      ∧ (slug ∈ sc_devices d → is_Some (devices st !! slug)).
Proof.
  intros st.
  assert (categories_registered st) as Hcats.
  { apply run_ops_invariant; [apply categories_run_op|].
    apply initial_state_consistent. }
  split; [done|]. intros sc d slug Hd. destruct Hcats as [_ Hsc].
  pose proof (Hsc _ _ brands_t Hd) as Hb.
  pose proof (Hsc _ _ devices_t Hd) as Hdv. cbn in Hb, Hdv.
  split; intros Hin; apply elem_of_dom; set_solver.
Qed.

(** X3. Whatever the crawl does, every entry of a registry carries its
    own key: the dictionary registered under a slug in [brands] or
    [devices] has that slug and that type, a device has its [brands] and
    [services] keys and a brand has neither, and a metro, an advantage or
    a feature is registered under its own title. *)
Theorem crawl_keys_entries (ops : list crawl_op) :
  let st := run_ops slugify fetch stored_name ops initial_state in
  registry_keys_agree st
  ∧ (∀ slug r, devices st !! slug = Some r →
       ∃ c, cat_heap st !! r = Some c ∧ cat_slug c = slug
            ∧ cat_type c = devices_t
            ∧ is_Some (cat_brands c) ∧ is_Some (cat_services c))
  ∧ (∀ slug r, brands st !! slug = Some r →
       ∃ c, cat_heap st !! r = Some c ∧ cat_slug c = slug
            ∧ cat_type c = brands_t
            ∧ cat_brands c = None ∧ cat_services c = None).
Proof.
  intros st.
  assert (registry_keys_agree st) as Hkeys.
  { apply run_ops_invariant; [apply keys_run_op|].
    apply initial_state_consistent. }
  split; [done|]. destruct Hkeys as (Hreg & Hshape & _).
  split; intros slug r Hr.
  - destruct (Hreg devices_t _ _ Hr) as (c & Hc & Hs & Ht).
    exists c. pose proof (Hshape _ _ Hc) as Hk. unfold device_keys in Hk.
    rewrite Ht in Hk. by destruct Hk.
  - destruct (Hreg brands_t _ _ Hr) as (c & Hc & Hs & Ht).
    exists c. pose proof (Hshape _ _ Hc) as Hk. unfold device_keys in Hk.
    rewrite Ht in Hk. by destruct Hk.
Qed.

Lemma linked_run_ops ops st :
  run_as_in_source slugify fetch stored_name ops st →
  categories_registered st →
  registry_linked st →
  registry_linked (run_ops slugify fetch stored_name ops st).
Proof.
  revert st. induction ops as [|op ops IH]; intros st Hops Hcats HI; [done|].
  destruct Hops as [Hop Hops]. cbn. apply IH; [done| |].
  - by apply categories_run_op.
  - by apply linked_run_op.
Qed.

(** X4. In a run whose operations are as the source has them, every
    service center of the registry is registered under the slug that it
    carries, and every brand slug in the [brands] set of a device is a
    key of the registry of brands. *)
Theorem crawl_links_registries (ops : list crawl_op) :
  run_as_in_source slugify fetch stored_name ops initial_state →
  let st := run_ops slugify fetch stored_name ops initial_state in
  registry_linked st
  ∧ registry_valid st
  ∧ ∀ r c s slug, cat_heap st !! r = Some c → cat_brands c = Some s →
      slug ∈ s → is_Some (brands st !! slug).
Proof.
  intros Hops st.
  assert (registry_linked st) as Hlinked.
  { apply linked_run_ops; [done| |]; apply initial_state_consistent. }
  split; [done|]. destruct Hlinked as [Hsc Hdev]. split.
  - intros slug sc Hreg. destruct (Hsc _ _ Hreg) as (d & Hd & _). eauto.
  - intros r c s slug Hc Hs Hin. apply elem_of_dom.
    specialize (Hdev _ _ _ Hc Hs). set_solver.
Qed.

End Consistency.

(** ** What a run of the crawl keeps *)

Lemma preserves_get_state_bind {S A} (I : S → Prop) (k : S → ST S A) :
  (∀ st, I st → I (k st st).2) → preserves I (get_state ≫= k).
Proof. intros Hk st HI. by apply Hk. Qed.

Lemma category_grown_refl c : category_grown c c.
Proof. repeat split; eauto. Qed.

Lemma category_grown_trans c1 c2 c3 :
  category_grown c1 c2 → category_grown c2 c3 → category_grown c1 c3.
Proof.
  intros (Ht & Hs & Hty & Hth & Hp & Hb & Hl)
         (Ht' & Hs' & Hty' & Hth' & Hp' & Hb' & Hl').
  split; [congruence|]. split; [congruence|]. split; [congruence|].
  split; [congruence|]. split; [eauto|]. split.
  - intros s E. destruct (Hb _ E) as (s' & E' & ?).
    destruct (Hb' _ E') as (s'' & E'' & ?). exists s''. split; [done|].
    by etrans.
  - intros l E. destruct (Hl _ E) as (l' & E' & ?).
    destruct (Hl' _ E') as (l'' & E'' & ?). exists l''. split; [done|].
    by etrans.
Qed.

Lemma center_grown_refl d : center_grown d d.
Proof. by repeat split. Qed.

Lemma center_grown_trans d1 d2 d3 :
  center_grown d1 d2 → center_grown d2 d3 → center_grown d1 d3.
Proof.
  intros (? & ? & ? & ? & ? & ? & ?) (? & ? & ? & ? & ? & ? & ?).
  repeat split; by etrans.
Qed.

Lemma extends_refl st : extends st st.
Proof.
  repeat split; try done.
  - intros r c Hc. exists c. split; [done|]. apply category_grown_refl.
  - intros r d Hd. exists d. split; [done|]. apply center_grown_refl.
Qed.

Lemma extends_trans st1 st2 st3 :
  extends st1 st2 → extends st2 st3 → extends st1 st3.
Proof.
  intros (Hm & Ha & Hf & Hsc & Hg & Hc & Hd)
         (Hm' & Ha' & Hf' & Hsc' & Hg' & Hc' & Hd').
  split; [by etrans|]. split; [by etrans|]. split; [by etrans|].
  split; [eauto|]. split; [eauto|]. split.
  - intros r c E. destruct (Hc _ _ E) as (c' & E' & ?).
    destruct (Hc' _ _ E') as (c'' & E'' & ?). exists c''. split; [done|].
    by eapply category_grown_trans.
  - intros r d E. destruct (Hd _ _ E) as (d' & E' & ?).
    destruct (Hd' _ _ E') as (d'' & E'' & ?). exists d''. split; [done|].
    by eapply center_grown_trans.
Qed.

(** A statement after which the state is a later state keeps every
    "later than" relation. *)
Lemma extends_step {A} (m : M A) :
  (∀ st, extends st (m st).2) → ∀ st0, preserves (extends st0) m.
Proof. intros Hm st0 st H0. by eapply extends_trans. Qed.

Lemma extends_sc_heap st h :
  (∀ r d, sc_heap st !! r = Some d →
     ∃ d', h !! r = Some d' ∧ center_grown d d') →
  extends st (with_sc_heap (fun _ => h) st).
Proof.
  intros Hh. repeat split; try done.
  intros r c Hc. exists c. split; [done|]. apply category_grown_refl.
Qed.

Lemma extends_cat_heap st h :
  (∀ r c, cat_heap st !! r = Some c →
     ∃ c', h !! r = Some c' ∧ category_grown c c') →
  extends st (with_cat_heap (fun _ => h) st).
Proof.
  intros Hh. repeat split; try done.
  intros r d Hd. exists d. split; [done|]. apply center_grown_refl.
Qed.

Lemma extends_update_sc sc f st0 :
  (∀ d, center_grown d (f d)) →
  preserves (extends st0) (update_service_center sc f).
Proof.
  intros Hf. apply extends_step. intros st. unfold update_service_center.
  destruct (sc_heap st !! sc) as [d0|] eqn:Hd0; [|apply extends_refl].
  apply (extends_sc_heap st (<[sc := f d0]> (sc_heap st))).
  intros r d Hd. destruct (decide (sc = r)) as [<-|Hne].
  - rewrite list_lookup_insert_eq by by eapply lookup_lt_Some.
    exists (f d0). split; [done|].
    pose proof (eq_trans (eq_sym Hd0) Hd) as Heq. inversion Heq; subst d.
    apply Hf.
  - rewrite list_lookup_insert_ne by done. exists d. split; [done|].
    apply center_grown_refl.
Qed.

Lemma extends_replace_category st r c0 c1 :
  cat_heap st !! r = Some c0 →
  category_grown c0 c1 →
  extends st (with_cat_heap (fun h => <[r := c1]> h) st).
Proof.
  intros Hc0 Hgrown.
  apply (extends_cat_heap st (<[r := c1]> (cat_heap st))).
  intros r' c Hc. destruct (decide (r = r')) as [<-|Hne].
  - rewrite list_lookup_insert_eq by by eapply lookup_lt_Some.
    exists c1. split; [done|].
    pose proof (eq_trans (eq_sym Hc0) Hc) as Heq. by inversion Heq; subst c.
  - rewrite list_lookup_insert_ne by done. exists c. split; [done|].
    apply category_grown_refl.
Qed.

Lemma extends_update_category r f st0 :
  (∀ c, category_grown c (f c)) →
  preserves (extends st0) (update_category r f).
Proof.
  intros Hf. apply extends_step. intros st. unfold update_category.
  destruct (cat_heap st !! r) as [c0|] eqn:Hc0; [|apply extends_refl].
  by apply (extends_replace_category st r c0).
Qed.

Lemma extends_new_sc d st0 : preserves (extends st0) (new_service_center d).
Proof.
  apply extends_step. intros st.
  apply (extends_sc_heap st (sc_heap st ++ [d])%list).
  intros r d' Hd'. exists d'. split; [by apply lookup_app_l_Some|].
  apply center_grown_refl.
Qed.

Lemma extends_read_category r st0 :
  preserves (extends st0) (read_category r).
Proof.
  intros st HI. unfold read_category. by destruct (cat_heap st !! r).
Qed.

Lemma extends_read_sc r st0 :
  preserves (extends st0) (read_service_center r).
Proof.
  intros st HI. unfold read_service_center. by destruct (sc_heap st !! r).
Qed.

Lemma extends_insert_title (k v : string) st0 :
  preserves (extends st0) (modify (with_metros (fun d => <[k := v]> d)))
  ∧ preserves (extends st0)
      (modify (with_advantages (fun d => <[k := v]> d)))
  ∧ preserves (extends st0)
      (modify (with_features (fun d => <[k := v]> d))).
Proof.
  split; [|split]; apply extends_step; intros st;
    destruct (extends_refl st) as (Hm & Ha & Hf & Hsc & Hg & Hc & Hd).
  - split; [|done]. cbn. rewrite dom_insert_L. apply union_subseteq_r.
  - split; [done|]. split; [|done]. cbn. rewrite dom_insert_L.
    apply union_subseteq_r.
  - split; [done|]. split; [done|]. split; [|done]. cbn.
    rewrite dom_insert_L. apply union_subseteq_r.
Qed.

Section Growth.

Variable slugify : string → string.
Variable fetch : nat → string → DetailPage.
Variable stored_name : string → string.

Lemma extends_add_category category_type category_tag st0 :
  preserves (extends st0) (add_category slugify category_type category_tag).
Proof.
  apply extends_step. intros st.
  destruct (add_category_state slugify st category_type category_tag)
    as [->|(title & [[Hin ->]|[Hin ->]])]; [apply extends_refl| |].
  - apply (extends_cat_heap st
             (cat_heap st ++ [built_category slugify category_type
                                category_tag title])%list).
    intros r c Hc. exists c. split; [by apply lookup_app_l_Some|].
    apply category_grown_refl.
  - apply not_elem_of_dom in Hin.
    repeat split; try by destruct category_type.
    + intros t slug r Hr. rewrite global_category_with_global.
      case_decide as Ht.
      * subst t. rewrite lookup_insert_ne; [by destruct category_type|].
        intros <-. destruct category_type; cbn in *; congruence.
      * by destruct t, category_type.
    + intros r c Hc. exists c. split; [|apply category_grown_refl].
      destruct category_type; cbn; by apply lookup_app_l_Some.
    + intros r d Hd. exists d. split; [|apply center_grown_refl].
      by destruct category_type.
Qed.

Lemma center_grown_with_category cat d :
  center_grown d (with_category cat d).
Proof.
  unfold with_category.
  destruct (cat_type cat); repeat split; try done; cbn;
    apply union_subseteq_l.
Qed.

Lemma extends_add_service_center sc_card category st0 :
  preserves (extends st0) (add_service_center slugify sc_card category).
Proof.
  unfold add_service_center. apply preserves_get_state_bind. intros st H0.
  set (slug := slugify (card_title sc_card)).
  assert (∀ p : sc_ref * bool,
            preserves (extends st0)
              (let '(sc, created) := p in
               cat ← read_category category;
               update_service_center sc
                 (sc_with_sets
                    (add_category_key (cat_type cat) (cat_slug cat)));;
               mret (sc, created))) as Hrest.
  { intros [sc created].
    apply preserves_bind; [apply extends_read_category|]. intros cat.
    apply preserves_bind; [|intros; apply preserves_ret].
    apply extends_update_sc. intros d. apply center_grown_with_category. }
  rewrite bind_run.
  destruct (service_centers st !! slug) as [sc|] eqn:Hreg.
  - by apply (Hrest (sc, false)).
  - apply (Hrest (length (sc_heap st), true)).
    eapply extends_trans; [exact H0|].
    repeat split; try done.
    + intros slug' r Hr. cbn. rewrite lookup_insert_ne; [done|].
      intros <-. congruence.
    + intros r c Hc. exists c. split; [done|]. apply category_grown_refl.
    + intros r d Hd. exists d. split; [by apply lookup_app_l_Some|].
      apply center_grown_refl.
Qed.

Lemma extends_add_service category service_tag st0 :
  preserves (extends st0) (add_service category service_tag).
Proof.
  apply extends_step. intros st. unfold add_service. rewrite bind_run.
  unfold read_category at 1.
  destruct (cat_heap st !! category) as [c|] eqn:Hc; [|apply extends_refl].
  rewrite bind_run. unfold lift at 1.
  destruct (cat_services c) as [l|] eqn:Hl; [|apply extends_refl].
  rewrite bind_run. unfold lift at 1.
  destruct (col_price_1 service_tag); [|apply extends_refl].
  rewrite bind_run. unfold lift at 1.
  destruct (col_price_2 service_tag); [|apply extends_refl].
  rewrite (update_category_eq _ _ _ _ Hc).
  apply (extends_replace_category st category c); [done|].
  do 5 (split; [done|]). split.
  - intros s Hs. by exists s.
  - cbn. intros l' Hl'. eexists. split; [done|].
    assert (l' = l) as -> by congruence. by apply prefix_app_r.
Qed.

Lemma extends_add_device_brand device brand st0 :
  preserves (extends st0) (add_device_brand device brand).
Proof.
  apply extends_step. intros st. unfold add_device_brand. rewrite bind_run.
  unfold read_category at 1.
  destruct (cat_heap st !! device) as [d|] eqn:Hd; [|apply extends_refl].
  destruct (cat_brands d) as [s|] eqn:Hs; [|apply extends_refl].
  rewrite bind_run. unfold read_category at 1.
  destruct (cat_heap st !! brand) as [b|] eqn:Hb; [|apply extends_refl].
  rewrite (update_category_eq _ _ _ _ Hd).
  apply (extends_replace_category st device d); [done|].
  do 5 (split; [done|]). split.
  - cbn. intros s' Hs'. eexists. split; [done|].
    assert (s' = s) as -> by congruence. apply union_subseteq_l.
  - intros l Hl. by exists l.
Qed.

Lemma category_grown_popular c :
  category_grown c (cat_set_is_popular true c).
Proof. do 5 (split; [done|]). split; intros x Hx; by exists x. Qed.

Lemma center_grown_sets f d :
  (∀ s, s_metros s ⊆ s_metros (f s) ∧ s_advantages s ⊆ s_advantages (f s)
        ∧ s_features s ⊆ s_features (f s) ∧ s_brands s ⊆ s_brands (f s)
        ∧ s_devices s ⊆ s_devices (f s)) →
  center_grown d (sc_with_sets f d).
Proof.
  intros Hf. destruct (Hf (sc_sets d)) as (? & ? & ? & ? & ?).
  by repeat split.
Qed.

Lemma center_grown_lists d d' :
  sc_sets d' = sc_sets d →
  sc_locations d `prefix_of` sc_locations d' →
  sc_opening_hours d `prefix_of` sc_opening_hours d' →
  center_grown d d'.
Proof.
  intros Hsets Hl Hh. injection Hsets as Ha Hb Hd Hf Hm.
  unfold center_grown. rewrite Ha, Hb, Hd, Hf, Hm. by repeat split.
Qed.

Lemma extends_primitives st0 :
  (∀ category_type category_tag,
     preserves (extends st0)
       (add_category slugify category_type category_tag))
  ∧ (∀ sc_card category,
       preserves (extends st0)
         (add_service_center slugify sc_card category))
  ∧ (∀ category service_tag,
       preserves (extends st0) (add_service category service_tag))
  ∧ (∀ device brand,
       preserves (extends st0) (add_device_brand device brand))
  ∧ (∀ k v,
       preserves (extends st0)
         (modify (with_metros (fun d => <[k := v]> d))))
  ∧ (∀ k v,
       preserves (extends st0)
         (modify (with_advantages (fun d => <[k := v]> d))))
  ∧ (∀ k v,
       preserves (extends st0)
         (modify (with_features (fun d => <[k := v]> d))))
  ∧ (∀ sc f, (∀ d, center_grown d (f d)) →
             preserves (extends st0) (update_service_center sc f))
  ∧ (∀ r f, (∀ c, category_grown c (f c)) →
            preserves (extends st0) (update_category r f))
  ∧ (∀ r, preserves (extends st0) (read_category r))
  ∧ (∀ r, preserves (extends st0) (read_service_center r)).
Proof.
  split; [intros; apply extends_add_category|].
  split; [intros; apply extends_add_service_center|].
  split; [intros; apply extends_add_service|].
  split; [intros; apply extends_add_device_brand|].
  split; [intros; apply extends_insert_title|].
  split; [intros; apply extends_insert_title|].
  split; [intros; apply extends_insert_title|].
  split; [intros; by apply extends_update_sc|].
  split; [intros; by apply extends_update_category|].
  split; [intros; apply extends_read_category|].
  intros; apply extends_read_sc.
Qed.

Lemma extends_run_op op st0 :
  preserves (extends st0) (run_op slugify fetch stored_name op).
Proof.
  destruct op; cbn [run_op];
    unfold add_popular_brand,
      parse_service_center, enrich_service_center, parse_gallery,
      gather_download_file,
      download_file, session_get,
      add_metro, add_advantage, add_feature,
      add_location, add_opening_hour;
    invariant_tac (extends_primitives st0).
  all: try done.
  all: intros d; first [apply category_grown_popular | apply center_grown_sets
                       | apply center_grown_lists ]; try done.
  all: try (by apply prefix_app_r).
  all: intros s'; cbn; repeat split; try done; apply union_subseteq_l.
Qed.

Lemma extends_run_ops ops st :
  extends st (run_ops slugify fetch stored_name ops st).
Proof.
  apply (run_ops_invariant slugify fetch stored_name (extends st)).
  - intros op. apply extends_run_op.
  - apply extends_refl.
Qed.

(** X5. A registration is permanent: whatever the crawl does next, a slug
    that is bound in the registry of service centers, of brands or of
    devices stays bound to the same dictionary, and a category dictionary
    keeps the title, the slug, the type and the thumbnail that it was
    created with, so that a later anchor with the same slug never replaces
    what the first one registered; no metro, advantage or feature leaves
    its registry. *)
Theorem registrations_are_permanent (ops : list crawl_op) (st : State) :
  let st' := run_ops slugify fetch stored_name ops st in
  (∀ slug sc, service_centers st !! slug = Some sc →
     service_centers st' !! slug = Some sc)
  ∧ (∀ slug r, brands st !! slug = Some r → brands st' !! slug = Some r)
  ∧ (∀ slug r, devices st !! slug = Some r → devices st' !! slug = Some r)
  ∧ (∀ r c, cat_heap st !! r = Some c →
       ∃ c', cat_heap st' !! r = Some c'
             ∧ cat_title c' = cat_title c ∧ cat_slug c' = cat_slug c
             ∧ cat_type c' = cat_type c
             ∧ cat_thumbnail_url c' = cat_thumbnail_url c)
  ∧ dom (metros st) ⊆ dom (metros st')
  ∧ dom (advantages st) ⊆ dom (advantages st')
  ∧ dom (features st) ⊆ dom (features st').
Proof.
  intros st'. destruct (extends_run_ops ops st)
    as (Hm & Ha & Hf & Hsc & Hg & Hc & _).
  split; [exact Hsc|]. split; [exact (Hg brands_t)|].
  split; [exact (Hg devices_t)|]. split; [|done].
  intros r c Hr.
  destruct (Hc _ _ Hr) as (c' & Hc' & Ht & Hs & Hty & Hth & _).
  by exists c'.
Qed.

(** X6. No fact is taken back: whatever the crawl does next, a service
    center keeps every element of its five relationship sets and its
    locations and opening hours in their order, new ones coming after
    them; a brand that is popular stays popular, and a device keeps its
    brands and its services in their order. *)
Theorem facts_are_never_retracted (ops : list crawl_op) (st : State)
  (sc : sc_ref) (d : ServiceCenter) (r : cat_ref) (c : Category) :
  let st' := run_ops slugify fetch stored_name ops st in
  (sc_heap st !! sc = Some d →
   ∃ d', sc_heap st' !! sc = Some d'
         ∧ sc_metros d ⊆ sc_metros d'
         ∧ sc_advantages d ⊆ sc_advantages d'
         ∧ sc_features d ⊆ sc_features d'
         ∧ sc_brands d ⊆ sc_brands d' ∧ sc_devices d ⊆ sc_devices d'
         ∧ sc_locations d `prefix_of` sc_locations d'
         ∧ sc_opening_hours d `prefix_of` sc_opening_hours d')
  ∧ (cat_heap st !! r = Some c →
     ∃ c', cat_heap st' !! r = Some c'
           ∧ (cat_is_popular c = true → cat_is_popular c' = true)
           ∧ (∀ s, cat_brands c = Some s →
                ∃ s', cat_brands c' = Some s' ∧ s ⊆ s')
           ∧ (∀ l, cat_services c = Some l →
                ∃ l', cat_services c' = Some l' ∧ l `prefix_of` l')).
Proof.
  intros st'. destruct (extends_run_ops ops st) as (_ & _ & _ & _ & _ & Hc & Hd).
  split.
  - intros Hsc. destruct (Hd _ _ Hsc) as (d' & Hd' & Hgrown).
    exists d'. by split.
  - intros Hr. destruct (Hc _ _ Hr) as (c' & Hc' & _ & _ & _ & _ & Hgrown).
    exists c'. by split.
Qed.

End Growth.

(** ** Opening hours *)

Lemma first_elem_of {A} (l : list A) x : first l = Ok x → x ∈ l.
Proof. destruct l; [done|]. intros [= ->]. apply list_elem_of_here. Qed.

Lemma last_item_elem_of {A} (l : list A) x : last_item l = Ok x → x ∈ l.
Proof.
  unfold last_item. destruct (rev l) as [|y l'] eqn:Hrev; [done|].
  intros [= ->]. apply list_elem_of_In, in_rev. rewrite Hrev. by left.
Qed.

Lemma index_of_lt x t i : index_of x t = Ok i → (i < length t)%nat.
Proof.
  revert i. induction t as [|y t IH]; intros i; [done|]. cbn.
  destruct (String.eqb x y); [intros [= <-]; lia|].
  destruct (index_of x t) as [j|]; [|done]. cbn. intros [= <-].
  specialize (IH j eq_refl). lia.
Qed.

Lemma weekday_numbers (days : list string) (ws : list Z) :
  mapR (fun day => (fun i => Z.of_nat i + 1) <$> index_of day weekdays_names)
       days = Ok ws →
  Forall (fun w => 1 ≤ w ≤ 7) ws.
Proof.
  revert ws. induction days as [|day days IH]; intros ws.
  { intros [= <-]. constructor. }
  cbn [mapR]. destruct (index_of day weekdays_names) as [i|] eqn:Hi; [|done].
  cbn. destruct (mapR _ days) as [ws'|]; [|done]. cbn. intros [= <-].
  constructor; [|by apply IH]. apply index_of_lt in Hi. cbn in Hi. lia.
Qed.

(** The record that [add_opening_hour] builds is well formed, whatever
    the text. *)
Lemma opening_hour_of_wellformed text r :
  opening_hour_of text = Ok r → opening_hour_wellformed r.
Proof.
  unfold opening_hour_of.
  destruct (unpack2 _) as [[weekdays times]|]; [|done]. cbn.
  destruct (mapR _ _) as [ws|] eqn:Hws; [|done]. cbn.
  apply weekday_numbers in Hws. rewrite Forall_forall in Hws.
  destruct (first ws) as [w_from|] eqn:Hfrom; [|done]. cbn.
  destruct (last_item ws) as [w_to|] eqn:Hto; [|done]. cbn.
  apply first_elem_of in Hfrom. apply last_item_elem_of in Hto.
  set (ts := if bool_decide _ then _ else _).
  destruct (first ts) as [t_from|] eqn:Htf; [|done]. cbn.
  destruct (last_item ts) as [t_to|] eqn:Htt; [|done]. cbn.
  intros [= <-]. split; [by apply Hws|]. split; [by apply Hws|]. cbn.
  apply first_elem_of in Htf. apply last_item_elem_of in Htt.
  subst ts. destruct (bool_decide _).
  { right. exists "00:00", "00:00".
    apply elem_of_cons in Htf as [->|Htf];
      [|apply list_elem_of_singleton in Htf as ->];
      (apply elem_of_cons in Htt as [->|Htt];
         [|apply list_elem_of_singleton in Htt as ->]); done. }
  destruct (bool_decide _).
  { left.
    apply elem_of_cons in Htf as [->|Htf];
      [|apply list_elem_of_singleton in Htf as ->];
      (apply elem_of_cons in Htt as [->|Htt];
         [|apply list_elem_of_singleton in Htt as ->]); done. }
  right.
  apply list_elem_of_fmap in Htf as (a & -> & Ha).
  apply list_elem_of_fmap in Htt as (b & -> & Hb).
  exists a, b. split; [done|]. split; [done|].
  apply list_elem_of_In, filter_In in Ha, Hb. by destruct Ha, Hb.
Qed.

Section Hours.

Variable slugify : string → string.
Variable fetch : nat → string → DetailPage.
Variable stored_name : string → string.

Lemma hours_update_sc sc f :
  (∀ d, Forall opening_hour_wellformed (sc_opening_hours d) →
        Forall opening_hour_wellformed (sc_opening_hours (f d))) →
  preserves hours_wellformed (update_service_center sc f).
Proof.
  intros Hf st Hours. unfold update_service_center.
  destruct (sc_heap st !! sc) as [d0|] eqn:Hd0; [|done].
  intros sc' d' Hd'. cbn in Hd'.
  apply sc_heap_insert_cases in Hd' as [Hd'|[-> ->]]; [exact (Hours _ _ Hd')|].
  apply Hf. exact (Hours _ _ Hd0).
Qed.

Lemma hours_new_sc d :
  sc_opening_hours d = [] →
  preserves hours_wellformed (new_service_center d).
Proof.
  intros Hd st Hours sc' d' Hd'. cbn in Hd'.
  apply heap_push_cases in Hd' as [Hd'|[-> _]]; [exact (Hours _ _ Hd')|].
  rewrite Hd. constructor.
Qed.

Lemma hours_add_opening_hour sc hour_tag :
  preserves hours_wellformed (add_opening_hour sc hour_tag).
Proof.
  intros st Hours. rewrite add_opening_hour_eq.
  destruct (opening_hour_of (get_text hour_tag)) as [r|] eqn:Hr; [|done].
  apply hours_update_sc; [|done]. intros d Hd. cbn.
  apply Forall_app. split; [done|]. constructor; [|constructor].
  by eapply opening_hour_of_wellformed.
Qed.

Lemma hours_update_category r f :
  preserves hours_wellformed (update_category r f).
Proof.
  intros st HI. unfold update_category. by destruct (cat_heap st !! r).
Qed.

Lemma hours_read_category r : preserves hours_wellformed (read_category r).
Proof.
  intros st HI. unfold read_category. by destruct (cat_heap st !! r).
Qed.

Lemma hours_read_sc r : preserves hours_wellformed (read_service_center r).
Proof.
  intros st HI. unfold read_service_center. by destruct (sc_heap st !! r).
Qed.

Lemma hours_primitives :
  (∀ sc hour_tag, preserves hours_wellformed (add_opening_hour sc hour_tag))
  ∧ (∀ r f, preserves hours_wellformed (update_category r f))
  ∧ (∀ r, preserves hours_wellformed (read_category r))
  ∧ (∀ r, preserves hours_wellformed (read_service_center r))
  ∧ (∀ sc f,
       (∀ d, Forall opening_hour_wellformed (sc_opening_hours d) →
             Forall opening_hour_wellformed (sc_opening_hours (f d))) →
       preserves hours_wellformed (update_service_center sc f))
  ∧ (∀ d, sc_opening_hours d = [] →
          preserves hours_wellformed (new_service_center d)).
Proof.
  split; [exact hours_add_opening_hour|].
  split; [exact hours_update_category|].
  split; [exact hours_read_category|]. split; [exact hours_read_sc|].
  split; [exact hours_update_sc|exact hours_new_sc].
Qed.

Lemma hours_run_op op :
  preserves hours_wellformed (run_op slugify fetch stored_name op).
Proof.
  destruct op; cbn [run_op];
    unfold add_popular_brand, add_category, add_device_brand,
      parse_service_center, enrich_service_center, parse_gallery,
      gather_download_file,
      download_file, session_get, add_service_center, add_service,
      add_metro, add_advantage, add_feature,
      add_location, new_category;
    invariant_tac hours_primitives.
  all: try done.
  all: by destruct category_type; apply preserves_modify.
Qed.

(** X7. Whatever the crawl does, every opening hour of every service
    center is well formed: both weekdays lie between Monday = 1 and
    Sunday = 7, and the two times are either both null or both a text
    with a colon in it.  The weekday numbers need not be in order. *)
Theorem opening_hours_are_wellformed (ops : list crawl_op) (sc : sc_ref)
  (d : ServiceCenter) (h : OpeningHour) :
  sc_heap (run_ops slugify fetch stored_name ops initial_state) !! sc
  = Some d →
  h ∈ sc_opening_hours d →
  opening_hour_wellformed h.
Proof.
  intros Hd Hh.
  assert (hours_wellformed
            (run_ops slugify fetch stored_name ops initial_state)) as Hours.
  { by apply run_ops_invariant; [apply hours_run_op|]. }
  specialize (Hours _ _ Hd). rewrite Forall_forall in Hours. by apply Hours.
Qed.

End Hours.

Example weekdays_out_of_order :
  opening_hour_of "СБ-ПН - 10:00 18:00"
  = Ok {| weekday_from := 6; weekday_to := 1;
          time_from := Some "10:00"; time_to := Some "18:00" |}.
Proof. reflexivity. Qed.

(** ** Tags that cannot be read *)

Lemma find_from_absent sep s i :
  Str.contains sep s = false → Str.find_from sep s i = None.
Proof.
  revert i. induction s as [|c s IH]; intros i; cbn.
  - rewrite orb_false_r. by intros ->.
  - intros H. apply orb_false_iff in H as [-> H]. by apply IH.
Qed.

Lemma rfind_from_absent sep s i :
  Str.contains sep s = false → Str.rfind_from sep s i None = None.
Proof.
  revert i. induction s as [|c s IH]; intros i; cbn.
  - rewrite orb_false_r. by intros ->.
  - intros H. apply orb_false_iff in H as [-> H]. by apply IH.
Qed.

Lemma add_location_eq sc location_tag head_tag st :
  add_location sc location_tag head_tag st
  = match unpack2 (Str.split1 "-" (get_text location_tag)) with
    | Ok (metro, address) =>
        match sc_heap st !! sc with
        | Some d =>
            let location :=
              {| loc_coords := None;
                 loc_metro := Str.removeprefix "метро " metro;
                 loc_address := address; loc_is_primary := false |} in
            let location :=
              if Str.truthy (sc_primary_address d)
              then loc_set_is_primary
                     (Str.contains (default "" (sc_primary_address d))
                        address) location
              else location in
            (Ok tt,
             with_sc_heap
               (fun h => <[sc := append_location
                                   (bind_coords (placemarks head_tag)
                                      location) d]> h) st)
        | None => (Raise InvalidRef, st)
        end
    | Raise e => (Raise e, st)
    end.
Proof.
  unfold add_location. rewrite bind_run. unfold lift at 1.
  destruct (unpack2 _) as [[metro address]|]; [|done].
  rewrite bind_run. unfold read_service_center at 1.
  destruct (sc_heap st !! sc) as [d|] eqn:Hd; [|done].
  by rewrite (update_service_center_eq _ _ _ _ Hd).
Qed.

Lemma add_service_eq category service_tag st :
  add_service category service_tag st
  = match cat_heap st !! category with
    | Some c =>
        match cat_services c, col_price_1 service_tag,
              col_price_2 service_tag with
        | Some services, Some title_tag, Some price_tag =>
            (Ok tt,
             with_cat_heap
               (fun h =>
                  <[category :=
                      cat_set_services
                        (Some (services ++
                               [{| service_title := get_text title_tag;
                                   service_price :=
                                     Str.removesuffix " руб."
                                       (get_text price_tag) |}])%list) c]> h)
               st)
        | None, _, _ => (Raise (KeyError "services"), st)
        | Some _, _, _ => (Raise AttributeError, st)
        end
    | None => (Raise InvalidRef, st)
    end.
Proof.
  unfold add_service. rewrite bind_run. unfold read_category at 1.
  destruct (cat_heap st !! category) as [c|] eqn:Hc; [|done].
  rewrite bind_run. unfold lift at 1.
  destruct (cat_services c) as [l|]; [|done].
  rewrite bind_run. unfold lift at 1.
  destruct (col_price_1 service_tag); [|done].
  rewrite bind_run. unfold lift at 1.
  destruct (col_price_2 service_tag); [|done].
  by rewrite (update_category_eq _ _ _ _ Hc).
Qed.

(** X8. [add_opening_hour], [add_location] and [add_service] write
    nothing when they raise: the record is built first and appended
    last, so that a tag that cannot be read leaves every registry and
    every dictionary as it was. *)
Theorem unreadable_tag_changes_nothing (st st' : State) (e : exn)
  (sc : sc_ref) (tag : TextTag) (head_tag : HeadTag)
  (category : cat_ref) (service_tag : ServiceTag) :
  (add_opening_hour sc tag st = (Raise e, st') → st' = st)
  ∧ (add_location sc tag head_tag st = (Raise e, st') → st' = st)
  ∧ (add_service category service_tag st = (Raise e, st') → st' = st).
Proof.
  split; [|split].
  - rewrite add_opening_hour_eq.
    destruct (opening_hour_of _); [|by intros [= _ <-]].
    unfold update_service_center.
    destruct (sc_heap st !! sc); [done|by intros [= _ <-]].
  - rewrite add_location_eq.
    destruct (unpack2 _) as [[metro address]|]; [|by intros [= _ <-]].
    destruct (sc_heap st !! sc); [done|by intros [= _ <-]].
  - rewrite add_service_eq.
    destruct (cat_heap st !! category) as [c|]; [|by intros [= _ <-]].
    destruct (cat_services c), (col_price_1 service_tag),
      (col_price_2 service_tag); try done; by intros [= _ <-].
Qed.

(** X9. A location text without a hyphen, and an opening-hours text
    without the separator " - ", cannot be unpacked into two parts:
    [add_location] and [add_opening_hour] raise [ValueError] and leave
    the state as it was. *)
Theorem text_without_separator_raises (st : State) (sc : sc_ref)
  (tag : TextTag) (head_tag : HeadTag) :
  (Str.contains "-" (get_text tag) = false →
   add_location sc tag head_tag st = (Raise ValueError, st))
  ∧ (Str.contains " - " (get_text tag) = false →
     add_opening_hour sc tag st = (Raise ValueError, st)).
Proof.
  split; intros Hsep.
  - rewrite add_location_eq. unfold Str.split1.
    by rewrite (find_from_absent _ _ _ Hsep).
  - rewrite add_opening_hour_eq. unfold opening_hour_of, Str.rsplit1.
    by rewrite (rfind_from_absent _ _ _ Hsep).
Qed.

(** ** Recording a fact twice *)

Lemma union_singleton_twice (s : gset string) (x : string) :
  s ∪ {[x]} ∪ {[x]} = s ∪ {[x]}.
Proof. by rewrite <- (assoc_L (∪)), (idemp_L (∪)). Qed.

(** X10. Recording the same metro, advantage or feature of a service
    center twice is the same as recording it once: the registry entry is
    overwritten with an equal one, and the set of the service center
    already holds the title. *)
Theorem repeated_fact_is_recorded_once (st : State) (sc : sc_ref)
  (tag : TextTag) :
  (add_metro sc tag;; add_metro sc tag) st = add_metro sc tag st
  ∧ (add_advantage sc tag;; add_advantage sc tag) st = add_advantage sc tag st
  ∧ (add_feature sc tag;; add_feature sc tag) st = add_feature sc tag st.
Proof.
  split; [|split].
  - unfold add_metro. set (title := if String.eqb _ _ then _ else _).
    rewrite !bind_run. unfold modify at 1 3. unfold update_service_center at 1 3.
    cbn [sc_heap with_metros].
    destruct (sc_heap st !! sc) as [d|] eqn:Hd; [|done].
    rewrite bind_run. unfold modify, update_service_center. cbn.
    rewrite list_lookup_insert_eq by by eapply lookup_lt_Some.
    unfold with_sc_heap, with_metros, sc_with_sets. cbn.
    by rewrite list_insert_insert_eq, insert_insert_eq,
      union_singleton_twice.
  - unfold add_advantage. set (title := get_text tag).
    rewrite !bind_run. unfold modify at 1 3. unfold update_service_center at 1 3.
    cbn [sc_heap with_advantages].
    destruct (sc_heap st !! sc) as [d|] eqn:Hd; [|done].
    rewrite bind_run. unfold modify, update_service_center. cbn.
    rewrite list_lookup_insert_eq by by eapply lookup_lt_Some.
    unfold with_sc_heap, with_advantages, sc_with_sets. cbn.
    by rewrite list_insert_insert_eq, insert_insert_eq,
      union_singleton_twice.
  - unfold add_feature. set (title := get_text tag).
    rewrite !bind_run. unfold modify at 1 3. unfold update_service_center at 1 3.
    cbn [sc_heap with_features].
    destruct (sc_heap st !! sc) as [d|] eqn:Hd; [|done].
    rewrite bind_run. unfold modify, update_service_center. cbn.
    rewrite list_lookup_insert_eq by by eapply lookup_lt_Some.
    unfold with_sc_heap, with_features, sc_with_sets. cbn.
    by rewrite list_insert_insert_eq, insert_insert_eq,
      union_singleton_twice.
Qed.

Section Enrichment.

Variable slugify : string → string.
Variable fetch : nat → string → DetailPage.
Variable stored_name : string → string.

(** ** Downloads *)

Lemma download_file_run (url : string) (st : State) :
  download_file fetch stored_name url st
  = (Ok (stored_name ("./downloads" ++ url)),
     if bool_decide ("./downloads" ++ url ∈ files st) then st
     else with_files (fun s => s ∪ {["./downloads" ++ url]})
            (with_requests (fun l => l ++ [url])%list st)).
Proof.
  unfold download_file. rewrite bind_run. unfold get_state at 1.
  by destruct (bool_decide _).
Qed.

(** X11. [download_file] sends a request only for a file that is not
    there: it returns the stored name of the file, the file is there
    afterwards, the request sent is the one for its url or none at all,
    and a second call for the same url sends no request and changes
    nothing. *)
Theorem download_file_requests_once (url : string) (st : State) :
  let path := "./downloads" ++ url in
  ∃ st1,
    download_file fetch stored_name url st = (Ok (stored_name path), st1)
    ∧ files st1 = files st ∪ {[path]}
    ∧ requests st1
      = (if bool_decide (path ∈ files st) then requests st
         else requests st ++ [url])%list
    ∧ download_file fetch stored_name url st1 = (Ok (stored_name path), st1).
Proof.
  intros path. rewrite download_file_run. fold path.
  destruct (bool_decide (path ∈ files st)) eqn:Hin.
  - apply bool_decide_eq_true in Hin. exists st.
    split; [done|]. split.
    { symmetry. rewrite (union_comm_L _ {[path]}).
      apply subseteq_union_1_L. by apply singleton_subseteq_l. }
    split; [done|]. rewrite download_file_run. fold path.
    by rewrite bool_decide_eq_true_2.
  - eexists. split; [reflexivity|]. cbn. split; [done|]. split; [done|].
    rewrite download_file_run. fold path. cbn [files with_files with_requests].
    rewrite bool_decide_eq_true_2; [done|].
    by apply elem_of_union_r, elem_of_singleton.
Qed.

(** ** The gallery *)

Lemma srcs_of_imgs (imgs : list ImgTag) (srcs : list string) :
  map img_src imgs = map Some srcs →
  mapR (fun img => attr "src" (img_src img)) imgs = Ok srcs.
Proof.
  revert srcs. induction imgs as [|img imgs IH]; intros [|src srcs] Hsrcs;
    try done.
  cbn in Hsrcs. injection Hsrcs as Hsrc Hsrcs.
  cbn [mapR]. rewrite Hsrc, (IH srcs Hsrcs). reflexivity.
Qed.

Lemma srcs_missing (imgs : list ImgTag) :
  None ∈ map img_src imgs →
  mapR (fun img => attr "src" (img_src img)) imgs = Raise (KeyError "src").
Proof.
  induction imgs as [|img imgs IH]; intros Hin.
  { by apply elem_of_nil in Hin. }
  cbn [mapR]. destruct (img_src img) as [src|] eqn:Hsrc; [|done].
  cbn in Hin. rewrite Hsrc in Hin.
  apply elem_of_cons in Hin as [Hin|Hin]; [done|].
  cbn [attr]. by rewrite (IH Hin).
Qed.

(** The downloads of a gather that found their file absent: one request
    each, and their files written. *)
Lemma fetches_run (urls : list string) (st : State) :
  for_each urls
    (fun url =>
       session_get fetch url;;
       modify (with_files (fun s => s ∪ {["./downloads" ++ url]}))) st
  = (Ok tt,
     with_files
       (fun s => s ∪ list_to_set (map (fun url => "./downloads" ++ url) urls))
       (with_requests (fun l => l ++ urls)%list st)).
Proof.
  revert st. induction urls as [|url urls IH]; intros st.
  { destruct st. cbn. unfold with_files, with_requests. cbn.
    by rewrite app_nil_r, union_empty_r_L. }
  cbn [for_each]. rewrite bind_run.
  change ((session_get fetch url;;
           modify (with_files (fun s => s ∪ {["./downloads" ++ url]}))) st)
    with (Ok tt,
          with_files (fun s => s ∪ {["./downloads" ++ url]})
            (with_requests (fun l => l ++ [url])%list st)).
  cbv iota beta. rewrite IH. destruct st. unfold with_files, with_requests.
  cbn. by rewrite <- app_assoc, <- (assoc_L (∪)).
Qed.

Lemma gather_download_file_run (urls : list string) (st : State) :
  gather_download_file fetch stored_name urls st
  = (Ok (map (fun url => stored_name ("./downloads" ++ url)) urls),
     with_files
       (fun s => s ∪ list_to_set (map (fun url => "./downloads" ++ url)
                                      (absent_urls st urls)))
       (with_requests (fun l => l ++ absent_urls st urls)%list st)).
Proof.
  unfold gather_download_file. rewrite bind_run. unfold get_state at 1.
  cbv iota beta. rewrite bind_run, fetches_run. reflexivity.
Qed.

(** The files after a gather: those that were there and those of the
    urls. *)
Lemma files_with_absent (urls : list string) (st : State) :
  files st ∪ list_to_set (map (fun url => "./downloads" ++ url)
                              (absent_urls st urls))
  = files st ∪ list_to_set (map (fun url => "./downloads" ++ url) urls).
Proof using Type.
  induction urls as [|url urls IH]; [done|].
  unfold absent_urls in IH |- *. cbn [List.filter].
  case_bool_decide as Hin; cbn [negb map list_to_set].
  - rewrite IH. apply set_eq. intros x.
    rewrite !elem_of_union, elem_of_singleton. split.
    + intros [Hx|Hx]; [by left|right; by right].
    + intros [Hx|[->|Hx]]; [by left|by left|by right].
  - rewrite !(assoc_L (∪)), !(comm_L (∪) (files st) {[_]}),
      <- !(assoc_L (∪)). by rewrite IH.
Qed.

(** One download alone is [download_file]. *)
Lemma gather_of_one (url : string) (st : State) :
  gather_download_file fetch stored_name [url] st
  = match download_file fetch stored_name url st with
    | (Ok name, st') => (Ok [name], st')
    | (Raise e, st') => (Raise e, st')
    end.
Proof.
  rewrite gather_download_file_run, download_file_run.
  unfold absent_urls. cbn [List.filter map].
  case_bool_decide as Hin; cbn [negb map list_to_set]; [|destruct st].
  - destruct st. unfold with_files, with_requests. cbn in *.
    by rewrite app_nil_r, union_empty_r_L.
  - unfold with_files, with_requests. cbn. by rewrite union_empty_r_L.
Qed.

(** X12. [parse_gallery] replaces the gallery of the service center by
    the stored names of the images of the page, in page order, whatever
    the gallery held, and leaves its other keys, the other service
    centers, the registries and the category dictionaries as they were.
    Every image is among the files afterwards, and one request has been
    sent for each image of the page whose file was not there, an image
    that the page shows twice being requested twice.  When an image has
    no [src] the call raises [KeyError] before any download: the state is
    as it was. *)
Theorem parse_gallery_replaces (st : State) (sc : sc_ref)
  (d : ServiceCenter) (sc_html : DetailPage) (srcs : list string) :
  sc_heap st !! sc = Some d →
  (map img_src (page_gallery_imgs sc_html) = map Some srcs →
   ∃ st' d' sent,
     parse_gallery fetch stored_name sc sc_html st = (Ok tt, st')
     ∧ sc_heap st' !! sc = Some d'
     ∧ sc_gallery d'
       = map (fun src => stored_name ("./downloads" ++ src)) srcs
     ∧ same_but_gallery d d'
     ∧ (∀ r, r ≠ sc → sc_heap st' !! r = sc_heap st !! r)
     ∧ same_registries st st'
     ∧ files st'
       = files st
         ∪ list_to_set (map (fun src => "./downloads" ++ src) srcs)
     ∧ requests st' = (requests st ++ sent)%list
     ∧ sent ≡ₚ absent_urls st srcs)
  ∧ (None ∈ map img_src (page_gallery_imgs sc_html) →
     parse_gallery fetch stored_name sc sc_html st
     = (Raise (KeyError "src"), st)).
Proof using fetch stored_name.
  intros Hd. split.
  - intros Hsrcs. unfold parse_gallery. rewrite bind_run. unfold lift at 1.
    rewrite (srcs_of_imgs _ _ Hsrcs). cbv iota beta.
    rewrite bind_run, gather_download_file_run. cbv iota beta.
    set (st1 := with_files _ _).
    assert (sc_heap st1 !! sc = Some d) as Hd1 by exact Hd.
    rewrite (update_service_center_eq _ _ _ _ Hd1).
    eexists _, _, (absent_urls st srcs). split; [reflexivity|].
    split.
    { cbn. apply list_lookup_insert_eq. by eapply lookup_lt_Some. }
    split; [reflexivity|]. split; [by repeat split|].
    split. { intros r Hr. cbn. by apply list_lookup_insert_ne. }
    split; [by repeat split|].
    split; [cbn; apply files_with_absent|]. by split.
  - intros Hin. unfold parse_gallery. rewrite bind_run. unfold lift at 1.
    by rewrite (srcs_missing _ Hin).
Qed.

(** ** The address of the site *)

Lemma site_update_sc sc f :
  (∀ d, site_url_absolute d → site_url_absolute (f d)) →
  preserves site_urls_absolute (update_service_center sc f).
Proof.
  intros Hf st Hsite. unfold update_service_center.
  destruct (sc_heap st !! sc) as [d0|] eqn:Hd0; [|done].
  intros sc' d' Hd'. cbn in Hd'.
  apply sc_heap_insert_cases in Hd' as [Hd'|[-> ->]]; [exact (Hsite _ _ Hd')|].
  apply Hf. exact (Hsite _ _ Hd0).
Qed.

Lemma site_new_sc d :
  sc_site_url d = None →
  preserves site_urls_absolute (new_service_center d).
Proof.
  intros Hd st Hsite sc' d' Hd'. cbn in Hd'.
  apply heap_push_cases in Hd' as [Hd'|[-> _]]; [exact (Hsite _ _ Hd')|].
  unfold site_url_absolute. by rewrite Hd.
Qed.

(** The two assignments to [site_url], which no [await] separates. *)
Lemma site_assignments sc (site_url : string) :
  preserves site_urls_absolute
    (update_service_center sc (sc_with_scalars (set_site_url (Some site_url)));;
     if negb (Str.contains "//" site_url)
     then update_service_center sc
            (sc_with_scalars (set_site_url (Some ("http://" ++ site_url))))
     else mret tt).
Proof.
  intros st Hsite. rewrite bind_run. unfold update_service_center at 1.
  destruct (sc_heap st !! sc) as [d0|] eqn:Hd0; [|done].
  destruct (Str.contains "//" site_url) eqn:Hscheme; cbn [negb].
  - intros sc' d' Hd'. cbn in Hd'.
    apply sc_heap_insert_cases in Hd' as [Hd'|[-> ->]]; [exact (Hsite _ _ Hd')|].
    exact Hscheme.
  - unfold update_service_center. cbn [sc_heap with_sc_heap].
    rewrite list_lookup_insert_eq by by eapply lookup_lt_Some.
    intros sc' d' Hd'. cbn in Hd'.
    rewrite list_insert_insert_eq in Hd'.
    apply sc_heap_insert_cases in Hd' as [Hd'|[-> ->]]; [exact (Hsite _ _ Hd')|].
    unfold site_url_absolute. cbn [sc_site_url sc_with_scalars set_site_url
      v_site_url]. by destruct site_url; vm_compute.
Qed.

Lemma site_read_category r :
  preserves site_urls_absolute (read_category r).
Proof.
  intros st HI. unfold read_category. by destruct (cat_heap st !! r).
Qed.

Lemma site_read_sc r :
  preserves site_urls_absolute (read_service_center r).
Proof.
  intros st HI. unfold read_service_center. by destruct (sc_heap st !! r).
Qed.

Lemma site_primitives :
  (∀ sc site_url,
     preserves site_urls_absolute
       (update_service_center sc
          (sc_with_scalars (set_site_url (Some site_url)));;
        if negb (Str.contains "//" site_url)
        then update_service_center sc
               (sc_with_scalars
                  (set_site_url (Some ("http://" ++ site_url))))
        else mret tt))
  ∧ (∀ r, preserves site_urls_absolute (read_category r))
  ∧ (∀ r, preserves site_urls_absolute (read_service_center r))
  ∧ (∀ sc f,
       (∀ d, site_url_absolute d → site_url_absolute (f d)) →
       preserves site_urls_absolute (update_service_center sc f))
  ∧ (∀ d, sc_site_url d = None →
          preserves site_urls_absolute (new_service_center d)).
Proof.
  split; [exact site_assignments|].
  split; [exact site_read_category|]. split; [exact site_read_sc|].
  split; [exact site_update_sc|exact site_new_sc].
Qed.

Lemma site_parse_service_center sc_card category :
  preserves site_urls_absolute
    (parse_service_center slugify fetch stored_name sc_card category).
Proof.
  unfold parse_service_center, enrich_service_center, parse_gallery,
    gather_download_file,
    download_file, session_get, add_service_center,
    add_metro, add_advantage, add_feature, add_location, add_opening_hour.
  invariant_tac site_primitives.
  all: try done.
Qed.

(** X13. Calls of [parse_service_center] keep the [site_url] of every
    service center absent or with two slashes in it, whatever the pages
    hold: an address without them is given the prefix "http://" before
    anything else runs.  It holds of the registries before the first
    call, when no service center has a [site_url]. *)
Theorem site_url_is_absolute (calls : list (SCCard * cat_ref))
  (st : State) (sc : sc_ref) (d : ServiceCenter) (url : string) :
  site_urls_absolute st →
  sc_heap (parse_all slugify fetch stored_name calls st) !! sc = Some d →
  sc_site_url d = Some url →
  Str.contains "//" url = true.
Proof.
  revert st. induction calls as [|[sc_card category] calls IH];
    intros st Hst Hd Hurl.
  - specialize (Hst _ _ Hd). unfold site_url_absolute in Hst.
    by rewrite Hurl in Hst.
  - cbn in Hd. eapply IH; [|exact Hd|exact Hurl].
    by apply site_parse_service_center.
Qed.

(** ** Registering a category *)


End Enrichment.

(** ** The title of a category *)

(** X15. The title of an anchor with a logo: an [alt] text "Логотип "
    followed by a name gives the name, whatever the text of the anchor;
    an image without [alt] raises [KeyError]; an [alt] text that does not
    start with "Логотип" gives the text of the anchor; and one that
    starts with "Логотип" without the space after it is the title as it
    is, since the test looks for "Логотип" and the removal for
    "Логотип ". *)
Theorem category_title_of_logo (category_tag : CategoryTag)
  (image : ImgTag) (name alt : string) :
  ct_img category_tag = Some image →
  (img_alt image = Some ("Логотип " ++ name) →
   get_category_title category_tag = Ok name)
  ∧ (img_alt image = None →
     get_category_title category_tag = Raise (KeyError "alt"))
  ∧ (img_alt image = Some alt → Str.startswith "Логотип" alt = false →
     get_category_title category_tag = Ok (ct_text category_tag))
  ∧ (img_alt image = Some alt → Str.startswith "Логотип" alt = true →
     Str.startswith "Логотип " alt = false →
     get_category_title category_tag = Ok alt).
Proof.
  intros Himg. unfold get_category_title. rewrite Himg.
  split; [|split; [|split]].
  - intros ->. cbn [attr mbind result_bind].
    by destruct name; vm_compute.
  - by intros ->.
  - intros -> Hstart. cbn [attr mbind result_bind]. by rewrite Hstart.
  - intros -> Hstart Hspace. cbn [attr mbind result_bind].
    rewrite Hstart. unfold Str.removeprefix. by rewrite Hspace.
Qed.

(** ** The links of the listing pages *)

Lemma mapR_length {A B} (f : A → result B) (l : list A) (l' : list B) :
  mapR f l = Ok l' → length l' = length l.
Proof.
  revert l'. induction l as [|x l IH]; intros l'; [by intros [= <-]|].
  cbn [mapR]. destruct (f x) as [y|]; [|done]. cbn.
  destruct (mapR f l) as [ys|]; [|done]. cbn. intros [= <-].
  cbn. by rewrite (IH ys).
Qed.

Lemma mapR_Forall {A B} (f : A → result B) (P : B → Prop) (l : list A)
  (l' : list B) :
  (∀ x y, f x = Ok y → P y) → mapR f l = Ok l' → Forall P l'.
Proof.
  intros Hf. revert l'. induction l as [|x l IH]; intros l'.
  { intros [= <-]. constructor. }
  cbn [mapR]. destruct (f x) as [y|] eqn:Hy; [|done]. cbn.
  destruct (mapR f l) as [ys|]; [|done]. cbn. intros [= <-].
  constructor; [by eapply Hf|by apply IH].
Qed.

Lemma startswith_append (p s : string) : Str.startswith p (p ++ s) = true.
Proof.
  induction p as [|c p IH]; [by destruct s|].
  change (String c p ++ s) with (String c (p ++ s)).
  unfold Str.startswith in *. cbn [String.prefix].
  by destruct (ascii_dec c c).
Qed.

(** X16. The listing pages that [parse_category] follows are those of
    the anchors of the pagination between the first and the last: there
    are two fewer links than anchors, none when there are at most two
    anchors, whatever these are; and every link starts with a slash or
    with the [href] of the category. *)
Theorem page_links_skip_the_ends (category_href : string)
  (page_tags : list (option string)) (links : list string) :
  page_links category_href page_tags = Ok links →
  length links = (length page_tags - 2)%nat
  ∧ Forall (fun link => Str.startswith "/" link = true
                        ∨ Str.startswith category_href link = true) links
  ∧ ((length page_tags ≤ 2)%nat → links = [])
  ∧ ∀ first_tag last_tag inner,
      page_tags = (first_tag :: inner ++ [last_tag])%list →
      page_links category_href (None :: inner ++ [None])%list = Ok links.
Proof.
  intros Hlinks. unfold page_links in Hlinks.
  assert (length links = (length page_tags - 2)%nat) as Hlen.
  { apply mapR_length in Hlinks. rewrite Hlinks, length_drop, length_take.
    lia. }
  split; [done|]. split; [|split].
  - eapply mapR_Forall; [|exact Hlinks]. intros page_tag link.
    destruct page_tag as [href|]; [|done]. cbn.
    destruct (Str.startswith "/" href) eqn:Hslash; intros [= <-].
    + by left.
    + right. apply startswith_append.
  - intros Hshort. destruct links; [done|]. cbn in Hlen. lia.
  - intros first_tag last_tag inner ->. unfold page_links.
    rewrite <- Hlinks. f_equal.
    rewrite !length_cons, !length_app, !length_cons. cbn [length].
    replace (S (length inner + 1) - 1)%nat with (S (length inner)) by lia.
    cbn [take drop]. by rewrite !take_app_length.
Qed.

(** ** The store between the statements of [insert_data] *)

Lemma schema_tables_eq :
  schema_tables
  = ["service_centers"; "brands"; "devices"; "metros"; "locations";
     "advantages"; "features"; "opening_hours"; "gallery_images";
     "services"; "advantage_service_center"; "brand_service_center";
     "device_service_center"; "metro_service_center";
     "feature_service_center"; "brand_device"].
Proof. reflexivity. Qed.

Lemma in_schema_tables (t : string) :
  bool_decide (t ∈ schema_tables) = true → t ∈ schema_tables.
Proof. intros Ht. by apply bool_decide_eq_true in Ht. Qed.

Lemma conforms_table ts t :
  conforms ts → bool_decide (t ∈ schema_tables) = true →
  ∃ rows, table_rows ts t rows.
Proof. intros Hc Ht. apply Hc. by apply bool_decide_eq_true in Ht. Qed.

(** *** Writing to one table *)

Lemma write_lookup_ne t css ts t' :
  t ≠ t' → write t css ts !! t' = ts !! t'.
Proof.
  intros Hne. unfold write. destruct (ts !! t); [|done].
  by rewrite lookup_insert_ne.
Qed.

Lemma write_table_rows t css ts rows :
  table_rows ts t rows →
  table_rows (write t css ts) t (insert_all_ignore (def_of t) css rows).
Proof.
  intros Hrows. unfold table_rows, write. rewrite Hrows. cbn.
  by rewrite lookup_insert_eq.
Qed.

Lemma write_conforms t css ts : conforms ts → conforms (write t css ts).
Proof.
  intros Hc t' Ht'. destruct (Hc t' Ht') as [rows Hrows].
  destruct (decide (t = t')) as [<-|Hne].
  - eexists. by apply write_table_rows.
  - exists rows. unfold table_rows. by rewrite write_lookup_ne.
Qed.

Lemma write_rows_in t css ts t' :
  ∃ more, rows_in (write t css ts) t' = (rows_in ts t' ++ more)%list.
Proof.
  unfold rows_in. destruct (decide (t = t')) as [<-|Hne].
  - unfold write. destruct (ts !! t) as [tb|] eqn:Htb.
    + rewrite lookup_insert_eq. cbn. apply insert_all_ignore_extends.
    + rewrite Htb. by exists [].
  - rewrite write_lookup_ne by done. exists []. by rewrite app_nil_r.
Qed.

(** Rows that the table turns away leave it as it is. *)
Lemma write_settled t css ts rows :
  table_rows ts t rows →
  Forall (fun cs => violates_not_null (def_of t) cs
                    || violates_unique (def_of t) cs rows = true) css →
  write t css ts = ts.
Proof.
  intros Hrows Hcss. unfold write. rewrite Hrows. cbn.
  rewrite insert_all_ignore_rejected by done. by apply insert_id.
Qed.

(** *** The insert functions as stages *)

Lemma mapR_row_of t fs ps :
  Forall (binds t fs) ps →
  mapR (proposed_row (def_of t) (insert_stmt t fs)) ps
  = Ok (map (row_of t fs) ps).
Proof.
  induction 1 as [|p ps [cs Hcs] _ IH]; [done|].
  cbn [mapR map]. unfold row_of at 1. rewrite Hcs. cbn. by rewrite IH.
Qed.

Lemma accepted_parts t fs :
  accepted t fs = true →
  t ∈ schema_tables
  ∧ parse_insert (get_insert_query t fs) = Some (insert_stmt t fs)
  ∧ Forall (fun c => c ∈ map col_name (t_columns (def_of t))) fs.
Proof.
  unfold accepted. rewrite !andb_true_iff.
  intros ((((Hin & Hname) & Hne) & Hfields) & Hcols).
  split; [by apply bool_decide_eq_true in Hin|]. split.
  - apply parse_get_insert_query; [done| |].
    + apply negb_true_iff, bool_decide_eq_false in Hne. done.
    + apply Forall_forall. intros w Hw. rewrite forallb_forall in Hfields.
      apply Hfields. by apply list_elem_of_In.
  - apply Forall_forall. intros c Hc. rewrite forallb_forall in Hcols.
    apply list_elem_of_In, Hcols in Hc. by apply bool_decide_eq_true in Hc.
Qed.

Lemma run_stage_spec t fs (R : result (list Params)) :
  accepted t fs = true →
  (∀ ps, R = Ok ps → Forall (binds t fs) ps) →
  stage_spec (run_stage t fs R) t (map (row_of t fs) <$> R).
Proof.
  intros Hacc Hbinds db Hconf.
  destruct (accepted_parts _ _ Hacc) as (Hin & Hparse & Hcols).
  unfold run_stage. rewrite bind_run. unfold lift at 1.
  destruct R as [ps|e]; [|done]. cbn [fmap result_fmap].
  destruct (Hconf t Hin) as [rows Hrows].
  destruct (executemany_ignore (get_insert_query t fs) (insert_stmt t fs)
              ps (map (row_of t fs) ps) db (def_of t) rows)
    as (db' & Hrun & Ht & Hd & _); try done.
  { by apply mapR_row_of, Hbinds. }
  exists db'. split; [done|]. split; [|done].
  rewrite Ht. unfold write. by rewrite Hrows.
Qed.

(** *** Sequences of stages *)

Lemma then_stages_ok (l : list (DbM unit * string
                                * list (list (string * value))))
  (db : Db) :
  Forall (fun s => stage_spec s.1.1 s.1.2 (Ok s.2)) l →
  conforms (tables db) →
  ∃ db',
    (∀ k, then_stages (map (fun s => s.1.1) l) k db = k db')
    ∧ tables db'
      = fold_left (fun ts s => write s.1.2 s.2 ts) l (tables db)
    ∧ durable db' = durable db
    ∧ conforms (tables db').
Proof.
  intros Hl. revert db. induction Hl as [|[[m t] css] l Hs _ IH];
    intros db Hconf.
  { by exists db. }
  cbn [map then_stages fold_left fst snd].
  destruct (Hs db Hconf) as (db1 & Hrun & Ht & Hd). cbn [fst snd] in *.
  destruct (IH db1) as (db' & Hrun' & Ht' & Hd' & Hconf').
  { rewrite Ht. by apply write_conforms. }
  exists db'. split.
  { intros k. by rewrite bind_run, Hrun, Hrun'. }
  split; [by rewrite Ht', Ht|]. split; [congruence|done].
Qed.

(** Whatever the stages build: the store stays durable as it was and keeps
    its tables, and the run either reaches [k] or ends with the exception
    of one of the stages. *)
Lemma then_stages_outcome (l : list (DbM unit * string
                                     * result (list (list (string * value)))))
  (db : Db) :
  Forall (fun s => stage_spec s.1.1 s.1.2 s.2) l →
  conforms (tables db) →
  ∃ db',
    durable db' = durable db
    ∧ conforms (tables db')
    ∧ (∀ t, t ∉ map (fun s => s.1.2) l → tables db' !! t = tables db !! t)
    ∧ ((Forall (fun s => ∃ css, s.2 = Ok css) l
        ∧ ∀ k, then_stages (map (fun s => s.1.1) l) k db = k db')
       ∨ (∃ e, Exists (fun s => s.2 = Raise e) l
               ∧ ∀ k, then_stages (map (fun s => s.1.1) l) k db
                      = (Raise e, db'))).
Proof.
  intros Hl. revert db. induction Hl as [|[[m t] R] l Hs _ IH];
    intros db Hconf.
  { exists db. repeat split; try done. left. by split. }
  cbn [map then_stages fst snd].
  specialize (Hs db Hconf). cbn [fst snd] in Hs.
  destruct R as [css|e].
  - destruct Hs as (db1 & Hrun & Ht & Hd).
    destruct (IH db1) as (db' & Hd' & Hconf' & Hframe & Hout).
    { rewrite Ht. by apply write_conforms. }
    exists db'. split; [congruence|]. split; [done|]. split.
    + intros t' Ht'. rewrite Hframe.
      * rewrite Ht. apply write_lookup_ne. intros ->. apply Ht'. by left.
      * intros Hin. apply Ht'. by right.
    + destruct Hout as [[Hall Hrun']|(e & Hex & Hrun')].
      * left. split; [constructor; [by exists css|done]|].
        intros k. by rewrite bind_run, Hrun, Hrun'.
      * right. exists e. split; [by apply Exists_cons_tl|].
        intros k. by rewrite bind_run, Hrun, Hrun'.
  - exists db. split; [done|]. split; [done|]. split; [done|].
    right. exists e. split; [by apply Exists_cons_hd|].
    intros k. by rewrite bind_run, Hs.
Qed.

(** *** The tables of [create_schema] *)

Lemma create_table_run name def db :
  ∃ db',
    create_table_if_not_exists name def db = (Ok tt, db')
    ∧ (∀ t, tables db' !! t
            = match tables db !! t with
              | Some tb => Some tb
              | None => if decide (t = name)
                        then Some {| t_def := def; t_rows := [] |}
                        else None
              end)
    ∧ (∀ t, durable db' !! t
            = if in_transaction db then durable db !! t
              else match durable db !! t with
                   | Some tb => Some tb
                   | None => if decide (t = name)
                             then Some {| t_def := def; t_rows := [] |}
                             else None
                   end)
    ∧ in_transaction db' = in_transaction db
    ∧ log db' = (log db ++ [EvCreate name])%list.
Proof.
  eexists. split; [reflexivity|]. cbn.
  assert (∀ (ts : gmap string Table) t,
            match ts !! name with
            | Some _ => ts
            | None => <[name := {| t_def := def; t_rows := [] |}]> ts
            end !! t
            = match ts !! t with
              | Some tb => Some tb
              | None => if decide (t = name)
                        then Some {| t_def := def; t_rows := [] |}
                        else None
              end) as Hadd.
  { intros ts t. destruct (ts !! name) as [tb|] eqn:Hname.
    - destruct (ts !! t) as [tb'|] eqn:Ht; [done|].
      destruct (decide (t = name)) as [->|]; [congruence|done].
    - destruct (decide (t = name)) as [->|Hne].
      + by rewrite lookup_insert_eq, Hname.
      + rewrite lookup_insert_ne by done. by destruct (ts !! t). }
  split; [apply Hadd|]. split; [|done].
  intros t. destruct (in_transaction db); [done|]. apply Hadd.
Qed.

Lemma create_tables_run (l : list (string * TableDef)) db :
  ∃ db',
    for_each l (fun '(name, def) => create_table_if_not_exists name def) db
    = (Ok tt, db')
    ∧ (∀ t, tables db' !! t
            = match tables db !! t with
              | Some tb => Some tb
              | None => (fun def => {| t_def := def; t_rows := [] |})
                          <$> declared l t
              end)
    ∧ (∀ t, durable db' !! t
            = if in_transaction db then durable db !! t
              else match durable db !! t with
                   | Some tb => Some tb
                   | None => (fun def => {| t_def := def; t_rows := [] |})
                               <$> declared l t
                   end)
    ∧ in_transaction db' = in_transaction db.
Proof.
  revert db. induction l as [|[name def] l IH]; intros db.
  { exists db. split; [done|]. split.
    - intros t. by destruct (tables db !! t).
    - split; [|done]. intros t. destruct (in_transaction db); [done|].
      by destruct (durable db !! t). }
  cbn [for_each]. rewrite bind_run.
  destruct (create_table_run name def db) as (db1 & -> & Ht & Hd & Htx & _).
  destruct (IH db1) as (db' & -> & Ht' & Hd' & Htx').
  exists db'. split; [done|].
  assert (∀ t (o : option Table),
            match
              match o with
              | Some tb => Some tb
              | None => if decide (t = name)
                        then Some {| t_def := def; t_rows := [] |}
                        else None
              end
            with
            | Some tb => Some tb
            | None => (fun def => {| t_def := def; t_rows := [] |})
                        <$> declared l t
            end
            = match o with
              | Some tb => Some tb
              | None => (fun def => {| t_def := def; t_rows := [] |})
                          <$> declared ((name, def) :: l) t
              end) as Hstep.
  { intros t [tb|]; [done|]. unfold declared. cbn [List.find fst].
    destruct (decide (t = name)) as [->|Hne].
    - by rewrite String.eqb_refl.
    - apply not_eq_sym in Hne. apply String.eqb_neq in Hne. by rewrite Hne. }
  split; [|split].
  - intros t. by rewrite Ht', Ht, Hstep.
  - intros t. rewrite Hd', Htx, Hd. destruct (in_transaction db); [done|].
    apply Hstep.
  - congruence.
Qed.

Lemma declared_schema t :
  declared schema t
  = if bool_decide (t ∈ schema_tables) then Some (def_of t) else None.
Proof.
  unfold declared, def_of.
  destruct (List.find _ schema) as [entry|] eqn:Hfind; cbn.
  - apply find_some in Hfind as [Hin Heq]. apply String.eqb_eq in Heq.
    rewrite bool_decide_eq_true_2; [done|]. subst t.
    apply list_elem_of_In.
    exact (in_map (fun entry : string * TableDef => entry.1) _ _ Hin).
  - rewrite bool_decide_eq_false_2; [done|]. intros Hin.
    assert (In t (map (fun entry : string * TableDef => entry.1) schema))
      as Hin' by (by apply list_elem_of_In).
    apply in_map_iff in Hin' as (entry & <- & Hentry).
    apply (find_none _ _ Hfind) in Hentry. cbn in Hentry.
    by rewrite String.eqb_refl in Hentry.
Qed.

Lemma create_schema_run db :
  ∃ db',
    create_schema db = (Ok tt, db')
    ∧ (∀ t, tables db' !! t
            = match tables db !! t with
              | Some tb => Some tb
              | None => if bool_decide (t ∈ schema_tables)
                        then Some {| t_def := def_of t; t_rows := [] |}
                        else None
              end)
    ∧ (∀ t, durable db' !! t
            = if in_transaction db then durable db !! t
              else match durable db !! t with
                   | Some tb => Some tb
                   | None => if bool_decide (t ∈ schema_tables)
                             then Some {| t_def := def_of t; t_rows := [] |}
                             else None
                   end)
    ∧ in_transaction db' = in_transaction db.
Proof.
  destruct (create_tables_run schema db) as (db' & Hrun & Ht & Hd & Htx).
  exists db'. split; [done|].
  assert (∀ t, (fun def => {| t_def := def; t_rows := [] |})
                 <$> declared schema t
               = if bool_decide (t ∈ schema_tables)
                 then Some {| t_def := def_of t; t_rows := [] |}
                 else None) as Hdecl.
  { intros t. rewrite declared_schema. by destruct (bool_decide _). }
  split; [|split; [|done]].
  - intros t. by rewrite Ht, Hdecl.
  - intros t. by rewrite Hd, Hdecl.
Qed.

Lemma create_schema_conforms db db' :
  compatible (tables db) → create_schema db = (Ok tt, db') →
  conforms (tables db').
Proof.
  intros Hcomp Hrun. destruct (create_schema_run db) as (db1 & Hrun1 & Ht & _).
  assert (db1 = db') as -> by congruence.
  intros t Hin. unfold table_rows. rewrite Ht.
  destruct (tables db !! t) as [[def rows]|] eqn:Htb.
  - exists rows. specialize (Hcomp _ _ Hin Htb). cbn in Hcomp. by subst def.
  - exists []. by rewrite bool_decide_eq_true_2.
Qed.

(** *** Rows that have been proposed stay turned away *)

Lemma write_settles t css ts :
  conforms ts → t ∈ schema_tables →
  Forall (fun cs => keyed (def_of t) cs = true) css →
  settled t css (write t css ts).
Proof.
  intros Hconf Hin Hkeyed. destruct (Hconf t Hin) as [rows Hrows].
  eexists. split; [by apply write_table_rows|].
  apply Forall_forall. intros cs Hcs. apply insert_all_ignore_rejects;
    [|done|done].
  clear -Hin. unfold schema_tables in Hin.
  assert (In t (map (fun entry : string * TableDef => entry.1) schema))
    as Hin' by (by apply list_elem_of_In).
  cbn in Hin'. repeat (destruct Hin' as [<-|Hin']; [done|]). done.
Qed.

Lemma settled_write t css ts t' css' :
  settled t css ts → settled t css (write t' css' ts).
Proof.
  intros (rows & Hrows & Hcss). destruct (decide (t' = t)) as [->|Hne].
  - eexists. split; [by apply write_table_rows|].
    destruct (insert_all_ignore_extends (def_of t) css' rows)
      as [more ->].
    eapply Forall_impl; [exact Hcss|]. intros cs Hcs. cbn in Hcs.
    apply orb_true_iff in Hcs as [->|Hu]; [done|].
    rewrite (violates_unique_app _ _ _ _ Hu). apply orb_true_r.
  - exists rows. split; [|done]. unfold table_rows.
    by rewrite write_lookup_ne.
Qed.

Lemma settled_unchanged t css ts : settled t css ts → write t css ts = ts.
Proof. intros (rows & Hrows & Hcss). by eapply write_settled. Qed.

Lemma fold_write_conforms
  (l : list (DbM unit * string * list (list (string * value)))) ts :
  conforms ts →
  conforms (fold_left (fun ts s => write s.1.2 s.2 ts) l ts).
Proof.
  revert ts. induction l as [|s l IH]; intros ts Hconf; [done|].
  cbn [fold_left]. by apply IH, write_conforms.
Qed.

Lemma fold_write_settled_keeps
  (l : list (DbM unit * string * list (list (string * value)))) ts t css :
  settled t css ts →
  settled t css (fold_left (fun ts s => write s.1.2 s.2 ts) l ts).
Proof.
  revert ts. induction l as [|s l IH]; intros ts Hs; [done|].
  cbn [fold_left]. by apply IH, settled_write.
Qed.

Lemma fold_write_settles
  (l : list (DbM unit * string * list (list (string * value)))) ts :
  conforms ts →
  Forall (fun s => s.1.2 ∈ schema_tables
                   ∧ Forall (fun cs => keyed (def_of s.1.2) cs = true) s.2)
         l →
  Forall (fun s => settled s.1.2 s.2
                     (fold_left (fun ts s => write s.1.2 s.2 ts) l ts)) l.
Proof.
  intros Hconf Hl. revert ts Hconf.
  induction Hl as [|s l [Hin Hkeyed] _ IH]; intros ts Hconf; [done|].
  cbn [fold_left]. constructor.
  - by apply fold_write_settled_keeps, write_settles.
  - by apply IH, write_conforms.
Qed.

Lemma fold_write_unchanged
  (l : list (DbM unit * string * list (list (string * value)))) ts :
  Forall (fun s => settled s.1.2 s.2 ts) l →
  fold_left (fun ts s => write s.1.2 s.2 ts) l ts = ts.
Proof.
  induction 1 as [|s l Hs _ IH]; [done|].
  cbn [fold_left]. by rewrite (settled_unchanged _ _ _ Hs).
Qed.

Lemma fold_write_lookup_ne
  (l : list (DbM unit * string * list (list (string * value)))) ts t :
  t ∉ map (fun s => s.1.2) l →
  fold_left (fun ts s => write s.1.2 s.2 ts) l ts !! t = ts !! t.
Proof.
  revert ts. induction l as [|s l IH]; intros ts Hnot; [done|].
  cbn [fold_left]. rewrite IH.
  - apply write_lookup_ne. intros Heq. apply Hnot. rewrite <- Heq. by left.
  - intros Hin. apply Hnot. by right.
Qed.

Lemma fold_write_rows_in
  (l : list (DbM unit * string * list (list (string * value)))) ts t :
  ∃ more,
    rows_in (fold_left (fun ts s => write s.1.2 s.2 ts) l ts) t
    = (rows_in ts t ++ more)%list.
Proof.
  revert ts. induction l as [|s l IH]; intros ts.
  { exists []. by rewrite app_nil_r. }
  cbn [fold_left]. destruct (IH (write s.1.2 s.2 ts)) as [more ->].
  destruct (write_rows_in s.1.2 s.2 ts t) as [more' ->].
  eexists. by rewrite <- app_assoc.
Qed.

(** A row that the table turns away without a NULL that is not allowed
    has the key of a row of the table. *)
Lemma settled_row t css ts cs :
  settled t css ts → cs ∈ css →
  violates_not_null (def_of t) cs = false →
  ∃ u r, u ∈ t_uniques (def_of t) ∧ r ∈ rows_in ts t
         ∧ key_of u cs = key_of u (cells r)
         ∧ Forall (fun v => is_null v = false) (key_of u cs).
Proof.
  intros (rows & Hrows & Hcss) Hcs Hnn. rewrite Forall_forall in Hcss.
  specialize (Hcss cs Hcs). rewrite Hnn in Hcss. cbn in Hcss.
  unfold violates_unique in Hcss.
  apply existsb_exists in Hcss as (u & Hu & Hex).
  apply existsb_exists in Hex as (r & Hr & Hcol).
  unfold collides in Hcol. apply andb_true_iff in Hcol as [Hnull Heq].
  apply bool_decide_eq_true in Heq.
  exists u, r. split; [by apply list_elem_of_In|]. split.
  - unfold rows_in. rewrite Hrows. cbn. by apply list_elem_of_In.
  - split; [done|]. apply Forall_forall. intros v Hv.
    rewrite forallb_forall in Hnull. apply list_elem_of_In, Hnull in Hv.
    by apply negb_true_iff in Hv.
Qed.

(** *** The keys read back from a table *)

Lemma ids_fold_lookup (l : list (Z * value)) (d : gmap value Z) k id :
  fold_left (fun d '(id, key) => <[key := id]> d) l d !! k = Some id →
  (id, k) ∈ l ∨ d !! k = Some id.
Proof.
  revert d. induction l as [|[id' k'] l IH]; intros d; [by right|].
  cbn [fold_left]. intros Hl. apply IH in Hl as [Hl|Hl].
  - left. by right.
  - destruct (decide (k' = k)) as [->|Hne].
    + rewrite lookup_insert_eq in Hl. inversion Hl; subst. left. by left.
    + rewrite lookup_insert_ne in Hl by done. by right.
Qed.

Lemma ids_fold_is_Some (l : list (Z * value)) (d : gmap value Z) k :
  k ∈ map snd l ∨ is_Some (d !! k) →
  is_Some (fold_left (fun d '(id, key) => <[key := id]> d) l d !! k).
Proof.
  revert d. induction l as [|[id' k'] l IH]; intros d.
  { intros [Hin|Hd]; [by apply elem_of_nil in Hin|done]. }
  cbn [fold_left map snd]. intros [Hin|Hd].
  - apply elem_of_cons in Hin as [->|Hin].
    + apply IH. right. by rewrite lookup_insert_eq.
    + apply IH. by left.
  - apply IH. right. destruct (decide (k' = k)) as [->|Hne].
    + by rewrite lookup_insert_eq.
    + by rewrite lookup_insert_ne.
Qed.

Lemma ids_fold_last (l : list (Z * value)) (d : gmap value Z) k id :
  k ∉ map snd l → d !! k = Some id →
  fold_left (fun d '(id, key) => <[key := id]> d) l d !! k = Some id.
Proof.
  revert d. induction l as [|[id' k'] l IH]; intros d Hnot Hd; [done|].
  cbn [fold_left]. apply IH.
  - intros Hin. apply Hnot. by right.
  - rewrite lookup_insert_ne; [done|]. intros ->. apply Hnot. by left.
Qed.

Lemma ids_of_rows_Some field rows k id :
  ids_of_rows field rows !! k = Some id →
  ∃ r, r ∈ rows ∧ cell (cells r) field = k ∧ rowid r = id.
Proof.
  intros Hk. apply ids_fold_lookup in Hk as [Hin|Hk]; [|done].
  apply list_elem_of_fmap in Hin as (r & Heq & Hr).
  inversion Heq; subst. by exists r.
Qed.

Lemma ids_of_rows_is_Some field rows r :
  r ∈ rows → is_Some (ids_of_rows field rows !! cell (cells r) field).
Proof.
  intros Hr. apply ids_fold_is_Some. left. rewrite map_map. cbn.
  by apply (list_elem_of_fmap_2 (fun r => cell (cells r) field)).
Qed.

Lemma ids_of_rows_NoDup field rows r :
  NoDup (map (fun r => cell (cells r) field) rows) → r ∈ rows →
  ids_of_rows field rows !! cell (cells r) field = Some (rowid r).
Proof.
  unfold ids_of_rows. generalize (∅ : gmap value Z).
  induction rows as [|r0 rows IH]; intros d Hnd Hr.
  { by apply elem_of_nil in Hr. }
  cbn [map fold_left]. apply NoDup_cons in Hnd as [Hnot Hnd].
  apply elem_of_cons in Hr as [->|Hr].
  - apply ids_fold_last; [|by rewrite lookup_insert_eq].
    by rewrite map_map.
  - by apply IH.
Qed.

Lemma get_items_ids_run table field db rows :
  table_rows (tables db) table rows →
  t_id (def_of table)
  && bool_decide (field ∈ map col_name (t_columns (def_of table))) = true →
  ∃ db',
    get_items_ids_by_field table field db
    = (Ok (ids_of_rows field rows), db')
    ∧ tables db' = tables db
    ∧ durable db' = durable db.
Proof.
  intros Hrows Hok. unfold get_items_ids_by_field, select_id_and.
  rewrite !bind_run. unfold get_state at 1. rewrite Hrows. cbn [t_def t_rows].
  rewrite Hok. eexists. split; [reflexivity|]. done.
Qed.

Lemma commit_then (k : DbM unit) (db : Db) :
  (commit;; k) db = k (committed db).
Proof. reflexivity. Qed.

Lemma read_ids_then table field db rows :
  table_rows (tables db) table rows →
  t_id (def_of table)
  && bool_decide (field ∈ map col_name (t_columns (def_of table))) = true →
  ∃ db',
    tables db' = tables db
    ∧ durable db' = durable db
    ∧ ∀ k : gmap value Z → DbM unit,
        (get_items_ids_by_field table field ≫= k) db
        = k (ids_of_rows field (rows_in (tables db) table)) db'.
Proof.
  intros Hrows Hok.
  destruct (get_items_ids_run table field db rows Hrows Hok)
    as (db' & Hrun & Ht & Hd).
  exists db'. split; [done|]. split; [done|]. intros k.
  rewrite bind_run, Hrun. unfold rows_in. by rewrite Hrows.
Qed.

(** ** The rows that the insert functions build *)

Lemma mapR_elem_of_r {A B} (f : A → result B) l l' y :
  mapR f l = Ok l' → y ∈ l' → ∃ x, x ∈ l ∧ f x = Ok y.
Proof.
  revert l'. induction l as [|x l IH]; intros l'; cbn [mapR].
  { intros [= <-] Hy. by apply elem_of_nil in Hy. }
  destruct (f x) as [y0|] eqn:Hy0; [|done]. cbn.
  destruct (mapR f l) as [ys|]; [|done]. cbn. intros [= <-] Hy.
  apply elem_of_cons in Hy as [->|Hy].
  - exists x. split; [by left|done].
  - destruct (IH ys eq_refl Hy) as (x' & Hx' & Hfx'). exists x'.
    split; [by right|done].
Qed.

Lemma mapR_elem_of_l {A B} (f : A → result B) l l' x :
  mapR f l = Ok l' → x ∈ l → ∃ y, y ∈ l' ∧ f x = Ok y.
Proof.
  revert l'. induction l as [|x0 l IH]; intros l'; cbn [mapR].
  { intros _ Hx. by apply elem_of_nil in Hx. }
  destruct (f x0) as [y0|] eqn:Hy0; [|done]. cbn.
  destruct (mapR f l) as [ys|]; [|done]. cbn. intros [= <-] Hx.
  apply elem_of_cons in Hx as [->|Hx].
  - exists y0. split; [by left|done].
  - destruct (IH ys eq_refl Hx) as (y & Hy & Hfx). exists y.
    split; [by right|done].
Qed.

Lemma mapR_raise {A B} (f : A → result B) l e :
  mapR f l = Raise e → ∃ x, x ∈ l ∧ f x = Raise e.
Proof.
  induction l as [|x l IH]; cbn [mapR]; [done|].
  destruct (f x) as [y|e'] eqn:Hy; cbn.
  - destruct (mapR f l) as [ys|e'']; [done|]. cbn. intros [= <-].
    destruct (IH eq_refl) as (x' & Hx' & Hfx'). exists x'.
    split; [by right|done].
  - intros [= <-]. exists x. split; [by left|done].
Qed.

Lemma mapR_is_ok {A B} (f : A → result B) l :
  (∀ x, x ∈ l → ∃ y, f x = Ok y) → ∃ l', mapR f l = Ok l'.
Proof.
  intros Hf. destruct (mapR f l) as [l'|e] eqn:Hl; [by exists l'|].
  apply mapR_raise in Hl as (x & Hx & Hfx).
  destruct (Hf x Hx) as [y Hy]. congruence.
Qed.

Lemma concatMapR_elem_of_r {A B} (f : A → result (list B)) l l' y :
  concatMapR f l = Ok l' → y ∈ l' →
  ∃ x ys, x ∈ l ∧ f x = Ok ys ∧ y ∈ ys.
Proof.
  revert l'. induction l as [|x l IH]; intros l'; cbn [concatMapR].
  { intros [= <-] Hy. by apply elem_of_nil in Hy. }
  destruct (f x) as [ys0|] eqn:Hy0; [|done]. cbn.
  destruct (concatMapR f l) as [zs|]; [|done]. cbn. intros [= <-] Hy.
  apply elem_of_app in Hy as [Hy|Hy].
  - exists x, ys0. split; [by left|done].
  - destruct (IH zs eq_refl Hy) as (x' & ys & Hx' & Hfx' & Hin).
    exists x', ys. split; [by right|done].
Qed.

Lemma concatMapR_elem_of_l {A B} (f : A → result (list B)) l l' x :
  concatMapR f l = Ok l' → x ∈ l →
  ∃ ys, f x = Ok ys ∧ ∀ y, y ∈ ys → y ∈ l'.
Proof.
  revert l'. induction l as [|x0 l IH]; intros l'; cbn [concatMapR].
  { intros _ Hx. by apply elem_of_nil in Hx. }
  destruct (f x0) as [ys0|] eqn:Hy0; [|done]. cbn.
  destruct (concatMapR f l) as [zs|]; [|done]. cbn. intros [= <-] Hx.
  apply elem_of_cons in Hx as [->|Hx].
  - exists ys0. split; [done|]. intros y Hy. apply elem_of_app. by left.
  - destruct (IH zs eq_refl Hx) as (ys & Hfx & Hin). exists ys.
    split; [done|]. intros y Hy. apply elem_of_app. right. by apply Hin.
Qed.

Lemma concatMapR_raise {A B} (f : A → result (list B)) l e :
  concatMapR f l = Raise e → ∃ x, x ∈ l ∧ f x = Raise e.
Proof.
  induction l as [|x l IH]; cbn [concatMapR]; [done|].
  destruct (f x) as [y|e'] eqn:Hy; cbn.
  - destruct (concatMapR f l) as [ys|e'']; [done|]. cbn. intros [= <-].
    destruct (IH eq_refl) as (x' & Hx' & Hfx'). exists x'.
    split; [by right|done].
  - intros [= <-]. exists x. split; [by left|done].
Qed.

(** [d.items()] on a registry whose references are objects of the
    heap. *)
Lemma items_of_ok {A} (heap : list A) (d : gmap string nat) :
  (∀ k r, d !! k = Some r → is_Some (heap !! r)) →
  ∃ items,
    items_of heap d = Ok items
    ∧ ∀ k x, (k, x) ∈ items ↔ ∃ r, d !! k = Some r ∧ heap !! r = Some x.
Proof.
  intros Hvalid. unfold items_of.
  destruct (mapR_is_ok
              (fun '(k, r) => match heap !! r with
                              | Some x => Ok (k, x)
                              | None => Raise InvalidRef
                              end) (map_to_list d)) as [items Hitems].
  { intros [k r] Hkr. apply elem_of_map_to_list in Hkr.
    destruct (Hvalid _ _ Hkr) as [x Hx]. exists (k, x). by rewrite Hx. }
  exists items. split; [done|]. intros k x. split.
  - intros Hin.
    destruct (mapR_elem_of_r _ _ _ _ Hitems Hin) as ([k' r] & Hkr & Hf).
    apply elem_of_map_to_list in Hkr.
    destruct (heap !! r) as [x'|] eqn:Hx'; [|done].
    inversion Hf; subst. by exists r.
  - intros (r & Hkr & Hx). apply elem_of_map_to_list in Hkr.
    destruct (mapR_elem_of_l _ _ _ _ Hitems Hkr) as ([k' x'] & Hin & Hf).
    rewrite Hx in Hf. by inversion Hf; subst.
Qed.

Section Rows.

Variable st : State.
Hypothesis Hvalid : registry_valid st.

Lemma sc_items :
  ∃ items,
    items_of (sc_heap st) (service_centers st) = Ok items
    ∧ ∀ slug d, (slug, d) ∈ items ↔ registered_center st slug d.
Proof. by apply items_of_ok. Qed.

Context {A : Type} (inner : ServiceCenter → list A)
  (row : string → A → result Params).

Lemma for_service_centers_ok :
  (∀ slug d x, registered_center st slug d → x ∈ inner d →
     ∃ p, row slug x = Ok p) →
  ∃ ps, for_service_centers st inner row = Ok ps.
Proof.
  intros Hrow. unfold for_service_centers.
  destruct sc_items as (items & -> & Hitems). cbn [mbind result_bind].
  destruct (concatMapR _ items) as [ps|e] eqn:Hps; [by exists ps|].
  apply concatMapR_raise in Hps as ([slug d] & Hin & Hraise).
  apply mapR_raise in Hraise as (x & Hx & Hraise).
  apply Hitems in Hin. destruct (Hrow _ _ _ Hin Hx). congruence.
Qed.

Lemma for_service_centers_elem_of_r ps p :
  for_service_centers st inner row = Ok ps → p ∈ ps →
  ∃ slug d x, registered_center st slug d ∧ x ∈ inner d
              ∧ row slug x = Ok p.
Proof.
  unfold for_service_centers.
  destruct sc_items as (items & -> & Hitems). cbn [mbind result_bind].
  intros Hps Hp.
  destruct (concatMapR_elem_of_r _ _ _ _ Hps Hp)
    as ([slug d] & ys & Hin & Hys & Hpy).
  destruct (mapR_elem_of_r _ _ _ _ Hys Hpy) as (x & Hx & Hrow).
  exists slug, d, x. split; [by apply Hitems|done].
Qed.

Lemma for_service_centers_elem_of_l ps slug d x :
  for_service_centers st inner row = Ok ps →
  registered_center st slug d → x ∈ inner d →
  ∃ p, p ∈ ps ∧ row slug x = Ok p.
Proof.
  unfold for_service_centers.
  destruct sc_items as (items & -> & Hitems). cbn [mbind result_bind].
  intros Hps Hreg Hx. apply Hitems in Hreg.
  destruct (concatMapR_elem_of_l _ _ _ _ Hps Hreg) as (ys & Hys & Hsub).
  destruct (mapR_elem_of_l _ _ _ _ Hys Hx) as (p & Hp & Hrow).
  exists p. split; [by apply Hsub|done].
Qed.

Lemma for_service_centers_raise e :
  for_service_centers st inner row = Raise e →
  ∃ slug d x, registered_center st slug d ∧ x ∈ inner d
              ∧ row slug x = Raise e.
Proof.
  unfold for_service_centers.
  destruct sc_items as (items & -> & Hitems). cbn [mbind result_bind].
  intros Hps.
  apply concatMapR_raise in Hps as ([slug d] & Hin & Hraise).
  apply mapR_raise in Hraise as (x & Hx & Hraise).
  exists slug, d, x. split; [by apply Hitems|done].
Qed.

End Rows.

(** ** The insert functions, one by one *)

Lemma stage_spec_ext (m m' : DbM unit) t R :
  (∀ db, m db = m' db) → stage_spec m' t R → stage_spec m t R.
Proof.
  intros Hext Hspec db Hconf. specialize (Hspec db Hconf).
  rewrite Hext. exact Hspec.
Qed.

Lemma registered_category_items st t :
  registry_keys_agree st →
  ∃ items,
    items_of (cat_heap st) (global_category t st) = Ok items
    ∧ (∀ slug c, (slug, c) ∈ items ↔ registered_category st t slug c)
    ∧ (∀ slug c, (slug, c) ∈ items → cat_slug c = slug ∧ cat_type c = t
                                       ∧ device_keys c).
Proof.
  intros (Hcat & Hkeys & _).
  destruct (items_of_ok (cat_heap st) (global_category t st))
    as (items & Hitems & Hin).
  { intros k r Hr. destruct (Hcat _ _ _ Hr) as (c & Hc & _). eauto. }
  exists items. split; [done|]. split; [done|].
  intros slug c Hc. apply Hin in Hc as (r & Hr & Hc).
  destruct (Hcat _ _ _ Hr) as (c' & Hc' & Hslug & Htype).
  assert (Some c' = Some c) as [= ->] by exact (eq_trans (eq_sym Hc') Hc).
  split; [done|]. split; [done|]. by eapply Hkeys.
Qed.

(** *** The tables without a reference *)

Lemma insert_brands_stage st :
  registry_keys_agree st →
  ∃ css,
    stage_spec (insert_brands st) "brands" (Ok css)
    ∧ ∀ slug, slug ∈ dom (brands st) →
        ∃ cs, cs ∈ css
              ∧ violates_not_null (def_of "brands") cs = false
              ∧ cell cs "slug" = VText slug.
Proof.
  intros Hkeys.
  destruct (registered_category_items st brands_t Hkeys)
    as (items & Hitems & Hin & Hslug).
  change (global_category brands_t st) with (brands st) in Hitems.
  set (fields := ["slug"; "title"; "is_popular"]).
  set (ps := map (fun kv : string * Category => category_params kv.2) items).
  exists (map (row_of "brands" fields) ps). split.
  - apply (stage_spec_ext _ (run_stage "brands" fields (Ok ps))).
    { intros db. unfold insert_brands, run_stage. rewrite !bind_run.
      unfold lift. by rewrite Hitems. }
    apply (run_stage_spec "brands" fields (Ok ps)); [reflexivity|].
    intros ? [= <-]. subst ps. apply Forall_forall. intros p Hp.
    apply list_elem_of_fmap in Hp as ([slug c] & -> & _).
    eexists. reflexivity.
  - intros slug Hdom. apply elem_of_dom in Hdom as [r Hr].
    destruct Hkeys as (Hcat & _).
    destruct (Hcat brands_t slug r Hr) as (c & Hc & Hcslug & _).
    exists (row_of "brands" fields (category_params c)). split.
    + subst ps. rewrite map_map.
      apply (list_elem_of_fmap_2
               (fun kv : string * Category =>
                  row_of "brands" fields (category_params kv.2))
               _ (slug, c)).
      apply Hin. by exists r.
    + split; [by destruct (cat_is_popular c)|]. by rewrite <- Hcslug.
Qed.

Lemma insert_devices_stage st :
  registry_keys_agree st →
  ∃ css,
    stage_spec (insert_devices st) "devices" (Ok css)
    ∧ ∀ slug, slug ∈ dom (devices st) →
        ∃ cs, cs ∈ css
              ∧ violates_not_null (def_of "devices") cs = false
              ∧ cell cs "slug" = VText slug.
Proof.
  intros Hkeys.
  destruct (registered_category_items st devices_t Hkeys)
    as (items & Hitems & Hin & Hslug).
  change (global_category devices_t st) with (devices st) in Hitems.
  set (fields := ["slug"; "title"]).
  set (ps := map (fun kv : string * Category => category_params kv.2) items).
  exists (map (row_of "devices" fields) ps). split.
  - apply (stage_spec_ext _ (run_stage "devices" fields (Ok ps))).
    { intros db. unfold insert_devices, run_stage. rewrite !bind_run.
      unfold lift. by rewrite Hitems. }
    apply (run_stage_spec "devices" fields (Ok ps)); [reflexivity|].
    intros ? [= <-]. subst ps. apply Forall_forall. intros p Hp.
    apply list_elem_of_fmap in Hp as ([slug c] & -> & _).
    eexists. reflexivity.
  - intros slug Hdom. apply elem_of_dom in Hdom as [r Hr].
    destruct Hkeys as (Hcat & _).
    destruct (Hcat devices_t slug r Hr) as (c & Hc & Hcslug & _).
    exists (row_of "devices" fields (category_params c)). split.
    + subst ps. rewrite map_map.
      apply (list_elem_of_fmap_2
               (fun kv : string * Category =>
                  row_of "devices" fields (category_params kv.2))
               _ (slug, c)).
      apply Hin. by exists r.
    + split; [done|]. by rewrite <- Hcslug.
Qed.

(** The three registries of titles go to their tables in the same way. *)
Lemma insert_titles_stage (table : string) (titles : gmap string string) :
  table ∈ ["metros"; "advantages"; "features"] →
  (∀ k v, titles !! k = Some v → v = k) →
  ∃ css,
    stage_spec (executemany (get_insert_query table ["title"])
                  (map (fun kv : string * string => title_params kv.2)
                       (map_to_list titles)))
               table (Ok css)
    ∧ ∀ title, title ∈ dom titles →
        ∃ cs, cs ∈ css
              ∧ violates_not_null (def_of table) cs = false
              ∧ cell cs "title" = VText title.
Proof.
  intros Htable Hvalues.
  set (ps := map (fun kv : string * string => title_params kv.2)
                 (map_to_list titles)).
  assert (∀ title, row_of table ["title"] (title_params title)
                   = [("title", VText title)]
                   ∧ binds table ["title"] (title_params title)
                   ∧ accepted table ["title"] = true
                   ∧ violates_not_null (def_of table) [("title", VText title)]
                     = false) as Hrow.
  { intros title.
    repeat (apply elem_of_cons in Htable as [->|Htable];
            [by repeat split; try (eexists; reflexivity)|]).
    by apply elem_of_nil in Htable. }
  exists (map (row_of table ["title"]) ps). split.
  - apply (run_stage_spec table ["title"] (Ok ps)); [apply (Hrow "")|].
    intros ? [= <-]. subst ps. apply Forall_forall. intros p Hp.
    apply list_elem_of_fmap in Hp as ([k v] & -> & _). apply Hrow.
  - intros title Hdom. apply elem_of_dom in Hdom as [v Hv].
    assert (v = title) as -> by by apply Hvalues in Hv.
    exists [("title", VText title)]. split; [|split; [apply Hrow|done]].
    destruct (Hrow title) as (<- & _). subst ps. rewrite map_map.
    apply (list_elem_of_fmap_2
             (fun kv : string * string =>
                row_of table ["title"] (title_params kv.2))
             _ (title, title)).
    by apply elem_of_map_to_list.
Qed.

(** *** The service centers *)

Lemma service_center_row d :
  proposed_row (def_of "service_centers")
    (insert_stmt "service_centers"
       ["slug"; "title"; "phone"; "slogan"; "logo"; "site_url";
        "description"])
    (service_center_params d)
  = Ok (service_center_cells d).
Proof.
  unfold service_center_params, service_center_cells.
  destruct (sc_title d), (sc_phone d), (sc_slogan d), (sc_site_url d),
    (sc_description d), (sc_logo d); reflexivity.
Qed.

Lemma service_center_not_null d :
  violates_not_null (def_of "service_centers") (service_center_cells d)
  = false
  ↔ is_Some (sc_title d) ∧ is_Some (sc_phone d).
Proof.
  unfold service_center_cells.
  destruct (sc_title d) as [title|], (sc_phone d) as [phone|];
    (split; [intros Hnn|intros [[? Ht] [? Hp]]]);
    try discriminate Hnn; try discriminate Ht; try discriminate Hp.
  - split; eauto.
  - reflexivity.
Qed.

Lemma insert_service_centers_stage st :
  registry_valid st →
  ∃ css,
    stage_spec (insert_service_centers st) "service_centers" (Ok css)
    ∧ ∀ cs, cs ∈ css ↔ ∃ slug d, registered_center st slug d
                                  ∧ cs = service_center_cells d.
Proof.
  intros Hvalid. destruct (sc_items st Hvalid) as (items & Hitems & Hin).
  set (fields := ["slug"; "title"; "phone"; "slogan"; "logo"; "site_url";
                  "description"]).
  set (ps := map (fun kv : string * ServiceCenter =>
                    service_center_params kv.2) items).
  assert (∀ d, row_of "service_centers" fields (service_center_params d)
               = service_center_cells d) as Hrow.
  { intros d. unfold row_of. subst fields. by rewrite service_center_row. }
  exists (map (row_of "service_centers" fields) ps). split.
  - apply (stage_spec_ext _ (run_stage "service_centers" fields (Ok ps))).
    { intros db. unfold insert_service_centers, run_stage. rewrite !bind_run.
      unfold lift. by rewrite Hitems. }
    apply (run_stage_spec "service_centers" fields (Ok ps)); [reflexivity|].
    intros ? [= <-]. subst ps. apply Forall_forall. intros p Hp.
    apply list_elem_of_fmap in Hp as ([slug d] & -> & _).
    eexists. apply service_center_row.
  - intros cs. subst ps. rewrite map_map. split.
    + intros Hcs. apply list_elem_of_fmap in Hcs as ([slug d] & -> & Hd).
      exists slug, d. split; [by apply Hin|]. apply Hrow.
    + intros (slug & d & Hreg & ->). rewrite <- Hrow.
      apply (list_elem_of_fmap_2
               (fun kv : string * ServiceCenter =>
                  row_of "service_centers" fields
                    (service_center_params kv.2))
               _ (slug, d)).
      by apply Hin.
Qed.

(** *** The tables that refer to a service center *)

Lemma id_of_Ok ids key id :
  id_of ids key = Ok id ↔ ids !! VText key = Some id.
Proof.
  unfold id_of. destruct (ids !! VText key); split; intros H;
    by inversion H.
Qed.

Lemma id_of_Raise ids key e :
  id_of ids key = Raise e ↔ ids !! VText key = None ∧ e = KeyError key.
Proof.
  unfold id_of. destruct (ids !! VText key); split.
  - done.
  - by intros [? _].
  - by intros [= <-].
  - by intros [_ ->].
Qed.

Section CenterStages.

Variable st : State.
Hypothesis Hvalid : registry_valid st.
Variable sc_ids : gmap value Z.

(** A table whose rows hold the key of a service center and what [mk]
    gives for an element of [inner]. *)
Lemma center_rows_stage {A} (inner : ServiceCenter → list A)
  (mk : Z → A → Params) (t : string) (fs : list string) :
  accepted t fs = true →
  (∀ sid x, binds t fs (mk sid x)) →
  (∀ sid x, keyed (def_of t) (row_of t fs (mk sid x)) = true) →
  ∃ R,
    stage_spec
      (run_stage t fs
         (for_service_centers st inner
            (fun sc_slug x =>
               service_center_id ← id_of sc_ids sc_slug;
               Ok (mk service_center_id x))))
      t R
    ∧ (∀ css, R = Ok css → Forall (fun cs => keyed (def_of t) cs = true) css)
    ∧ (∀ e, R = Raise e → missing_center st sc_ids e).
Proof.
  intros Hacc Hbinds Hkeyed.
  set (row := fun (sc_slug : string) (x : A) =>
                service_center_id ← id_of sc_ids sc_slug;
                Ok (mk service_center_id x)).
  assert (∀ slug x p, row slug x = Ok p → ∃ sid, p = mk sid x) as Hrow.
  { intros slug x p. unfold row. destruct (id_of sc_ids slug) as [sid|];
      [|done]. cbn. intros [= <-]. by exists sid. }
  eexists. split; [|split].
  - apply (run_stage_spec t fs); [done|].
    intros ps Hps. apply Forall_forall. intros p Hp.
    destruct (for_service_centers_elem_of_r st Hvalid _ _ _ _ Hps Hp)
      as (slug & d & x & _ & _ & Hp').
    apply Hrow in Hp' as [sid ->]. apply Hbinds.
  - intros css Hcss.
    destruct (for_service_centers st inner row) as [ps|] eqn:Hps; [|done].
    cbn in Hcss. injection Hcss as <-. apply Forall_forall. intros cs Hcs.
    apply list_elem_of_fmap in Hcs as (p & -> & Hp).
    destruct (for_service_centers_elem_of_r st Hvalid _ _ _ _ Hps Hp)
      as (slug & d & x & _ & _ & Hp').
    apply Hrow in Hp' as [sid ->]. apply Hkeyed.
  - intros e He.
    destruct (for_service_centers st inner row) as [ps|e'] eqn:Hps; [done|].
    cbn in He. injection He as ->.
    destruct (for_service_centers_raise st Hvalid _ _ _ Hps)
      as (slug & d & x & Hreg & _ & Hraise).
    unfold row in Hraise.
    destruct (id_of sc_ids slug) as [sid|e'] eqn:Hid; [done|].
    cbn in Hraise. injection Hraise as ->.
    apply id_of_Raise in Hid as [Hnone ->]. by exists slug, d.
Qed.

Lemma insert_opening_hours_stage :
  ∃ R,
    stage_spec (insert_opening_hours st sc_ids) "opening_hours" R
    ∧ (∀ css, R = Ok css →
         Forall (fun cs => keyed (def_of "opening_hours") cs = true) css)
    ∧ (∀ e, R = Raise e → missing_center st sc_ids e).
Proof.
  apply (center_rows_stage sc_opening_hours
           (fun service_center_id opening_hour =>
              dict_params
                [("service_center_id", VInt service_center_id);
                 ("weekday_from", VInt (weekday_from opening_hour));
                 ("weekday_to", VInt (weekday_to opening_hour));
                 ("time_from", of_opt_str (time_from opening_hour));
                 ("time_to", of_opt_str (time_to opening_hour))])
           "opening_hours"
           ["service_center_id"; "weekday_from"; "weekday_to"; "time_from";
            "time_to"]).
  - reflexivity.
  - intros sid x. eexists. reflexivity.
  - intros sid x. by apply keyed_of_uniques_not_null.
Qed.

Lemma insert_gallery_images_stage :
  ∃ R,
    stage_spec (insert_gallery_images st sc_ids) "gallery_images" R
    ∧ (∀ css, R = Ok css →
         Forall (fun cs => keyed (def_of "gallery_images") cs = true) css)
    ∧ (∀ e, R = Raise e → missing_center st sc_ids e).
Proof.
  apply (center_rows_stage sc_gallery
           (fun service_center_id image =>
              dict_params [("service_center_id", VInt service_center_id);
                           ("image", of_str image)])
           "gallery_images" ["service_center_id"; "image"]).
  - reflexivity.
  - intros sid x. eexists. reflexivity.
  - intros sid x. reflexivity.
Qed.

Lemma insert_locations_stage (metro_ids : gmap value Z) :
  ∃ R,
    stage_spec (insert_locations st sc_ids metro_ids) "locations" R
    ∧ (∀ css, R = Ok css →
         Forall (fun cs => keyed (def_of "locations") cs = true) css)
    ∧ (∀ e, R = Raise e → missing_center st sc_ids e).
Proof.
  apply (center_rows_stage sc_locations
           (fun service_center_id location =>
              dict_params
                [("service_center_id", VInt service_center_id);
                 ("metro_id",
                  of_opt_int (id_get metro_ids (loc_metro location)));
                 ("address", of_str (loc_address location));
                 ("coords", of_opt_str (loc_coords location));
                 ("is_primary", of_bool (loc_is_primary location))])
           "locations"
           ["service_center_id"; "metro_id"; "address"; "coords";
            "is_primary"]).
  - reflexivity.
  - intros sid x. eexists. reflexivity.
  - intros sid x. by apply keyed_of_uniques_not_null.
Qed.

(** The junctions of the service centers. *)
Lemma junction_stage (t id_column entity field : string)
  (keys : ServiceCenter → gset string) (ids : gmap value Z) :
  (t, id_column, entity, field, keys) ∈ sc_junctions →
  (∀ slug d, registered_center st slug d → resolves ids (keys d)) →
  ∃ R,
    stage_spec
      (run_stage t ["service_center_id"; id_column]
         (junction_rows st keys id_column sc_ids ids))
      t R
    ∧ (∀ css, R = Ok css →
         Forall (fun cs => keyed (def_of t) cs = true) css
         ∧ ∀ slug d key sid id,
             registered_center st slug d → key ∈ keys d →
             sc_ids !! VText slug = Some sid → ids !! VText key = Some id →
             [(id_column, VInt id); ("service_center_id", VInt sid)] ∈ css)
    ∧ (∀ e, R = Raise e → missing_center st sc_ids e)
    ∧ (∀ slug d, registered_center st slug d → keys d ≠ ∅ →
         sc_ids !! VText slug = None → ∃ e, R = Raise e).
Proof.
  intros Hin Hids.
  set (fs := ["service_center_id"; id_column]).
  set (mk := fun (sid id : Z) =>
               dict_params [("service_center_id", VInt sid);
                            (id_column, VInt id)]).
  assert (accepted t fs = true
          ∧ ∀ sid id,
              proposed_row (def_of t) (insert_stmt t fs) (mk sid id)
              = Ok [(id_column, VInt id); ("service_center_id", VInt sid)]
              ∧ keyed (def_of t)
                  [(id_column, VInt id); ("service_center_id", VInt sid)]
                = true) as [Hacc Hrow].
  { subst fs mk. unfold sc_junctions in Hin.
    repeat (apply elem_of_cons in Hin as [Hin|Hin];
            [by inversion Hin; subst|]).
    by apply elem_of_nil in Hin. }
  assert (∀ sid id, row_of t fs (mk sid id)
                    = [(id_column, VInt id); ("service_center_id", VInt sid)])
    as Hrow_of.
  { intros sid id. unfold row_of. by destruct (Hrow sid id) as [-> _]. }
  set (row := fun (sc_slug key : string) =>
                service_center_id ← id_of sc_ids sc_slug;
                id ← id_of ids key;
                Ok (mk service_center_id id)).
  assert (∀ slug key p,
            row slug key = Ok p ↔
            ∃ sid id, sc_ids !! VText slug = Some sid
                      ∧ ids !! VText key = Some id ∧ p = mk sid id)
    as Hrow_ok.
  { intros slug key p. unfold row. split.
    - destruct (id_of sc_ids slug) as [sid|] eqn:Hsid; [|done]. cbn.
      destruct (id_of ids key) as [id|] eqn:Hid; [|done]. cbn.
      intros [= <-]. apply id_of_Ok in Hsid, Hid. by exists sid, id.
    - intros (sid & id & Hsid & Hid & ->).
      apply id_of_Ok in Hsid, Hid. by rewrite Hsid, Hid. }
  change (junction_rows st keys id_column sc_ids ids)
    with (for_service_centers st (fun sc => elements (keys sc)) row).
  eexists. split; [|split; [|split]].
  - apply (run_stage_spec t fs); [done|].
    intros ps Hps. apply Forall_forall. intros p Hp.
    destruct (for_service_centers_elem_of_r st Hvalid _ _ _ _ Hps Hp)
      as (slug & d & x & _ & _ & Hp').
    apply Hrow_ok in Hp' as (sid & id & _ & _ & ->).
    eexists. apply Hrow.
  - intros css Hcss.
    destruct (for_service_centers st _ row) as [ps|] eqn:Hps; [|done].
    cbn in Hcss. injection Hcss as <-. split.
    + apply Forall_forall. intros cs Hcs.
      apply list_elem_of_fmap in Hcs as (p & -> & Hp).
      destruct (for_service_centers_elem_of_r st Hvalid _ _ _ _ Hps Hp)
        as (slug & d & x & _ & _ & Hp').
      apply Hrow_ok in Hp' as (sid & id & _ & _ & ->).
      rewrite Hrow_of. apply Hrow.
    + intros slug d key sid id Hreg Hkey Hsid Hid.
      destruct (for_service_centers_elem_of_l st Hvalid _ _ _ slug d key
                  Hps Hreg) as (p & Hp & Hp').
      { by apply elem_of_elements. }
      apply Hrow_ok in Hp' as (sid' & id' & Hsid' & Hid' & ->).
      assert (sid' = sid) as -> by congruence.
      assert (id' = id) as -> by congruence.
      rewrite <- Hrow_of.
      by apply (list_elem_of_fmap_2 (row_of t fs)).
  - intros e He.
    destruct (for_service_centers st _ row) as [ps|e'] eqn:Hps; [done|].
    cbn in He. injection He as ->.
    destruct (for_service_centers_raise st Hvalid _ _ _ Hps)
      as (slug & d & key & Hreg & Hkey & Hraise).
    unfold row in Hraise.
    destruct (id_of sc_ids slug) as [sid|e'] eqn:Hsid.
    + cbn in Hraise. apply elem_of_elements in Hkey.
      destruct (Hids _ _ Hreg key Hkey) as [id Hid].
      apply id_of_Ok in Hid. by rewrite Hid in Hraise.
    + cbn in Hraise. injection Hraise as ->.
      apply id_of_Raise in Hsid as [Hnone ->]. by exists slug, d.
  - intros slug d Hreg Hne Hnone.
    destruct (for_service_centers st _ row) as [ps|e] eqn:Hps;
      [|by exists e].
    exfalso. apply set_choose_L in Hne as [key Hkey].
    destruct (for_service_centers_elem_of_l st Hvalid _ _ _ slug d key
                Hps Hreg) as (p & _ & Hp').
    { by apply elem_of_elements. }
    apply Hrow_ok in Hp' as (sid & _ & Hsid & _). congruence.
Qed.

End CenterStages.

(** *** The tables that refer to a device *)

Lemma insert_services_stage st device_ids :
  registry_keys_agree st →
  resolves device_ids (dom (devices st)) →
  ∃ css,
    stage_spec (insert_services st device_ids) "services" (Ok css)
    ∧ Forall (fun cs => keyed (def_of "services") cs = true) css.
Proof.
  intros Hkeys Hids.
  destruct (registered_category_items st devices_t Hkeys)
    as (items & Hitems & Hin & Hitem).
  change (global_category devices_t st) with (devices st) in Hitems.
  unfold insert_services.
  match goal with |- context [lift ?r] => destruct r as [ps|e] eqn:HR end.
  - exists (map (row_of "services" ["device_id"; "title"; "price"]) ps).
    split.
    + apply (run_stage_spec "services" ["device_id"; "title"; "price"]
               (Ok ps)); [reflexivity|].
      intros ? [= <-]. rewrite Hitems in HR. cbn [mbind result_bind] in HR.
      apply Forall_forall. intros p Hp.
      destruct (concatMapR_elem_of_r _ _ _ _ HR Hp)
        as ([slug c] & ys & _ & Hys & Hpy).
      destruct (cat_services c) as [services|]; [|done].
      cbn [mbind result_bind] in Hys.
      destruct (mapR_elem_of_r _ _ _ _ Hys Hpy) as (service & _ & Hrow).
      destruct (id_of device_ids slug) as [id|]; [|done].
      cbn in Hrow. injection Hrow as <-. eexists. reflexivity.
    + apply Forall_forall. intros cs _. by apply keyed_of_uniques_not_null.
  - exfalso. rewrite Hitems in HR. cbn [mbind result_bind] in HR.
    apply concatMapR_raise in HR as ([slug c] & Hc & Hraise).
    destruct (Hitem _ _ Hc) as (_ & Htype & Hdev).
    unfold device_keys in Hdev. rewrite Htype in Hdev.
    destruct Hdev as [_ [services Hservices]]. rewrite Hservices in Hraise.
    cbn [mbind result_bind] in Hraise.
    apply mapR_raise in Hraise as (service & _ & Hraise).
    destruct (Hids slug) as [id Hid].
    { apply Hin in Hc as (r & Hr & _). by apply elem_of_dom. }
    apply id_of_Ok in Hid. by rewrite Hid in Hraise.
Qed.

Lemma insert_devices_brands_stage st brand_ids device_ids :
  registry_keys_agree st → registry_linked st →
  resolves brand_ids (dom (brands st)) →
  resolves device_ids (dom (devices st)) →
  ∃ css,
    stage_spec (insert_devices_brands st brand_ids device_ids)
               "brand_device" (Ok css)
    ∧ Forall (fun cs => keyed (def_of "brand_device") cs = true) css.
Proof.
  intros Hkeys [_ Hlinked] Hbrands Hdevices.
  destruct (registered_category_items st devices_t Hkeys)
    as (items & Hitems & Hin & Hitem).
  change (global_category devices_t st) with (devices st) in Hitems.
  unfold insert_devices_brands.
  match goal with |- context [lift ?r] => destruct r as [ps|e] eqn:HR end.
  - assert (∀ p, p ∈ ps →
              ∃ brand_id device_id,
                p = dict_params [("brand_id", VInt brand_id);
                                 ("device_id", VInt device_id)]) as Hps.
    { rewrite Hitems in HR. cbn [mbind result_bind] in HR. intros p Hp.
      destruct (concatMapR_elem_of_r _ _ _ _ HR Hp)
        as ([slug c] & ys & _ & Hys & Hpy).
      destruct (cat_brands c) as [s|]; [|done].
      cbn [mbind result_bind] in Hys.
      destruct (mapR_elem_of_r _ _ _ _ Hys Hpy) as (brand_slug & _ & Hrow).
      destruct (id_of brand_ids brand_slug) as [brand_id|]; [|done].
      cbn in Hrow. destruct (id_of device_ids slug) as [device_id|]; [|done].
      cbn in Hrow. injection Hrow as <-. by exists brand_id, device_id. }
    exists (map (row_of "brand_device" ["brand_id"; "device_id"]) ps).
    split.
    + apply (run_stage_spec "brand_device" ["brand_id"; "device_id"]
               (Ok ps)); [reflexivity|].
      intros ? [= <-]. apply Forall_forall. intros p Hp.
      destruct (Hps p Hp) as (brand_id & device_id & ->).
      eexists. reflexivity.
    + apply Forall_forall. intros cs Hcs.
      apply list_elem_of_fmap in Hcs as (p & -> & Hp).
      by destruct (Hps p Hp) as (brand_id & device_id & ->).
  - exfalso. rewrite Hitems in HR. cbn [mbind result_bind] in HR.
    apply concatMapR_raise in HR as ([slug c] & Hc & Hraise).
    destruct (Hitem _ _ Hc) as (_ & Htype & Hdev).
    unfold device_keys in Hdev. rewrite Htype in Hdev.
    destruct Hdev as [[s Hs] _]. rewrite Hs in Hraise.
    cbn [mbind result_bind] in Hraise.
    apply mapR_raise in Hraise as (brand_slug & Hbrand & Hraise).
    apply elem_of_elements in Hbrand.
    destruct (Hbrands brand_slug) as [brand_id Hbrand_id].
    { apply Hin in Hc as (r & _ & Hr). by apply (Hlinked _ _ _ Hr Hs). }
    destruct (Hdevices slug) as [device_id Hdevice_id].
    { apply Hin in Hc as (r & Hr & _). by apply elem_of_dom. }
    apply id_of_Ok in Hbrand_id, Hdevice_id.
    by rewrite Hbrand_id, Hdevice_id in Hraise.
Qed.

(** ** A run of [insert_data] *)

Lemma with_schema_lookup ts t :
  with_schema ts !! t
  = match ts !! t with
    | Some tb => Some tb
    | None => if bool_decide (t ∈ schema_tables)
              then Some {| t_def := def_of t; t_rows := [] |}
              else None
    end.
Proof.
  unfold with_schema.
  destruct (create_schema_run (connect ts)) as (db' & -> & Ht & _).
  apply Ht.
Qed.

Lemma with_schema_conforms ts : compatible ts → conforms (with_schema ts).
Proof.
  intros Hcomp. unfold with_schema.
  destruct (create_schema_run (connect ts)) as (db' & Hrun & _).
  rewrite Hrun. cbn [snd].
  by apply (create_schema_conforms (connect ts)).
Qed.

Lemma with_schema_conforming ts : conforms ts → with_schema ts = ts.
Proof.
  intros Hconf. apply map_eq. intros t. rewrite with_schema_lookup.
  destruct (ts !! t) as [tb|] eqn:Htb; [done|].
  case_bool_decide as Hin; [|done].
  destruct (Hconf t Hin) as [rows Hrows]. unfold table_rows in Hrows.
  congruence.
Qed.

Lemma create_schema_connect ts :
  ∃ db,
    create_schema (connect ts) = (Ok tt, db)
    ∧ tables db = with_schema ts
    ∧ durable db = with_schema ts.
Proof.
  unfold with_schema.
  destruct (create_schema_run (connect ts)) as (db & Hrun & Ht & Hd & _).
  exists db. rewrite Hrun. split; [done|]. split; [done|].
  apply map_eq. intros t. by rewrite Hd, Ht.
Qed.

(** The statements of [insert_data] up to the second commit. *)
Lemma entities_run st ts csss cssS :
  compatible ts →
  length csss = 5%nat →
  Forall (fun s => stage_spec s.1.1 s.1.2 (Ok s.2)) (entity_stages st csss) →
  stage_spec (insert_service_centers st) "service_centers" (Ok cssS) →
  ∃ db,
    (∀ k : DbM unit, (create_schema;; insert_brands st;; insert_devices st;;
           insert_metros st;; insert_advantages st;; insert_features st;;
           commit;; insert_service_centers st;; commit;; k) (connect ts)
          = k db)
    ∧ tables db
      = write "service_centers" cssS
          (fold_left (fun ts s => write s.1.2 s.2 ts) (entity_stages st csss)
             (with_schema ts))
    ∧ durable db = tables db
    ∧ conforms (tables db).
Proof.
  intros Hcomp Hlen Hspecs HspecS.
  destruct (create_schema_connect ts) as (dbA & HrunA & HtA & _).
  assert (conforms (tables dbA)) as HconfA.
  { rewrite HtA. by apply with_schema_conforms. }
  destruct (then_stages_ok (entity_stages st csss) dbA Hspecs HconfA)
    as (dbB & HrunB & HtB & _ & HconfB).
  do 6 (destruct csss as [|? csss]; try done).
  cbn [entity_stages zip zip_with map then_stages fst snd] in HrunB.
  destruct (HspecS (committed dbB) HconfB) as (dbS & HrunS & HtS & _).
  exists (committed dbS). split; [|split; [|split]].
  - intros k. rewrite bind_run, HrunA, HrunB, commit_then, bind_run, HrunS.
    by rewrite commit_then.
  - cbn [committed tables]. rewrite HtS. cbn [committed tables].
    by rewrite HtB, HtA.
  - done.
  - cbn [committed tables]. rewrite HtS. by apply write_conforms.
Qed.

(** *** What the tables hold after the statements *)

Lemma settled_holds t field css ts (keys : gset string) :
  settled t css ts →
  t_uniques (def_of t) = [[field]] →
  (∀ key, key ∈ keys →
     ∃ cs, cs ∈ css ∧ violates_not_null (def_of t) cs = false
           ∧ cell cs field = VText key) →
  holds ts t field keys.
Proof.
  intros Hsettled Hu Hcss key Hkey.
  destruct (Hcss key Hkey) as (cs & Hcs & Hnn & Hcell).
  destruct (settled_row _ _ _ _ Hsettled Hcs Hnn)
    as (u & r & Hin & Hr & Hkeys & _).
  rewrite Hu in Hin. apply list_elem_of_singleton in Hin as ->.
  exists r. split; [done|]. cbn in Hkeys. congruence.
Qed.

Lemma holds_resolves ts t field keys :
  holds ts t field keys →
  resolves (ids_of_rows field (rows_in ts t)) keys.
Proof.
  intros Hholds key Hkey. destruct (Hholds key Hkey) as (r & Hr & <-).
  by apply ids_of_rows_is_Some.
Qed.

Lemma holds_grows ts ts' t field keys :
  (∃ more, rows_in ts' t = (rows_in ts t ++ more)%list) →
  holds ts t field keys → holds ts' t field keys.
Proof.
  intros [more Hmore] Hholds key Hkey.
  destruct (Hholds key Hkey) as (r & Hr & Hcell). exists r.
  split; [|done]. rewrite Hmore. apply elem_of_app. by left.
Qed.

(** Any row is keyed in a table whose uniqueness constraints are on
    columns that are NOT NULL. *)
Lemma keyed_all t css :
  uniques_not_null (def_of t) = true →
  Forall (fun cs => keyed (def_of t) cs = true) css.
Proof.
  intros Hu. apply Forall_forall. intros cs _.
  by apply keyed_of_uniques_not_null.
Qed.

Lemma entity_stages_exist st :
  registry_valid st → registry_keys_agree st →
  ∃ csss cssS,
    length csss = 5%nat
    ∧ Forall (fun s => stage_spec s.1.1 s.1.2 (Ok s.2))
             (entity_stages st csss)
    ∧ stage_spec (insert_service_centers st) "service_centers" (Ok cssS)
    ∧ (∀ ts, Forall (fun s => settled s.1.2 s.2 ts) (entity_stages st csss) →
         holds ts "brands" "slug" (dom (brands st))
         ∧ holds ts "devices" "slug" (dom (devices st))
         ∧ holds ts "metros" "title" (dom (metros st))
         ∧ holds ts "advantages" "title" (dom (advantages st))
         ∧ holds ts "features" "title" (dom (features st)))
    ∧ (∀ cs, cs ∈ cssS ↔ ∃ slug d, registered_center st slug d
                                    ∧ cs = service_center_cells d).
Proof.
  intros Hvalid Hkeys.
  destruct (insert_brands_stage st Hkeys) as (cssB & HsB & HcB).
  destruct (insert_devices_stage st Hkeys) as (cssD & HsD & HcD).
  destruct Hkeys as (_ & _ & Hmetros & Hadvantages & Hfeatures).
  destruct (insert_titles_stage "metros" (metros st)) as (cssM & HsM & HcM);
    [set_solver|done|].
  destruct (insert_titles_stage "advantages" (advantages st))
    as (cssA & HsA & HcA); [set_solver|done|].
  destruct (insert_titles_stage "features" (features st))
    as (cssF & HsF & HcF); [set_solver|done|].
  destruct (insert_service_centers_stage st Hvalid) as (cssS & HsS & HcS).
  exists [cssB; cssD; cssM; cssA; cssF], cssS.
  split; [done|]. split.
  { unfold entity_stages. cbn [zip zip_with]. by repeat constructor. }
  split; [done|]. split; [|done].
  intros ts Hsettled. unfold entity_stages in Hsettled.
  cbn [zip zip_with] in Hsettled.
  apply Forall_cons in Hsettled as [HB Hsettled].
  apply Forall_cons in Hsettled as [HD Hsettled].
  apply Forall_cons in Hsettled as [HM Hsettled].
  apply Forall_cons in Hsettled as [HA Hsettled].
  apply Forall_cons in Hsettled as [HF _].
  cbn [fst snd] in *.
  split; [by eapply settled_holds|]. split; [by eapply settled_holds|].
  split; [by eapply settled_holds|]. split; by eapply settled_holds.
Qed.

(** *** The statements after the second commit *)

Lemma read_ids_run st db :
  conforms (tables db) →
  ∃ db',
    tables db' = tables db
    ∧ durable db' = durable db
    ∧ (sc_ids_by_slugs ← get_items_ids_by_field "service_centers" "slug";
       metro_ids_by_titles ← get_items_ids_by_field "metros" "title";
       brand_ids_by_slugs ← get_items_ids_by_field "brands" "slug";
       device_ids_by_slugs ← get_items_ids_by_field "devices" "slug";
       advantage_ids_by_titles ← get_items_ids_by_field "advantages" "title";
       feature_ids_by_titles ← get_items_ids_by_field "features" "title";
       insert_opening_hours st sc_ids_by_slugs;;
       insert_gallery_images st sc_ids_by_slugs;;
       insert_services st device_ids_by_slugs;;
       insert_locations st sc_ids_by_slugs metro_ids_by_titles;;
       insert_service_centers_brands st sc_ids_by_slugs brand_ids_by_slugs;;
       insert_service_centers_devices st sc_ids_by_slugs
         device_ids_by_slugs;;
       insert_service_centers_metros st sc_ids_by_slugs metro_ids_by_titles;;
       insert_devices_brands st brand_ids_by_slugs device_ids_by_slugs;;
       insert_service_centers_advantages st sc_ids_by_slugs
         advantage_ids_by_titles;;
       insert_service_centers_features st sc_ids_by_slugs
         feature_ids_by_titles;;
       commit) db
      = then_stages (map fst (relationship_stages st (tables db))) commit db'.
Proof.
  intros Hconf.
  assert (∀ db', tables db' = tables db → conforms (tables db')) as Hconf'.
  { by intros db' ->. }
  unfold relationship_stages, ids_in.
  destruct (conforms_table _ "service_centers" Hconf eq_refl) as [r1 Hr1].
  destruct (read_ids_then "service_centers" "slug" db r1)
    as (db1 & Ht1 & Hd1 & ->); [done|done|].
  destruct (conforms_table _ "metros" (Hconf' _ Ht1) eq_refl) as [r2 Hr2].
  destruct (read_ids_then "metros" "title" db1 r2)
    as (db2 & Ht2 & Hd2 & ->); [done|done|].
  rewrite Ht1 in Ht2.
  destruct (conforms_table _ "brands" (Hconf' _ Ht2) eq_refl) as [r3 Hr3].
  destruct (read_ids_then "brands" "slug" db2 r3)
    as (db3 & Ht3 & Hd3 & ->); [done|done|].
  rewrite Ht2 in Ht3.
  destruct (conforms_table _ "devices" (Hconf' _ Ht3) eq_refl) as [r4 Hr4].
  destruct (read_ids_then "devices" "slug" db3 r4)
    as (db4 & Ht4 & Hd4 & ->); [done|done|].
  rewrite Ht3 in Ht4.
  destruct (conforms_table _ "advantages" (Hconf' _ Ht4) eq_refl)
    as [r5 Hr5].
  destruct (read_ids_then "advantages" "title" db4 r5)
    as (db5 & Ht5 & Hd5 & ->); [done|done|].
  rewrite Ht4 in Ht5.
  destruct (conforms_table _ "features" (Hconf' _ Ht5) eq_refl) as [r6 Hr6].
  destruct (read_ids_then "features" "title" db5 r6)
    as (db6 & Ht6 & Hd6 & ->); [done|done|].
  rewrite Ht5 in Ht6.
  exists db6. split; [done|]. split; [congruence|].
  rewrite Ht1, Ht2, Ht3, Ht4, Ht5. reflexivity.
Qed.

Lemma junction_stored ts t id_column entity field
  (keys : ServiceCenter → gset string) css (sid id : Z) :
  (t, id_column, entity, field, keys) ∈ sc_junctions →
  settled t css ts →
  [(id_column, VInt id); ("service_center_id", VInt sid)] ∈ css →
  ∃ rj, rj ∈ rows_in ts t
        ∧ cell (cells rj) id_column = VInt id
        ∧ cell (cells rj) "service_center_id" = VInt sid.
Proof.
  intros Hin Hsettled Hcs.
  assert (violates_not_null (def_of t)
            [(id_column, VInt id); ("service_center_id", VInt sid)] = false
          ∧ t_uniques (def_of t) = [[id_column; "service_center_id"]]
          ∧ cell [(id_column, VInt id); ("service_center_id", VInt sid)]
                 id_column = VInt id
          ∧ cell [(id_column, VInt id); ("service_center_id", VInt sid)]
                 "service_center_id" = VInt sid)
    as (Hnn & Hu & Hc1 & Hc2).
  { unfold sc_junctions in Hin.
    repeat (apply elem_of_cons in Hin as [Hin|Hin];
            [by inversion Hin; subst|]).
    by apply elem_of_nil in Hin. }
  destruct (settled_row _ _ _ _ Hsettled Hcs Hnn)
    as (u & r & Hin' & Hr & Hkeys & _).
  rewrite Hu in Hin'. apply list_elem_of_singleton in Hin' as ->.
  exists r. split; [done|]. cbn [key_of map] in Hkeys.
  rewrite Hc1, Hc2 in Hkeys. by inversion Hkeys.
Qed.

Lemma relationship_stages_exist st ts :
  registries_consistent st →
  holds ts "brands" "slug" (dom (brands st)) →
  holds ts "devices" "slug" (dom (devices st)) →
  holds ts "metros" "title" (dom (metros st)) →
  holds ts "advantages" "title" (dom (advantages st)) →
  holds ts "features" "title" (dom (features st)) →
  ∃ Rs,
    length Rs = 10%nat
    ∧ Forall (fun s =>
                stage_spec s.1.1 s.1.2 s.2
                ∧ (∀ css, s.2 = Ok css →
                     Forall (fun cs => keyed (def_of s.1.2) cs = true) css)
                ∧ (∀ e, s.2 = Raise e →
                     missing_center st (ids_in ts "service_centers" "slug")
                       e))
             (zip (relationship_stages st ts) Rs)
    ∧ (∀ ts',
         Forall (fun s => ∀ css, s.2 = Ok css → settled s.1.2 css ts')
                (zip (relationship_stages st ts) Rs) →
         Forall (fun R => ∃ css, R = Ok css) Rs →
         ∀ t id_column entity field keys slug d key sid id,
           (t, id_column, entity, field, keys) ∈ sc_junctions →
           registered_center st slug d → key ∈ keys d →
           ids_in ts "service_centers" "slug" !! VText slug = Some sid →
           ids_in ts entity field !! VText key = Some id →
           ∃ rj, rj ∈ rows_in ts' t
                 ∧ cell (cells rj) id_column = VInt id
                 ∧ cell (cells rj) "service_center_id" = VInt sid)
    ∧ (∀ slug d, registered_center st slug d →
         sc_brands d ∪ sc_devices d ≠ ∅ →
         ids_in ts "service_centers" "slug" !! VText slug = None →
         Exists (fun R => ∃ e, R = Raise e) Rs).
Proof.
  intros (Hvalid & Hfacts & [_ Hcats] & Hkeys & Hlinked) HB HD HM HA HF.
  apply holds_resolves in HB, HD, HM, HA, HF.
  set (sc_ids := ids_in ts "service_centers" "slug").
  fold (ids_in ts "brands" "slug") in HB.
  fold (ids_in ts "devices" "slug") in HD.
  fold (ids_in ts "metros" "title") in HM.
  fold (ids_in ts "advantages" "title") in HA.
  fold (ids_in ts "features" "title") in HF.
  assert (∀ slug d, registered_center st slug d →
            resolves (ids_in ts "brands" "slug") (sc_brands d)
            ∧ resolves (ids_in ts "devices" "slug") (sc_devices d)
            ∧ resolves (ids_in ts "metros" "title") (sc_metros d)
            ∧ resolves (ids_in ts "advantages" "title") (sc_advantages d)
            ∧ resolves (ids_in ts "features" "title") (sc_features d))
    as Hres.
  { intros slug d (sc & _ & Hd).
    destruct (Hfacts _ _ Hd) as (Hm & Ha & Hf).
    pose proof (Hcats _ _ brands_t Hd) as Hb.
    pose proof (Hcats _ _ devices_t Hd) as Hdv.
    cbn in Hb, Hdv.
    repeat split; intros key Hkey;
      [apply HB|apply HD|apply HM|apply HA|apply HF]; set_solver. }
  destruct (insert_opening_hours_stage st Hvalid sc_ids)
    as (R1 & Hs1 & Hk1 & He1).
  destruct (insert_gallery_images_stage st Hvalid sc_ids)
    as (R2 & Hs2 & Hk2 & He2).
  destruct (insert_services_stage st (ids_in ts "devices" "slug") Hkeys HD)
    as (css3 & Hs3 & Hk3).
  destruct (insert_locations_stage st Hvalid sc_ids
              (ids_in ts "metros" "title")) as (R4 & Hs4 & Hk4 & He4).
  destruct (junction_stage st Hvalid sc_ids "brand_service_center"
              "brand_id" "brands" "slug" sc_brands
              (ids_in ts "brands" "slug"))
    as (R5 & Hs5 & Hc5 & He5 & Hm5);
    [by repeat first [apply list_elem_of_here|apply list_elem_of_further]
    |intros ? ? Hreg; apply (Hres _ _ Hreg)|].
  destruct (junction_stage st Hvalid sc_ids "device_service_center"
              "device_id" "devices" "slug" sc_devices
              (ids_in ts "devices" "slug"))
    as (R6 & Hs6 & Hc6 & He6 & Hm6);
    [by repeat first [apply list_elem_of_here|apply list_elem_of_further]
    |intros ? ? Hreg; apply (Hres _ _ Hreg)|].
  destruct (junction_stage st Hvalid sc_ids "metro_service_center"
              "metro_id" "metros" "title" sc_metros
              (ids_in ts "metros" "title"))
    as (R7 & Hs7 & Hc7 & He7 & _);
    [by repeat first [apply list_elem_of_here|apply list_elem_of_further]
    |intros ? ? Hreg; apply (Hres _ _ Hreg)|].
  destruct (insert_devices_brands_stage st (ids_in ts "brands" "slug")
              (ids_in ts "devices" "slug") Hkeys Hlinked HB HD)
    as (css8 & Hs8 & Hk8).
  destruct (junction_stage st Hvalid sc_ids "advantage_service_center"
              "advantage_id" "advantages" "title" sc_advantages
              (ids_in ts "advantages" "title"))
    as (R9 & Hs9 & Hc9 & He9 & _);
    [by repeat first [apply list_elem_of_here|apply list_elem_of_further]
    |intros ? ? Hreg; apply (Hres _ _ Hreg)|].
  destruct (junction_stage st Hvalid sc_ids "feature_service_center"
              "feature_id" "features" "title" sc_features
              (ids_in ts "features" "title"))
    as (R10 & Hs10 & Hc10 & He10 & _);
    [by repeat first [apply list_elem_of_here|apply list_elem_of_further]
    |intros ? ? Hreg; apply (Hres _ _ Hreg)|].
  exists [R1; R2; Ok css3; R4; R5; R6; R7; Ok css8; R9; R10].
  split; [done|]. unfold relationship_stages. cbn [zip zip_with].
  fold sc_ids. split; [|split].
  - repeat apply Forall_cons_2; try apply Forall_nil_2; cbn [fst snd].
    + split; [exact Hs1|]. split; [exact Hk1|exact He1].
    + split; [exact Hs2|]. split; [exact Hk2|exact He2].
    + split; [exact Hs3|]. split; [by intros ? [= <-]|done].
    + split; [exact Hs4|]. split; [exact Hk4|exact He4].
    + split; [exact Hs5|]. split; [|exact He5].
      intros css Hcss. by apply Hc5.
    + split; [exact Hs6|]. split; [|exact He6].
      intros css Hcss. by apply Hc6.
    + split; [exact Hs7|]. split; [|exact He7].
      intros css Hcss. by apply Hc7.
    + split; [exact Hs8|]. split; [by intros ? [= <-]|done].
    + split; [exact Hs9|]. split; [|exact He9].
      intros css Hcss. by apply Hc9.
    + split; [exact Hs10|]. split; [|exact He10].
      intros css Hcss. by apply Hc10.
  - intros ts' Hsettled Hall.
    repeat (apply Forall_cons in Hsettled as [? Hsettled]).
    repeat (apply Forall_cons in Hall as [[? ?] Hall]).
    cbn [fst snd] in *.
    intros t id_column entity field keys slug d key sid id Hin Hreg Hkey
      Hsid Hid.
    pose proof Hin as Hin'. unfold sc_junctions in Hin'.
    repeat (apply elem_of_cons in Hin' as [Hin'|Hin'];
            [inversion Hin'; subst;
             eapply junction_stored; [exact Hin|eauto|];
             first [eapply Hc5|eapply Hc6|eapply Hc7|eapply Hc9
                   |eapply Hc10]; eauto|]).
    by apply elem_of_nil in Hin'.
  - intros slug d Hreg Hne Hnone.
    destruct (decide (sc_brands d = ∅)) as [Hb|Hb].
    + destruct (Hm6 slug d Hreg) as [e He]; [|done|].
      { intros Hd. apply Hne. by rewrite Hb, Hd, (left_id_L ∅ (∪)). }
      do 5 apply Exists_cons_tl. apply Exists_cons_hd. by exists e.
    + destruct (Hm5 slug d Hreg Hb Hnone) as [e He].
      do 4 apply Exists_cons_tl. apply Exists_cons_hd. by exists e.
Qed.

(** ** Complete runs of [insert_data] *)

Lemma insert_all_ignore_new def css rows r :
  r ∈ insert_all_ignore def css rows →
  r ∈ rows ∨ (cells r ∈ css ∧ violates_not_null def (cells r) = false).
Proof.
  revert rows. induction css as [|cs css IH]; intros rows; [by left|].
  rewrite insert_all_ignore_cons.
  destruct (violates_not_null def cs) eqn:Hnn; cbn [orb].
  - intros Hr. destruct (IH _ Hr) as [?|[? ?]]; [by left|].
    right. split; [by right|done].
  - destruct (violates_unique def cs rows).
    + intros Hr. destruct (IH _ Hr) as [?|[? ?]]; [by left|].
      right. split; [by right|done].
    + intros Hr. destruct (IH _ Hr) as [Hin|[? ?]].
      * apply elem_of_app in Hin as [Hin|Hin]; [by left|].
        apply list_elem_of_singleton in Hin as ->. right. cbn.
        split; [by left|done].
      * right. split; [by right|done].
Qed.

Lemma rows_in_lookup (ts ts' : gmap string Table) t :
  ts' !! t = ts !! t → rows_in ts' t = rows_in ts t.
Proof. intros Heq. unfold rows_in. by rewrite Heq. Qed.

Lemma rows_in_with_schema ts t : rows_in (with_schema ts) t = rows_in ts t.
Proof.
  unfold rows_in. rewrite with_schema_lookup.
  destruct (ts !! t); [done|]. by case_bool_decide.
Qed.

Lemma entity_stages_tables st csss :
  length csss = 5%nat →
  map (fun s : DbM unit * string * list (list (string * value)) => s.1.2)
      (entity_stages st csss)
  = ["brands"; "devices"; "metros"; "advantages"; "features"].
Proof.
  intros Hlen. by do 6 (destruct csss as [|? csss]; try done).
Qed.

Lemma entity_stages_keyed st csss :
  length csss = 5%nat →
  Forall (fun s : DbM unit * string * list (list (string * value)) =>
            s.1.2 ∈ schema_tables
            ∧ Forall (fun cs => keyed (def_of s.1.2) cs = true) s.2)
         (entity_stages st csss).
Proof.
  intros Hlen. do 6 (destruct csss as [|? csss]; try done).
  unfold entity_stages. cbn [zip zip_with].
  repeat apply Forall_cons_2; try apply Forall_nil_2; cbn [fst snd];
    (split; [by apply in_schema_tables|by apply keyed_all]).
Qed.

Lemma relationship_stages_tables st ts :
  map snd (relationship_stages st ts) = relationship_names.
Proof. reflexivity. Qed.

(** The keys read back depend on the rows of six tables only. *)
Lemma relationship_stages_ext st ts ts' :
  (∀ t, t ∈ entity_tables → rows_in ts' t = rows_in ts t) →
  relationship_stages st ts' = relationship_stages st ts.
Proof.
  intros Hrows. unfold relationship_stages, ids_in.
  rewrite !Hrows; [done|..]; unfold entity_tables;
    by repeat first [apply list_elem_of_here|apply list_elem_of_further].
Qed.

Lemma entity_not_relationship t :
  t ∈ entity_tables → t ∉ relationship_names.
Proof.
  intros Hin Hn. apply list_elem_of_In in Hin, Hn. cbn in Hin, Hn.
  intuition (subst; discriminate).
Qed.

Lemma all_ok {A} (Rs : list (result A)) :
  Forall (fun R => ∃ a, R = Ok a) Rs → ∃ l, Rs = Ok <$> l.
Proof.
  induction 1 as [|R Rs [a ->] _ [l ->]]; [by exists []|].
  by exists (a :: l).
Qed.

Lemma Forall_zip_Ok {A B} (P : A * result B → Prop) (fns : list A)
  (l : list B) :
  Forall P (zip fns (Ok <$> l)) ↔
  Forall (fun s => P (s.1, Ok s.2)) (zip fns l).
Proof.
  revert l. induction fns as [|x fns IH]; intros [|y l]; cbn; try done.
  rewrite !Forall_cons. by rewrite IH.
Qed.

Lemma service_centers_held st cssS ts :
  registry_valid st → registry_linked st →
  (∀ cs, cs ∈ cssS ↔ ∃ slug d, registered_center st slug d
                                ∧ cs = service_center_cells d) →
  settled "service_centers" cssS ts →
  ∀ slug d, registered_center st slug d →
    is_Some (sc_title d) → is_Some (sc_phone d) →
    ∃ r, r ∈ rows_in ts "service_centers"
         ∧ cell (cells r) "slug" = VText slug.
Proof.
  intros Hvalid [Hlinked _] HcssS Hsettled slug d Hreg Htitle Hphone.
  assert (sc_slug d = slug) as Hslug.
  { destruct Hreg as (sc & Hsc & Hd).
    destruct (Hlinked _ _ Hsc) as (d' & Hd' & Hslug).
    assert (Some d' = Some d) as [= ->] by exact (eq_trans (eq_sym Hd') Hd).
    done. }
  destruct (settled_row "service_centers" cssS ts (service_center_cells d)
              Hsettled) as (u & r & Hu & Hr & Hkeys & _).
  { apply HcssS. by exists slug, d. }
  { by apply service_center_not_null. }
  change (t_uniques (def_of "service_centers")) with [["slug"]] in Hu.
  apply list_elem_of_singleton in Hu as ->.
  exists r. split; [done|]. cbn in Hkeys. rewrite <- Hslug. congruence.
Qed.

Lemma insert_data_run st ts :
  registries_consistent st → centers_complete st → compatible ts →
  ∃ csss cssS csssR db,
    let stored :=
      write "service_centers" cssS
        (fold_left (fun ts s => write s.1.2 s.2 ts) (entity_stages st csss)
           (with_schema ts)) in
    let stages := zip (relationship_stages st stored) csssR in
    length csss = 5%nat
    ∧ Forall (fun s => stage_spec s.1.1 s.1.2 (Ok s.2))
             (entity_stages st csss)
    ∧ stage_spec (insert_service_centers st) "service_centers" (Ok cssS)
    ∧ length csssR = 10%nat
    ∧ Forall (fun s => stage_spec s.1.1 s.1.2 (Ok s.2)) stages
    ∧ insert_data st (connect ts) = (Ok tt, db)
    ∧ tables db = fold_left (fun ts s => write s.1.2 s.2 ts) stages stored
    ∧ durable db = tables db
    ∧ conforms (tables db)
    ∧ Forall (fun s => settled s.1.2 s.2 (tables db)) (entity_stages st csss)
    ∧ settled "service_centers" cssS (tables db)
    ∧ Forall (fun s => settled s.1.2 s.2 (tables db)) stages
    ∧ holds (tables db) "service_centers" "slug" (dom (service_centers st))
    ∧ (∀ t id_column entity field keys slug d key,
         (t, id_column, entity, field, keys) ∈ sc_junctions →
         registered_center st slug d → key ∈ keys d →
         related_in (tables db) t id_column entity field slug key)
    ∧ (holds (tables db) "brands" "slug" (dom (brands st))
       ∧ holds (tables db) "devices" "slug" (dom (devices st))
       ∧ holds (tables db) "metros" "title" (dom (metros st))
       ∧ holds (tables db) "advantages" "title" (dom (advantages st))
       ∧ holds (tables db) "features" "title" (dom (features st)))
    ∧ (∀ t, ∃ more, rows_in (tables db) t = (rows_in ts t ++ more)%list).
Proof.
  intros Hcons Hcomplete Hcomp.
  pose proof Hcons as (Hvalid & Hfacts & Hcats & Hkeys & Hlinked).
  destruct (entity_stages_exist st Hvalid Hkeys)
    as (csss & cssS & Hlen & HspecE & HspecS & HholdsE & HcssS).
  destruct (entities_run st ts csss cssS Hcomp Hlen HspecE HspecS)
    as (dbE & HrunE & HtE & HdE & HconfE).
  set (stored := write "service_centers" cssS
                   (fold_left (fun ts s => write s.1.2 s.2 ts)
                      (entity_stages st csss) (with_schema ts))) in *.
  (* the tables without a reference hold the registries *)
  assert (conforms (with_schema ts)) as HconfA
    by by apply with_schema_conforms.
  assert (Forall (fun s => settled s.1.2 s.2 stored) (entity_stages st csss))
    as HsettledE.
  { eapply Forall_impl.
    - apply fold_write_settles; [exact HconfA|].
      by apply entity_stages_keyed.
    - intros s Hs. by apply settled_write. }
  assert (settled "service_centers" cssS stored) as HsettledS.
  { apply write_settles; [by apply fold_write_conforms| |].
    - by apply in_schema_tables.
    - by apply keyed_all. }
  destruct (HholdsE _ HsettledE) as (HB & HD & HM & HA & HF).
  assert (holds stored "service_centers" "slug" (dom (service_centers st)))
    as HS.
  { intros slug Hslug. apply elem_of_dom in Hslug as [sc Hsc].
    destruct (Hvalid _ _ Hsc) as [d Hd].
    assert (registered_center st slug d) as Hreg by by exists sc.
    destruct (Hcomplete _ _ Hreg) as [Htitle Hphone].
    by eapply service_centers_held. }
  (* the keys are read back *)
  destruct (read_ids_run st dbE HconfE) as (dbF & HtF & HdF & HrunF).
  rewrite HtE in HrunF.
  destruct (relationship_stages_exist st stored Hcons HB HD HM HA HF)
    as (Rs & HlenR & HspecR & Hjunctions & _).
  assert (Forall (fun R => ∃ css, R = Ok css) Rs) as Hall.
  { assert (Forall (fun s : DbM unit * string
                            * result (list (list (string * value))) =>
                      ∃ css, s.2 = Ok css)
                   (zip (relationship_stages st stored) Rs)) as Hzip.
    { eapply Forall_impl; [exact HspecR|]. intros [[m t] [css|e]];
        [by exists css|].
      intros (_ & _ & He). destruct (He e eq_refl) as (slug & d & Hreg & Hnone & _).
      exfalso. destruct (holds_resolves _ _ _ _ HS slug) as [id Hid].
      - destruct Hreg as (sc & Hsc & _). by apply elem_of_dom.
      - unfold ids_in in Hnone. congruence. }
    clear -Hzip HlenR. unfold relationship_stages in Hzip.
    do 11 (destruct Rs as [|? Rs]; try done).
    cbn [zip zip_with] in Hzip.
    repeat (apply Forall_cons in Hzip as [? Hzip]).
    cbn [snd] in *. by repeat apply Forall_cons_2. }
  apply all_ok in Hall as [csssR ->].
  rewrite length_fmap in HlenR.
  set (stages := zip (relationship_stages st stored) csssR).
  assert (Forall (fun s => stage_spec s.1.1 s.1.2 (Ok s.2)) stages) as HspecR'.
  { apply Forall_zip_Ok in HspecR. eapply Forall_impl; [exact HspecR|].
    by intros s (? & _). }
  assert (Forall (fun s => s.1.2 ∈ schema_tables
                           ∧ Forall (fun cs => keyed (def_of s.1.2) cs = true)
                                    s.2) stages) as HkeyedR.
  { apply Forall_zip_Ok in HspecR.
    assert (Forall (fun s : DbM unit * string => s.2 ∈ schema_tables)
                   (relationship_stages st stored)) as Hnames.
    { unfold relationship_stages.
      repeat apply Forall_cons_2; try apply Forall_nil_2;
        by apply in_schema_tables. }
    subst stages. clear -HspecR Hnames. revert csssR HspecR.
    induction Hnames as [|[m t] fns Ht _ IH]; intros [|css csssR] Hspec;
      cbn [zip zip_with] in *; try apply Forall_nil_2.
    apply Forall_cons in Hspec as [(_ & Hk & _) Hspec].
    apply Forall_cons_2; [|by apply IH]. split; [done|]. by apply Hk. }
  assert (conforms (tables dbF)) as HconfF by (by rewrite HtF).
  destruct (then_stages_ok stages dbF HspecR' HconfF)
    as (dbG & HrunG & HtG & HdG & HconfG).
  assert (map (fun s : DbM unit * string * list (list (string * value)) =>
                 s.1.1) stages
          = map fst (relationship_stages st stored)) as Hfns.
  { subst stages. clear -HlenR. unfold relationship_stages.
    by do 11 (destruct csssR as [|? csssR]; try done). }
  rewrite Hfns in HrunG. rewrite HtF, HtE in HtG.
  exists csss, cssS, csssR, (committed dbG).
  cbn zeta. fold stored. fold stages.
  assert (Forall (fun s => settled s.1.2 s.2 (tables dbG)) stages)
    as HsettledR.
  { rewrite HtG. apply fold_write_settles; [|done]. rewrite <- HtE.
    exact HconfE. }
  assert (∀ t, ∃ more, rows_in (tables dbG) t = (rows_in stored t ++ more)%list)
    as Hgrows.
  { intros t. rewrite HtG. apply fold_write_rows_in. }
  split; [done|]. split; [done|]. split; [done|]. split; [done|].
  split; [done|]. split.
  { unfold insert_data. by rewrite HrunE, HrunF, HrunG. }
  split; [done|]. split; [done|]. split; [done|]. split.
  { cbn [committed tables]. rewrite HtG. eapply Forall_impl; [exact HsettledE|].
    intros s Hs. by apply fold_write_settled_keeps. }
  split.
  { cbn [committed tables]. rewrite HtG.
    by apply fold_write_settled_keeps. }
  split; [done|]. split.
  { cbn [committed tables]. by eapply holds_grows. }
  split; [|split].
  2:{ cbn [committed tables].
      repeat split; (eapply holds_grows; [apply Hgrows|done]). }
  2:{ intros t. cbn [committed tables].
      destruct (Hgrows t) as [more ->]. subst stored.
      destruct (write_rows_in "service_centers" cssS
                  (fold_left (fun ts s => write s.1.2 s.2 ts)
                     (entity_stages st csss) (with_schema ts)) t)
        as [more1 ->].
      destruct (fold_write_rows_in (entity_stages st csss) (with_schema ts)
                  t) as [more2 ->].
      rewrite rows_in_with_schema. eexists. by rewrite <- !app_assoc. }
  intros t id_column entity field keys slug d key Hin Hreg Hkey.
  cbn [committed tables].
  (* the row of the service center *)
  destruct (holds_resolves _ _ _ _ HS slug) as [sid Hsid].
  { destruct Hreg as (sc & Hsc & _). by apply elem_of_dom. }
  destruct (ids_of_rows_Some _ _ _ _ Hsid) as (rs & Hrs & Hrs_slug & Hrs_id).
  (* the row of the other key *)
  assert (holds stored entity field (keys d)) as Hentity.
  { destruct Hreg as (sc & _ & Hd).
    destruct Hcats as [_ Hcats].
    destruct (Hfacts _ _ Hd) as (Hm & Ha & Hf).
    pose proof (Hcats _ _ brands_t Hd) as Hb.
    pose proof (Hcats _ _ devices_t Hd) as Hdv. cbn in Hb, Hdv.
    unfold sc_junctions in Hin.
    repeat (apply elem_of_cons in Hin as [Hin|Hin];
            [inversion Hin; subst; intros k Hk;
             first [by apply HB, Hb|by apply HD, Hdv|by apply HM, Hm
                   |by apply HA, Ha|by apply HF, Hf]|]).
    by apply elem_of_nil in Hin. }
  destruct (holds_resolves _ _ _ _ Hentity key Hkey) as [id Hid].
  destruct (ids_of_rows_Some _ _ _ _ Hid) as (re & Hre & Hre_key & Hre_id).
  destruct (Hjunctions (tables dbG)) with (t := t) (id_column := id_column)
    (entity := entity) (field := field) (keys := keys) (slug := slug)
    (d := d) (key := key) (sid := sid) (id := id)
    as (rj & Hrj & Hrj_id & Hrj_sid); try done.
  { apply Forall_zip_Ok. eapply Forall_impl; [exact HsettledR|].
    intros s Hs css [= <-]. exact Hs. }
  { clear. induction csssR; constructor; eauto. }
  exists rs, re, rj.
  destruct (Hgrows "service_centers") as [more1 Hmore1].
  destruct (Hgrows entity) as [more2 Hmore2].
  split; [rewrite Hmore1; apply elem_of_app; by left|]. split; [done|].
  split; [rewrite Hmore2; apply elem_of_app; by left|]. split; [done|].
  split; [done|]. by rewrite Hre_id, Hrs_id.
Qed.

Section CrawlThenStore.

Variable slugify : string → string.
Variable fetch : nat → string → DetailPage.
Variable stored_name : string → string.

Lemma run_ops_consistent (ops : list crawl_op) :
  run_as_in_source slugify fetch stored_name ops initial_state →
  registries_consistent (run_ops slugify fetch stored_name ops initial_state).
Proof.
  intros Hops.
  destruct initial_state_consistent as (Hf & Hc & Hk & Hl).
  assert (registry_linked
            (run_ops slugify fetch stored_name ops initial_state))
    as Hlinked by by apply linked_run_ops.
  split; [|split; [|split; [|split]]].
  - intros slug sc Hsc. destruct Hlinked as [Hsc' _].
    destruct (Hsc' _ _ Hsc) as (d & Hd & _). eauto.
  - apply run_ops_invariant; [apply facts_run_op|done].
  - apply run_ops_invariant; [apply categories_run_op|done].
  - apply run_ops_invariant; [apply keys_run_op|done].
  - done.
Qed.

(** X17. What the crawl registers is what the store holds afterwards.
    For every run of the crawl whose service centers all have a title and
    a phone, on a new database file or on one that holds tables of
    [create_schema], [insert_data] returns, with everything committed and
    no row that was there lost; each registered service center, brand,
    device, metro, advantage and feature has a row under its slug or
    title; and for each brand, device, metro, advantage and feature of a
    service center, the junction table has a row with the keys of the rows
    of the two. *)
Theorem crawl_is_stored (ops : list crawl_op) (ts : gmap string Table) :
  let st := run_ops slugify fetch stored_name ops initial_state in
  run_as_in_source slugify fetch stored_name ops initial_state →
  centers_complete st →
  compatible ts →
  ∃ db,
    insert_data st (connect ts) = (Ok tt, db)
    ∧ durable db = tables db
    ∧ conforms (tables db)
    ∧ (∀ t, ∃ more, rows_in (tables db) t = (rows_in ts t ++ more)%list)
    ∧ holds (tables db) "service_centers" "slug" (dom (service_centers st))
    ∧ holds (tables db) "brands" "slug" (dom (brands st))
    ∧ holds (tables db) "devices" "slug" (dom (devices st))
    ∧ holds (tables db) "metros" "title" (dom (metros st))
    ∧ holds (tables db) "advantages" "title" (dom (advantages st))
    ∧ holds (tables db) "features" "title" (dom (features st))
    ∧ ∀ t id_column entity field keys slug d key,
        (t, id_column, entity, field, keys) ∈ sc_junctions →
        registered_center st slug d → key ∈ keys d →
        related_in (tables db) t id_column entity field slug key.
Proof.
  intros st Hops Hcomplete Hcomp.
  destruct (insert_data_run st ts) as (csss & cssS & csssR & db & Hrun);
    [by apply run_ops_consistent|done|done|].
  cbn zeta in Hrun.
  destruct Hrun as (_ & _ & _ & _ & _ & Hrun & _ & Hd & Hconf & _ & _ & _
                    & HS & Hrelated & (HB & HD & HM & HA & HF) & Hgrows).
  exists db. do 10 (split; [done|]). exact Hrelated.
Qed.

End CrawlThenStore.

(** X18. Running [insert_data] a second time on the same registries
    changes nothing: with consistent registries whose service centers all
    have a title and a phone, the second run on the database file that
    the first has left returns as well, and leaves every table as it
    was. *)
Theorem insert_data_twice (st : State) (ts : gmap string Table) :
  registries_consistent st → centers_complete st → compatible ts →
  ∃ db1 db2,
    insert_data st (connect ts) = (Ok tt, db1)
    ∧ insert_data st (connect (durable db1)) = (Ok tt, db2)
    ∧ tables db2 = tables db1
    ∧ durable db2 = durable db1.
Proof.
  intros Hcons Hcomplete Hcomp.
  destruct (insert_data_run st ts Hcons Hcomplete Hcomp)
    as (csss & cssS & csssR & db1 & Hrun).
  cbn zeta in Hrun.
  destruct Hrun as (Hlen & HspecE & HspecS & HlenR & HspecR & Hrun1 & Ht1
                    & Hd1 & Hconf1 & HsettledE & HsettledS & HsettledR & _).
  set (stored := write "service_centers" cssS
                   (fold_left (fun ts s => write s.1.2 s.2 ts)
                      (entity_stages st csss) (with_schema ts))) in *.
  set (stages := zip (relationship_stages st stored) csssR) in *.
  exists db1. rewrite Hd1.
  assert (compatible (tables db1)) as Hcomp1.
  { intros t tb Hin Htb. destruct (Hconf1 t Hin) as [rows Hrows].
    unfold table_rows in Hrows. rewrite Hrows in Htb.
    by injection Htb as <-. }
  (* the tables without a reference and the service centers *)
  destruct (entities_run st (tables db1) csss cssS Hcomp1 Hlen HspecE HspecS)
    as (dbE & HrunE & HtE & HdE & HconfE).
  rewrite with_schema_conforming in HtE by done.
  rewrite (fold_write_unchanged _ _ HsettledE) in HtE.
  rewrite (settled_unchanged _ _ _ HsettledS) in HtE.
  (* the keys read back are those of the first run *)
  destruct (read_ids_run st dbE HconfE) as (dbF & HtF & HdF & HrunF).
  rewrite HtE in HrunF, HtF.
  assert (map (fun s : DbM unit * string * list (list (string * value)) =>
                 s.1.2) stages = relationship_names
          ∧ map (fun s : DbM unit * string * list (list (string * value)) =>
                   s.1.1) stages
            = map fst (relationship_stages st stored)) as [Hnames Hfns].
  { subst stages. clear -HlenR. unfold relationship_stages.
    by do 11 (destruct csssR as [|? csssR]; try done). }
  rewrite (relationship_stages_ext st stored (tables db1)) in HrunF.
  2:{ intros t Hin. unfold rows_in. rewrite Ht1.
      rewrite fold_write_lookup_ne; [done|]. rewrite Hnames.
      by apply entity_not_relationship. }
  (* the relationships *)
  assert (conforms (tables dbF)) as HconfF by (by rewrite HtF).
  destruct (then_stages_ok stages dbF HspecR HconfF)
    as (dbG & HrunG & HtG & HdG & HconfG).
  rewrite Hfns in HrunG. rewrite HtF in HtG.
  rewrite (fold_write_unchanged _ _ HsettledR) in HtG.
  exists (committed dbG). split; [done|]. split.
  { unfold insert_data. by rewrite HrunE, HrunF, HrunG. }
  split; [done|]. cbn [committed durable]. congruence.
Qed.

(** ** A service center without a title or a phone *)

Lemma registered_center_slug st slug d :
  registry_linked st → registered_center st slug d → sc_slug d = slug.
Proof.
  intros [Hlinked _] (sc & Hsc & Hd).
  destruct (Hlinked _ _ Hsc) as (d' & Hd' & Hslug).
  assert (Some d' = Some d) as [= ->] by exact (eq_trans (eq_sym Hd') Hd).
  done.
Qed.

Lemma registered_center_unique st slug d d' :
  registered_center st slug d → registered_center st slug d' → d' = d.
Proof.
  intros (sc & Hsc & Hd) (sc' & Hsc' & Hd').
  assert (sc' = sc) as -> by congruence.
  assert (Some d' = Some d) as [= ->] by exact (eq_trans (eq_sym Hd') Hd).
  done.
Qed.

(** X19. A registered service center whose page gave no title or no
    phone stops [insert_data].  Its row is turned away by the NOT NULL
    columns without an error, so that no key is read back for it, and the
    first relationship that refers to such a service center raises
    [KeyError] with its slug.  The tables without a reference and the
    service centers with a title and a phone are durable by then; of the
    relationships of this run, no row is. *)
Theorem center_without_title_stops_insert_data (st : State)
  (ts : gmap string Table) (slug : string) (d : ServiceCenter) :
  registries_consistent st → compatible ts →
  registered_center st slug d →
  sc_title d = None ∨ sc_phone d = None →
  sc_brands d ∪ sc_devices d ≠ ∅ →
  (∀ r, r ∈ rows_in ts "service_centers" →
     cell (cells r) "slug" ≠ VText slug) →
  ∃ slug' d' db,
    insert_data st (connect ts) = (Raise (KeyError slug'), db)
    ∧ registered_center st slug' d'
    ∧ (sc_title d' = None ∨ sc_phone d' = None)
    ∧ holds (durable db) "brands" "slug" (dom (brands st))
    ∧ holds (durable db) "devices" "slug" (dom (devices st))
    ∧ holds (durable db) "metros" "title" (dom (metros st))
    ∧ holds (durable db) "advantages" "title" (dom (advantages st))
    ∧ holds (durable db) "features" "title" (dom (features st))
    ∧ (∀ slug1 d1, registered_center st slug1 d1 →
         is_Some (sc_title d1) → is_Some (sc_phone d1) →
         ∃ r, r ∈ rows_in (durable db) "service_centers"
              ∧ cell (cells r) "slug" = VText slug1)
    ∧ ∀ t, t ∈ relationship_names →
        rows_in (durable db) t = rows_in ts t.
Proof.
  intros Hcons Hcomp Hreg Hbad Hkeys_ne Hnew.
  pose proof Hcons as (Hvalid & Hfacts & Hcats & Hkeys & Hlinked).
  destruct (entity_stages_exist st Hvalid Hkeys)
    as (csss & cssS & Hlen & HspecE & HspecS & HholdsE & HcssS).
  destruct (entities_run st ts csss cssS Hcomp Hlen HspecE HspecS)
    as (dbE & HrunE & HtE & HdE & HconfE).
  set (entities := fold_left (fun ts s => write s.1.2 s.2 ts)
                     (entity_stages st csss) (with_schema ts)) in *.
  set (stored := write "service_centers" cssS entities) in *.
  assert (conforms (with_schema ts)) as HconfA
    by by apply with_schema_conforms.
  assert (conforms entities) as Hconf5 by by apply fold_write_conforms.
  assert (Forall (fun s => settled s.1.2 s.2 stored) (entity_stages st csss))
    as HsettledE.
  { eapply Forall_impl.
    - apply fold_write_settles; [exact HconfA|].
      by apply entity_stages_keyed.
    - intros s Hs. by apply settled_write. }
  assert (settled "service_centers" cssS stored) as HsettledS.
  { apply write_settles; [done| |].
    - by apply in_schema_tables.
    - by apply keyed_all. }
  destruct (HholdsE _ HsettledE) as (HB & HD & HM & HA & HF).
  set (sc_ids := ids_in stored "service_centers" "slug").
  (* a service center has a key exactly when it has a title and a phone *)
  assert (∀ slug1 d1, registered_center st slug1 d1 →
            is_Some (sc_title d1) → is_Some (sc_phone d1) →
            ∃ r, r ∈ rows_in stored "service_centers"
                 ∧ cell (cells r) "slug" = VText slug1) as Hheld.
  { by apply (service_centers_held st cssS stored). }
  assert (sc_ids !! VText slug = None) as Hnone.
  { destruct (sc_ids !! VText slug) as [id|] eqn:Hid; [exfalso|done].
    apply ids_of_rows_Some in Hid as (r & Hr & Hslug & _).
    destruct (Hconf5 "service_centers") as [rows0 Hrows0];
      [by apply in_schema_tables|].
    assert (rows_in stored "service_centers"
            = insert_all_ignore (def_of "service_centers") cssS rows0)
      as Hrows.
    { unfold rows_in, stored.
      by rewrite (write_table_rows _ _ _ _ Hrows0). }
    assert (rows0 = rows_in ts "service_centers") as Hrows0'.
    { rewrite <- rows_in_with_schema. unfold rows_in at 1.
      rewrite <- (fold_write_lookup_ne (entity_stages st csss)).
      - fold entities. by rewrite Hrows0.
      - rewrite entity_stages_tables by done.
        intros Hin. apply list_elem_of_In in Hin. cbn in Hin.
        intuition discriminate. }
    rewrite Hrows in Hr.
    apply insert_all_ignore_new in Hr as [Hr|[Hr Hnn]].
    - rewrite Hrows0' in Hr. by apply (Hnew r).
    - apply HcssS in Hr as (slug1 & d1 & Hreg1 & Hcells).
      rewrite Hcells in Hslug, Hnn. cbn in Hslug.
      rewrite (registered_center_slug _ _ _ Hlinked Hreg1) in Hslug.
      injection Hslug as ->.
      rewrite (registered_center_unique _ _ _ _ Hreg Hreg1) in Hnn.
      apply service_center_not_null in Hnn as [[? Ht] [? Hp]].
      destruct Hbad; congruence. }
  (* the keys are read back, and a relationship raises *)
  destruct (read_ids_run st dbE HconfE) as (dbF & HtF & HdF & HrunF).
  rewrite HtE in HrunF.
  destruct (relationship_stages_exist st stored Hcons HB HD HM HA HF)
    as (Rs & HlenR & HspecR & _ & Hmust).
  specialize (Hmust slug d Hreg Hkeys_ne Hnone).
  set (stages := zip (relationship_stages st stored) Rs) in *.
  assert (conforms (tables dbF)) as HconfF by (by rewrite HtF).
  destruct (then_stages_outcome stages dbF) as (db & Hd & _ & _ & Hout);
    [|done|].
  { eapply Forall_impl; [exact HspecR|]. by intros s (? & _). }
  assert (map (fun s : DbM unit * string
                       * result (list (list (string * value))) => s.1.1)
              stages
          = map fst (relationship_stages st stored)
          ∧ map (fun s : DbM unit * string
                         * result (list (list (string * value))) => s.2)
                stages = Rs) as [Hfns HRs].
  { subst stages. clear -HlenR. unfold relationship_stages.
    by do 11 (destruct Rs as [|? Rs]; try done). }
  rewrite Hfns in Hout.
  destruct Hout as [[Hall _]|(e & Hex & Hrun)].
  { exfalso. apply Exists_exists in Hmust as (R & HR & e & ->).
    rewrite <- HRs in HR. apply list_elem_of_fmap in HR as (s & Hs & Hin).
    rewrite Forall_forall in Hall.
    destruct (Hall s Hin) as [css Hcss]. congruence. }
  apply Exists_exists in Hex as (s & Hs & He).
  rewrite Forall_forall in HspecR.
  destruct (HspecR s Hs) as (_ & _ & Hmissing).
  destruct (Hmissing e He) as (slug' & d' & Hreg' & Hnone' & ->).
  exists slug', d', db. split.
  { unfold insert_data. by rewrite HrunE, HrunF, Hrun. }
  split; [done|]. split.
  { destruct (sc_title d') as [title|] eqn:Htitle; [|by left].
    destruct (sc_phone d') as [phone|] eqn:Hphone; [|by right].
    exfalso. destruct (Hheld slug' d' Hreg') as (r & Hr & Hslug).
    { rewrite Htitle. eauto. }
    { rewrite Hphone. eauto. }
    destruct (ids_of_rows_is_Some "slug" _ r Hr) as [id Hid].
    rewrite Hslug in Hid. fold (ids_in stored "service_centers" "slug") in Hid.
    congruence. }
  assert (durable db = stored) as -> by congruence.
  do 5 (split; [done|]). split; [done|].
  intros t Ht. rewrite <- (rows_in_with_schema ts t).
  apply rows_in_lookup. unfold stored. rewrite write_lookup_ne.
  2:{ intros <-. apply list_elem_of_In in Ht. cbn in Ht.
      intuition discriminate. }
  unfold entities. apply fold_write_lookup_ne.
  rewrite entity_stages_tables by done. intros Hin. clear -Hin Ht.
  apply list_elem_of_In in Hin, Ht. cbn in Hin, Ht.
    intuition (subst; discriminate).
Qed.

(** ** The functions of the store, one by one *)

(** X20. [create_schema] only adds: it raises nothing, a table that the
    database holds stays as it is, with its rows and its declaration, each
    table of the sixteen that is missing is there afterwards, empty and as
    declared, and no other table appears.  A second call changes
    nothing. *)
Theorem create_schema_only_adds (db : Db) :
  ∃ db',
    create_schema db = (Ok tt, db')
    ∧ (∀ t tb, tables db !! t = Some tb → tables db' !! t = Some tb)
    ∧ (∀ t, tables db !! t = None →
         tables db' !! t
         = if bool_decide (t ∈ schema_tables)
           then Some {| t_def := def_of t; t_rows := [] |}
           else None)
    ∧ length schema_tables = 16%nat
    ∧ (in_transaction db = false → durable db = tables db →
       durable db' = tables db')
    ∧ ∃ db'', create_schema db' = (Ok tt, db'')
               ∧ tables db'' = tables db'.
Proof.
  destruct (create_schema_run db) as (db' & Hrun & Ht & Hd & Htx).
  exists db'. split; [done|]. split; [|split; [|split; [done|split]]].
  - intros t tb Htb. by rewrite Ht, Htb.
  - intros t Hnone. by rewrite Ht, Hnone.
  - intros Hfalse Heq. apply map_eq. intros t.
    by rewrite Hd, Ht, Hfalse, Heq.
  - destruct (create_schema_run db') as (db'' & Hrun' & Ht' & _).
    exists db''. split; [done|]. apply map_eq. intros t. rewrite Ht'.
    destruct (tables db' !! t) as [tb|] eqn:Htb; [done|].
    rewrite Ht in Htb. destruct (tables db !! t); [done|].
    by destruct (bool_decide _).
Qed.


Lemma insert_all_ignore_more def css rows :
  ∃ more,
    insert_all_ignore def css rows = (rows ++ more)%list
    ∧ Forall (fun r => cells r ∈ css
                       ∧ violates_not_null def (cells r) = false) more.
Proof.
  revert rows. induction css as [|cs css IH]; intros rows.
  { exists []. by rewrite app_nil_r. }
  rewrite insert_all_ignore_cons.
  destruct (violates_not_null def cs) eqn:Hnn; cbn [orb].
  { destruct (IH rows) as (more & -> & Hmore). exists more. split; [done|].
    eapply Forall_impl; [exact Hmore|]. intros r [? ?].
    split; [by right|done]. }
  destruct (violates_unique def cs rows).
  { destruct (IH rows) as (more & -> & Hmore). exists more. split; [done|].
    eapply Forall_impl; [exact Hmore|]. intros r [? ?].
    split; [by right|done]. }
  destruct (IH (rows ++ [{| rowid := next_rowid rows; cells := cs |}])%list)
    as (more & -> & Hmore).
  exists ({| rowid := next_rowid rows; cells := cs |} :: more).
  split; [by rewrite <- app_assoc|]. apply Forall_cons_2.
  - cbn. split; [by left|done].
  - eapply Forall_impl; [exact Hmore|]. intros r [? ?].
    split; [by right|done].
Qed.

(** X22. [insert_service_centers] raises nothing, whatever the
    dictionaries hold: a dictionary without the key [title] or without the
    key [phone] is bound NULL there and gets no row, without an error.
    Every row that the call adds is the row of a registered service center
    with a title and a phone, and each of these has a row under its slug
    afterwards. *)
Theorem service_centers_need_title_and_phone (st : State) (db : Db) :
  registry_valid st → conforms (tables db) →
  ∃ db' more,
    insert_service_centers st db = (Ok tt, db')
    ∧ durable db' = durable db
    ∧ (∀ t, t ≠ "service_centers" → tables db' !! t = tables db !! t)
    ∧ rows_in (tables db') "service_centers"
      = (rows_in (tables db) "service_centers" ++ more)%list
    ∧ Forall (fun r => ∃ slug d title phone,
                         registered_center st slug d
                         ∧ cells r = service_center_cells d
                         ∧ sc_title d = Some title
                         ∧ sc_phone d = Some phone) more
    ∧ ∀ slug d, registered_center st slug d →
        is_Some (sc_title d) → is_Some (sc_phone d) →
        ∃ r, r ∈ rows_in (tables db') "service_centers"
             ∧ cell (cells r) "slug" = VText (sc_slug d).
Proof.
  intros Hvalid Hconf.
  destruct (insert_service_centers_stage st Hvalid) as (cssS & Hspec & HcssS).
  destruct (Hspec db Hconf) as (db' & Hrun & Ht & Hd).
  destruct (Hconf "service_centers") as [rows Hrows];
    [by apply in_schema_tables|].
  destruct (insert_all_ignore_more (def_of "service_centers") cssS rows)
    as (more & Hmore & Hnew).
  assert (rows_in (tables db') "service_centers" = (rows ++ more)%list)
    as Hrows'.
  { unfold rows_in. rewrite Ht.
    by rewrite (write_table_rows _ cssS _ _ Hrows), <- Hmore. }
  exists db', more. split; [done|]. split; [done|]. split.
  { intros t Hne. rewrite Ht. by apply write_lookup_ne. }
  split.
  { rewrite Hrows'. unfold rows_in. by rewrite Hrows. }
  split.
  { eapply Forall_impl; [exact Hnew|]. intros r [Hr Hnn].
    apply HcssS in Hr as (slug & d & Hreg & Hcells).
    rewrite Hcells in Hnn.
    apply service_center_not_null in Hnn as [[title Ht'] [phone Hp]].
    by exists slug, d, title, phone. }
  intros slug d Hreg Htitle Hphone.
  assert (settled "service_centers" cssS (tables db')) as Hsettled.
  { rewrite Ht. apply write_settles; [done| |].
    - by apply in_schema_tables.
    - by apply keyed_all. }
  destruct (settled_row "service_centers" cssS (tables db')
              (service_center_cells d) Hsettled)
    as (u & r & Hu & Hr & Hkeys & _).
  { apply HcssS. by exists slug, d. }
  { by apply service_center_not_null. }
  change (t_uniques (def_of "service_centers")) with [["slug"]] in Hu.
  apply list_elem_of_singleton in Hu as ->.
  exists r. split; [done|]. cbn in Hkeys. congruence.
Qed.

(** ** Evaluation on concrete inputs *)

Lemma add_metro_normalises_witness :
  add_metro 0%nat {| get_text := "метро Новокрестовская" |} one_center_state
  = (Ok tt,
     with_sc_heap
       (fun h => <[0%nat := sc_with_sets (add_metro_key "Зенит")
                              (new_sc_dict "remont-plus")]> h)
       (with_metros (fun m => <["Зенит" := "Зенит"]> m) one_center_state))
  ∧ metro_titles_normalised
      (run_ops ascii_slugify no_site path_name
         [OpAddCategory brands_t
            {| ct_text := "Apple"; ct_href := "/apple"; ct_img := None |};
          OpParseServiceCenter card_under_brand 0%nat]
         initial_state).
Proof.
  destruct (add_metro_normalises ascii_slugify no_site path_name
              [OpAddCategory brands_t
                 {| ct_text := "Apple"; ct_href := "/apple";
                    ct_img := None |};
               OpParseServiceCenter card_under_brand 0%nat]
              one_center_state 0%nat (new_sc_dict "remont-plus")
              {| get_text := "метро Новокрестовская" |} eq_refl)
    as (Hrun & _ & _ & _ & Hinv).
  split; [exact Hrun|exact Hinv].
Defined.

Lemma add_popular_brand_frame_witness :
  add_popular_brand ascii_slugify
    {| ct_text := "APPLE"; ct_href := "/apple"; ct_img := None |}
    one_brand_state
  = (Ok tt,
     with_cat_heap
       (fun h => <[0%nat := {| cat_title := "Apple"; cat_slug := "apple";
                               cat_type := brands_t;
                               cat_thumbnail_url := None;
                               cat_is_popular := true;
                               cat_brands := None;
                               cat_services := None |}]> h)
       one_brand_state).
Proof.
  assert (map_Forall (fun (_ : string) (r : cat_ref) =>
                        is_Some (cat_heap one_brand_state !! r))
                     (brands one_brand_state)) as Hvalid.
  { apply (bool_decide_unpack _). vm_compute. exact I. }
  destruct (add_popular_brand_frame ascii_slugify one_brand_state
              {| ct_text := "APPLE"; ct_href := "/apple"; ct_img := None |}
              Hvalid) as [_ Hrun].
  cbn in Hrun. destruct Hrun as (c & Hc & Hrun).
  inversion Hc; subst c. exact Hrun.
Defined.

Lemma single_enrichment_witness :
  ∃ st', created_flags ascii_slugify
           [(card_under_brand, 0%nat); (card_under_device, 1%nat)]
           two_categories_state
         = (Ok [true; false], st').
Proof.
  refine (proj1 (single_enrichment ascii_slugify no_site path_name
                   two_categories_state "remont-plus"
                   (card_under_brand, 0%nat) [(card_under_device, 1%nat)]
                   _ eq_refl _)).
  - intros slug sc Hreg. vm_compute in Hreg. discriminate.
  - repeat constructor; by eexists.
Defined.

Lemma add_service_center_merges_witness :
  ∃ sc st1 st2 d,
    add_service_center ascii_slugify card_under_brand 0%nat
      two_categories_state = (Ok (sc, true), st1)
    ∧ add_service_center ascii_slugify card_under_device 1%nat st1
      = (Ok (sc, false), st2)
    ∧ sc_heap st2 !! sc = Some d
    ∧ sc_brands d = {["apple"]}
    ∧ sc_devices d = {["telefony"]}.
Proof.
  destruct (add_service_center_merges ascii_slugify two_categories_state
              card_under_brand card_under_device 0%nat 1%nat _ _
              ltac:(intros slug sc Hreg; vm_compute in Hreg; discriminate)
              eq_refl eq_refl eq_refl)
    as (sc & created & st1 & st2 & d0 & d & H1 & H2 & Hcase & _ & _ & _
        & Hd & _ & _ & _ & Hkeys).
  destruct Hcase as [-> ->].
  exists sc, st1, st2, d. split; [exact H1|]. split; [exact H2|].
  split; [exact Hd|].
  split; [exact (Hkeys brands_t)|exact (Hkeys devices_t)].
Defined.

Lemma upsert_existing_key_witness :
  (∃ st', add_service_center ascii_slugify card_under_device 1%nat
            registered_state = (Ok (0%nat, false), st'))
  ∧ (∃ st', add_category ascii_slugify brands_t
              {| ct_text := "APPLE"; ct_href := "/apple"; ct_img := None |}
              registered_state = (Ok 2%nat, st')
            ∧ brands st' = brands registered_state).
Proof.
  destruct (upsert_existing_key ascii_slugify registered_state
              card_under_device 1%nat _ 0%nat _ brands_t
              {| ct_text := "APPLE"; ct_href := "/apple"; ct_img := None |}
              "APPLE" 0%nat _
              eq_refl eq_refl eq_refl eq_refl eq_refl eq_refl)
    as [(st' & d' & Hsc & _) (st'' & Hcat & _ & Hbrands & _)].
  split; [by exists st'|]. exists st''. by split.
Defined.

Lemma insert_or_ignore_idempotent_witness :
  let query := get_insert_query "metros" ["title"] in
  let rows := [title_params "Автово"; title_params "Автово";
               title_params "Зенит"] in
  ∃ db1 db2,
    executemany query rows empty_store = (Ok tt, db1)
    ∧ executemany query rows db1 = (Ok tt, db2)
    ∧ tables db2 = tables db1
    ∧ durable db2 = durable db1.
Proof.
  refine (proj2 (proj2 (proj2 (proj2
    (insert_or_ignore_idempotent empty_store "metros" ["title"]
       (def_of "metros") []
       [title_params "Автово"; title_params "Автово"; title_params "Зенит"]
       [[("title", VText "Автово")]; [("title", VText "Автово")];
        [("title", VText "Зенит")]]
       eq_refl _ _ _ _ _ eq_refl _))))).
  - discriminate.
  - repeat constructor.
  - vm_compute. reflexivity.
  - discriminate.
  - repeat constructor.
  - repeat constructor.
Defined.

Lemma insert_locations_skips_unresolved_metro_witness :
  let sc_ids_by_slugs : gmap value Z := {[VText "remont-plus" := 1]} in
  let metro_ids_by_titles : gmap value Z :=
    <[VText "Зенит" := 2]> {[VText "Автово" := 1]} in
  ∃ db',
    insert_locations two_metros_state sc_ids_by_slugs metro_ids_by_titles
      empty_store = (Ok tt, db')
    ∧ t_rows <$> tables db' !! "locations"
      = Some [{| rowid := 1;
                 cells := [("service_center_id", VInt 1);
                           ("metro_id", VInt 1);
                           ("address", VText "пр. Стачек, 1");
                           ("coords", VNull);
                           ("is_primary", VInt 1)] |}].
Proof.
  intros sc_ids_by_slugs metro_ids_by_titles.
  destruct (insert_locations_skips_unresolved_metro two_metros_state
              empty_store sc_ids_by_slugs metro_ids_by_titles
              [("remont-plus", two_metros_center)] [] [])
    as [(db' & Hrun & Htables & _) _].
  - vm_compute. reflexivity.
  - repeat constructor. by eexists.
  - vm_compute. reflexivity.
  - vm_compute. reflexivity.
  - exists db'. split; [exact Hrun|]. rewrite Htables.
    rewrite lookup_insert_eq. vm_compute. reflexivity.
Defined.

Lemma insert_data_dependency_order_witness :
  written_in_order (log (insert_data two_metros_state (connect ∅)).2)
    33 ["service_centers"; "metros"].
Proof.
  apply (insert_data_dependency_order two_metros_state ∅ 33 "locations").
  - vm_compute. reflexivity.
  - apply (bool_decide_unpack _). vm_compute. exact I.
Defined.

Lemma small_crawl_as_in_source fetch :
  run_as_in_source ascii_slugify fetch path_name small_crawl initial_state.
Proof. exact (conj I (conj I I)). Qed.

Lemma small_crawl_complete :
  centers_complete
    (run_ops ascii_slugify titled_site path_name small_crawl initial_state).
Proof.
  intros slug d (sc & _ & Hd). destruct sc as [|sc]; vm_compute in Hd.
  - injection Hd as <-. split; eexists; reflexivity.
  - discriminate.
Qed.

Lemma compatible_empty : compatible ∅.
Proof. intros t tb _ Htb. by rewrite lookup_empty in Htb. Qed.

Lemma small_crawl_center :
  ∃ d, registered_center
         (run_ops ascii_slugify titled_site path_name small_crawl
            initial_state)
         "remont-plus" d
       ∧ "apple" ∈ sc_brands d.
Proof.
  eexists. split.
  - exists 0%nat. split; vm_compute; reflexivity.
  - apply (bool_decide_unpack _). vm_compute. exact I.
Qed.

Lemma small_crawl_untitled_center :
  ∃ d, registered_center
         (run_ops ascii_slugify no_site path_name small_crawl initial_state)
         "remont-plus" d
       ∧ sc_title d = None
       ∧ sc_brands d ∪ sc_devices d ≠ ∅.
Proof.
  eexists. split; [|split].
  - exists 0%nat. split; vm_compute; reflexivity.
  - reflexivity.
  - apply (non_empty_inhabited_L "apple").
    apply (bool_decide_unpack _). vm_compute. exact I.
Qed.

(** ** Evaluation of the further properties *)

Lemma crawl_links_registries_witness :
  let st := run_ops ascii_slugify titled_site path_name small_crawl
              initial_state in
  registry_linked st ∧ registry_valid st
  ∧ service_centers st !! "remont-plus" = Some 0%nat.
Proof.
  destruct (crawl_links_registries ascii_slugify titled_site path_name
              small_crawl (small_crawl_as_in_source titled_site))
    as (Hlinked & Hvalid & _).
  split; [exact Hlinked|]. split; [exact Hvalid|]. vm_compute. reflexivity.
Defined.

Lemma opening_hours_are_wellformed_witness :
  ∃ d h,
    sc_heap (run_ops ascii_slugify titled_site path_name small_crawl
               initial_state) !! 0%nat = Some d
    ∧ sc_opening_hours d = [h]
    ∧ weekday_from h = 1 ∧ weekday_to h = 5
    ∧ opening_hour_wellformed h.
Proof.
  eexists _, _. split; [vm_compute; reflexivity|].
  split; [reflexivity|]. split; [reflexivity|]. split; [reflexivity|].
  eapply (opening_hours_are_wellformed ascii_slugify titled_site path_name
            small_crawl 0%nat).
  - vm_compute. reflexivity.
  - apply list_elem_of_here.
Defined.

Lemma parse_gallery_replaces_witness :
  ∃ st' d',
    parse_gallery no_site path_name 0%nat gallery_page one_center_state
    = (Ok tt, st')
    ∧ sc_heap st' !! 0%nat = Some d'
    ∧ sc_gallery d' = ["img/1.jpg"; "img/1.jpg"; "photos/2.jpg"]
    ∧ files st' = {["./downloads/img/1.jpg"; "./downloads/photos/2.jpg"]}
    ∧ length (requests st') = 3%nat.
Proof.
  destruct (parse_gallery_replaces no_site path_name one_center_state 0%nat
              (new_sc_dict "remont-plus") gallery_page
              ["/img/1.jpg"; "/img/1.jpg"; "/photos/2.jpg"]
              eq_refl) as [Hok _].
  destruct (Hok eq_refl)
    as (st' & d' & sent & Hrun & Hd' & Hgallery & _ & _ & _ & Hfiles
        & Hrequests & Hsent).
  exists st', d'. split; [exact Hrun|]. split; [exact Hd'|].
  split; [exact Hgallery|]. split.
  - rewrite Hfiles. apply (bool_decide_unpack _). vm_compute. exact I.
  - rewrite Hrequests, length_app, (Permutation_length Hsent).
    reflexivity.
Defined.

Lemma site_url_is_absolute_witness :
  ∃ d,
    sc_heap (parse_all ascii_slugify titled_site path_name
               [(card_under_brand, 0%nat)] one_brand_state) !! 0%nat
    = Some d
    ∧ sc_site_url d = Some "http://remont.example"
    ∧ Str.contains "//" "http://remont.example" = true.
Proof.
  eexists. split; [vm_compute; reflexivity|]. split; [reflexivity|].
  eapply (site_url_is_absolute ascii_slugify titled_site path_name
            [(card_under_brand, 0%nat)] one_brand_state 0%nat).
  - intros sc d Hd. destruct sc; vm_compute in Hd; discriminate.
  - vm_compute. reflexivity.
  - reflexivity.
Defined.

Lemma category_title_of_logo_witness :
  get_category_title apple_logo_tag = Ok "Apple".
Proof.
  refine (proj1 (category_title_of_logo apple_logo_tag
                   {| img_alt := Some "Логотип Apple"; img_src := None;
                      img_data_src := Some "/logos/apple.png" |}
                   "Apple" "" eq_refl) eq_refl).
Defined.

Lemma page_links_skip_the_ends_witness :
  page_links "/apple"
    [Some "#"; Some "/apple/page/2"; Some "?page=3"; None]
  = Ok ["/apple/page/2"; "/apple?page=3"]
  ∧ length ["/apple/page/2"; "/apple?page=3"] = 2%nat.
Proof.
  split; [reflexivity|].
  exact (proj1 (page_links_skip_the_ends "/apple"
                  [Some "#"; Some "/apple/page/2"; Some "?page=3"; None]
                  ["/apple/page/2"; "/apple?page=3"] eq_refl)).
Defined.

Lemma crawl_is_stored_witness :
  let st := run_ops ascii_slugify titled_site path_name small_crawl
              initial_state in
  ∃ db,
    insert_data st (connect ∅) = (Ok tt, db)
    ∧ durable db = tables db
    ∧ related_in (tables db) "brand_service_center" "brand_id" "brands"
        "slug" "remont-plus" "apple".
Proof.
  intros st.
  destruct (crawl_is_stored ascii_slugify titled_site path_name small_crawl ∅
              (small_crawl_as_in_source titled_site) small_crawl_complete
              compatible_empty)
    as (db & Hrun & Hd & _ & _ & _ & _ & _ & _ & _ & _ & Hrelated).
  exists db. split; [exact Hrun|]. split; [exact Hd|].
  destruct small_crawl_center as (d & Hreg & Hbrand).
  apply (Hrelated _ _ _ _ sc_brands "remont-plus" d "apple");
    [apply list_elem_of_here|exact Hreg|exact Hbrand].
Defined.

Lemma insert_data_twice_witness :
  let st := run_ops ascii_slugify titled_site path_name small_crawl
              initial_state in
  ∃ db1 db2,
    insert_data st (connect ∅) = (Ok tt, db1)
    ∧ insert_data st (connect (durable db1)) = (Ok tt, db2)
    ∧ tables db2 = tables db1.
Proof.
  intros st.
  destruct (insert_data_twice st ∅
              (run_ops_consistent ascii_slugify titled_site path_name
                 small_crawl (small_crawl_as_in_source titled_site))
              small_crawl_complete compatible_empty)
    as (db1 & db2 & Hrun1 & Hrun2 & Ht & _).
  exists db1, db2. split; [exact Hrun1|]. split; [exact Hrun2|exact Ht].
Defined.

Lemma center_without_title_stops_insert_data_witness :
  let st := run_ops ascii_slugify no_site path_name small_crawl
              initial_state in
  ∃ slug db,
    insert_data st (connect ∅) = (Raise (KeyError slug), db)
    ∧ rows_in (durable db) "brand_service_center" = [].
Proof.
  intros st.
  destruct small_crawl_untitled_center as (d & Hreg & Htitle & Hkeys).
  destruct (center_without_title_stops_insert_data st ∅ "remont-plus" d
              (run_ops_consistent ascii_slugify no_site path_name
                 small_crawl (small_crawl_as_in_source no_site))
              compatible_empty Hreg (or_introl Htitle) Hkeys)
    as (slug & d' & db & Hrun & _ & _ & _ & _ & _ & _ & _ & _ & Hrows).
  { intros r Hr. by apply elem_of_nil in Hr. }
  exists slug, db. split; [exact Hrun|].
  rewrite Hrows; [reflexivity|].
  apply (bool_decide_unpack _). vm_compute. exact I.
Defined.

Lemma service_centers_need_title_and_phone_witness :
  ∃ db',
    insert_service_centers one_center_state empty_store = (Ok tt, db')
    ∧ rows_in (tables db') "service_centers" = [].
Proof.
  destruct (service_centers_need_title_and_phone one_center_state
              empty_store)
    as (db' & more & Hrun & _ & _ & Hrows & Hmore & _).
  { intros slug sc Hsc.
    change (service_centers one_center_state)
      with (<["remont-plus" := 0%nat]> (∅ : gmap string sc_ref)) in Hsc.
    apply lookup_insert_Some in Hsc as [[_ <-]|[_ Hsc]].
    - by exists (new_sc_dict "remont-plus").
    - by rewrite lookup_empty in Hsc. }
  { apply (create_schema_conforms (connect ∅));
      [exact compatible_empty|vm_compute; reflexivity]. }
  exists db'. split; [exact Hrun|]. rewrite Hrows.
  destruct more as [|r more]; [reflexivity|].
  apply Forall_cons in Hmore as [(slug & d & title & phone & Hreg & _ & Ht & _) _].
  destruct Hreg as (sc & Hsc & Hd). exfalso.
  destruct sc as [|sc]; vm_compute in Hd; [|discriminate].
  injection Hd as <-. discriminate.
Defined.
